(** * QDataflowCanvas: model-view synchronisation and interaction engine

    A shallow embedding of [qdataflowcanvas.cpp] / [qdataflowcanvas.h].

    The C++ objects live in typed stores indexed by addresses; a pointer is an
    address, and dereferencing an address that holds no object is a fault.
    Everything the Qt library computes from geometry (hit tests, stacking
    order, text metrics, painting) is outside the embedding: hit-test results
    arrive as part of the events, and [raiseItem], [paint] and
    [updateCompletion], which only restack or repaint, are not represented.
    Of [adjust], which recomputes the end points of connections, the
    embedding keeps the pointers it goes through.  Where an item lies is
    geometry as well: [setPos] and what it triggers in a node ([itemChange]
    for [ItemPositionHasChanged]: snapping to the grid in floating point and
    telling the model node its position) are not represented, neither when a
    node is dragged nor when it is made or moved by the model.

    The model ([QDataflowModel]) is an external collaborator.  A command issued
    to it is appended to the history [issued]; what the model answers arrives
    later as a notification. *)

From Stdlib Require Import ZArith String List Bool Lia.
From stdpp Require Import base option list gmap.

Local Open Scope Z_scope.

(* [set_solver] clears hypotheses it has already consumed. *)
#[local] Set Warnings "-clear-no-such-hyp".

(** ** Identities *)

(** [QDataflowModelNode*] and [QDataflowModelConnection*]: identities handed
    out by the model. *)
Abbreviation ptr := positive (only parsing).
(** Address of a visual object owned by the canvas. *)
Abbreviation addr := positive (only parsing).

(** What the handlers read through a [QDataflowModelNode*] when the node is
    announced. *)
Record QDataflowModelNode := mkModelNode {
  mn_ptr : ptr;
  mn_text : string;
  mn_inletCount : Z;
  mn_outletCount : Z;
  mn_pos : Z * Z
}.

(** [modelConnection->source()] and [->dest()], each a (node, index) pair. *)
Record QDataflowModelConnection := mkModelConnection {
  mc_ptr : ptr;
  mc_source : ptr * Z;
  mc_dest : ptr * Z
}.

(** ** Histories kept next to the state *)

(** Commands of [QDataflowModel] called by the canvas. *)
Inductive Command :=
| create (pos : Z * Z) (text : string) (inletCount outletCount : Z)
| remove (node : ptr)
| setText (node : ptr) (text : string)
| connect (sourceNode : ptr) (outlet : Z) (destNode : ptr) (inlet : Z)
| disconnect (sourceNode : ptr) (outlet : Z) (destNode : ptr) (inlet : Z).

(** Lines written with [qWarning] / [qDebug]. *)
Inductive Diagnostic :=
| UnknownNode (node : ptr)
| UnknownConnection (conn : ptr)
| RemoveNullItem
| RemoveForeignItem (item : addr).

(** Calls that take an item out of the scene or free it, in program order. *)
Inductive SceneOp :=
| RemovedConnection (conn : addr)
| RemovedNode (node : addr)
| RemovedIOlet (iolet : addr)
| DeletedIOlet (iolet : addr).

(** ** Visual objects *)

Inductive Pen := tempConnectionPen | connectionPen | invalidConnectionPen.

Record QDataflowNodeTextLabel := mkLabel {
  plainText : string;
  textEditable : bool;
  completionItems_ : list string;
  completionIndex_ : Z;
  completionActive_ : bool
}.

Record QDataflowNode := mkNode {
  modelNode_ : ptr;
  inlets_ : list addr;
  outlets_ : list addr;
  textItem_ : QDataflowNodeTextLabel;
  valid_ : bool;
  oldText_ : string;
  node_selected : bool;
  node_acceptHover : bool
}.

Inductive IOletKind := Inlet | Outlet.

(** [QDataflowIOlet] with its two subclasses; [tmpConn_] belongs to an outlet
    and stays [None] on an inlet. *)
Record QDataflowIOlet := mkIOlet {
  kind : IOletKind;
  node_ : addr;
  index_ : Z;
  io_connections_ : list addr;
  tmpConn_ : option Pen
}.

Record QDataflowConnection := mkConnection {
  modelConnection_ : ptr;
  source_ : addr;
  dest_ : addr;
  conn_selected : bool;
  conn_acceptHover : bool
}.

(** ** The canvas, its stores and its scene *)

Record QDataflowCanvas := mkCanvas {
  completion_ : string → list string;
  nodes_ : gmap ptr addr;
  connections_ : gmap ptr addr;
  showIOletsTooltips_ : bool;
  showObjectHoverFeedback_ : bool;
  showConnectionHoverFeedback_ : bool;
  (* stores *)
  nodeStore : gmap addr QDataflowNode;
  ioletStore : gmap addr QDataflowIOlet;
  connStore : gmap addr QDataflowConnection;
  nextAddr : addr;
  (* scene *)
  sceneNodes : gset addr;
  sceneConns : gset addr;
  focusItem : option addr;
  (* histories *)
  issued : list Command;
  diagnostics : list Diagnostic;
  sceneLog : list SceneOp
}.

Definition upd_nodes_ (f : gmap ptr addr → gmap ptr addr) (c : QDataflowCanvas) :=
  mkCanvas (completion_ c) (f (nodes_ c)) (connections_ c)
    (showIOletsTooltips_ c) (showObjectHoverFeedback_ c) (showConnectionHoverFeedback_ c)
    (nodeStore c) (ioletStore c) (connStore c) (nextAddr c)
    (sceneNodes c) (sceneConns c) (focusItem c)
    (issued c) (diagnostics c) (sceneLog c).

Definition upd_connections_ (f : gmap ptr addr → gmap ptr addr) (c : QDataflowCanvas) :=
  mkCanvas (completion_ c) (nodes_ c) (f (connections_ c))
    (showIOletsTooltips_ c) (showObjectHoverFeedback_ c) (showConnectionHoverFeedback_ c)
    (nodeStore c) (ioletStore c) (connStore c) (nextAddr c)
    (sceneNodes c) (sceneConns c) (focusItem c)
    (issued c) (diagnostics c) (sceneLog c).

Definition set_showIOletsTooltips_ (b : bool) (c : QDataflowCanvas) :=
  mkCanvas (completion_ c) (nodes_ c) (connections_ c)
    b (showObjectHoverFeedback_ c) (showConnectionHoverFeedback_ c)
    (nodeStore c) (ioletStore c) (connStore c) (nextAddr c)
    (sceneNodes c) (sceneConns c) (focusItem c)
    (issued c) (diagnostics c) (sceneLog c).

Definition set_showObjectHoverFeedback_ (b : bool) (c : QDataflowCanvas) :=
  mkCanvas (completion_ c) (nodes_ c) (connections_ c)
    (showIOletsTooltips_ c) b (showConnectionHoverFeedback_ c)
    (nodeStore c) (ioletStore c) (connStore c) (nextAddr c)
    (sceneNodes c) (sceneConns c) (focusItem c)
    (issued c) (diagnostics c) (sceneLog c).

Definition set_showConnectionHoverFeedback_ (b : bool) (c : QDataflowCanvas) :=
  mkCanvas (completion_ c) (nodes_ c) (connections_ c)
    (showIOletsTooltips_ c) (showObjectHoverFeedback_ c) b
    (nodeStore c) (ioletStore c) (connStore c) (nextAddr c)
    (sceneNodes c) (sceneConns c) (focusItem c)
    (issued c) (diagnostics c) (sceneLog c).

Definition upd_nodeStore (f : gmap addr QDataflowNode → gmap addr QDataflowNode)
    (c : QDataflowCanvas) :=
  mkCanvas (completion_ c) (nodes_ c) (connections_ c)
    (showIOletsTooltips_ c) (showObjectHoverFeedback_ c) (showConnectionHoverFeedback_ c)
    (f (nodeStore c)) (ioletStore c) (connStore c) (nextAddr c)
    (sceneNodes c) (sceneConns c) (focusItem c)
    (issued c) (diagnostics c) (sceneLog c).

Definition upd_ioletStore (f : gmap addr QDataflowIOlet → gmap addr QDataflowIOlet)
    (c : QDataflowCanvas) :=
  mkCanvas (completion_ c) (nodes_ c) (connections_ c)
    (showIOletsTooltips_ c) (showObjectHoverFeedback_ c) (showConnectionHoverFeedback_ c)
    (nodeStore c) (f (ioletStore c)) (connStore c) (nextAddr c)
    (sceneNodes c) (sceneConns c) (focusItem c)
    (issued c) (diagnostics c) (sceneLog c).

Definition upd_connStore (f : gmap addr QDataflowConnection → gmap addr QDataflowConnection)
    (c : QDataflowCanvas) :=
  mkCanvas (completion_ c) (nodes_ c) (connections_ c)
    (showIOletsTooltips_ c) (showObjectHoverFeedback_ c) (showConnectionHoverFeedback_ c)
    (nodeStore c) (ioletStore c) (f (connStore c)) (nextAddr c)
    (sceneNodes c) (sceneConns c) (focusItem c)
    (issued c) (diagnostics c) (sceneLog c).

Definition set_nextAddr (a : addr) (c : QDataflowCanvas) :=
  mkCanvas (completion_ c) (nodes_ c) (connections_ c)
    (showIOletsTooltips_ c) (showObjectHoverFeedback_ c) (showConnectionHoverFeedback_ c)
    (nodeStore c) (ioletStore c) (connStore c) a
    (sceneNodes c) (sceneConns c) (focusItem c)
    (issued c) (diagnostics c) (sceneLog c).

Definition upd_sceneNodes (f : gset addr → gset addr) (c : QDataflowCanvas) :=
  mkCanvas (completion_ c) (nodes_ c) (connections_ c)
    (showIOletsTooltips_ c) (showObjectHoverFeedback_ c) (showConnectionHoverFeedback_ c)
    (nodeStore c) (ioletStore c) (connStore c) (nextAddr c)
    (f (sceneNodes c)) (sceneConns c) (focusItem c)
    (issued c) (diagnostics c) (sceneLog c).

Definition upd_sceneConns (f : gset addr → gset addr) (c : QDataflowCanvas) :=
  mkCanvas (completion_ c) (nodes_ c) (connections_ c)
    (showIOletsTooltips_ c) (showObjectHoverFeedback_ c) (showConnectionHoverFeedback_ c)
    (nodeStore c) (ioletStore c) (connStore c) (nextAddr c)
    (sceneNodes c) (f (sceneConns c)) (focusItem c)
    (issued c) (diagnostics c) (sceneLog c).

Definition set_focusItem (o : option addr) (c : QDataflowCanvas) :=
  mkCanvas (completion_ c) (nodes_ c) (connections_ c)
    (showIOletsTooltips_ c) (showObjectHoverFeedback_ c) (showConnectionHoverFeedback_ c)
    (nodeStore c) (ioletStore c) (connStore c) (nextAddr c)
    (sceneNodes c) (sceneConns c) o
    (issued c) (diagnostics c) (sceneLog c).

Definition issue (cmd : Command) (c : QDataflowCanvas) :=
  mkCanvas (completion_ c) (nodes_ c) (connections_ c)
    (showIOletsTooltips_ c) (showObjectHoverFeedback_ c) (showConnectionHoverFeedback_ c)
    (nodeStore c) (ioletStore c) (connStore c) (nextAddr c)
    (sceneNodes c) (sceneConns c) (focusItem c)
    (issued c ++ [cmd]) (diagnostics c) (sceneLog c).

Definition warn (d : Diagnostic) (c : QDataflowCanvas) :=
  mkCanvas (completion_ c) (nodes_ c) (connections_ c)
    (showIOletsTooltips_ c) (showObjectHoverFeedback_ c) (showConnectionHoverFeedback_ c)
    (nodeStore c) (ioletStore c) (connStore c) (nextAddr c)
    (sceneNodes c) (sceneConns c) (focusItem c)
    (issued c) (diagnostics c ++ [d]) (sceneLog c).

Definition record_op (o : SceneOp) (c : QDataflowCanvas) :=
  mkCanvas (completion_ c) (nodes_ c) (connections_ c)
    (showIOletsTooltips_ c) (showObjectHoverFeedback_ c) (showConnectionHoverFeedback_ c)
    (nodeStore c) (ioletStore c) (connStore c) (nextAddr c)
    (sceneNodes c) (sceneConns c) (focusItem c)
    (issued c) (diagnostics c) (sceneLog c ++ [o]).

(** ** Faults and the handler monad *)

(** Ways a handler leaves defined behaviour, or fails to return. *)
Inductive Fault :=
| NullPointer          (* member access through a null pointer *)
| DanglingPointer      (* access to a freed object *)
| OutOfRange           (* QList::at / QList::back outside the list *)
| OutOfFuel.           (* the loop budget of the embedding ran out *)

Inductive Result (A : Type) :=
| Ok (a : A) (c : QDataflowCanvas)
| Crash (f : Fault) (c : QDataflowCanvas).
Arguments Ok {A} a c.
Arguments Crash {A} f c.

(** The canvas a handler leaves behind, whether it returned or not. *)
Definition final {A} (res : Result A) : QDataflowCanvas :=
  match res with Ok _ c => c | Crash _ c => c end.

Definition M (A : Type) := QDataflowCanvas → Result A.

Definition ret {A} (a : A) : M A := fun c => Ok a c.
Definition bind {A B} (m : M A) (k : A → M B) : M B :=
  fun c => match m c with
           | Ok a c' => k a c'
           | Crash f c' => Crash f c'
           end.
Definition crash {A} (f : Fault) : M A := fun c => Crash f c.
Definition modify (f : QDataflowCanvas → QDataflowCanvas) : M unit :=
  fun c => Ok tt (f c).
Definition gets {A} (f : QDataflowCanvas → A) : M A := fun c => Ok (f c) c.

Notation "x <- m ;; k" := (bind m (fun x => k))
  (at level 100, m at next level, right associativity, only parsing).
Notation "m ;; k" := (bind m (fun _ => k))
  (at level 100, right associativity, only parsing).

(** [for (x : xs) body(x)] *)
Fixpoint for_each {A} (xs : list A) (body : A → M unit) : M unit :=
  match xs with
  | [] => ret tt
  | x :: rest => body x ;; for_each rest body
  end.

(** ** The text label and its completion overlay *)

Definition set_plainText (t : string) (l : QDataflowNodeTextLabel) :=
  mkLabel t (textEditable l) (completionItems_ l) (completionIndex_ l) (completionActive_ l).

Definition set_textEditable (b : bool) (l : QDataflowNodeTextLabel) :=
  mkLabel (plainText l) b (completionItems_ l) (completionIndex_ l) (completionActive_ l).

Definition set_completionIndex_ (i : Z) (l : QDataflowNodeTextLabel) :=
  mkLabel (plainText l) (textEditable l) (completionItems_ l) i (completionActive_ l).

(** [QDataflowNodeTextLabel::QDataflowNodeTextLabel], with the text the node
    constructor writes into the document right after. *)
Definition new_QDataflowNodeTextLabel (t : string) : QDataflowNodeTextLabel :=
  mkLabel t false [] (-1) false.

(** [QDataflowNodeTextLabel::clearCompletion] *)
Definition clearCompletion (l : QDataflowNodeTextLabel) : QDataflowNodeTextLabel :=
  mkLabel (plainText l) (textEditable l) [] (-1) false.

(** [QDataflowNodeTextLabel::setCompletion]: one candidate item per string. *)
Definition setCompletion (list : list string) (l : QDataflowNodeTextLabel)
    : QDataflowNodeTextLabel :=
  let l := clearCompletion l in
  match list with
  | [] => l
  | _ :: _ => mkLabel (plainText l) (textEditable l) list (completionIndex_ l) true
  end.

(** The range of [int]. *)
Definition INT_MIN : Z := -2147483648.
Definition INT_MAX : Z := 2147483647.

Definition fits_int (z : Z) : Prop := INT_MIN <= z <= INT_MAX.

(** The [int] a sum comes to: a value outside the range wraps around (two's
    complement). *)
Definition to_int (z : Z) : Z := (z - INT_MIN) mod (INT_MAX - INT_MIN + 1) + INT_MIN.

(** [while(completionIndex_ < 0) completionIndex_ += n;] *)
Fixpoint while_negative (fuel : nat) (n i : Z) : option Z :=
  match fuel with
  | O => None
  | S fuel' => if i <? 0 then while_negative fuel' n (i + n) else Some i
  end.

(** [while(completionIndex_ >= n) completionIndex_ -= n;] *)
Fixpoint while_not_below (fuel : nat) (n i : Z) : option Z :=
  match fuel with
  | O => None
  | S fuel' => if i >=? n then while_not_below fuel' n (i - n) else Some i
  end.

(** [QDataflowNodeTextLabel::cycleCompletion].  Each loop may test its
    condition [fuel] times; [None] when that is not enough.  The index, [d]
    and [n] are [int]s in the code; the sums here are those of [Z], which are
    the sums of the code as long as none leaves the range of [int].  That is
    so for the calls of [sceneEvent], where [d] is 1 or -1 and the index lies
    between -1 and [n], and in general when the index plus [d] is in range:
    the first loop then only adds [n] to negative values, the second only
    subtracts it from values that are not below it.  C++ leaves a sum that
    overflows undefined; [cycleCompletion_int] below writes out what two's
    complement makes of it. *)
Definition cycleCompletion (fuel : nat) (d : Z) (l : QDataflowNodeTextLabel)
    : option QDataflowNodeTextLabel :=
  let n := Z.of_nat (length (completionItems_ l)) in
  let i0 := if (completionIndex_ l =? -1) && (d =? -1)
            then n - 1 else completionIndex_ l + d in
  match while_negative fuel n i0 with
  | None => None
  | Some i1 =>
      match while_not_below fuel n i1 with
      | None => None
      | Some i2 => Some (set_completionIndex_ i2 l)
      end
  end.

(** The two loops and [cycleCompletion] once more, with the wrap-around of
    [int] written out at every sum.  Where no sum leaves the range this is
    [cycleCompletion]. *)
Fixpoint while_negative_int (fuel : nat) (n i : Z) : option Z :=
  match fuel with
  | O => None
  | S fuel' => if i <? 0 then while_negative_int fuel' n (to_int (i + n)) else Some i
  end.

Fixpoint while_not_below_int (fuel : nat) (n i : Z) : option Z :=
  match fuel with
  | O => None
  | S fuel' => if i >=? n then while_not_below_int fuel' n (to_int (i - n)) else Some i
  end.

Definition cycleCompletion_int (fuel : nat) (d : Z) (l : QDataflowNodeTextLabel)
    : option QDataflowNodeTextLabel :=
  let n := to_int (Z.of_nat (length (completionItems_ l))) in
  let i0 := if (completionIndex_ l =? -1) && (d =? -1)
            then to_int (n - 1) else to_int (completionIndex_ l + d) in
  match while_negative_int fuel n i0 with
  | None => None
  | Some i1 =>
      match while_not_below_int fuel n i1 with
      | None => None
      | Some i2 => Some (set_completionIndex_ i2 l)
      end
  end.

(** ** Node fields *)

Definition set_textItem_ (l : QDataflowNodeTextLabel) (n : QDataflowNode) :=
  mkNode (modelNode_ n) (inlets_ n) (outlets_ n) l (valid_ n) (oldText_ n)
    (node_selected n) (node_acceptHover n).

Definition set_inlets_ (l : list addr) (n : QDataflowNode) :=
  mkNode (modelNode_ n) l (outlets_ n) (textItem_ n) (valid_ n) (oldText_ n)
    (node_selected n) (node_acceptHover n).

Definition set_outlets_ (l : list addr) (n : QDataflowNode) :=
  mkNode (modelNode_ n) (inlets_ n) l (textItem_ n) (valid_ n) (oldText_ n)
    (node_selected n) (node_acceptHover n).

Definition set_valid_ (b : bool) (n : QDataflowNode) :=
  mkNode (modelNode_ n) (inlets_ n) (outlets_ n) (textItem_ n) b (oldText_ n)
    (node_selected n) (node_acceptHover n).

Definition set_oldText_ (t : string) (n : QDataflowNode) :=
  mkNode (modelNode_ n) (inlets_ n) (outlets_ n) (textItem_ n) (valid_ n) t
    (node_selected n) (node_acceptHover n).

Definition set_node_selected (b : bool) (n : QDataflowNode) :=
  mkNode (modelNode_ n) (inlets_ n) (outlets_ n) (textItem_ n) (valid_ n) (oldText_ n)
    b (node_acceptHover n).

Definition set_node_acceptHover (b : bool) (n : QDataflowNode) :=
  mkNode (modelNode_ n) (inlets_ n) (outlets_ n) (textItem_ n) (valid_ n) (oldText_ n)
    (node_selected n) b.

(** [QDataflowNode::text] *)
Definition text (n : QDataflowNode) : string := plainText (textItem_ n).

Definition iolets (k : IOletKind) (n : QDataflowNode) : list addr :=
  match k with Inlet => inlets_ n | Outlet => outlets_ n end.

Definition set_iolets (k : IOletKind) (l : list addr) (n : QDataflowNode) :=
  match k with Inlet => set_inlets_ l n | Outlet => set_outlets_ l n end.

Definition set_io_connections_ (l : list addr) (io : QDataflowIOlet) :=
  mkIOlet (kind io) (node_ io) (index_ io) l (tmpConn_ io).

Definition set_tmpConn_ (t : option Pen) (io : QDataflowIOlet) :=
  mkIOlet (kind io) (node_ io) (index_ io) (io_connections_ io) t.

Definition set_conn_selected (b : bool) (cn : QDataflowConnection) :=
  mkConnection (modelConnection_ cn) (source_ cn) (dest_ cn) b (conn_acceptHover cn).

Definition set_conn_acceptHover (b : bool) (cn : QDataflowConnection) :=
  mkConnection (modelConnection_ cn) (source_ cn) (dest_ cn) (conn_selected cn) b.

(** ** Access to the stores *)

Definition deref_node (r : addr) : M QDataflowNode := fun c =>
  match nodeStore c !! r with
  | Some n => Ok n c
  | None => Crash DanglingPointer c
  end.

Definition deref_iolet (p : addr) : M QDataflowIOlet := fun c =>
  match ioletStore c !! p with
  | Some io => Ok io c
  | None => Crash DanglingPointer c
  end.

Definition deref_connection (r : addr) : M QDataflowConnection := fun c =>
  match connStore c !! r with
  | Some cn => Ok cn c
  | None => Crash DanglingPointer c
  end.

Definition store_node (r : addr) (n : QDataflowNode) : M unit :=
  modify (upd_nodeStore <[r := n]>).

Definition store_iolet (p : addr) (io : QDataflowIOlet) : M unit :=
  modify (upd_ioletStore <[p := io]>).

Definition store_connection (r : addr) (cn : QDataflowConnection) : M unit :=
  modify (upd_connStore <[r := cn]>).

Definition upd_node (r : addr) (f : QDataflowNode → QDataflowNode) : M unit :=
  n <- deref_node r ;; store_node r (f n).

Definition upd_label (r : addr) (f : QDataflowNodeTextLabel → QDataflowNodeTextLabel)
    : M unit :=
  upd_node r (fun n => set_textItem_ (f (textItem_ n)) n).

(** [new]: the next free address. *)
Definition alloc : M addr := fun c =>
  Ok (nextAddr c) (set_nextAddr (Pos.succ (nextAddr c)) c).

(** [p->member] through a pointer that may be null. *)
Definition through {A} (p : option addr) (k : addr → M A) : M A :=
  match p with
  | Some r => k r
  | None => crash NullPointer
  end.

(** [QList::at(index)], which asserts that the index is in range. *)
Definition at_ (l : list addr) (index : Z) : M addr :=
  if index <? 0 then crash OutOfRange
  else match l !! Z.to_nat index with
       | Some x => ret x
       | None => crash OutOfRange
       end.

(** ** The scene *)

(** [QGraphicsScene::addItem] *)
Definition scene_addNode (r : addr) : M unit :=
  modify (upd_sceneNodes (fun s => {[r]} ∪ s)).

Definition scene_addConnection (r : addr) : M unit :=
  modify (upd_sceneConns (fun s => {[r]} ∪ s)).

(** [QGraphicsScene::removeItem] on a connection.  An item that is not in
    this scene is left alone with a warning. *)
Definition scene_removeConnection (r : addr) : M unit := fun c =>
  if decide (r ∈ sceneConns c)
  then Ok tt (record_op (RemovedConnection r) (upd_sceneConns (fun s => s ∖ {[r]}) c))
  else Ok tt (warn (RemoveForeignItem r) c).

(** [QGraphicsScene::removeItem] on a node: the node leaves with its children,
    and the focus goes with it when its label had it. *)
Definition scene_removeNode (r : addr) : M unit := fun c =>
  if decide (r ∈ sceneNodes c)
  then
    let c := upd_sceneNodes (fun s => s ∖ {[r]}) c in
    let c := if decide (focusItem c = Some r) then set_focusItem None c else c in
    Ok tt (record_op (RemovedNode r) c)
  else Ok tt (warn (RemoveForeignItem r) c).

(** [QGraphicsScene::removeItem] on a port; a port is in the scene exactly
    when the node it is a child of is. *)
Definition scene_removeIOlet (p : addr) : M unit :=
  io <- deref_iolet p ;;
  fun c =>
    if decide (node_ io ∈ sceneNodes c)
    then Ok tt (record_op (RemovedIOlet p) c)
    else Ok tt (warn (RemoveForeignItem p) c).

(** [removeItem] called with a pointer that may be null: Qt warns about a
    null item and returns. *)
Definition scene_removeItem (remove : addr → M unit) (item : option addr) : M unit :=
  match item with
  | Some r => remove r
  | None => modify (warn RemoveNullItem)
  end.

(** [delete iolet] *)
Definition delete_iolet (p : addr) : M unit :=
  modify (fun c => record_op (DeletedIOlet p) (upd_ioletStore (delete p) c)).

(** [QGraphicsItem::scene] on node [r]: [true] stands for the scene of the
    canvas, [false] for the null pointer a node that is in no scene
    returns. *)
Definition node_scene (r : addr) : M bool :=
  deref_node r ;;
  gets (fun c => bool_decide (r ∈ sceneNodes c)).

(** [QGraphicsItem::setFocus] on the label of node [r] *)
Definition setFocus (r : addr) : M unit := fun c =>
  if decide (r ∈ sceneNodes c) then Ok tt (set_focusItem (Some r) c) else Ok tt c.

(** [QGraphicsItem::clearFocus] on the label of node [r] *)
Definition clearFocus (r : addr) : M unit := fun c =>
  if decide (focusItem c = Some r) then Ok tt (set_focusItem None c) else Ok tt c.

(** ** Recomputing geometry *)

(** [QDataflowConnection::adjust]: the two end points are read off the ports
    [source_] and [dest_] and off their nodes.  Both pointers are set when the
    connection is made and are never cleared, so the test for null pointers
    that opens the function never fires. *)
Definition connection_adjust (x : addr) : M unit :=
  cn <- deref_connection x ;;
  source <- deref_iolet (source_ cn) ;;
  deref_node (node_ source) ;;
  dest <- deref_iolet (dest_ cn) ;;
  deref_node (node_ dest) ;;
  ret tt.

(** [QDataflowIOlet::adjustConnections] *)
Definition iolet_adjustConnections (p : addr) : M unit :=
  io <- deref_iolet p ;;
  for_each (io_connections_ io) connection_adjust.

(** [QDataflowNode::adjustConnections] *)
Definition node_adjustConnections (r : addr) : M unit :=
  n <- deref_node r ;;
  for_each (inlets_ n) iolet_adjustConnections ;;
  for_each (outlets_ n) iolet_adjustConnections.

(** [QDataflowNode::adjust]: the boxes of the node are laid out again, which is
    geometry, and the connections at its ports are adjusted. *)
Definition node_adjust (r : addr) : M unit :=
  node_adjustConnections r.

(** ** Text editing on a node *)

(** [QDataflowNodeTextLabel::complete] *)
Definition complete (r : addr) : M unit :=
  n <- deref_node r ;;
  completion <- gets completion_ ;;
  let completionList := completion (plainText (textItem_ n)) in
  upd_label r (setCompletion completionList).

(** [QDataflowCanvas::itemTextEditorTextChange], the slot connected to the
    document's [contentsChanged]; the sender is the document of node [r]. *)
Definition itemTextEditorTextChange (r : addr) : M unit :=
  node_adjust r ;;
  complete r.

(** [setPlainText] on the label or its document: the text is replaced and
    [contentsChanged] is emitted.  Typing into the editor has the same effect
    with the text the user produced. *)
Definition setPlainText (r : addr) (t : string) : M unit :=
  upd_label r (set_plainText t) ;;
  itemTextEditorTextChange r.

(** [QDataflowNode::isInEditMode] *)
Definition isInEditMode (r : addr) : M bool :=
  n <- deref_node r ;;
  focus <- gets focusItem ;;
  ret (textEditable (textItem_ n) && bool_decide (focus = Some r)).

(** [QDataflowNode::exitEditMode] *)
Definition exitEditMode (revertText : bool) (r : addr) : M unit :=
  upd_label r clearCompletion ;;
  n <- deref_node r ;;
  (if revertText then setPlainText r (oldText_ n)
   else if negb (String.eqb (oldText_ n) (text n))
   then modify (issue (setText (modelNode_ n) (text n))) ;;
        upd_node r (fun n => set_oldText_ (text n) n)
   else ret tt) ;;
  clearFocus r ;;
  upd_label r (set_textEditable false).

(** [QDataflowNode::itemChange] for [ItemSelectedHasChanged] *)
Definition itemChange_ItemSelectedHasChanged (r : addr) (value : bool) : M unit :=
  node_adjust r ;;
  if value then upd_node r (fun n => set_oldText_ (text n) n)
  else exitEditMode false r.

(** [QGraphicsItem::setSelected] on a node *)
Definition node_setSelected (r : addr) (selected : bool) : M unit :=
  n <- deref_node r ;;
  if Bool.eqb (node_selected n) selected then ret tt
  else store_node r (set_node_selected selected n) ;;
       itemChange_ItemSelectedHasChanged r selected.

(** [QGraphicsItem::setSelected] on a connection *)
Definition connection_setSelected (r : addr) (selected : bool) : M unit :=
  cn <- deref_connection r ;;
  store_connection r (set_conn_selected selected cn).

(** [QDataflowNode::enterEditMode] *)
Definition enterEditMode (r : addr) : M unit :=
  upd_node r (fun n => set_oldText_ (text n) n) ;;
  node_setSelected r true ;;
  upd_label r (set_textEditable true) ;;
  setFocus r ;;
  complete r.

(** [QDataflowNodeTextLabel::acceptCompletion] *)
Definition acceptCompletion (r : addr) : M unit :=
  n <- deref_node r ;;
  let l := textItem_ n in
  if completionActive_ l then
    if completionIndex_ l >=? 0 then
      match completionItems_ l !! Z.to_nat (completionIndex_ l) with
      | Some t => setPlainText r t
      | None => crash OutOfRange
      end
    else exitEditMode false r
  else upd_label r clearCompletion.

Inductive Key :=
| Key_Tab | Key_Escape | Key_Return | Key_Down | Key_Up | Key_Backspace | Key_Delete
| Key_Other.

Definition Key_eqb (a b : Key) : bool :=
  match a, b with
  | Key_Tab, Key_Tab | Key_Escape, Key_Escape | Key_Return, Key_Return
  | Key_Down, Key_Down | Key_Up, Key_Up | Key_Backspace, Key_Backspace
  | Key_Delete, Key_Delete | Key_Other, Key_Other => true
  | _, _ => false
  end.

(** [cycleCompletion] on the label of node [r] *)
Definition label_cycleCompletion (fuel : nat) (d : Z) (r : addr) : M unit :=
  n <- deref_node r ;;
  match cycleCompletion fuel d (textItem_ n) with
  | Some l => store_node r (set_textItem_ l n)
  | None => crash OutOfFuel
  end.

(** [QDataflowNodeTextLabel::sceneEvent] for a key press on the label of node
    [r].  The result is [true] when the label consumed the key; the other keys
    go on to the text editor of Qt. *)
Definition sceneEvent (fuel : nat) (r : addr) (key : Key) : M bool :=
  n <- deref_node r ;;
  let completionActive := completionActive_ (textItem_ n) in
  match key with
  | Key_Tab => ret true
  | Key_Escape =>
      (if completionActive then upd_label r clearCompletion
       else exitEditMode true r) ;;
      ret true
  | Key_Return =>
      (if completionActive then acceptCompletion r
       else exitEditMode false r) ;;
      ret true
  | Key_Down =>
      (if completionActive then label_cycleCompletion fuel 1 r else ret tt) ;;
      ret true
  | Key_Up =>
      (if completionActive then label_cycleCompletion fuel (-1) r else ret tt) ;;
      ret true
  | _ => ret false
  end.

(** [QDataflowNode::mouseDoubleClickEvent] *)
Definition node_mouseDoubleClickEvent (r : addr) : M unit :=
  e <- isInEditMode r ;;
  if negb e then enterEditMode r else ret tt.

(** [QDataflowNode::setText] *)
Definition node_setText (t : string) (r : addr) : M unit :=
  n <- deref_node r ;;
  if String.eqb t (text n) then ret tt else setPlainText r t.

(** [QDataflowNode::setValid] *)
Definition setValid (valid : bool) (r : addr) : M unit :=
  upd_node r (set_valid_ valid) ;;
  node_adjust r.

(** ** Ports *)

(** [QDataflowInlet::QDataflowInlet] / [QDataflowOutlet::QDataflowOutlet] *)
Definition new_QDataflowIOlet (k : IOletKind) (node : addr) (index : Z) : M addr :=
  p <- alloc ;;
  store_iolet p (mkIOlet k node index [] None) ;;
  ret p.

(** [QDataflowIOlet::addConnection] *)
Definition addConnection (p : addr) (connection : addr) : M unit :=
  io <- deref_iolet p ;;
  store_iolet p (set_io_connections_ (io_connections_ io ++ [connection]) io) ;;
  connection_adjust connection.

(** [QDataflowIOlet::removeConnection] ([QList::removeAll]) *)
Definition removeConnection (p : addr) (connection : addr) : M unit :=
  io <- deref_iolet p ;;
  store_iolet p
    (set_io_connections_
       (filter (fun x => x ≠ connection) (io_connections_ io)) io).

(** One turn of the first loop of [setInletCount] / [setOutletCount]: the
    connections listed at the last port leave the scene, then the port leaves
    the scene, is popped from the list and freed. *)
Definition drop_last_iolet (k : IOletKind) (r : addr) : M unit :=
  n <- deref_node r ;;
  match last (iolets k n) with
  | None => crash OutOfRange
  | Some lastIOlet =>
      io <- deref_iolet lastIOlet ;;
      for_each (io_connections_ io) scene_removeConnection ;;
      scene_removeIOlet lastIOlet ;;
      upd_node r (fun n => set_iolets k (removelast (iolets k n)) n) ;;
      delete_iolet lastIOlet
  end.

(** [while(inlets_.length() > count) { ... }] *)
Fixpoint shrink_loop (fuel : nat) (k : IOletKind) (r : addr) (count : Z) : M unit :=
  n <- deref_node r ;;
  if Z.of_nat (length (iolets k n)) >? count then
    match fuel with
    | O => crash OutOfFuel
    | S fuel' => drop_last_iolet k r ;; shrink_loop fuel' k r count
    end
  else ret tt.

(** [while(inlets_.length() < count) { ... }] *)
Fixpoint grow_loop (fuel : nat) (k : IOletKind) (r : addr) (count : Z) : M unit :=
  n <- deref_node r ;;
  if Z.of_nat (length (iolets k n)) <? count then
    match fuel with
    | O => crash OutOfFuel
    | S fuel' =>
        let i := Z.of_nat (length (iolets k n)) in
        p <- new_QDataflowIOlet k r i ;;
        upd_node r (fun n => set_iolets k (iolets k n ++ [p]) n) ;;
        grow_loop fuel' k r count
    end
  else ret tt.

(** The common body of [QDataflowNode::setInletCount] and
    [QDataflowNode::setOutletCount].  The first loop pops one port per turn,
    the second pushes one, so the budgets given here are never used up. *)
Definition setIOletCount (k : IOletKind) (count : Z) (skipAdjust : bool) (r : addr)
    : M unit :=
  n <- deref_node r ;;
  shrink_loop (S (length (iolets k n))) k r count ;;
  n <- deref_node r ;;
  grow_loop (Z.to_nat (count - Z.of_nat (length (iolets k n)))) k r count ;;
  if skipAdjust then ret tt else node_adjust r.

(** [QDataflowNode::setInletCount] *)
Definition setInletCount (count : Z) (skipAdjust : bool) (r : addr) : M unit :=
  setIOletCount Inlet count skipAdjust r.

(** [QDataflowNode::setOutletCount] *)
Definition setOutletCount (count : Z) (skipAdjust : bool) (r : addr) : M unit :=
  setIOletCount Outlet count skipAdjust r.

(** ** Construction of nodes and connections *)

(** [QDataflowNode::QDataflowNode].  The two port lists are filled without
    adjusting, then the node is adjusted once.  The [setPos] that ends the
    constructor places the item: through [itemChange] the position is snapped
    to the grid of the canvas, the connections at the ports, of which there
    are none yet, are adjusted, and the position is written back to the model
    node.  Where an item lies is geometry and not represented. *)
Definition new_QDataflowNode (modelNode : QDataflowModelNode) : M addr :=
  r <- alloc ;;
  hover <- gets showObjectHoverFeedback_ ;;
  store_node r
    (mkNode (mn_ptr modelNode) [] [] (new_QDataflowNodeTextLabel (mn_text modelNode))
       true EmptyString false hover) ;;
  setInletCount (mn_inletCount modelNode) true r ;;
  setOutletCount (mn_outletCount modelNode) true r ;;
  node_adjust r ;;
  ret r.

(** [QDataflowCanvas::node] *)
Definition node (mdlnode : ptr) : M (option addr) := fun c =>
  match nodes_ c !! mdlnode with
  | None => Ok None (warn (UnknownNode mdlnode) c)
  | Some r => Ok (Some r) c
  end.

(** [QDataflowCanvas::connection] *)
Definition connection (conn : ptr) : M (option addr) := fun c =>
  match connections_ c !! conn with
  | None => Ok None (warn (UnknownConnection conn) c)
  | Some r => Ok (Some r) c
  end.

(** [QDataflowNode::inlet] / [QDataflowNode::outlet] *)
Definition iolet (k : IOletKind) (index : Z) (r : addr) : M addr :=
  n <- deref_node r ;;
  at_ (iolets k n) index.

(** [QDataflowConnection::QDataflowConnection] *)
Definition new_QDataflowConnection (modelConnection : QDataflowModelConnection)
    : M addr :=
  r <- alloc ;;
  hover <- gets showConnectionHoverFeedback_ ;;
  let src := mc_source modelConnection in
  let dst := mc_dest modelConnection in
  srcNode <- node (fst src) ;;
  source <- through srcNode (iolet Outlet (snd src)) ;;
  dstNode <- node (fst dst) ;;
  dest <- through dstNode (iolet Inlet (snd dst)) ;;
  store_connection r (mkConnection (mc_ptr modelConnection) source dest false hover) ;;
  addConnection source r ;;
  addConnection dest r ;;
  connection_adjust r ;;
  ret r.

(** ** Notifications of the model *)

(** [QDataflowCanvas::onNodeAdded] *)
Definition onNodeAdded (mdlnode : QDataflowModelNode) : M unit :=
  uinode <- new_QDataflowNode mdlnode ;;
  modify (upd_nodes_ <[mn_ptr mdlnode := uinode]>) ;;
  scene_addNode uinode ;;
  if String.eqb (mn_text mdlnode) EmptyString then enterEditMode uinode else ret tt.

(** [QDataflowCanvas::onNodeRemoved] *)
Definition onNodeRemoved (mdlnode : ptr) : M unit :=
  uinode <- node mdlnode ;;
  e <- through uinode isInEditMode ;;
  (if e then through uinode (exitEditMode true) else ret tt) ;;
  scene_removeItem scene_removeNode uinode.

(** [QDataflowCanvas::onNodeValidChanged] *)
Definition onNodeValidChanged (mdlnode : ptr) (valid : bool) : M unit :=
  uinode <- node mdlnode ;;
  through uinode (setValid valid).

(** [QDataflowCanvas::onNodePosChanged].  A visual that is found is moved
    with its notifications of geometry changes switched off; where it lies is
    not represented. *)
Definition onNodePosChanged (mdlnode : ptr) (pos : Z * Z) : M unit :=
  uinode <- node mdlnode ;;
  match uinode with
  | Some r => deref_node r ;; ret tt
  | None => ret tt
  end.

(** [QDataflowCanvas::onNodeTextChanged] *)
Definition onNodeTextChanged (mdlnode : ptr) (t : string) : M unit :=
  uinode <- node mdlnode ;;
  through uinode (node_setText t).

(** [QDataflowCanvas::onNodeInletCountChanged] *)
Definition onNodeInletCountChanged (mdlnode : ptr) (count : Z) : M unit :=
  uinode <- node mdlnode ;;
  through uinode (setInletCount count false).

(** [QDataflowCanvas::onNodeOutletCountChanged] *)
Definition onNodeOutletCountChanged (mdlnode : ptr) (count : Z) : M unit :=
  uinode <- node mdlnode ;;
  through uinode (setOutletCount count false).

(** [QDataflowCanvas::onConnectionAdded] *)
Definition onConnectionAdded (mdlconn : QDataflowModelConnection) : M unit :=
  uiconn <- new_QDataflowConnection mdlconn ;;
  modify (upd_connections_ <[mc_ptr mdlconn := uiconn]>) ;;
  scene_addConnection uiconn.

(** [QDataflowCanvas::onConnectionRemoved] *)
Definition onConnectionRemoved (mdlconn : ptr) : M unit :=
  uiconn <- connection mdlconn ;;
  scene_removeItem scene_removeConnection uiconn.

(** The signals of [QDataflowModel] the canvas is connected to in [setModel]. *)
Inductive Notification :=
| nodeAdded (n : QDataflowModelNode)
| nodeRemoved (n : ptr)
| nodeValidChanged (n : ptr) (valid : bool)
| nodePosChanged (n : ptr) (pos : Z * Z)
| nodeTextChanged (n : ptr) (t : string)
| nodeInletCountChanged (n : ptr) (count : Z)
| nodeOutletCountChanged (n : ptr) (count : Z)
| connectionAdded (conn : QDataflowModelConnection)
| connectionRemoved (conn : ptr).

(** The slot each signal is connected to. *)
Definition notify (e : Notification) : M unit :=
  match e with
  | nodeAdded n => onNodeAdded n
  | nodeRemoved n => onNodeRemoved n
  | nodeValidChanged n valid => onNodeValidChanged n valid
  | nodePosChanged n pos => onNodePosChanged n pos
  | nodeTextChanged n t => onNodeTextChanged n t
  | nodeInletCountChanged n count => onNodeInletCountChanged n count
  | nodeOutletCountChanged n count => onNodeOutletCountChanged n count
  | connectionAdded conn => onConnectionAdded conn
  | connectionRemoved conn => onConnectionRemoved conn
  end.

(** Notifications are handled one after the other, each to completion. *)
Definition notify_all (es : list Notification) : M unit :=
  for_each es notify.

(** [QDataflowCanvas::QDataflowCanvas]: the canvas of a fresh, empty model with
    the completion provider [completion]. *)
Definition new_QDataflowCanvas (completion : string → list string) : QDataflowCanvas :=
  mkCanvas completion ∅ ∅ false false false ∅ ∅ ∅ 1%positive ∅ ∅ None [] [] [].

(** [QDataflowTextCompletion::complete], the provider a canvas starts with. *)
Definition QDataflowTextCompletion_complete (nodeText : string) : list string := [].

(** ** Display-mode toggles *)

(** [for (auto *node : nodes_) node->setAcceptHoverEvents(show);]  Node and
    connection visuals are never freed, so every address in the index holds
    an object. *)
Definition nodes_setAcceptHoverEvents (show : bool) (c : QDataflowCanvas) :=
  upd_nodeStore
    (fun st => foldr (fun r st => alter (set_node_acceptHover show) r st) st
                 (map snd (map_to_list (nodes_ c)))) c.

Definition connections_setAcceptHoverEvents (show : bool) (c : QDataflowCanvas) :=
  upd_connStore
    (fun st => foldr (fun r st => alter (set_conn_acceptHover show) r st) st
                 (map snd (map_to_list (connections_ c)))) c.

(** [setShowIOletTooltips(false)]: the field is cleared and the branch that
    calls the other two setters is skipped. *)
Definition setShowIOletTooltips_false (c : QDataflowCanvas) : QDataflowCanvas :=
  set_showIOletsTooltips_ false c.

(** [QDataflowCanvas::setShowObjectHoverFeedback] *)
Definition setShowObjectHoverFeedback (show : bool) (c : QDataflowCanvas)
    : QDataflowCanvas :=
  let c := set_showObjectHoverFeedback_ show c in
  let c := if show
           then if showIOletsTooltips_ c then setShowIOletTooltips_false c else c
           else c in
  nodes_setAcceptHoverEvents show c.

(** [QDataflowCanvas::setShowConnectionHoverFeedback] *)
Definition setShowConnectionHoverFeedback (show : bool) (c : QDataflowCanvas)
    : QDataflowCanvas :=
  let c := set_showConnectionHoverFeedback_ show c in
  let c := if show
           then if showIOletsTooltips_ c then setShowIOletTooltips_false c else c
           else c in
  connections_setAcceptHoverEvents show c.

(** [QDataflowCanvas::setShowIOletTooltips] *)
Definition setShowIOletTooltips (show : bool) (c : QDataflowCanvas)
    : QDataflowCanvas :=
  let c := set_showIOletsTooltips_ show c in
  if show then
    let c := if showObjectHoverFeedback_ c
             then setShowObjectHoverFeedback false c else c in
    let c := if showConnectionHoverFeedback_ c
             then setShowConnectionHoverFeedback false c else c in
    c
  else c.

Inductive Setter :=
| SetShowIOletTooltips (show : bool)
| SetShowObjectHoverFeedback (show : bool)
| SetShowConnectionHoverFeedback (show : bool).

Definition call_setter (s : Setter) (c : QDataflowCanvas) : QDataflowCanvas :=
  match s with
  | SetShowIOletTooltips show => setShowIOletTooltips show c
  | SetShowObjectHoverFeedback show => setShowObjectHoverFeedback show c
  | SetShowConnectionHoverFeedback show => setShowConnectionHoverFeedback show c
  end.

Definition call_setters (ss : list Setter) (c : QDataflowCanvas) : QDataflowCanvas :=
  fold_left (fun c s => call_setter s c) ss c.

(** ** Selection queries and the key press on the canvas *)

Definition node_isSelected (c : QDataflowCanvas) (r : addr) : bool :=
  match nodeStore c !! r with Some n => node_selected n | None => false end.

Definition connection_isSelected (c : QDataflowCanvas) (r : addr) : bool :=
  match connStore c !! r with Some cn => conn_selected cn | None => false end.

Definition node_inEditMode (c : QDataflowCanvas) (r : addr) : bool :=
  match nodeStore c !! r with
  | Some n => textEditable (textItem_ n) && bool_decide (focusItem c = Some r)
  | None => false
  end.

(** [QDataflowCanvas::selectedNodes]: the indexed visuals that are in the scene
    and selected, in the order the index enumerates them. *)
Definition selectedNodes (c : QDataflowCanvas) : list addr :=
  List.filter (fun r => bool_decide (r ∈ sceneNodes c) && node_isSelected c r)
    (map snd (map_to_list (nodes_ c))).

(** [QDataflowCanvas::selectedConnections] *)
Definition selectedConnections (c : QDataflowCanvas) : list addr :=
  List.filter (fun r => bool_decide (r ∈ sceneConns c) && connection_isSelected c r)
    (map snd (map_to_list (connections_ c))).

(** [QDataflowCanvas::isSomeNodeInEditMode] *)
Definition isSomeNodeInEditMode (c : QDataflowCanvas) : bool :=
  existsb (fun r => bool_decide (r ∈ sceneNodes c) && node_inEditMode c r)
    (map snd (map_to_list (nodes_ c))).

(** The arguments of [model()->disconnect(...)] for a connection visual:
    [conn->source()->node()->modelNode()], [conn->source()->index()], and the
    same through [dest()]. *)
Definition disconnect_selected (conn : addr) : M unit :=
  cn <- deref_connection conn ;;
  source <- deref_iolet (source_ cn) ;;
  sourceNode <- deref_node (node_ source) ;;
  dest <- deref_iolet (dest_ cn) ;;
  destNode <- deref_node (node_ dest) ;;
  modify (issue (disconnect (modelNode_ sourceNode) (index_ source)
                            (modelNode_ destNode) (index_ dest))).

(** [model()->remove(node->modelNode())] *)
Definition remove_selected (r : addr) : M unit :=
  n <- deref_node r ;;
  modify (issue (remove (modelNode_ n))).

(** [QDataflowCanvas::keyPressEvent].  The key that deletes the selection is
    [Qt::Key_Backspace].  The call of [QGraphicsView::keyPressEvent] that ends
    the handler passes the key on to the scene, which delivers it to the item
    with the focus: that delivery is [sceneEvent] on a label, an event of its
    own here. *)
Definition keyPressEvent (key : Key) : M unit :=
  editing <- gets isSomeNodeInEditMode ;;
  if Key_eqb key Key_Backspace && negb editing then
    conns <- gets selectedConnections ;;
    for_each conns disconnect_selected ;;
    nodes <- gets selectedNodes ;;
    for_each nodes remove_selected
  else ret tt.

(** ** Pointer events *)

(** The items of the scene a hit test can return. *)
Inductive SceneItem :=
| ItemNode (r : addr)
| ItemInlet (p : addr)
| ItemOutlet (p : addr)
| ItemConnection (r : addr)
| ItemOther.

(** A [QMouseEvent] on the view together with what the view computes from
    [event->pos()]: [itemAt] and [mapToScene(...).toPoint()]. *)
Record QMouseEvent := mkMouseEvent {
  itemAt : option SceneItem;
  scenePoint : Z * Z
}.

(** [QDataflowCanvas::mouseDoubleClickEvent].  Over an item the event goes to
    [QGraphicsView::mouseDoubleClickEvent], which delivers it to the item; of
    the items only a node handles it. *)
Definition mouseDoubleClickEvent (event : QMouseEvent) : M unit :=
  match itemAt event with
  | None => modify (issue (create (scenePoint event) EmptyString 0 0))
  | Some (ItemNode r) => node_mouseDoubleClickEvent r
  | Some _ => ret tt
  end.

(** A [QGraphicsSceneMouseEvent] together with
    [scene()->items(event->scenePos(), ..., Qt::DescendingOrder, ...)]:
    the items under the pointer, topmost first. *)
Record QGraphicsSceneMouseEvent := mkSceneMouseEvent {
  itemsAtScenePos : list SceneItem
}.

(** [QDataflowCanvas::itemAtT<QDataflowInlet>] *)
Fixpoint itemAtT_QDataflowInlet (items : list SceneItem) : option addr :=
  match items with
  | [] => None
  | ItemInlet p :: _ => Some p
  | _ :: rest => itemAtT_QDataflowInlet rest
  end.

(** [QDataflowOutlet::mousePressEvent] *)
Definition outlet_mousePressEvent (p : addr) : M unit :=
  io <- deref_iolet p ;;
  store_iolet p (set_tmpConn_ (Some tempConnectionPen) io).

(** [QDataflowOutlet::mouseMoveEvent].  The two predicates are the model's
    [canMakeConnectionTo] and [canAcceptConnectionFrom] on (node, index)
    pairs. *)
Definition outlet_mouseMoveEvent
    (canMakeConnectionTo canAcceptConnectionFrom : ptr * Z → ptr * Z → bool)
    (p : addr) (event : QGraphicsSceneMouseEvent) : M unit :=
  io <- deref_iolet p ;;
  match tmpConn_ io with
  | None => ret tt
  | Some _ =>
      let inlet := itemAtT_QDataflowInlet (itemsAtScenePos event) in
      n <- deref_node (node_ io) ;;
      let mdloutlet := (modelNode_ n, index_ io) in
      match inlet with
      | Some q =>
          inl <- deref_iolet q ;;
          inlNode <- deref_node (node_ inl) ;;
          let mdlinlet := (modelNode_ inlNode, index_ inl) in
          if canMakeConnectionTo mdloutlet mdlinlet
             && canAcceptConnectionFrom mdlinlet mdloutlet
          then store_iolet p (set_tmpConn_ (Some connectionPen) io)
          else store_iolet p (set_tmpConn_ (Some invalidConnectionPen) io)
      | None => store_iolet p (set_tmpConn_ (Some tempConnectionPen) io)
      end
  end.

(** [QDataflowOutlet::mouseReleaseEvent].  The transient line is taken out
    through [node()->scene()], the scene of the outlet's node, where the
    other handlers go through [canvas()->scene()]: for a node that is in no
    scene the call goes through a null pointer. *)
Definition outlet_mouseReleaseEvent (p : addr) (event : QGraphicsSceneMouseEvent)
    : M unit :=
  io <- deref_iolet p ;;
  (match tmpConn_ io with
   | Some _ =>
       scene <- node_scene (node_ io) ;;
       if scene then store_iolet p (set_tmpConn_ None io) else crash NullPointer
   | None => ret tt
   end) ;;
  match itemAtT_QDataflowInlet (itemsAtScenePos event) with
  | Some q =>
      n <- deref_node (node_ io) ;;
      inlet <- deref_iolet q ;;
      inletNode <- deref_node (node_ inlet) ;;
      modify (issue (connect (modelNode_ n) (index_ io)
                             (modelNode_ inletNode) (index_ inlet)))
  | None => ret tt
  end.

(** ** Everything that happens to a canvas *)

(** [QDataflowCanvas::setCompletion] *)
Definition canvas_setCompletion (completion : string → list string)
    (c : QDataflowCanvas) : QDataflowCanvas :=
  mkCanvas completion (nodes_ c) (connections_ c)
    (showIOletsTooltips_ c) (showObjectHoverFeedback_ c) (showConnectionHoverFeedback_ c)
    (nodeStore c) (ioletStore c) (connStore c) (nextAddr c)
    (sceneNodes c) (sceneConns c) (focusItem c)
    (issued c) (diagnostics c) (sceneLog c).

(** The calls the canvas and its items receive besides the notifications of
    the model: events of the user delivered by Qt, and calls of the embedding
    application.  A key on a label carries the budget of the two loops of
    [cycleCompletion]; a move over the scene carries the answers of the
    model's two compatibility predicates.  Qt moves the keyboard focus on its
    own, on a click or when the window loses it: [FocusMoved] puts it
    anywhere. *)
Inductive UserEvent :=
| LabelKeyPressed (fuel : nat) (r : addr) (key : Key)
| TextEdited (r : addr) (t : string)
| CanvasKeyPressed (key : Key)
| CanvasDoubleClicked (event : QMouseEvent)
| NodeSelected (r : addr) (selected : bool)
| ConnectionSelected (r : addr) (selected : bool)
| OutletPressed (p : addr)
| OutletMoved (canMakeConnectionTo canAcceptConnectionFrom : ptr * Z → ptr * Z → bool)
    (p : addr) (event : QGraphicsSceneMouseEvent)
| OutletReleased (p : addr) (event : QGraphicsSceneMouseEvent)
| SetterCalled (s : Setter)
| CompletionSet (completion : string → list string)
| FocusMoved (item : option addr).

Definition handle_user (u : UserEvent) : M unit :=
  match u with
  | LabelKeyPressed fuel r key => sceneEvent fuel r key ;; ret tt
  | TextEdited r t => setPlainText r t
  | CanvasKeyPressed key => keyPressEvent key
  | CanvasDoubleClicked event => mouseDoubleClickEvent event
  | NodeSelected r selected => node_setSelected r selected
  | ConnectionSelected r selected => connection_setSelected r selected
  | OutletPressed p => outlet_mousePressEvent p
  | OutletMoved canMake canAccept p event =>
      outlet_mouseMoveEvent canMake canAccept p event
  | OutletReleased p event => outlet_mouseReleaseEvent p event
  | SetterCalled s => modify (call_setter s)
  | CompletionSet completion => modify (canvas_setCompletion completion)
  | FocusMoved item => modify (set_focusItem item)
  end.

(** Everything the canvas handles: a notification of the model, or one of
    the above. *)
Inductive Event :=
| Notified (e : Notification)
| Received (u : UserEvent).

Definition handle (ev : Event) : M unit :=
  match ev with
  | Notified e => notify e
  | Received u => handle_user u
  end.

(** The notifications among the events. *)
Fixpoint notifications (evs : list Event) : list Notification :=
  match evs with
  | [] => []
  | Notified e :: evs => e :: notifications evs
  | Received _ :: evs => notifications evs
  end.

(** The canvases a running program can be in: a new canvas, and the canvas a
    handler returns with when started in one of them. *)
Inductive reachable : QDataflowCanvas → Prop :=
| reachable_new completion : reachable (new_QDataflowCanvas completion)
| reachable_handle ev c c' :
    reachable c → handle ev c = Ok tt c' → reachable c'.

(** ** Vocabulary of the statements *)

(** The index [cycleCompletion] computes from a highlight state. *)
Definition next_highlight (n d i : Z) : Z :=
  if d =? 1 then (i + 1) mod n
  else if i =? -1 then n - 1 else (i - 1) mod n.

(** The candidate the label of node [r] highlights, [-1] for none:
    [completionIndex_] read off the store. *)
Definition highlight (r : addr) (c : QDataflowCanvas) : option Z :=
  (fun n => completionIndex_ (textItem_ n)) <$> nodeStore c !! r.

(** The canvas in which the label of node [r] highlights candidate [i]. *)
Definition with_highlight (r : addr) (n : QDataflowNode) (i : Z) (c : QDataflowCanvas) :=
  upd_nodeStore <[r := set_textItem_ (set_completionIndex_ i (textItem_ n)) n]> c.

(** What holds of every label the program builds: an active overlay has
    candidates, and the highlight is [-1] or the index of a candidate. *)
Definition label_ok (l : QDataflowNodeTextLabel) : Prop :=
  (completionActive_ l = true → completionItems_ l ≠ []) ∧
  -1 <= completionIndex_ l < Z.max 0 (Z.of_nat (length (completionItems_ l))).

(** A relation that holds between the canvas a handler starts from and the
    canvas it leaves behind. *)
Definition steps {A} (R : QDataflowCanvas → QDataflowCanvas → Prop) (m : M A) : Prop :=
  ∀ c, R c (final (m c)).

(** What a handler leaves of the node at [r]: its model node stays, and the
    canvas keeps its completion provider. *)
Definition node_kept (r : addr) (n : QDataflowNode) (c : QDataflowCanvas)
    (n' : QDataflowNode) (c' : QDataflowCanvas) : Prop :=
  nodeStore c' !! r = Some n' ∧ modelNode_ n' = modelNode_ n ∧
  completion_ c' = completion_ c.

(** [adjust()] on node [r] returns: the ports of [r] are alive, and every
    connection visual listed at one of them has both its ports and their
    nodes. *)
Definition adjusts (r : addr) (c : QDataflowCanvas) : Prop :=
  node_adjust r c = Ok tt c.

(** Tooltips are never on together with a hover feedback. *)
Definition tooltips_exclusive (c : QDataflowCanvas) : bool :=
  negb (showIOletsTooltips_ c
        && (showObjectHoverFeedback_ c || showConnectionHoverFeedback_ c)).

(** The same as a proposition. *)
Definition toggles_ok (c : QDataflowCanvas) : Prop := tooltips_exclusive c = true.

(** The handler issued no command. *)
Definition same_issued (c c' : QDataflowCanvas) : Prop := issued c' = issued c.

(** The command [keyPressEvent] issues for a selected connection visual, when
    its two ports and their nodes are alive. *)
Definition disconnect_command (c : QDataflowCanvas) (conn : addr) : option Command :=
  match connStore c !! conn with
  | None => None
  | Some cn =>
      match ioletStore c !! source_ cn, ioletStore c !! dest_ cn with
      | Some source, Some dest =>
          match nodeStore c !! node_ source, nodeStore c !! node_ dest with
          | Some sourceNode, Some destNode =>
              Some (disconnect (modelNode_ sourceNode) (index_ source)
                               (modelNode_ destNode) (index_ dest))
          | _, _ => None
          end
      | _, _ => None
      end
  end.

(** The command [keyPressEvent] issues for a selected node visual. *)
Definition remove_command (c : QDataflowCanvas) (r : addr) : option Command :=
  match nodeStore c !! r with
  | Some n => Some (remove (modelNode_ n))
  | None => None
  end.

(** The canvas after the commands [cmds] were issued in order. *)
Definition issue_all (cmds : list Command) (c : QDataflowCanvas) : QDataflowCanvas :=
  fold_left (fun c cmd => issue cmd c) cmds c.

(** The model nodes that were announced and not removed since. *)
Fixpoint live_nodes_from (live : gset ptr) (es : list Notification) : gset ptr :=
  match es with
  | [] => live
  | nodeAdded n :: es => live_nodes_from ({[mn_ptr n]} ∪ live) es
  | nodeRemoved n :: es => live_nodes_from (live ∖ {[n]}) es
  | _ :: es => live_nodes_from live es
  end.

Definition live_nodes (es : list Notification) : gset ptr := live_nodes_from ∅ es.

(** The model connections that were announced and not removed since. *)
Fixpoint live_connections_from (live : gset ptr) (es : list Notification) : gset ptr :=
  match es with
  | [] => live
  | connectionAdded k :: es => live_connections_from ({[mc_ptr k]} ∪ live) es
  | connectionRemoved k :: es => live_connections_from (live ∖ {[k]}) es
  | _ :: es => live_connections_from live es
  end.

Definition live_connections (es : list Notification) : gset ptr :=
  live_connections_from ∅ es.

(** The model nodes and connections that were ever announced. *)
Fixpoint announced_nodes (es : list Notification) : gset ptr :=
  match es with
  | [] => ∅
  | nodeAdded n :: es => {[mn_ptr n]} ∪ announced_nodes es
  | _ :: es => announced_nodes es
  end.

Fixpoint announced_connections (es : list Notification) : gset ptr :=
  match es with
  | [] => ∅
  | connectionAdded k :: es => {[mc_ptr k]} ∪ announced_connections es
  | _ :: es => announced_connections es
  end.

(** What a handler that neither registers nor takes away a node or connection
    visual leaves as it was: the two indexes and the nodes of the scene;
    connections may leave the scene and addresses may be handed out. *)
Definition index_frame (c c' : QDataflowCanvas) : Prop :=
  nodes_ c' = nodes_ c ∧ connections_ c' = connections_ c ∧
  sceneNodes c' = sceneNodes c ∧ sceneConns c' ⊆ sceneConns c ∧
  (nextAddr c ≤ nextAddr c')%positive.

(** How the indexes and the scene stand to the model after the notifications
    handled so far: index entries hold allocated addresses, no visual is
    registered twice, the model nodes alive are those whose registered visual
    is in the scene, and a registered connection visual in the scene belongs
    to a model connection that is alive. *)
Definition tracks (liveN liveC : gset ptr) (c : QDataflowCanvas) : Prop :=
  (∀ n r, nodes_ c !! n = Some r → (r < nextAddr c)%positive) ∧
  (∀ k r, connections_ c !! k = Some r → (r < nextAddr c)%positive) ∧
  (∀ n n' r, nodes_ c !! n = Some r → nodes_ c !! n' = Some r → n = n') ∧
  (∀ k k' r, connections_ c !! k = Some r → connections_ c !! k' = Some r → k = k') ∧
  (∀ n, n ∈ liveN ↔ ∃ r, nodes_ c !! n = Some r ∧ r ∈ sceneNodes c) ∧
  (∀ k r, connections_ c !! k = Some r → r ∈ sceneConns c → k ∈ liveC).

(** In the log, [a] was recorded before [b]. *)
Definition before (a b : SceneOp) (log : list SceneOp) : Prop :=
  ∃ l1 l2 l3, log = l1 ++ a :: l2 ++ b :: l3.

(** Every connection visual in the scene has both its ports alive and is
    listed at both. *)
Definition conns_attached (c : QDataflowCanvas) : Prop :=
  ∀ x cn, x ∈ sceneConns c → connStore c !! x = Some cn →
    (∃ source, ioletStore c !! source_ cn = Some source
               ∧ x ∈ io_connections_ source) ∧
    (∃ dest, ioletStore c !! dest_ cn = Some dest ∧ x ∈ io_connections_ dest).

(** Relations between the canvas before and after a handler that do not see
    what editing a node does: a node is rewritten with the same ports and a
    label that is still [lf_fine] when it was, the focus moves and
    diagnostics are logged.  [lf_fine] is what the relation wants of a label;
    the operations of the label keep it. *)
Class LocalFrame (R : QDataflowCanvas → QDataflowCanvas → Prop) := {
  lf_preorder :: PreOrder R;
  lf_fine : QDataflowNodeTextLabel → Prop;
  lf_fine_clear : ∀ l, lf_fine (clearCompletion l);
  lf_fine_set : ∀ list l, lf_fine (setCompletion list l);
  lf_fine_text : ∀ t l, lf_fine l → lf_fine (set_plainText t l);
  lf_fine_editable : ∀ b l, lf_fine l → lf_fine (set_textEditable b l);
  lf_fine_cycle : ∀ fuel d l l',
    lf_fine l → cycleCompletion fuel d l = Some l' → lf_fine l';
  lf_nodeStore : ∀ r n n' c,
    nodeStore c !! r = Some n →
    inlets_ n' = inlets_ n → outlets_ n' = outlets_ n →
    (lf_fine (textItem_ n) → lf_fine (textItem_ n')) →
    R c (upd_nodeStore <[r := n']> c);
  lf_focus : ∀ o c, R c (set_focusItem o c);
  lf_warn : ∀ d c, R c (warn d c)
}.

(** Relations that moreover do not see commands being issued. *)
Class CommitFrame (R : QDataflowCanvas → QDataflowCanvas → Prop) := {
  cf_local :: LocalFrame R;
  cf_issue : ∀ cmd c, R c (issue cmd c)
}.

(** Relations that moreover do not see ports and connection visuals being
    made, linked and freed, port lists changing, nodes being made, addresses
    handed out, connections leaving the scene and the scene log growing. *)
Class HandlerFrame (R : QDataflowCanvas → QDataflowCanvas → Prop) := {
  hf_commit :: CommitFrame R;
  hf_nodeNew : ∀ r n c, lf_fine (textItem_ n) → R c (upd_nodeStore <[r := n]> c);
  hf_nodePorts : ∀ r n k l c,
    nodeStore c !! r = Some n → R c (upd_nodeStore <[r := set_iolets k l n]> c);
  hf_ioletStore : ∀ f c, R c (upd_ioletStore f c);
  hf_connStore : ∀ f c, R c (upd_connStore f c);
  hf_alloc : ∀ c, R c (set_nextAddr (Pos.succ (nextAddr c)) c);
  hf_record_op : ∀ o c, R c (record_op o c);
  hf_removeConnection : ∀ r c, R c (upd_sceneConns (fun s => s ∖ {[r]}) c)
}.

(** Relations that moreover do not see the display toggles being set and the
    completion provider being replaced. *)
Class UserFrame (R : QDataflowCanvas → QDataflowCanvas → Prop) := {
  uf_handler :: HandlerFrame R;
  uf_setter : ∀ s c, R c (call_setter s c);
  uf_completion : ∀ completion c, R c (canvas_setCompletion completion c)
}.

(** Relations that moreover do not see the two indexes and the scene
    changing. *)
Class EventFrame (R : QDataflowCanvas → QDataflowCanvas → Prop) := {
  ef_user :: UserFrame R;
  ef_nodes_ : ∀ f c, R c (upd_nodes_ f c);
  ef_connections_ : ∀ f c, R c (upd_connections_ f c);
  ef_sceneNodes : ∀ f c, R c (upd_sceneNodes f c);
  ef_sceneConns : ∀ f c, R c (upd_sceneConns f c)
}.

(** Relations that, besides what editing a node does, do not see ports being
    made and freed, port lists changing, nodes being made, addresses handed
    out, connections leaving the scene and the scene log growing; they may
    see the commands issued and the store of connection visuals. *)
Class PortFrame (R : QDataflowCanvas → QDataflowCanvas → Prop) := {
  pf_local :: LocalFrame R;
  pf_nodeNew : ∀ r n c, lf_fine (textItem_ n) → R c (upd_nodeStore <[r := n]> c);
  pf_nodePorts : ∀ r n k l c,
    nodeStore c !! r = Some n → R c (upd_nodeStore <[r := set_iolets k l n]> c);
  pf_ioletStore : ∀ f c, R c (upd_ioletStore f c);
  pf_alloc : ∀ c, R c (set_nextAddr (Pos.succ (nextAddr c)) c);
  pf_record_op : ∀ o c, R c (record_op o c);
  pf_removeConnection : ∀ r c, R c (upd_sceneConns (fun s => s ∖ {[r]}) c)
}.

(** The handler [m] returns [a] whenever it returns. *)
Definition returns {A} (m : M A) (a : A) : Prop :=
  ∀ c b c', m c = Ok b c' → b = a.

(** Every label in the store is [label_ok]. *)
Definition labels_ok (c : QDataflowCanvas) : Prop :=
  ∀ r n, nodeStore c !! r = Some n → label_ok (textItem_ n).

(** The handler keeps the invariant [I]. *)
Definition keeps (I : QDataflowCanvas → Prop) (c c' : QDataflowCanvas) : Prop :=
  I c → I c'.

(** The stores hang together: the ports a node lists are alive, belong to
    that node and are of the kind of the list; no list names a port twice; a
    port that is alive has its node; ports and connection visuals sit below
    the next free address; a connection visual in the scene is in the store,
    has both its ports alive and is listed at both. *)
Definition heap_ok (c : QDataflowCanvas) : Prop :=
  (∀ r n k p, nodeStore c !! r = Some n → p ∈ iolets k n →
     ∃ io, ioletStore c !! p = Some io ∧ node_ io = r ∧ kind io = k) ∧
  (∀ r n k, nodeStore c !! r = Some n → NoDup (iolets k n)) ∧
  (∀ p io, ioletStore c !! p = Some io → is_Some (nodeStore c !! node_ io)) ∧
  (∀ p, is_Some (ioletStore c !! p) → (p < nextAddr c)%positive) ∧
  (∀ x, is_Some (connStore c !! x) → (x < nextAddr c)%positive) ∧
  (∀ x, x ∈ sceneConns c → is_Some (connStore c !! x)) ∧
  conns_attached c.

(** Two objects of a store that agree on what [heap_ok] reads. *)
Definition same_ports (n n' : QDataflowNode) : Prop :=
  inlets_ n' = inlets_ n ∧ outlets_ n' = outlets_ n.

Definition same_links (io io' : QDataflowIOlet) : Prop :=
  kind io' = kind io ∧ node_ io' = node_ io ∧
  io_connections_ io' = io_connections_ io.

Definition same_ends (cn cn' : QDataflowConnection) : Prop :=
  source_ cn' = source_ cn ∧ dest_ cn' = dest_ cn.

(** What a handler that neither makes nor frees nor links an object leaves
    as it was: the same addresses hold objects, with the same ports, links and
    ends; connections may leave the scene. *)
Definition similar (c c' : QDataflowCanvas) : Prop :=
  (∀ r, option_Forall2 same_ports (nodeStore c !! r) (nodeStore c' !! r)) ∧
  (∀ p, option_Forall2 same_links (ioletStore c !! p) (ioletStore c' !! p)) ∧
  (∀ x, option_Forall2 same_ends (connStore c !! x) (connStore c' !! x)) ∧
  sceneConns c' ⊆ sceneConns c ∧
  nextAddr c' = nextAddr c.

(** The [m] addresses [new] hands out from [a] on, in order. *)
Fixpoint fresh (a : addr) (m : nat) : list addr :=
  match m with
  | O => []
  | S m => a :: fresh (Pos.succ a) m
  end.

(** What a handler that only makes ports leaves as it was: everything but
    the stores of nodes and ports and the next free address. *)
Definition same_but_ports (c c' : QDataflowCanvas) : Prop :=
  completion_ c' = completion_ c ∧
  nodes_ c' = nodes_ c ∧ connections_ c' = connections_ c ∧
  showIOletsTooltips_ c' = showIOletsTooltips_ c ∧
  showObjectHoverFeedback_ c' = showObjectHoverFeedback_ c ∧
  showConnectionHoverFeedback_ c' = showConnectionHoverFeedback_ c ∧
  connStore c' = connStore c ∧
  sceneNodes c' = sceneNodes c ∧ sceneConns c' = sceneConns c ∧
  focusItem c' = focusItem c ∧
  issued c' = issued c ∧ diagnostics c' = diagnostics c ∧ sceneLog c' = sceneLog c.

(** Every address that held a node visual, respectively a connection visual,
    before a handler holds one after it. *)
Definition nodes_stay (c c' : QDataflowCanvas) : Prop :=
  ∀ r, is_Some (nodeStore c !! r) → is_Some (nodeStore c' !! r).

Definition connections_stay (c c' : QDataflowCanvas) : Prop :=
  ∀ x, is_Some (connStore c !! x) → is_Some (connStore c' !! x).

(** The ports, the connection visuals and the connections of the scene are
    as they were. *)
Definition links_stay (c c' : QDataflowCanvas) : Prop :=
  ioletStore c' = ioletStore c ∧ connStore c' = connStore c ∧
  sceneConns c' = sceneConns c.

(** ** Sample canvases *)

(** A completion provider that offers the same three candidates for every
    text. *)
Definition sample_completion (nodeText : string) : list string :=
  ["add"; "mul"; "sub"]%string.

(** The canvas after the model announced a node without text: the node is in
    edit mode and, with [sample_completion], its overlay is open. *)
Definition sample_editing : QDataflowCanvas :=
  final (notify (nodeAdded (mkModelNode 10 EmptyString 0 0 (50, 50)))
           (new_QDataflowCanvas sample_completion)).

(** The node of [sample_editing]. *)
Definition sample_node : QDataflowNode :=
  mkNode 10 [] [] (mkLabel EmptyString true ["add"; "mul"; "sub"]%string (-1) true)
    true EmptyString true false.

(** Two nodes joined by a connection, the three of them selected. *)
Definition sample_selected : QDataflowCanvas :=
  final ((notify_all [nodeAdded (mkModelNode 10 "osc" 0 1 (0, 0));
                      nodeAdded (mkModelNode 20 "dac" 1 0 (0, 40));
                      connectionAdded (mkModelConnection 30 (10%positive, 0)
                                                            (20%positive, 0))] ;;
          node_setSelected 1%positive true ;;
          node_setSelected 3%positive true ;;
          connection_setSelected 5%positive true)
           (new_QDataflowCanvas QDataflowTextCompletion_complete)).

(** The same two nodes with a drag begun on the outlet of the first. *)
Definition sample_dragging : QDataflowCanvas :=
  final ((notify_all [nodeAdded (mkModelNode 10 "osc" 0 1 (0, 0));
                      nodeAdded (mkModelNode 20 "dac" 1 0 (0, 40))] ;;
          outlet_mousePressEvent 2%positive)
           (new_QDataflowCanvas QDataflowTextCompletion_complete)).


(** A node with three inlets, two of them connected to the outlet of another
    node. *)
Definition sample_connected : QDataflowCanvas :=
  final (notify_all [nodeAdded (mkModelNode 10 "osc" 0 1 (0, 0));
                     nodeAdded (mkModelNode 20 "mix" 3 0 (0, 40));
                     connectionAdded (mkModelConnection 30 (10%positive, 0)
                                                           (20%positive, 1));
                     connectionAdded (mkModelConnection 31 (10%positive, 0)
                                                           (20%positive, 2))]
           (new_QDataflowCanvas QDataflowTextCompletion_complete)).

(** [sample_connected] after the model shrank the inlets of node 20 to
    two. *)
Definition sample_shrunk : QDataflowCanvas :=
  final (notify (nodeInletCountChanged 20 2) sample_connected).

(** [sample_connected] with the first node in edit mode (after a double
    click on it) when the model shrinks the inlets of node 20 to two. *)
Definition sample_shrunk_editing : QDataflowCanvas :=
  final ((node_mouseDoubleClickEvent 1%positive ;;
          notify (nodeInletCountChanged 20 2)) sample_connected).

(** [sample_editing] after the user typed into the label. *)
Definition sample_typed : QDataflowCanvas :=
  final (handle (Received (TextEdited 1 "foo")) sample_editing).

(** [sample_editing] after the Down key: the first candidate is
    highlighted. *)
Definition sample_highlighted : QDataflowCanvas :=
  final (handle (Received (LabelKeyPressed 2 1 Key_Down)) sample_editing).

(** * Properties *)

(** ** Cycling through the candidates *)

Section Cycling.

Lemma while_negative_done fuel n i :
  0 <= i → while_negative (S fuel) n i = Some i.
Proof.
  intros Hi. simpl. destruct (Z.ltb_spec i 0); [lia | reflexivity].
Qed.

Lemma while_not_below_done fuel n i :
  i < n → while_not_below (S fuel) n i = Some i.
Proof.
  intros Hi. simpl. destruct (Z.geb_spec i n); [lia | reflexivity].
Qed.

(** With no candidate the first loop adds zero for ever. *)
Lemma while_negative_stuck fuel i :
  i < 0 → while_negative fuel 0 i = None.
Proof.
  revert i. induction fuel as [|fuel IH]; intros i Hi; simpl; [reflexivity|].
  destruct (Z.ltb_spec i 0); [|lia].
  rewrite Z.add_0_r. apply IH, Hi.
Qed.

(** With no candidate the second loop subtracts zero for ever. *)
Lemma while_not_below_stuck fuel i :
  0 <= i → while_not_below fuel 0 i = None.
Proof.
  revert i. induction fuel as [|fuel IH]; intros i Hi; simpl; [reflexivity|].
  destruct (Z.geb_spec i 0); [|lia].
  rewrite Z.sub_0_r. apply IH, Hi.
Qed.

Lemma while_negative_nonneg fuel n i j :
  while_negative fuel n i = Some j → 0 <= j.
Proof.
  revert i. induction fuel as [|fuel IH]; intros i; simpl; [discriminate|].
  destruct (Z.ltb_spec i 0); [apply IH|].
  intros [= <-]. assumption.
Qed.

(** [cycleCompletion] never returns on an empty candidate list. *)
Lemma cycleCompletion_empty fuel d l :
  completionItems_ l = [] → cycleCompletion fuel d l = None.
Proof.
  intros Hl. unfold cycleCompletion. rewrite Hl. simpl.
  match goal with
  | |- context [while_negative ?f ?n ?i] =>
      destruct (while_negative f n i) as [i1|] eqn:H1; [|reflexivity]
  end.
  apply while_negative_nonneg in H1.
  now rewrite while_not_below_stuck.
Qed.

Lemma cycleCompletion_step fuel d l :
  let n := Z.of_nat (length (completionItems_ l)) in
  (2 <= fuel)%nat → 1 <= n → d = 1 ∨ d = -1 →
  -1 <= completionIndex_ l < n →
  cycleCompletion fuel d l
  = Some (set_completionIndex_ (next_highlight n d (completionIndex_ l)) l).
Proof.
  intros n Hfuel Hn Hd Hi. unfold cycleCompletion, next_highlight. fold n.
  destruct fuel as [|[|fuel]]; [lia | lia |].
  set (i := completionIndex_ l) in *.
  destruct Hd as [-> | ->].
  - (* Down *)
    replace (i =? -1) with (i =? -1) by reflexivity.
    rewrite andb_false_r. change (1 =? 1) with true. cbv iota.
    rewrite while_negative_done by lia.
    destruct (Z.eq_dec (i + 1) n) as [E|E].
    + rewrite E, Z_mod_same_full.
      cbn [while_not_below]. destruct (Z.geb_spec n n); [|lia].
      rewrite Z.sub_diag. destruct (Z.geb_spec 0 n); [lia|]. reflexivity.
    + rewrite while_not_below_done by lia.
      rewrite Z.mod_small by lia. reflexivity.
  - (* Up *)
    change (-1 =? -1) with true. change (-1 =? 1) with false.
    rewrite andb_true_r. cbv iota.
    destruct (Z.eqb_spec i (-1)) as [E|E].
    + rewrite while_negative_done by lia.
      rewrite while_not_below_done by lia. reflexivity.
    + destruct (Z.eq_dec i 0) as [E0|E0].
      * rewrite E0. cbn [while_negative Z.add].
        change (0 + -1) with (-1). change (-1 <? 0) with true. cbv iota.
        destruct (Z.ltb_spec (-1 + n) 0); [lia|].
        rewrite while_not_below_done by lia.
        replace (-1 + n) with ((0 - 1) mod n); [reflexivity|].
        replace (0 - 1) with (-1 + 1 * n - n + 0) by lia.
        replace (-1 + 1 * n - n + 0) with (n - 1 + (-1) * n) by lia.
        rewrite Z_mod_plus_full, Z.mod_small by lia. lia.
      * rewrite while_negative_done by lia.
        rewrite while_not_below_done by lia.
        replace (i + -1) with (i - 1) by lia.
        rewrite Z.mod_small by lia. reflexivity.
Qed.

End Cycling.

(** ** Running handlers *)

Lemma bind_Ok {A B} (m : M A) (k : A → M B) c a c' :
  m c = Ok a c' → bind m k c = k a c'.
Proof. unfold bind. now intros ->. Qed.

Lemma bind_Crash {A B} (m : M A) (k : A → M B) c f c' :
  m c = Crash f c' → bind m k c = Crash f c'.
Proof. unfold bind. now intros ->. Qed.

Lemma deref_node_Some r n c :
  nodeStore c !! r = Some n → deref_node r c = Ok n c.
Proof. unfold deref_node. now intros ->. Qed.

Lemma deref_iolet_Some p io c :
  ioletStore c !! p = Some io → deref_iolet p c = Ok io c.
Proof. unfold deref_iolet. now intros ->. Qed.

Lemma deref_connection_Some r cn c :
  connStore c !! r = Some cn → deref_connection r c = Ok cn c.
Proof. unfold deref_connection. now intros ->. Qed.

Lemma upd_node_Some r f n c :
  nodeStore c !! r = Some n →
  upd_node r f c = Ok tt (upd_nodeStore <[r := f n]> c).
Proof.
  intros H. unfold upd_node. now rewrite (bind_Ok _ _ _ _ _ (deref_node_Some _ _ _ H)).
Qed.

Lemma upd_label_Some r f n c :
  nodeStore c !! r = Some n →
  upd_label r f c = Ok tt (upd_nodeStore <[r := set_textItem_ (f (textItem_ n)) n]> c).
Proof. intros H. unfold upd_label. now rewrite (upd_node_Some _ _ _ _ H). Qed.

Lemma nodeStore_upd_eq r n c :
  nodeStore (upd_nodeStore <[r := n]> c) !! r = Some n.
Proof. simpl. apply lookup_insert_eq. Qed.

Lemma bind_Ok_inv {A B} (m : M A) (k : A → M B) c b c' :
  bind m k c = Ok b c' → ∃ a c1, m c = Ok a c1 ∧ k a c1 = Ok b c'.
Proof.
  unfold bind. destruct (m c) as [a c1|f c1]; [|discriminate].
  intros H. now exists a, c1.
Qed.

Lemma steps_Ok {A} R (m : M A) c a c' : steps R m → m c = Ok a c' → R c c'.
Proof. intros H E. specialize (H c). now rewrite E in H. Qed.

(** What a handler that returned has read. *)
Lemma deref_node_Ok_inv r n c c' :
  deref_node r c = Ok n c' → c' = c ∧ nodeStore c !! r = Some n.
Proof.
  unfold deref_node. destruct (nodeStore c !! r); [|discriminate].
  now intros [= -> ->].
Qed.

Lemma deref_iolet_Ok_inv p io c c' :
  deref_iolet p c = Ok io c' → c' = c ∧ ioletStore c !! p = Some io.
Proof.
  unfold deref_iolet. destruct (ioletStore c !! p); [|discriminate].
  now intros [= -> ->].
Qed.

Lemma deref_connection_Ok_inv x cn c c' :
  deref_connection x c = Ok cn c' → c' = c ∧ connStore c !! x = Some cn.
Proof.
  unfold deref_connection. destruct (connStore c !! x); [|discriminate].
  now intros [= -> ->].
Qed.

(** ** Highlighting through the keys of the label *)

Lemma new_label_ok t : label_ok (new_QDataflowNodeTextLabel t).
Proof. split; simpl; [discriminate | lia]. Qed.

Lemma clearCompletion_ok l : label_ok (clearCompletion l).
Proof. split; simpl; [discriminate | lia]. Qed.

Lemma setCompletion_ok list l : label_ok (setCompletion list l).
Proof.
  destruct list as [|s list]; simpl; [apply clearCompletion_ok|].
  split; simpl; [discriminate | lia].
Qed.

Lemma set_plainText_ok t l : label_ok l → label_ok (set_plainText t l).
Proof. intros H. exact H. Qed.

Lemma set_textEditable_ok b l : label_ok l → label_ok (set_textEditable b l).
Proof. intros H. exact H. Qed.

Lemma cycleCompletion_ok fuel d l l' :
  label_ok l → cycleCompletion fuel d l = Some l' → label_ok l'.
Proof.
  intros [Ha Hi]. unfold cycleCompletion.
  destruct (while_negative _ _ _) as [i1|] eqn:H1; [|discriminate].
  destruct (while_not_below _ _ _) as [i2|] eqn:H2; [|discriminate].
  intros [= <-]. split; simpl; [exact Ha|].
  apply while_negative_nonneg in H1.
  assert (Hlt : i2 < Z.of_nat (length (completionItems_ l))).
  { clear -H2. revert i1 H2. induction fuel as [|fuel IH]; intros i1; simpl; [discriminate|].
    destruct (Z.geb_spec i1 (Z.of_nat (length (completionItems_ l)))); [apply IH|].
    intros [= <-]. assumption. }
  assert (Hge : 0 <= i2).
  { clear -H1 H2. revert i1 H1 H2.
    induction fuel as [|fuel IH]; intros i1 H1; simpl; [discriminate|].
    destruct (Z.geb_spec i1 (Z.of_nat (length (completionItems_ l)))).
    - intros H2. destruct (Z.eq_dec (Z.of_nat (length (completionItems_ l))) 0) as [E|E].
      + rewrite E in H2. rewrite Z.sub_0_r in H2.
        now rewrite while_not_below_stuck in H2.
      + apply (IH (i1 - Z.of_nat (length (completionItems_ l)))); [lia | exact H2].
    - intros [= <-]. assumption. }
  lia.
Qed.

(** ** The Down and Up keys *)

Lemma label_cycleCompletion_step fuel d r n c :
  let l := textItem_ n in
  let len := Z.of_nat (length (completionItems_ l)) in
  nodeStore c !! r = Some n →
  (2 <= fuel)%nat → 1 <= len → d = 1 ∨ d = -1 →
  -1 <= completionIndex_ l < len →
  label_cycleCompletion fuel d r c
  = Ok tt (with_highlight r n (next_highlight len d (completionIndex_ l)) c).
Proof.
  intros l len Hn Hfuel Hlen Hd Hi. unfold label_cycleCompletion.
  rewrite (bind_Ok _ _ _ _ _ (deref_node_Some _ _ _ Hn)).
  fold l. rewrite (cycleCompletion_step fuel d l Hfuel Hlen Hd Hi).
  reflexivity.
Qed.

Lemma sceneEvent_cycle fuel r n c :
  let l := textItem_ n in
  let len := Z.of_nat (length (completionItems_ l)) in
  nodeStore c !! r = Some n → completionActive_ l = true →
  (2 <= fuel)%nat → 1 <= len → -1 <= completionIndex_ l < len →
  sceneEvent fuel r Key_Down c
  = Ok true (with_highlight r n (next_highlight len 1 (completionIndex_ l)) c) ∧
  sceneEvent fuel r Key_Up c
  = Ok true (with_highlight r n (next_highlight len (-1) (completionIndex_ l)) c).
Proof.
  intros l len Hn Hact Hfuel Hlen Hi. unfold sceneEvent.
  rewrite !(bind_Ok _ _ _ _ _ (deref_node_Some _ _ _ Hn)).
  fold l. rewrite Hact. split.
  - erewrite bind_Ok; [reflexivity|].
    apply (label_cycleCompletion_step fuel 1 r n c Hn Hfuel Hlen); [now left | exact Hi].
  - erewrite bind_Ok; [reflexivity|].
    apply (label_cycleCompletion_step fuel (-1) r n c Hn Hfuel Hlen); [now right | exact Hi].
Qed.

Lemma highlight_with_highlight r n j c :
  highlight r (with_highlight r n j c) = Some j.
Proof. unfold highlight, with_highlight. simpl. now rewrite lookup_insert_eq. Qed.

(** C8.  On a label whose overlay is open with [len >= 1] candidates, and for
    every highlight state [i] (none, written [-1], or a candidate index), the
    Down key and the Up key are consumed, and the index the label holds
    afterwards is: with nothing highlighted, 0 after Down and [len - 1] after
    Up; from candidate [i], [(i + 1) mod len] after Down and [(i - 1) mod len]
    after Up; with a single candidate, 0 after either key.  Nothing but the
    index changes. *)
Theorem cycling_is_circular fuel r n c :
  let l := textItem_ n in
  let len := Z.of_nat (length (completionItems_ l)) in
  let i := completionIndex_ l in
  nodeStore c !! r = Some n → completionActive_ l = true →
  (2 <= fuel)%nat → 1 <= len → -1 <= i < len →
  ∃ down up,
    sceneEvent fuel r Key_Down c = Ok true down ∧
    sceneEvent fuel r Key_Up c = Ok true up ∧
    (i = -1 → highlight r down = Some 0 ∧ highlight r up = Some (len - 1)) ∧
    (0 <= i → highlight r down = Some ((i + 1) mod len) ∧
              highlight r up = Some ((i - 1) mod len)) ∧
    (len = 1 → highlight r down = Some 0 ∧ highlight r up = Some 0) ∧
    (∀ j, highlight r down = Some j → down = with_highlight r n j c) ∧
    (∀ j, highlight r up = Some j → up = with_highlight r n j c).
Proof.
  intros l len i Hn Hact Hfuel Hlen Hi.
  destruct (sceneEvent_cycle fuel r n c Hn Hact Hfuel Hlen Hi) as [HD HU].
  fold l len i in HD, HU. unfold next_highlight in HD, HU.
  change (1 =? 1) with true in HD. change (-1 =? 1) with false in HU.
  cbv iota in HD, HU.
  eexists _, _. split; [exact HD|]. split; [exact HU|].
  rewrite !highlight_with_highlight.
  split; [|split; [|split; [|split]]].
  - intros E. rewrite E. change (-1 =? -1) with true. cbv iota.
    change (-1 + 1) with 0. rewrite Z.mod_0_l by lia. now split.
  - intros Hge. destruct (Z.eqb_spec i (-1)); [lia|]. now split.
  - intros E. assert (Hi' : i = -1 ∨ i = 0) by lia.
    rewrite E. destruct Hi' as [-> | ->]; now split.
  - now intros j [= <-].
  - now intros j [= <-].
Qed.

Lemma cycling_is_circular_witness :
  (∃ down up,
     sceneEvent 2 1%positive Key_Down sample_editing = Ok true down ∧
     sceneEvent 2 1%positive Key_Up sample_editing = Ok true up ∧
     highlight 1%positive sample_editing = Some (-1) ∧
     highlight 1%positive down = Some 0 ∧ highlight 1%positive up = Some 2) ∧
  (∃ down up,
     sceneEvent 2 1%positive Key_Down sample_highlighted = Ok true down ∧
     sceneEvent 2 1%positive Key_Up sample_highlighted = Ok true up ∧
     highlight 1%positive sample_highlighted = Some 0 ∧
     highlight 1%positive down = Some 1 ∧ highlight 1%positive up = Some 2).
Proof.
  split.
  - assert (Hn : nodeStore sample_editing !! 1%positive = Some sample_node)
      by (vm_compute; reflexivity).
    destruct (cycling_is_circular 2 1%positive sample_node sample_editing Hn)
      as (down & up & HD & HU & Hnone & _); [reflexivity | lia | simpl; lia | simpl; lia |].
    destruct (Hnone eq_refl) as [Hd Hu].
    exists down, up. split; [exact HD|]. split; [exact HU|].
    split; [vm_compute; reflexivity|]. split; [exact Hd | exact Hu].
  - pose (n := mkNode 10 [] []
                 (mkLabel EmptyString true ["add"; "mul"; "sub"]%string 0 true)
                 true EmptyString true false).
    assert (Hn : nodeStore sample_highlighted !! 1%positive = Some n)
      by (vm_compute; reflexivity).
    destruct (cycling_is_circular 2 1%positive n sample_highlighted Hn)
      as (down & up & HD & HU & _ & Hsome & _); [reflexivity | lia | simpl; lia | simpl; lia |].
    destruct (Hsome ltac:(simpl; lia)) as [Hd Hu].
    exists down, up. split; [exact HD|]. split; [exact HU|].
    split; [vm_compute; reflexivity|]. split; [exact Hd | exact Hu].
Defined.

(** ** Display-mode toggles *)

(** The three toggles of a canvas, tooltips first. *)
Lemma toggles_setShowObjectHoverFeedback show c :
  showObjectHoverFeedback_ (setShowObjectHoverFeedback show c) = show ∧
  showIOletsTooltips_ (setShowObjectHoverFeedback show c)
  = (if show then false else showIOletsTooltips_ c) ∧
  showConnectionHoverFeedback_ (setShowObjectHoverFeedback show c)
  = showConnectionHoverFeedback_ c.
Proof.
  unfold setShowObjectHoverFeedback. destruct show; simpl.
  - destruct (showIOletsTooltips_ c) eqn:E; simpl; auto.
  - auto.
Qed.

Lemma toggles_setShowConnectionHoverFeedback show c :
  showConnectionHoverFeedback_ (setShowConnectionHoverFeedback show c) = show ∧
  showIOletsTooltips_ (setShowConnectionHoverFeedback show c)
  = (if show then false else showIOletsTooltips_ c) ∧
  showObjectHoverFeedback_ (setShowConnectionHoverFeedback show c)
  = showObjectHoverFeedback_ c.
Proof.
  unfold setShowConnectionHoverFeedback. destruct show; simpl.
  - destruct (showIOletsTooltips_ c) eqn:E; simpl; auto.
  - auto.
Qed.

Lemma toggles_setShowIOletTooltips show c :
  showIOletsTooltips_ (setShowIOletTooltips show c) = show ∧
  showObjectHoverFeedback_ (setShowIOletTooltips show c)
  = (if show then false else showObjectHoverFeedback_ c) ∧
  showConnectionHoverFeedback_ (setShowIOletTooltips show c)
  = (if show then false else showConnectionHoverFeedback_ c).
Proof.
  unfold setShowIOletTooltips. destruct show; simpl; [|auto].
  destruct (showObjectHoverFeedback_ c) eqn:E1;
    destruct (showConnectionHoverFeedback_ c) eqn:E2; simpl;
    rewrite ?E1, ?E2; simpl; rewrite ?E1, ?E2; auto.
Qed.

Lemma call_setter_exclusive s c :
  tooltips_exclusive c = true → tooltips_exclusive (call_setter s c) = true.
Proof.
  unfold tooltips_exclusive. intros H.
  destruct s as [show|show|show]; unfold call_setter.
  - destruct (toggles_setShowIOletTooltips show c) as (-> & -> & ->).
    now destruct show.
  - destruct (toggles_setShowObjectHoverFeedback show c) as (-> & -> & ->).
    destruct show; [reflexivity|].
    destruct (showIOletsTooltips_ c), (showObjectHoverFeedback_ c),
      (showConnectionHoverFeedback_ c); simpl in *; congruence.
  - destruct (toggles_setShowConnectionHoverFeedback show c) as (-> & -> & ->).
    destruct show; [reflexivity|].
    destruct (showIOletsTooltips_ c), (showObjectHoverFeedback_ c),
      (showConnectionHoverFeedback_ c); simpl in *; congruence.
Qed.

Lemma call_setters_exclusive ss c :
  tooltips_exclusive c = true → tooltips_exclusive (call_setters ss c) = true.
Proof.
  revert c. induction ss as [|s ss IH]; intros c H; simpl; [exact H|].
  apply IH, call_setter_exclusive, H.
Qed.

(** ** Releasing a connection drag *)

Lemma ioletStore_upd_lookup p q (io0 : QDataflowIOlet) c :
  ioletStore (upd_ioletStore <[p := io0]> c) !! q
  = if decide (p = q) then Some io0 else ioletStore c !! q.
Proof. simpl. apply lookup_insert. Qed.

(** The release with the inlet [q] found under the pointer. *)
Lemma node_scene_run r n c :
  nodeStore c !! r = Some n →
  node_scene r c = Ok (bool_decide (r ∈ sceneNodes c)) c.
Proof.
  intros Hn. unfold node_scene.
  now rewrite (bind_Ok _ _ _ _ _ (deref_node_Some _ _ _ Hn)).
Qed.

(** The transient line of a drag is taken out when the node of the outlet is
    in the scene; the call goes through a null pointer when it is not. *)
Lemma release_line p io n c :
  nodeStore c !! node_ io = Some n →
  (scene <- node_scene (node_ io) ;;
   if scene then store_iolet p (set_tmpConn_ None io) else crash NullPointer) c
  = if decide (node_ io ∈ sceneNodes c)
    then Ok tt (upd_ioletStore <[p := set_tmpConn_ None io]> c)
    else Crash NullPointer c.
Proof.
  intros Hn. rewrite (bind_Ok _ _ _ _ _ (node_scene_run _ _ _ Hn)).
  case_decide.
  - now rewrite bool_decide_eq_true_2.
  - now rewrite bool_decide_eq_false_2.
Qed.

Lemma release_over_inlet p io pen n q inlet inletNode event c :
  ioletStore c !! p = Some io → tmpConn_ io = Some pen →
  nodeStore c !! node_ io = Some n → node_ io ∈ sceneNodes c →
  itemAtT_QDataflowInlet (itemsAtScenePos event) = Some q →
  ioletStore c !! q = Some inlet → nodeStore c !! node_ inlet = Some inletNode →
  outlet_mouseReleaseEvent p event c
  = Ok tt (issue (connect (modelNode_ n) (index_ io)
                          (modelNode_ inletNode) (index_ inlet))
             (upd_ioletStore <[p := set_tmpConn_ None io]> c)).
Proof.
  intros Hp Hpen Hn Hs Hhit Hq Hqn. unfold outlet_mouseReleaseEvent.
  rewrite (bind_Ok _ _ _ _ _ (deref_iolet_Some _ _ _ Hp)), Hpen, Hhit.
  set (c1 := upd_ioletStore <[p := set_tmpConn_ None io]> c).
  assert (Hline : (scene <- node_scene (node_ io) ;;
                   if scene then store_iolet p (set_tmpConn_ None io)
                   else crash NullPointer) c = Ok tt c1)
    by (rewrite (release_line p io n c Hn); now rewrite decide_True).
  rewrite (bind_Ok _ _ _ _ _ Hline).
  assert (Hn1 : nodeStore c1 !! node_ io = Some n) by exact Hn.
  rewrite (bind_Ok _ _ _ _ _ (deref_node_Some _ _ _ Hn1)).
  destruct (decide (p = q)) as [<- | Hne].
  - assert (Hq1 : ioletStore c1 !! p = Some (set_tmpConn_ None io)).
    { unfold c1. rewrite ioletStore_upd_lookup. now rewrite decide_True. }
    rewrite (bind_Ok _ _ _ _ _ (deref_iolet_Some _ _ _ Hq1)).
    assert (inlet = io) as -> by congruence.
    assert (Hqn1 : nodeStore c1 !! node_ (set_tmpConn_ None io) = Some inletNode)
      by exact Hqn.
    now rewrite (bind_Ok _ _ _ _ _ (deref_node_Some _ _ _ Hqn1)).
  - assert (Hq1 : ioletStore c1 !! q = Some inlet).
    { unfold c1. rewrite ioletStore_upd_lookup. now rewrite decide_False. }
    rewrite (bind_Ok _ _ _ _ _ (deref_iolet_Some _ _ _ Hq1)).
    assert (Hqn1 : nodeStore c1 !! node_ inlet = Some inletNode) by exact Hqn.
    now rewrite (bind_Ok _ _ _ _ _ (deref_node_Some _ _ _ Hqn1)).
Qed.

(** A move over the inlet [q] only repaints the transient line. *)
Lemma move_over_inlet canMake canAccept p io pen n q inlet inletNode event c :
  ioletStore c !! p = Some io → tmpConn_ io = Some pen →
  nodeStore c !! node_ io = Some n →
  itemAtT_QDataflowInlet (itemsAtScenePos event) = Some q →
  ioletStore c !! q = Some inlet → nodeStore c !! node_ inlet = Some inletNode →
  ∃ pen', outlet_mouseMoveEvent canMake canAccept p event c
          = Ok tt (upd_ioletStore <[p := set_tmpConn_ (Some pen') io]> c)
          ∧ (pen' = connectionPen ↔
             canMake (modelNode_ n, index_ io) (modelNode_ inletNode, index_ inlet)
             && canAccept (modelNode_ inletNode, index_ inlet) (modelNode_ n, index_ io)
             = true)
          ∧ (pen' = connectionPen ∨ pen' = invalidConnectionPen).
Proof.
  intros Hp Hpen Hn Hhit Hq Hqn. unfold outlet_mouseMoveEvent.
  rewrite (bind_Ok _ _ _ _ _ (deref_iolet_Some _ _ _ Hp)), Hpen, Hhit.
  rewrite (bind_Ok _ _ _ _ _ (deref_node_Some _ _ _ Hn)).
  rewrite (bind_Ok _ _ _ _ _ (deref_iolet_Some _ _ _ Hq)).
  rewrite (bind_Ok _ _ _ _ _ (deref_node_Some _ _ _ Hqn)).
  destruct (canMake _ _ && canAccept _ _) eqn:E.
  - exists connectionPen. split; [reflexivity|]. split; [tauto | now left].
  - exists invalidConnectionPen. split; [reflexivity|].
    split; [split; intros; discriminate | now right].
Qed.

(** A release on outlet [p] while its transient line exists, in a canvas
    where the node of [p] is alive and in the scene. *)
Lemma outlet_mouseReleaseEvent_run p io pen n event c :
  ioletStore c !! p = Some io → tmpConn_ io = Some pen →
  nodeStore c !! node_ io = Some n → node_ io ∈ sceneNodes c →
  let destroyed := upd_ioletStore <[p := set_tmpConn_ None io]> c in
  tmpConn_ <$> ioletStore destroyed !! p = Some None ∧
  (∀ q rest inlet inletNode,
     itemsAtScenePos event = ItemInlet q :: rest →
     ioletStore c !! q = Some inlet → nodeStore c !! node_ inlet = Some inletNode →
     let command := connect (modelNode_ n) (index_ io)
                            (modelNode_ inletNode) (index_ inlet) in
     outlet_mouseReleaseEvent p event c = Ok tt (issue command destroyed) ∧
     issued (issue command destroyed) = issued c ++ [command] ∧
     ∀ canMakeConnectionTo canAcceptConnectionFrom,
       (outlet_mouseMoveEvent canMakeConnectionTo canAcceptConnectionFrom p event ;;
        outlet_mouseReleaseEvent p event) c
       = Ok tt (issue command destroyed)) ∧
  (itemAtT_QDataflowInlet (itemsAtScenePos event) = None →
     outlet_mouseReleaseEvent p event c = Ok tt destroyed ∧
     issued destroyed = issued c).
Proof.
  intros Hp Hpen Hn Hs destroyed. split; [|split].
  - unfold destroyed. rewrite ioletStore_upd_lookup, decide_True by reflexivity.
    reflexivity.
  - intros q rest inlet inletNode Hhit Hq Hqn command.
    assert (Hfound : itemAtT_QDataflowInlet (itemsAtScenePos event) = Some q)
      by now rewrite Hhit.
    split; [|split].
    + apply (release_over_inlet p io pen n q inlet inletNode event c); assumption.
    + reflexivity.
    + intros canMake canAccept.
      destruct (move_over_inlet canMake canAccept p io pen n q inlet inletNode
                  event c Hp Hpen Hn Hfound Hq Hqn) as (pen' & Hmove & _).
      rewrite (bind_Ok _ _ _ _ _ Hmove).
      set (moved := upd_ioletStore <[p := set_tmpConn_ (Some pen') io]> c).
      assert (Hp' : ioletStore moved !! p = Some (set_tmpConn_ (Some pen') io)).
      { unfold moved. now rewrite ioletStore_upd_lookup, decide_True. }
      destruct (decide (p = q)) as [<- | Hne].
      * assert (inlet = io) as -> by congruence.
        rewrite (release_over_inlet p (set_tmpConn_ (Some pen') io) pen' n p
                   (set_tmpConn_ (Some pen') io) inletNode event moved);
          try assumption; try reflexivity.
        unfold command, destroyed, moved, issue, upd_ioletStore; simpl.
        now rewrite insert_insert_eq.
      * rewrite (release_over_inlet p (set_tmpConn_ (Some pen') io) pen' n q
                   inlet inletNode event moved);
          try assumption; try reflexivity.
        -- unfold command, destroyed, moved, issue, upd_ioletStore; simpl.
           now rewrite insert_insert_eq.
        -- unfold moved. now rewrite ioletStore_upd_lookup, decide_False.
  - intros Hnone. split; [|reflexivity].
    unfold outlet_mouseReleaseEvent.
    rewrite (bind_Ok _ _ _ _ _ (deref_iolet_Some _ _ _ Hp)), Hpen, Hnone.
    assert (Hline : (scene <- node_scene (node_ io) ;;
                     if scene then store_iolet p (set_tmpConn_ None io)
                     else crash NullPointer) c = Ok tt destroyed)
      by (rewrite (release_line p io n c Hn); now rewrite decide_True).
    now rewrite (bind_Ok _ _ _ _ _ Hline).
Qed.

(** ** Relating the canvas before and after a handler *)

Section Steps.

Context (R : QDataflowCanvas → QDataflowCanvas → Prop) `{!PreOrder R}.

Lemma steps_ret {A} (a : A) : steps R (ret a).
Proof. intros c. simpl. reflexivity. Qed.

Lemma steps_crash {A} f : steps R (@crash A f).
Proof. intros c. simpl. reflexivity. Qed.

Lemma steps_gets {A} (f : QDataflowCanvas → A) : steps R (gets f).
Proof. intros c. simpl. reflexivity. Qed.

Lemma steps_modify f : (∀ c, R c (f c)) → steps R (modify f).
Proof. intros H c. simpl. apply H. Qed.

Lemma steps_bind {A B} (m : M A) (k : A → M B) :
  steps R m → (∀ a, steps R (k a)) → steps R (bind m k).
Proof.
  intros Hm Hk c. unfold bind. specialize (Hm c).
  destruct (m c) as [a c'|f c']; simpl in *; [|exact Hm].
  etransitivity; [exact Hm | apply Hk].
Qed.

Lemma steps_for_each {A} (xs : list A) (body : A → M unit) :
  (∀ x, steps R (body x)) → steps R (for_each xs body).
Proof.
  intros H. induction xs as [|x xs IH]; simpl.
  - apply steps_ret.
  - apply steps_bind; [apply H | intros _; exact IH].
Qed.

Lemma steps_through {A} (p : option addr) (k : addr → M A) :
  (∀ r, steps R (k r)) → steps R (through p k).
Proof. intros H. destruct p; simpl; [apply H | apply steps_crash]. Qed.

Lemma steps_deref_node r : steps R (deref_node r).
Proof. intros c. unfold deref_node. destruct (_ !! _); simpl; reflexivity. Qed.

Lemma steps_deref_iolet p : steps R (deref_iolet p).
Proof. intros c. unfold deref_iolet. destruct (_ !! _); simpl; reflexivity. Qed.

Lemma steps_deref_connection r : steps R (deref_connection r).
Proof. intros c. unfold deref_connection. destruct (_ !! _); simpl; reflexivity. Qed.

Lemma steps_at_ l i : steps R (at_ l i).
Proof.
  unfold at_. destruct (i <? 0); [apply steps_crash|].
  destruct (_ !! _); [apply steps_ret | apply steps_crash].
Qed.

Lemma steps_connection_adjust x : steps R (connection_adjust x).
Proof.
  unfold connection_adjust.
  apply steps_bind; [apply steps_deref_connection | intros cn].
  apply steps_bind; [apply steps_deref_iolet | intros source].
  apply steps_bind; [apply steps_deref_node | intros _].
  apply steps_bind; [apply steps_deref_iolet | intros dest].
  apply steps_bind; [apply steps_deref_node | intros _].
  apply steps_ret.
Qed.

Lemma steps_iolet_adjustConnections p : steps R (iolet_adjustConnections p).
Proof.
  unfold iolet_adjustConnections.
  apply steps_bind; [apply steps_deref_iolet | intros io].
  apply steps_for_each. intros x. apply steps_connection_adjust.
Qed.

Lemma steps_node_adjust r : steps R (node_adjust r).
Proof.
  unfold node_adjust, node_adjustConnections.
  apply steps_bind; [apply steps_deref_node | intros n].
  apply steps_bind; [| intros _];
    apply steps_for_each; intros p; apply steps_iolet_adjustConnections.
Qed.

End Steps.

Section LocalEffects.

Context (R : QDataflowCanvas → QDataflowCanvas → Prop) `{!LocalFrame R}.

Lemma steps_upd_node r f :
  (∀ n, inlets_ (f n) = inlets_ n) → (∀ n, outlets_ (f n) = outlets_ n) →
  (∀ n, lf_fine (textItem_ n) → lf_fine (textItem_ (f n))) →
  steps R (upd_node r f).
Proof.
  intros Hin Hout Hfine c. unfold upd_node, bind, deref_node.
  destruct (nodeStore c !! r) as [n|] eqn:Hn; simpl; [|reflexivity].
  apply (lf_nodeStore r n); auto.
Qed.

Lemma steps_upd_label r g :
  (∀ l, lf_fine l → lf_fine (g l)) → steps R (upd_label r g).
Proof.
  intros Hfine. apply steps_upd_node; try reflexivity. intros n. apply Hfine.
Qed.

Lemma steps_setFocus r : steps R (setFocus r).
Proof.
  intros c. unfold setFocus. case_decide; simpl; [apply lf_focus | reflexivity].
Qed.

Lemma steps_clearFocus r : steps R (clearFocus r).
Proof.
  intros c. unfold clearFocus. case_decide; simpl; [apply lf_focus | reflexivity].
Qed.

Lemma steps_node mdlnode : steps R (node mdlnode).
Proof.
  intros c. unfold node. destruct (_ !! _); simpl; [reflexivity | apply lf_warn].
Qed.

Lemma steps_connection conn : steps R (connection conn).
Proof.
  intros c. unfold connection. destruct (_ !! _); simpl; [reflexivity | apply lf_warn].
Qed.

Lemma steps_complete r : steps R (complete r).
Proof.
  unfold complete.
  apply steps_bind; [apply _ | apply steps_deref_node, _ | intros n].
  apply steps_bind; [apply _ | apply steps_gets, _ | intros completion].
  apply steps_upd_label. intros l _. apply lf_fine_set.
Qed.

Lemma steps_setPlainText r t : steps R (setPlainText r t).
Proof.
  unfold setPlainText, itemTextEditorTextChange.
  apply steps_bind; [apply _ | | intros _].
  { apply steps_upd_label. apply lf_fine_text. }
  apply steps_bind; [apply _ | apply steps_node_adjust, _ | intros _].
  apply steps_complete.
Qed.

Lemma steps_isInEditMode r : steps R (isInEditMode r).
Proof.
  unfold isInEditMode.
  apply steps_bind; [apply _ | apply steps_deref_node, _ | intros n].
  apply steps_bind; [apply _ | apply steps_gets, _ | intros focus].
  apply steps_ret, _.
Qed.

Lemma steps_set_oldText r : steps R (upd_node r (fun n => set_oldText_ (text n) n)).
Proof. apply steps_upd_node; auto. Qed.

(** [setSelected]: the node is rewritten with the new flag, then [itemChange]
    runs. *)
Lemma steps_setSelected_then r selected (after : M unit) :
  steps R after →
  steps R (n <- deref_node r ;;
           if Bool.eqb (node_selected n) selected then ret tt
           else store_node r (set_node_selected selected n) ;; after).
Proof.
  intros Hafter c. unfold bind at 1. unfold deref_node.
  destruct (nodeStore c !! r) as [n|] eqn:Hn; simpl; [|reflexivity].
  destruct (Bool.eqb _ _); simpl; [reflexivity|].
  unfold store_node, modify, bind.
  etransitivity; [|apply Hafter].
  apply (lf_nodeStore r n); auto.
Qed.

Lemma steps_node_setSelected_true r : steps R (node_setSelected r true).
Proof.
  apply steps_setSelected_then. unfold itemChange_ItemSelectedHasChanged.
  apply steps_bind; [apply _ | apply steps_node_adjust, _ | intros _].
  apply steps_set_oldText.
Qed.

Lemma steps_enterEditMode r : steps R (enterEditMode r).
Proof.
  unfold enterEditMode.
  apply steps_bind; [apply _ | apply steps_set_oldText | intros _].
  apply steps_bind; [apply _ | apply steps_node_setSelected_true | intros _].
  apply steps_bind; [apply _ | | intros _].
  { apply steps_upd_label. apply lf_fine_editable. }
  apply steps_bind; [apply _ | apply steps_setFocus | intros _].
  apply steps_complete.
Qed.

Lemma steps_node_mouseDoubleClickEvent r : steps R (node_mouseDoubleClickEvent r).
Proof.
  unfold node_mouseDoubleClickEvent.
  apply steps_bind; [apply _ | apply steps_isInEditMode | intros e].
  destruct (negb e); [apply steps_enterEditMode | apply steps_ret, _].
Qed.

Lemma steps_node_setText t r : steps R (node_setText t r).
Proof.
  unfold node_setText.
  apply steps_bind; [apply _ | apply steps_deref_node, _ | intros n].
  destruct (String.eqb _ _); [apply steps_ret, _ | apply steps_setPlainText].
Qed.

Lemma steps_setValid valid r : steps R (setValid valid r).
Proof.
  unfold setValid.
  apply steps_bind; [apply _ | | intros _; apply steps_node_adjust, _].
  apply steps_upd_node; auto.
Qed.

Lemma steps_label_cycleCompletion fuel d r : steps R (label_cycleCompletion fuel d r).
Proof.
  intros c. unfold label_cycleCompletion, bind, deref_node.
  destruct (nodeStore c !! r) as [n|] eqn:Hn; simpl; [|reflexivity].
  destruct (cycleCompletion fuel d (textItem_ n)) as [l|] eqn:Hl; simpl;
    [|reflexivity].
  apply (lf_nodeStore r n); auto. intros Hfine.
  apply (lf_fine_cycle fuel d (textItem_ n)); assumption.
Qed.

Lemma steps_iolet k index r : steps R (iolet k index r).
Proof.
  unfold iolet.
  apply steps_bind; [apply _ | apply steps_deref_node, _ | intros n].
  apply steps_at_, _.
Qed.

(** The notifications that only rewrite a node. *)
Lemma steps_onNodeValidChanged mdlnode valid :
  steps R (onNodeValidChanged mdlnode valid).
Proof.
  unfold onNodeValidChanged.
  apply steps_bind; [apply _ | apply steps_node | intros uinode].
  apply steps_through; [apply _|]. intros r. apply steps_setValid.
Qed.

Lemma steps_onNodePosChanged mdlnode pos : steps R (onNodePosChanged mdlnode pos).
Proof.
  unfold onNodePosChanged.
  apply steps_bind; [apply _ | apply steps_node | intros uinode].
  destruct uinode; [|apply steps_ret, _].
  apply steps_bind; [apply _ | apply steps_deref_node, _ | intros _].
  apply steps_ret, _.
Qed.

Lemma steps_onNodeTextChanged mdlnode t : steps R (onNodeTextChanged mdlnode t).
Proof.
  unfold onNodeTextChanged.
  apply steps_bind; [apply _ | apply steps_node | intros uinode].
  apply steps_through; [apply _|]. intros r. apply steps_node_setText.
Qed.

End LocalEffects.

Section CommitEffects.

Context (R : QDataflowCanvas → QDataflowCanvas → Prop) `{!CommitFrame R}.

Lemma steps_exitEditMode revertText r : steps R (exitEditMode revertText r).
Proof.
  unfold exitEditMode.
  apply steps_bind; [apply _ | | intros _].
  { apply (steps_upd_label R). intros l _. apply lf_fine_clear. }
  apply steps_bind; [apply _ | apply steps_deref_node, _ | intros n].
  apply steps_bind; [apply _ | | intros _].
  - destruct revertText; [apply steps_setPlainText, _|].
    destruct (negb _); [|apply steps_ret, _].
    apply steps_bind; [apply _ | | intros _; apply steps_set_oldText, _].
    apply steps_modify. intros c. apply cf_issue.
  - apply steps_bind; [apply _ | apply steps_clearFocus, _ | intros _].
    apply (steps_upd_label R). apply lf_fine_editable.
Qed.

Lemma steps_node_setSelected r selected : steps R (node_setSelected r selected).
Proof.
  apply steps_setSelected_then; [apply _|].
  unfold itemChange_ItemSelectedHasChanged.
  apply steps_bind; [apply _ | apply steps_node_adjust, _ | intros _].
  destruct selected; [apply steps_set_oldText, _ | apply steps_exitEditMode].
Qed.

Lemma steps_acceptCompletion r : steps R (acceptCompletion r).
Proof.
  unfold acceptCompletion.
  apply steps_bind; [apply _ | apply steps_deref_node, _ | intros n].
  destruct (completionActive_ _).
  - destruct (_ >=? _); [|apply steps_exitEditMode].
    destruct (_ !! _); [apply steps_setPlainText, _ | apply steps_crash, _].
  - apply (steps_upd_label R). intros l _. apply lf_fine_clear.
Qed.

Lemma steps_sceneEvent fuel r key : steps R (sceneEvent fuel r key).
Proof.
  unfold sceneEvent.
  apply steps_bind; [apply _ | apply steps_deref_node, _ | intros n].
  destruct key; try apply steps_ret, _;
    (apply steps_bind; [apply _ | | intros _; apply steps_ret, _]);
    destruct (completionActive_ _);
    first [ apply steps_exitEditMode
          | apply steps_acceptCompletion
          | apply steps_label_cycleCompletion, _
          | apply steps_ret, _
          | apply (steps_upd_label R); intros l _; apply lf_fine_clear ].
Qed.

Lemma steps_disconnect_selected conn : steps R (disconnect_selected conn).
Proof.
  unfold disconnect_selected.
  apply steps_bind; [apply _ | apply steps_deref_connection, _ | intros cn].
  apply steps_bind; [apply _ | apply steps_deref_iolet, _ | intros source].
  apply steps_bind; [apply _ | apply steps_deref_node, _ | intros sourceNode].
  apply steps_bind; [apply _ | apply steps_deref_iolet, _ | intros dest].
  apply steps_bind; [apply _ | apply steps_deref_node, _ | intros destNode].
  apply steps_modify. intros c. apply cf_issue.
Qed.

Lemma steps_remove_selected r : steps R (remove_selected r).
Proof.
  unfold remove_selected.
  apply steps_bind; [apply _ | apply steps_deref_node, _ | intros n].
  apply steps_modify. intros c. apply cf_issue.
Qed.

Lemma steps_keyPressEvent key : steps R (keyPressEvent key).
Proof.
  unfold keyPressEvent.
  apply steps_bind; [apply _ | apply steps_gets, _ | intros editing].
  destruct (_ && _); [|apply steps_ret, _].
  apply steps_bind; [apply _ | apply steps_gets, _ | intros conns].
  apply steps_bind; [apply _ | | intros _].
  { apply steps_for_each; [apply _|]. apply steps_disconnect_selected. }
  apply steps_bind; [apply _ | apply steps_gets, _ | intros nodes].
  apply steps_for_each; [apply _|]. apply steps_remove_selected.
Qed.

Lemma steps_mouseDoubleClickEvent event : steps R (mouseDoubleClickEvent event).
Proof.
  unfold mouseDoubleClickEvent.
  destruct (itemAt event) as [[]|]; try apply steps_ret, _.
  - apply steps_node_mouseDoubleClickEvent, _.
  - apply steps_modify. intros c. apply cf_issue.
Qed.

End CommitEffects.

Section HandlerEffects.

Context (R : QDataflowCanvas → QDataflowCanvas → Prop) `{!HandlerFrame R}.

Lemma steps_store_iolet p io : steps R (store_iolet p io).
Proof. apply steps_modify. intros c. apply hf_ioletStore. Qed.

Lemma steps_store_connection r cn : steps R (store_connection r cn).
Proof. apply steps_modify. intros c. apply hf_connStore. Qed.

Lemma steps_alloc : steps R alloc.
Proof. intros c. simpl. apply hf_alloc. Qed.

Lemma steps_upd_node_ports r k g :
  steps R (upd_node r (fun n => set_iolets k (g n) n)).
Proof.
  intros c. unfold upd_node, bind, deref_node.
  destruct (nodeStore c !! r) as [n|] eqn:Hn; simpl; [|reflexivity].
  now apply hf_nodePorts.
Qed.

Lemma steps_connection_setSelected r selected :
  steps R (connection_setSelected r selected).
Proof.
  unfold connection_setSelected.
  apply steps_bind; [apply _ | apply steps_deref_connection, _ | intros cn].
  apply steps_store_connection.
Qed.

Lemma steps_new_QDataflowIOlet k r i : steps R (new_QDataflowIOlet k r i).
Proof.
  unfold new_QDataflowIOlet.
  apply steps_bind; [apply _ | apply steps_alloc | intros p].
  apply steps_bind; [apply _ | apply steps_store_iolet | intros _].
  apply steps_ret, _.
Qed.

Lemma steps_addConnection p r : steps R (addConnection p r).
Proof.
  unfold addConnection.
  apply steps_bind; [apply _ | apply steps_deref_iolet, _ | intros io].
  apply steps_bind; [apply _ | apply steps_store_iolet | intros _].
  apply steps_connection_adjust, _.
Qed.

Lemma steps_delete_iolet p : steps R (delete_iolet p).
Proof.
  apply steps_modify. intros c.
  etransitivity; [apply hf_ioletStore | apply hf_record_op].
Qed.

Lemma steps_scene_removeIOlet p : steps R (scene_removeIOlet p).
Proof.
  unfold scene_removeIOlet.
  apply steps_bind; [apply _ | apply steps_deref_iolet, _ | intros io].
  intros c. case_decide; simpl; [apply hf_record_op | apply lf_warn].
Qed.

Lemma steps_grow_loop fuel k r count : steps R (grow_loop fuel k r count).
Proof.
  induction fuel as [|fuel IH]; simpl.
  - apply steps_bind; [apply _ | apply steps_deref_node, _ | intros n].
    destruct (_ <? _); [apply steps_crash, _ | apply steps_ret, _].
  - apply steps_bind; [apply _ | apply steps_deref_node, _ | intros n].
    destruct (_ <? _); [|apply steps_ret, _].
    apply steps_bind; [apply _ | apply steps_new_QDataflowIOlet | intros p].
    apply steps_bind; [apply _ | | intros _; exact IH].
    apply (steps_upd_node_ports r k (fun n => iolets k n ++ [p])).
Qed.

Lemma steps_scene_removeConnection r : steps R (scene_removeConnection r).
Proof.
  intros c. unfold scene_removeConnection. case_decide; simpl.
  - etransitivity; [apply hf_removeConnection | apply hf_record_op].
  - apply lf_warn.
Qed.

Lemma steps_drop_last_iolet k r : steps R (drop_last_iolet k r).
Proof.
  unfold drop_last_iolet.
  apply steps_bind; [apply _ | apply steps_deref_node, _ | intros n].
  destruct (last _); [|apply steps_crash, _].
  apply steps_bind; [apply _ | apply steps_deref_iolet, _ | intros io].
  apply steps_bind; [apply _ | | intros _].
  { apply steps_for_each; [apply _|]. intros x. apply steps_scene_removeConnection. }
  apply steps_bind; [apply _ | apply steps_scene_removeIOlet | intros _].
  apply steps_bind; [apply _ | | intros _; apply steps_delete_iolet].
  apply (steps_upd_node_ports r k (fun n => removelast (iolets k n))).
Qed.

Lemma steps_shrink_loop fuel k r count : steps R (shrink_loop fuel k r count).
Proof.
  induction fuel as [|fuel IH]; simpl.
  - apply steps_bind; [apply _ | apply steps_deref_node, _ | intros n].
    destruct (_ >? _); [apply steps_crash, _ | apply steps_ret, _].
  - apply steps_bind; [apply _ | apply steps_deref_node, _ | intros n].
    destruct (_ >? _); [|apply steps_ret, _].
    apply steps_bind; [apply _ | apply steps_drop_last_iolet | intros _].
    exact IH.
Qed.

Lemma steps_setIOletCount k count skipAdjust r :
  steps R (setIOletCount k count skipAdjust r).
Proof.
  unfold setIOletCount.
  apply steps_bind; [apply _ | apply steps_deref_node, _ | intros n].
  apply steps_bind; [apply _ | apply steps_shrink_loop | intros _].
  apply steps_bind; [apply _ | apply steps_deref_node, _ | intros n'].
  apply steps_bind; [apply _ | apply steps_grow_loop | intros _].
  destruct skipAdjust; [apply steps_ret, _ | apply steps_node_adjust, _].
Qed.

(** The constructor of a node, from the address [r] it was allocated at. *)
Lemma steps_init_QDataflowNode modelNode r :
  steps R (hover <- gets showObjectHoverFeedback_ ;;
           store_node r
             (mkNode (mn_ptr modelNode) [] []
                (new_QDataflowNodeTextLabel (mn_text modelNode))
                true EmptyString false hover) ;;
           setInletCount (mn_inletCount modelNode) true r ;;
           setOutletCount (mn_outletCount modelNode) true r ;;
           node_adjust r ;;
           ret r).
Proof.
  apply steps_bind; [apply _ | apply steps_gets, _ | intros hover].
  apply steps_bind; [apply _ | | intros _].
  { apply steps_modify. intros c. apply hf_nodeNew. simpl.
    change (new_QDataflowNodeTextLabel (mn_text modelNode))
      with (clearCompletion (new_QDataflowNodeTextLabel (mn_text modelNode))).
    apply lf_fine_clear. }
  apply steps_bind; [apply _ | apply steps_setIOletCount | intros _].
  apply steps_bind; [apply _ | apply steps_setIOletCount | intros _].
  apply steps_bind; [apply _ | apply steps_node_adjust, _ | intros _].
  apply steps_ret, _.
Qed.

Lemma steps_new_QDataflowNode modelNode : steps R (new_QDataflowNode modelNode).
Proof.
  unfold new_QDataflowNode.
  apply steps_bind; [apply _ | apply steps_alloc | intros r].
  apply steps_init_QDataflowNode.
Qed.

(** The constructor of a connection, from the address [r] it was allocated
    at. *)
Lemma steps_init_QDataflowConnection modelConnection r :
  steps R (hover <- gets showConnectionHoverFeedback_ ;;
           srcNode <- node (fst (mc_source modelConnection)) ;;
           source <- through srcNode (iolet Outlet (snd (mc_source modelConnection))) ;;
           dstNode <- node (fst (mc_dest modelConnection)) ;;
           dest <- through dstNode (iolet Inlet (snd (mc_dest modelConnection))) ;;
           store_connection r
             (mkConnection (mc_ptr modelConnection) source dest false hover) ;;
           addConnection source r ;;
           addConnection dest r ;;
           connection_adjust r ;;
           ret r).
Proof.
  apply steps_bind; [apply _ | apply steps_gets, _ | intros hover].
  apply steps_bind; [apply _ | apply steps_node, _ | intros srcNode].
  apply steps_bind; [apply _ | | intros source].
  { apply steps_through; [apply _|]. intros x. apply steps_iolet, _. }
  apply steps_bind; [apply _ | apply steps_node, _ | intros dstNode].
  apply steps_bind; [apply _ | | intros dest].
  { apply steps_through; [apply _|]. intros x. apply steps_iolet, _. }
  apply steps_bind; [apply _ | apply steps_store_connection | intros _].
  apply steps_bind; [apply _ | apply steps_addConnection | intros _].
  apply steps_bind; [apply _ | apply steps_addConnection | intros _].
  apply steps_bind; [apply _ | apply steps_connection_adjust, _ | intros _].
  apply steps_ret, _.
Qed.

Lemma steps_new_QDataflowConnection modelConnection :
  steps R (new_QDataflowConnection modelConnection).
Proof.
  unfold new_QDataflowConnection.
  apply steps_bind; [apply _ | apply steps_alloc | intros r].
  apply steps_init_QDataflowConnection.
Qed.

(** The notifications that change a port list. *)
Lemma steps_onNodeInletCountChanged mdlnode count :
  steps R (onNodeInletCountChanged mdlnode count).
Proof.
  unfold onNodeInletCountChanged.
  apply steps_bind; [apply _ | apply steps_node, _ | intros uinode].
  apply steps_through; [apply _|]. intros r. apply steps_setIOletCount.
Qed.

Lemma steps_onNodeOutletCountChanged mdlnode count :
  steps R (onNodeOutletCountChanged mdlnode count).
Proof.
  unfold onNodeOutletCountChanged.
  apply steps_bind; [apply _ | apply steps_node, _ | intros uinode].
  apply steps_through; [apply _|]. intros r. apply steps_setIOletCount.
Qed.

(** The events on an outlet only rewrite the outlet. *)
Lemma steps_outlet_mousePressEvent p : steps R (outlet_mousePressEvent p).
Proof.
  unfold outlet_mousePressEvent.
  apply steps_bind; [apply _ | apply steps_deref_iolet, _ | intros io].
  apply steps_store_iolet.
Qed.

Lemma steps_outlet_mouseMoveEvent canMake canAccept p event :
  steps R (outlet_mouseMoveEvent canMake canAccept p event).
Proof.
  unfold outlet_mouseMoveEvent.
  apply steps_bind; [apply _ | apply steps_deref_iolet, _ | intros io].
  destruct (tmpConn_ io); [|apply steps_ret, _].
  apply steps_bind; [apply _ | apply steps_deref_node, _ | intros n].
  destruct (itemAtT_QDataflowInlet _); [|apply steps_store_iolet].
  apply steps_bind; [apply _ | apply steps_deref_iolet, _ | intros inl].
  apply steps_bind; [apply _ | apply steps_deref_node, _ | intros inlNode].
  destruct (_ && _); apply steps_store_iolet.
Qed.

Lemma steps_outlet_mouseReleaseEvent p event :
  steps R (outlet_mouseReleaseEvent p event).
Proof.
  unfold outlet_mouseReleaseEvent.
  apply steps_bind; [apply _ | apply steps_deref_iolet, _ | intros io].
  apply steps_bind; [apply _ | | intros _].
  { destruct (tmpConn_ io); [|apply steps_ret, _].
    apply steps_bind; [apply _ | | intros scene].
    - apply steps_bind; [apply _ | apply steps_deref_node, _ | intros _].
      apply steps_gets, _.
    - destruct scene; [apply steps_store_iolet | apply steps_crash, _]. }
  destruct (itemAtT_QDataflowInlet _); [|apply steps_ret, _].
  apply steps_bind; [apply _ | apply steps_deref_node, _ | intros n].
  apply steps_bind; [apply _ | apply steps_deref_iolet, _ | intros inlet].
  apply steps_bind; [apply _ | apply steps_deref_node, _ | intros inletNode].
  apply steps_modify. intros c. apply cf_issue.
Qed.

End HandlerEffects.

Section UserEffects.

Context (R : QDataflowCanvas → QDataflowCanvas → Prop) `{!UserFrame R}.

Lemma steps_handle_user u : steps R (handle_user u).
Proof.
  destruct u; simpl.
  - apply steps_bind; [apply _ | apply steps_sceneEvent, _ | intros _].
    apply steps_ret, _.
  - apply steps_setPlainText, _.
  - apply steps_keyPressEvent, _.
  - apply steps_mouseDoubleClickEvent, _.
  - apply steps_node_setSelected, _.
  - apply steps_connection_setSelected, _.
  - apply steps_outlet_mousePressEvent, _.
  - apply steps_outlet_mouseMoveEvent, _.
  - apply steps_outlet_mouseReleaseEvent, _.
  - apply steps_modify. apply uf_setter.
  - apply steps_modify. apply uf_completion.
  - apply steps_modify. intros c. apply lf_focus.
Qed.

End UserEffects.

Section EventEffects.

Context (R : QDataflowCanvas → QDataflowCanvas → Prop) `{!EventFrame R}.

Lemma steps_scene_removeNode r : steps R (scene_removeNode r).
Proof.
  intros c. unfold scene_removeNode. case_decide; simpl; [|apply lf_warn].
  etransitivity; [apply (ef_sceneNodes (fun s => s ∖ {[r]}))|].
  case_decide; [|apply hf_record_op].
  etransitivity; [apply lf_focus | apply hf_record_op].
Qed.

Lemma steps_onNodeAdded mdlnode : steps R (onNodeAdded mdlnode).
Proof.
  unfold onNodeAdded.
  apply steps_bind; [apply _ | apply steps_new_QDataflowNode, _ | intros r].
  apply steps_bind; [apply _ | | intros _].
  { apply steps_modify. apply ef_nodes_. }
  apply steps_bind; [apply _ | | intros _].
  { apply steps_modify. apply ef_sceneNodes. }
  destruct (String.eqb _ _); [apply steps_enterEditMode, _ | apply steps_ret, _].
Qed.

Lemma steps_onNodeRemoved mdlnode : steps R (onNodeRemoved mdlnode).
Proof.
  unfold onNodeRemoved.
  apply steps_bind; [apply _ | apply steps_node, _ | intros uinode].
  apply steps_bind; [apply _ | | intros e].
  { apply steps_through; [apply _|]. intros r. apply steps_isInEditMode, _. }
  apply steps_bind; [apply _ | | intros _].
  { destruct e; [|apply steps_ret, _].
    apply steps_through; [apply _|]. intros r. apply steps_exitEditMode, _. }
  destruct uinode as [r|]; simpl.
  - apply steps_scene_removeNode.
  - apply steps_modify. intros c. apply lf_warn.
Qed.

Lemma steps_onConnectionAdded mdlconn : steps R (onConnectionAdded mdlconn).
Proof.
  unfold onConnectionAdded.
  apply steps_bind; [apply _ | apply steps_new_QDataflowConnection, _ | intros r].
  apply steps_bind; [apply _ | | intros _].
  { apply steps_modify. apply ef_connections_. }
  apply steps_modify. apply ef_sceneConns.
Qed.

Lemma steps_onConnectionRemoved mdlconn : steps R (onConnectionRemoved mdlconn).
Proof.
  unfold onConnectionRemoved.
  apply steps_bind; [apply _ | apply steps_connection, _ | intros uiconn].
  destruct uiconn as [r|]; simpl.
  - apply steps_scene_removeConnection, _.
  - apply steps_modify. intros c. apply lf_warn.
Qed.

Lemma steps_notify e : steps R (notify e).
Proof.
  destruct e as [n|n|n v|n pos|n t|n count|n count|k|k]; simpl.
  - apply steps_onNodeAdded.
  - apply steps_onNodeRemoved.
  - apply steps_onNodeValidChanged, _.
  - apply steps_onNodePosChanged, _.
  - apply steps_onNodeTextChanged, _.
  - apply steps_onNodeInletCountChanged, _.
  - apply steps_onNodeOutletCountChanged, _.
  - apply steps_onConnectionAdded.
  - apply steps_onConnectionRemoved.
Qed.

Lemma steps_handle ev : steps R (handle ev).
Proof.
  destruct ev as [e|u]; simpl; [apply steps_notify | apply steps_handle_user, _].
Qed.

End EventEffects.

(** ** Canvases with the same objects *)

Lemma iolets_same_ports k n n' : same_ports n n' → iolets k n' = iolets k n.
Proof. intros [Hi Ho]. now destruct k. Qed.

#[local] Instance same_ports_preorder : PreOrder same_ports.
Proof.
  split; [intros n; now split|].
  intros a b c [] []. split; congruence.
Qed.

#[local] Instance same_links_preorder : PreOrder same_links.
Proof.
  split; [intros n; now repeat split|].
  intros a b c (? & ? & ?) (? & ? & ?). repeat split; congruence.
Qed.

#[local] Instance same_ends_preorder : PreOrder same_ends.
Proof.
  split; [intros n; now split|].
  intros a b c [] []. split; congruence.
Qed.

Lemma option_Forall2_preorder {A} (P : A → A → Prop) `{!PreOrder P} :
  PreOrder (option_Forall2 P).
Proof.
  split.
  - intros [a|]; constructor. reflexivity.
  - intros x y z Hxy Hyz. destruct Hxy; inversion Hyz; subst; constructor.
    etransitivity; eassumption.
Qed.

#[local] Instance similar_preorder : PreOrder similar.
Proof.
  split.
  - intros c. repeat split; intros; try reflexivity;
      apply option_Forall2_preorder; apply _.
  - intros a b c (Hn & Hp & Hx & Hs & Ha) (Hn' & Hp' & Hx' & Hs' & Ha').
    repeat split.
    + intros r. destruct (option_Forall2_preorder same_ports) as [_ T].
      exact (T _ _ _ (Hn r) (Hn' r)).
    + intros p. destruct (option_Forall2_preorder same_links) as [_ T].
      exact (T _ _ _ (Hp p) (Hp' p)).
    + intros x. destruct (option_Forall2_preorder same_ends) as [_ T].
      exact (T _ _ _ (Hx x) (Hx' x)).
    + etransitivity; eassumption.
    + congruence.
Qed.

Lemma option_Forall2_refl_lookup {A} (P : A → A → Prop) `{!Reflexive P}
    (o : option A) : option_Forall2 P o o.
Proof. destruct o; constructor. reflexivity. Qed.

(** A canvas that differs only in what [similar] does not read. *)
Lemma similar_same_stores c c' :
  nodeStore c' = nodeStore c → ioletStore c' = ioletStore c →
  connStore c' = connStore c → sceneConns c' ⊆ sceneConns c →
  nextAddr c' = nextAddr c → similar c c'.
Proof.
  intros Hn Hp Hx Hs Ha. unfold similar. rewrite Hn, Hp, Hx.
  repeat split; intros; try assumption; apply option_Forall2_refl_lookup; apply _.
Qed.

Lemma option_Forall2_Some_l {A} (P : A → A → Prop) x o :
  option_Forall2 P (Some x) o → ∃ y, o = Some y ∧ P x y.
Proof. inversion 1; subst. eauto. Qed.

Lemma option_Forall2_Some_r {A} (P : A → A → Prop) o y :
  option_Forall2 P o (Some y) → ∃ x, o = Some x ∧ P x y.
Proof. inversion 1; subst. eauto. Qed.

Lemma similar_nodeStore f c :
  (∀ r, option_Forall2 same_ports (nodeStore c !! r) (f (nodeStore c) !! r)) →
  similar c (upd_nodeStore f c).
Proof.
  intros H. repeat split; simpl; intros; try reflexivity; try apply H;
    apply option_Forall2_refl_lookup; apply _.
Qed.

Lemma similar_ioletStore f c :
  (∀ p, option_Forall2 same_links (ioletStore c !! p) (f (ioletStore c) !! p)) →
  similar c (upd_ioletStore f c).
Proof.
  intros H. repeat split; simpl; intros; try reflexivity; try apply H;
    apply option_Forall2_refl_lookup; apply _.
Qed.

Lemma similar_connStore f c :
  (∀ x, option_Forall2 same_ends (connStore c !! x) (f (connStore c) !! x)) →
  similar c (upd_connStore f c).
Proof.
  intros H. repeat split; simpl; intros; try reflexivity; try apply H;
    apply option_Forall2_refl_lookup; apply _.
Qed.

Lemma option_Forall2_insert {A} (P : A → A → Prop) `{!Reflexive P}
    (st : gmap addr A) r a a' :
  st !! r = Some a → P a a' →
  ∀ r', option_Forall2 P (st !! r') (<[r := a']> st !! r').
Proof.
  intros Hr HP r'. rewrite lookup_insert. case_decide.
  - subst r'. rewrite Hr. now constructor.
  - now apply option_Forall2_refl_lookup.
Qed.

Lemma option_Forall2_alter {A} (P : A → A → Prop) `{!PreOrder P}
    (f : A → A) (rs : list addr) (st : gmap addr A) :
  (∀ a, P a (f a)) →
  ∀ r, option_Forall2 P (st !! r) (foldr (fun r st => alter f r st) st rs !! r).
Proof.
  intros Hf r. induction rs as [|a rs IH]; simpl.
  - apply option_Forall2_refl_lookup, _.
  - rewrite lookup_alter. case_decide; [|exact IH]. subst a.
    destruct IH as [x y Hxy|]; constructor. etransitivity; [exact Hxy|apply Hf].
Qed.

#[local] Instance similar_local : LocalFrame similar.
Proof.
  refine {| lf_fine := fun _ => True |}; try (intros; exact I).
  - intros r n n' c Hn Hi Ho _. apply similar_nodeStore.
    apply (option_Forall2_insert same_ports _ r n n' Hn). now split.
  - intros o c. now apply similar_same_stores.
  - intros d c. now apply similar_same_stores.
Defined.

#[local] Instance similar_commit : CommitFrame similar.
Proof. split; [exact _|]. intros cmd c. now apply similar_same_stores. Defined.

(** ** Recomputing geometry reads the stores *)

Lemma reads_Ok {A} (m : M A) c a c' : steps eq m → m c = Ok a c' → c' = c.
Proof. intros H E. symmetry. exact (steps_Ok eq m c a c' H E). Qed.

Lemma for_each_reads {A} (body : A → M unit) (xs : list A) c :
  (∀ x, x ∈ xs → body x c = Ok tt c) → for_each xs body c = Ok tt c.
Proof.
  induction xs as [|a xs IH]; intros H; simpl; [reflexivity|].
  rewrite (bind_Ok _ _ _ _ _ (H a ltac:(now left))).
  apply IH. intros x Hx. apply H. now right.
Qed.

Lemma for_each_reads_inv {A} (body : A → M unit) (xs : list A) c c' :
  (∀ x, steps eq (body x)) → for_each xs body c = Ok tt c' →
  c' = c ∧ ∀ x, x ∈ xs → body x c = Ok tt c.
Proof.
  intros Hb. induction xs as [|a xs IH]; intros H.
  - injection H as <-. split; [reflexivity|]. intros x Hx. inversion Hx.
  - simpl in H. apply bind_Ok_inv in H as ([] & c1 & Ha & H).
    assert (c1 = c) by exact (reads_Ok _ _ _ _ (Hb a) Ha). subst c1.
    destruct (IH H) as [-> Hxs]. split; [reflexivity|].
    intros x Hx. apply elem_of_cons in Hx as [->|Hx]; [exact Ha | now apply Hxs].
Qed.

Lemma connection_adjust_Ok x c :
  connection_adjust x c = Ok tt c ↔
  ∃ cn source dest,
    connStore c !! x = Some cn ∧
    ioletStore c !! source_ cn = Some source ∧
    is_Some (nodeStore c !! node_ source) ∧
    ioletStore c !! dest_ cn = Some dest ∧
    is_Some (nodeStore c !! node_ dest).
Proof.
  unfold connection_adjust, bind, deref_connection, deref_iolet, deref_node. split.
  - destruct (connStore c !! x) as [cn|] eqn:Hcn; [|discriminate].
    destruct (ioletStore c !! source_ cn) as [source|] eqn:Hs; [|discriminate].
    destruct (nodeStore c !! node_ source) as [sn|] eqn:Hsn; [|discriminate].
    destruct (ioletStore c !! dest_ cn) as [dest|] eqn:Hd; [|discriminate].
    destruct (nodeStore c !! node_ dest) as [dn|] eqn:Hdn; [|discriminate].
    intros _. exists cn, source, dest.
    split; [reflexivity|]. split; [exact Hs|]. split; [now exists sn|].
    split; [exact Hd | now exists dn].
  - intros (cn & source & dest & -> & -> & [sn ->] & -> & [dn ->]). reflexivity.
Qed.

Lemma similar_lookups c c' :
  similar c c' →
  (∀ r n, nodeStore c !! r = Some n →
     ∃ n', nodeStore c' !! r = Some n' ∧ same_ports n n') ∧
  (∀ p io, ioletStore c !! p = Some io →
     ∃ io', ioletStore c' !! p = Some io' ∧ same_links io io') ∧
  (∀ x cn, connStore c !! x = Some cn →
     ∃ cn', connStore c' !! x = Some cn' ∧ same_ends cn cn').
Proof.
  intros (Hn & Hp & Hx & _). repeat split.
  - intros r n H. apply option_Forall2_Some_l. rewrite <- H. apply Hn.
  - intros p io H. apply option_Forall2_Some_l. rewrite <- H. apply Hp.
  - intros x cn H. apply option_Forall2_Some_l. rewrite <- H. apply Hx.
Qed.

Lemma connection_adjust_similar x c c' :
  similar c c' → connection_adjust x c = Ok tt c → connection_adjust x c' = Ok tt c'.
Proof.
  intros S H. destruct (similar_lookups c c' S) as (Sn & Sp & Sx).
  apply connection_adjust_Ok in H
    as (cn & source & dest & Hcn & Hs & [sn Hsn] & Hd & [dn Hdn]).
  apply connection_adjust_Ok.
  destruct (Sx _ _ Hcn) as (cn' & Hcn' & Hsrc & Hdst).
  destruct (Sp _ _ Hs) as (source' & Hs' & _ & Hns & _).
  destruct (Sp _ _ Hd) as (dest' & Hd' & _ & Hnd & _).
  destruct (Sn _ _ Hsn) as (sn' & Hsn' & _).
  destruct (Sn _ _ Hdn) as (dn' & Hdn' & _).
  exists cn', source', dest'. rewrite Hsrc, Hdst, Hns, Hnd.
  split; [exact Hcn'|]. split; [exact Hs'|]. split; [now exists sn'|].
  split; [exact Hd' | now exists dn'].
Qed.

Lemma iolet_adjustConnections_similar p c c' :
  similar c c' →
  iolet_adjustConnections p c = Ok tt c → iolet_adjustConnections p c' = Ok tt c'.
Proof.
  intros S H. destruct (similar_lookups c c' S) as (_ & Sp & _).
  unfold iolet_adjustConnections in *.
  apply bind_Ok_inv in H as (io & c1 & Hio & H).
  apply deref_iolet_Ok_inv in Hio as [-> Hio].
  destruct (Sp _ _ Hio) as (io' & Hio' & _ & _ & Hl).
  rewrite (bind_Ok _ _ _ _ _ (deref_iolet_Some _ _ _ Hio')), Hl.
  apply for_each_reads_inv in H as [_ H];
    [|intros x; apply steps_connection_adjust, _].
  apply for_each_reads. intros x Hx.
  apply (connection_adjust_similar x c c' S), H, Hx.
Qed.

Lemma node_adjust_similar r c c' : similar c c' → adjusts r c → adjusts r c'.
Proof.
  intros S H. destruct (similar_lookups c c' S) as (Sn & _ & _).
  unfold adjusts, node_adjust, node_adjustConnections in *.
  apply bind_Ok_inv in H as (n & c1 & Hn & H).
  apply deref_node_Ok_inv in Hn as [-> Hn].
  destruct (Sn _ _ Hn) as (n' & Hn' & Hi & Ho).
  rewrite (bind_Ok _ _ _ _ _ (deref_node_Some _ _ _ Hn')), Hi, Ho.
  apply bind_Ok_inv in H as ([] & c1 & Hin & Hout).
  apply for_each_reads_inv in Hin as [-> Hin];
    [|intros x; apply steps_iolet_adjustConnections, _].
  apply for_each_reads_inv in Hout as [_ Hout];
    [|intros x; apply steps_iolet_adjustConnections, _].
  erewrite bind_Ok.
  - apply for_each_reads. intros p Hp.
    apply (iolet_adjustConnections_similar p c c' S), Hout, Hp.
  - apply for_each_reads. intros p Hp.
    apply (iolet_adjustConnections_similar p c c' S), Hin, Hp.
Qed.

(** Rewriting a node with the same ports, moving the focus, issuing a command
    and logging do not change what [adjust()] reads. *)
Lemma adjusts_upd r r' n n' c :
  nodeStore c !! r' = Some n → inlets_ n' = inlets_ n → outlets_ n' = outlets_ n →
  adjusts r c → adjusts r (upd_nodeStore <[r' := n']> c).
Proof.
  intros Hn Hi Ho. apply node_adjust_similar.
  now apply (lf_nodeStore r' n n' c Hn Hi Ho).
Qed.

Lemma adjusts_steps {A} (m : M A) r c a c' :
  steps similar m → m c = Ok a c' → adjusts r c → adjusts r c'.
Proof.
  intros Hm Hrun. apply node_adjust_similar. exact (steps_Ok similar m c a c' Hm Hrun).
Qed.

(** ** Editing the text of a node *)

Lemma complete_run r n c :
  nodeStore c !! r = Some n →
  complete r c
  = Ok tt (upd_nodeStore
             <[r := set_textItem_
                      (setCompletion (completion_ c (text n)) (textItem_ n)) n]> c).
Proof.
  intros H. unfold complete.
  rewrite (bind_Ok _ _ _ _ _ (deref_node_Some _ _ _ H)).
  unfold gets, bind at 1.
  now rewrite (upd_label_Some _ _ _ _ H).
Qed.

Lemma setPlainText_run r t n c :
  nodeStore c !! r = Some n → adjusts r c →
  setPlainText r t c
  = Ok tt (upd_nodeStore
             <[r := set_textItem_
                      (setCompletion (completion_ c t) (set_plainText t (textItem_ n)))
                      n]> c).
Proof.
  intros H Hadj. unfold setPlainText, itemTextEditorTextChange.
  rewrite (bind_Ok _ _ _ _ _ (upd_label_Some _ _ _ _ H)).
  rewrite (bind_Ok _ _ _ _ _
             (adjusts_upd r r n (set_textItem_ (set_plainText t (textItem_ n)) n) c
                H eq_refl eq_refl Hadj)).
  rewrite (complete_run r _ _ (nodeStore_upd_eq _ _ _)).
  unfold upd_nodeStore; simpl. now rewrite insert_insert_eq.
Qed.

Lemma text_setCompletion list l : plainText (setCompletion list l) = plainText l.
Proof. now destruct list. Qed.

Lemma completionIndex_setCompletion list l :
  completionIndex_ (setCompletion list l) = -1.
Proof. now destruct list. Qed.

Lemma completionActive_setCompletion list l :
  completionActive_ (setCompletion list l) = match list with [] => false | _ => true end.
Proof. now destruct list. Qed.

Lemma isInEditMode_run r n c :
  nodeStore c !! r = Some n →
  isInEditMode r c
  = Ok (textEditable (textItem_ n) && bool_decide (focusItem c = Some r)) c.
Proof.
  intros H. unfold isInEditMode.
  now rewrite (bind_Ok _ _ _ _ _ (deref_node_Some _ _ _ H)).
Qed.

Lemma enterEditMode_run r n c :
  nodeStore c !! r = Some n → adjusts r c →
  ∃ c' n', enterEditMode r c = Ok tt c' ∧ node_kept r n c n' c' ∧
           text n' = text n ∧ oldText_ n' = text n ∧ issued c' = issued c ∧
           completionIndex_ (textItem_ n') = -1.
Proof.
  intros H Hadj. unfold enterEditMode.
  rewrite (bind_Ok _ _ _ _ _ (upd_node_Some _ _ _ _ H)).
  set (n1 := set_oldText_ (text n) n).
  set (c1 := upd_nodeStore <[r := n1]> c).
  assert (H1 : nodeStore c1 !! r = Some n1) by apply nodeStore_upd_eq.
  assert (Hadj1 : adjusts r c1) by exact (adjusts_upd r r n n1 c H eq_refl eq_refl Hadj).
  assert (∃ c2 n2, node_setSelected r true c1 = Ok tt c2 ∧
                   nodeStore c2 !! r = Some n2 ∧ modelNode_ n2 = modelNode_ n ∧
                   textItem_ n2 = textItem_ n ∧ oldText_ n2 = text n ∧
                   issued c2 = issued c ∧ completion_ c2 = completion_ c ∧
                   sceneNodes c2 = sceneNodes c)
    as (c2 & n2 & Hsel & H2 & Hm2 & Ht2 & Ho2 & Hi2 & Hc2 & Hs2).
  { unfold node_setSelected.
    rewrite (bind_Ok _ _ _ _ _ (deref_node_Some _ _ _ H1)).
    destruct (Bool.eqb (node_selected n1) true).
    - exists c1, n1. repeat split; assumption || reflexivity.
    - unfold store_node, modify, bind at 1.
      unfold itemChange_ItemSelectedHasChanged.
      rewrite (bind_Ok _ _ _ _ _
                 (adjusts_upd r r n1 (set_node_selected true n1) c1
                    H1 eq_refl eq_refl Hadj1)).
      rewrite (upd_node_Some _ _ _ _ (nodeStore_upd_eq _ _ _)).
      eexists _, _. split; [reflexivity|].
      split; [apply nodeStore_upd_eq|]. repeat split. }
  rewrite (bind_Ok _ _ _ _ _ Hsel).
  rewrite (bind_Ok _ _ _ _ _ (upd_label_Some _ _ _ _ H2)).
  set (n3 := set_textItem_ (set_textEditable true (textItem_ n2)) n2).
  set (c3 := upd_nodeStore <[r := n3]> c2).
  assert (∃ c4, setFocus r c3 = Ok tt c4 ∧ nodeStore c4 = nodeStore c3 ∧
                issued c4 = issued c3 ∧ completion_ c4 = completion_ c3)
    as (c4 & Hfoc & Hst4 & Hi4 & Hc4).
  { unfold setFocus. case_decide; eexists; repeat split. }
  rewrite (bind_Ok _ _ _ _ _ Hfoc).
  assert (H4 : nodeStore c4 !! r = Some n3).
  { rewrite Hst4. apply nodeStore_upd_eq. }
  rewrite (complete_run _ _ _ H4).
  eexists _, _. split; [reflexivity|].
  split; [|repeat apply conj].
  - split; [apply nodeStore_upd_eq|]. split; [exact Hm2|].
    simpl. rewrite Hc4. simpl. exact Hc2.
  - unfold text. simpl. rewrite text_setCompletion. simpl. now rewrite Ht2.
  - simpl. exact Ho2.
  - simpl. rewrite Hi4. simpl. exact Hi2.
  - simpl. apply completionIndex_setCompletion.
Qed.

Lemma exitEditMode_revert_run r n c :
  nodeStore c !! r = Some n → adjusts r c →
  ∃ c' n', exitEditMode true r c = Ok tt c' ∧ node_kept r n c n' c' ∧
           text n' = oldText_ n ∧ issued c' = issued c.
Proof.
  intros H Hadj. unfold exitEditMode.
  rewrite (bind_Ok _ _ _ _ _ (upd_label_Some _ _ _ _ H)).
  set (n1 := set_textItem_ (clearCompletion (textItem_ n)) n).
  set (c1 := upd_nodeStore <[r := n1]> c).
  assert (H1 : nodeStore c1 !! r = Some n1) by apply nodeStore_upd_eq.
  assert (Hadj1 : adjusts r c1) by exact (adjusts_upd r r n n1 c H eq_refl eq_refl Hadj).
  rewrite (bind_Ok _ _ _ _ _ (deref_node_Some _ _ _ H1)).
  rewrite (bind_Ok _ _ _ _ _ (setPlainText_run _ _ _ _ H1 Hadj1)).
  match goal with
  | |- context [upd_nodeStore <[r := ?x]> c1] =>
      set (n2 := x); set (c2 := upd_nodeStore <[r := n2]> c1)
  end.
  assert (∃ c3, clearFocus r c2 = Ok tt c3 ∧ nodeStore c3 = nodeStore c2 ∧
                issued c3 = issued c2 ∧ completion_ c3 = completion_ c2)
    as (c3 & Hfoc & Hst3 & Hi3 & Hc3).
  { unfold clearFocus. case_decide; eexists; repeat split. }
  rewrite (bind_Ok _ _ _ _ _ Hfoc).
  assert (H3 : nodeStore c3 !! r = Some n2).
  { rewrite Hst3. apply nodeStore_upd_eq. }
  rewrite (upd_label_Some _ _ _ _ H3).
  eexists _, _. split; [reflexivity|].
  split; [|split].
  - split; [apply nodeStore_upd_eq|]. split; [reflexivity|].
    simpl. rewrite Hc3. reflexivity.
  - unfold text. simpl. now rewrite text_setCompletion.
  - simpl. rewrite Hi3. reflexivity.
Qed.

Lemma exitEditMode_commit_run r n c :
  nodeStore c !! r = Some n →
  ∃ c' n', exitEditMode false r c = Ok tt c' ∧ node_kept r n c n' c' ∧
           text n' = text n ∧
           issued c' = issued c ++ (if String.eqb (oldText_ n) (text n) then []
                                    else [setText (modelNode_ n) (text n)]).
Proof.
  intros H. unfold exitEditMode.
  rewrite (bind_Ok _ _ _ _ _ (upd_label_Some _ _ _ _ H)).
  set (n1 := set_textItem_ (clearCompletion (textItem_ n)) n).
  set (c1 := upd_nodeStore <[r := n1]> c).
  assert (H1 : nodeStore c1 !! r = Some n1) by apply nodeStore_upd_eq.
  rewrite (bind_Ok _ _ _ _ _ (deref_node_Some _ _ _ H1)).
  change (oldText_ n1) with (oldText_ n). change (text n1) with (text n).
  change (modelNode_ n1) with (modelNode_ n).
  assert (∃ c2 n2,
            (if negb (String.eqb (oldText_ n) (text n))
             then modify (issue (setText (modelNode_ n) (text n))) ;;
                  upd_node r (fun n => set_oldText_ (text n) n)
             else ret tt) c1 = Ok tt c2 ∧
            nodeStore c2 !! r = Some n2 ∧ modelNode_ n2 = modelNode_ n ∧
            text n2 = text n ∧ completion_ c2 = completion_ c ∧
            issued c2 = issued c ++ (if String.eqb (oldText_ n) (text n) then []
                                     else [setText (modelNode_ n) (text n)]))
    as (c2 & n2 & Hrun & H2 & Hm2 & Ht2 & Hc2 & Hi2).
  { destruct (String.eqb (oldText_ n) (text n)); simpl.
    - exists c1, n1. repeat split; try assumption. simpl. now rewrite app_nil_r.
    - unfold modify, bind at 1.
      assert (Hi : nodeStore (issue (setText (modelNode_ n) (text n)) c1) !! r
                   = Some n1) by exact H1.
      rewrite (upd_node_Some _ _ _ _ Hi).
      eexists _, _. split; [reflexivity|].
      split; [apply nodeStore_upd_eq|]. repeat split. }
  rewrite (bind_Ok _ _ _ _ _ Hrun).
  assert (∃ c3, clearFocus r c2 = Ok tt c3 ∧ nodeStore c3 = nodeStore c2 ∧
                issued c3 = issued c2 ∧ completion_ c3 = completion_ c2)
    as (c3 & Hfoc & Hst3 & Hi3 & Hc3).
  { unfold clearFocus. case_decide; eexists; repeat split. }
  rewrite (bind_Ok _ _ _ _ _ Hfoc).
  assert (H3 : nodeStore c3 !! r = Some n2) by now rewrite Hst3.
  rewrite (upd_label_Some _ _ _ _ H3).
  eexists _, _. split; [reflexivity|].
  split; [|split].
  - split; [apply nodeStore_upd_eq|]. split; [exact Hm2|].
    simpl. now rewrite Hc3.
  - exact Ht2.
  - simpl. now rewrite Hi3.
Qed.

(** ** Double click on the canvas *)

#[local] Instance same_issued_preorder : PreOrder same_issued.
Proof.
  split; [intros c; reflexivity|].
  intros a b c Hab Hbc. unfold same_issued in *. congruence.
Qed.

#[local] Instance same_issued_local : LocalFrame same_issued.
Proof.
  refine {| lf_fine := fun _ => True |};
    first [exact _ | intros; exact I | intros; reflexivity].
Qed.

(** C10.  A double click where no item lies issues one [create] command with
    the clicked scene position, empty text, no inlet and no outlet, and
    returns.  A double click over an item issues no command, whatever the
    item; over a node the handler of the node runs, and returns when the
    [adjust()] of the node does. *)
Theorem double_click_creates_on_empty_space event c :
  (itemAt event = None →
     let command := create (scenePoint event) EmptyString 0 0 in
     mouseDoubleClickEvent event c = Ok tt (issue command c) ∧
     issued (issue command c) = issued c ++ [command]) ∧
  (∀ item, itemAt event = Some item →
     issued (final (mouseDoubleClickEvent event c)) = issued c) ∧
  (∀ r n, itemAt event = Some (ItemNode r) → nodeStore c !! r = Some n →
     adjusts r c → ∃ c', mouseDoubleClickEvent event c = Ok tt c').
Proof.
  unfold mouseDoubleClickEvent. repeat apply conj.
  - intros ->. split; reflexivity.
  - intros item ->. destruct item; try reflexivity.
    apply (steps_node_mouseDoubleClickEvent same_issued).
  - intros r n -> Hn Hadj. unfold node_mouseDoubleClickEvent.
    rewrite (bind_Ok _ _ _ _ _ (isInEditMode_run _ _ _ Hn)).
    destruct (negb _); [|now eexists].
    destruct (enterEditMode_run r n c Hn Hadj) as (c' & _ & Hrun & _).
    now exists c'.
Qed.

Lemma double_click_creates_on_empty_space_witness :
  issued (final (mouseDoubleClickEvent (mkMouseEvent None (50, 50))
                   (new_QDataflowCanvas QDataflowTextCompletion_complete)))
  = [create (50, 50) EmptyString 0 0] ∧
  issued (final (mouseDoubleClickEvent (mkMouseEvent (Some (ItemNode 1)) (50, 50))
                   sample_editing))
  = [].
Proof.
  split.
  - destruct (double_click_creates_on_empty_space (mkMouseEvent None (50, 50))
                (new_QDataflowCanvas QDataflowTextCompletion_complete))
      as (Hempty & _ & _).
    destruct (Hempty eq_refl) as [-> _]. reflexivity.
  - destruct (double_click_creates_on_empty_space
                (mkMouseEvent (Some (ItemNode 1)) (50, 50)) sample_editing)
      as (_ & Hitem & _).
    rewrite (Hitem (ItemNode 1) eq_refl). reflexivity.
Defined.

(** ** The key that deletes the selection *)

Lemma issued_issue_all cmds c : issued (issue_all cmds c) = issued c ++ cmds.
Proof.
  revert c. induction cmds as [|cmd cmds IH]; intros c; simpl.
  - now rewrite app_nil_r.
  - rewrite IH. simpl. now rewrite <- app_assoc.
Qed.

Lemma selectedNodes_issue_all cmds c :
  selectedNodes (issue_all cmds c) = selectedNodes c.
Proof.
  revert c. induction cmds as [|cmd cmds IH]; intros c; simpl; [reflexivity|].
  now rewrite IH.
Qed.

Lemma remove_command_issue_all cmds c r :
  remove_command (issue_all cmds c) r = remove_command c r.
Proof.
  revert c. induction cmds as [|cmd cmds IH]; intros c; simpl; [reflexivity|].
  now rewrite IH.
Qed.

Lemma disconnect_selected_run c conn cmd :
  disconnect_command c conn = Some cmd →
  disconnect_selected conn c = Ok tt (issue cmd c).
Proof.
  unfold disconnect_command, disconnect_selected. intros H.
  destruct (connStore c !! conn) as [cn|] eqn:Hcn; [|discriminate].
  destruct (ioletStore c !! source_ cn) as [source|] eqn:Hs; [|discriminate].
  destruct (ioletStore c !! dest_ cn) as [dest|] eqn:Hd; [|discriminate].
  destruct (nodeStore c !! node_ source) as [sourceNode|] eqn:Hsn; [|discriminate].
  destruct (nodeStore c !! node_ dest) as [destNode|] eqn:Hdn; [|discriminate].
  injection H as <-.
  rewrite (bind_Ok _ _ _ _ _ (deref_connection_Some _ _ _ Hcn)).
  rewrite (bind_Ok _ _ _ _ _ (deref_iolet_Some _ _ _ Hs)).
  rewrite (bind_Ok _ _ _ _ _ (deref_node_Some _ _ _ Hsn)).
  rewrite (bind_Ok _ _ _ _ _ (deref_iolet_Some _ _ _ Hd)).
  rewrite (bind_Ok _ _ _ _ _ (deref_node_Some _ _ _ Hdn)).
  reflexivity.
Qed.

Lemma remove_selected_run c r cmd :
  remove_command c r = Some cmd → remove_selected r c = Ok tt (issue cmd c).
Proof.
  unfold remove_command, remove_selected. intros H.
  destruct (nodeStore c !! r) as [n|] eqn:Hn; [|discriminate].
  injection H as <-.
  now rewrite (bind_Ok _ _ _ _ _ (deref_node_Some _ _ _ Hn)).
Qed.

Lemma for_each_disconnect_selected conns : ∀ cmds c,
  Forall2 (fun conn cmd => disconnect_command c conn = Some cmd) conns cmds →
  for_each conns disconnect_selected c = Ok tt (issue_all cmds c).
Proof.
  induction conns as [|conn conns IH]; intros cmds c H.
  - apply Forall2_nil_inv_l in H as ->. reflexivity.
  - apply Forall2_cons_inv_l in H as (cmd & cmds' & Hcmd & Hrest & ->).
    simpl. rewrite (bind_Ok _ _ _ _ _ (disconnect_selected_run _ _ _ Hcmd)).
    apply IH. exact Hrest.
Qed.

Lemma for_each_remove_selected nodes : ∀ cmds c,
  Forall2 (fun r cmd => remove_command c r = Some cmd) nodes cmds →
  for_each nodes remove_selected c = Ok tt (issue_all cmds c).
Proof.
  induction nodes as [|r nodes IH]; intros cmds c H.
  - apply Forall2_nil_inv_l in H as ->. reflexivity.
  - apply Forall2_cons_inv_l in H as (cmd & cmds' & Hcmd & Hrest & ->).
    simpl. rewrite (bind_Ok _ _ _ _ _ (remove_selected_run _ _ _ Hcmd)).
    apply IH. exact Hrest.
Qed.

(** A key press on a canvas where each selected visual has its command. *)
Lemma keyPressEvent_run c disconnects removes :
  Forall2 (fun conn cmd => disconnect_command c conn = Some cmd)
    (selectedConnections c) disconnects →
  Forall2 (fun r cmd => remove_command c r = Some cmd) (selectedNodes c) removes →
  (isSomeNodeInEditMode c = true → ∀ key, keyPressEvent key c = Ok tt c) ∧
  (isSomeNodeInEditMode c = false →
     ∃ c', keyPressEvent Key_Backspace c = Ok tt c' ∧
           issued c' = issued c ++ disconnects ++ removes).
Proof.
  intros Hd Hr.
  assert (Hkey : ∀ key,
            keyPressEvent key c
            = if Key_eqb key Key_Backspace && negb (isSomeNodeInEditMode c)
              then (for_each (selectedConnections c) disconnect_selected ;;
                    nodes <- gets selectedNodes ;;
                    for_each nodes remove_selected) c
              else Ok tt c).
  { intros key. unfold keyPressEvent, gets, bind at 1.
    destruct (Key_eqb key Key_Backspace && negb (isSomeNodeInEditMode c));
      reflexivity. }
  split.
  - intros Hedit key. now rewrite Hkey, Hedit, andb_false_r.
  - intros Hedit. rewrite Hkey, Hedit. simpl.
    rewrite (bind_Ok _ _ _ _ _ (for_each_disconnect_selected _ _ _ Hd)).
    unfold gets, bind at 1.
    exists (issue_all removes (issue_all disconnects c)). split.
    + apply for_each_remove_selected.
      rewrite selectedNodes_issue_all.
      eapply Forall2_impl; [exact Hr|]. intros r cmd H.
      now rewrite remove_command_issue_all.
    + rewrite !issued_issue_all. now rewrite app_assoc.
Qed.

(** ** Notifications about unknown model nodes *)

Lemma node_unknown n c :
  nodes_ c !! n = None → node n c = Ok None (warn (UnknownNode n) c).
Proof. unfold node. now intros ->. Qed.

Lemma node_known n r c : nodes_ c !! n = Some r → node n c = Ok (Some r) c.
Proof. unfold node. now intros ->. Qed.

(** A handler that goes through the null pointer [node] returned. *)
Lemma unknown_node_faults n c :
  nodes_ c !! n = None →
  let logged := warn (UnknownNode n) c in
  onNodeRemoved n c = Crash NullPointer logged ∧
  (∀ valid, onNodeValidChanged n valid c = Crash NullPointer logged) ∧
  (∀ t, onNodeTextChanged n t c = Crash NullPointer logged) ∧
  (∀ count, onNodeInletCountChanged n count c = Crash NullPointer logged) ∧
  (∀ count, onNodeOutletCountChanged n count c = Crash NullPointer logged).
Proof.
  intros H logged. repeat apply conj; intros;
    unfold onNodeRemoved, onNodeValidChanged, onNodeTextChanged,
      onNodeInletCountChanged, onNodeOutletCountChanged;
    now rewrite (bind_Ok _ _ _ _ _ (node_unknown _ _ H)).
Qed.

(** The handler that tests the pointer, and the removal of a connection, which
    hands the null pointer to [removeItem]. *)
Lemma unknown_identity_absorbed n k pos c :
  (nodes_ c !! n = None →
     onNodePosChanged n pos c = Ok tt (warn (UnknownNode n) c)) ∧
  (connections_ c !! k = None →
     onConnectionRemoved k c
     = Ok tt (warn RemoveNullItem (warn (UnknownConnection k) c))).
Proof.
  split; intros H.
  - unfold onNodePosChanged. now rewrite (bind_Ok _ _ _ _ _ (node_unknown _ _ H)).
  - unfold onConnectionRemoved, connection, bind. now rewrite H.
Qed.

(** C3, where the code departs from the claim.  On a canvas that knows no
    node, [nodeRemoved], [nodeValidChanged], [nodeTextChanged] and the two
    port-count notifications for a node that was never added log the unknown
    node and then go through the null pointer the lookup returned; only
    [nodePosChanged], which tests the pointer, is a logged no-op. *)
Theorem unknown_node_is_dereferenced :
  let c := new_QDataflowCanvas QDataflowTextCompletion_complete in
  let logged := warn (UnknownNode 10) c in
  notify (nodeRemoved 10) c = Crash NullPointer logged ∧
  notify (nodeValidChanged 10 false) c = Crash NullPointer logged ∧
  notify (nodeTextChanged 10 "osc") c = Crash NullPointer logged ∧
  notify (nodeInletCountChanged 10 1) c = Crash NullPointer logged ∧
  notify (nodeOutletCountChanged 10 1) c = Crash NullPointer logged ∧
  notify (nodePosChanged 10 (5, 5)) c = Ok tt logged ∧
  diagnostics logged = [UnknownNode 10].
Proof.
  intros c logged.
  destruct (unknown_node_faults 10 c eq_refl) as (H1 & H2 & H3 & H4 & H5).
  destruct (unknown_identity_absorbed 10 1 (5, 5) c) as [H6 _].
  repeat apply conj; simpl.
  - exact H1.
  - apply H2.
  - apply H3.
  - apply H4.
  - apply H5.
  - apply H6. reflexivity.
  - reflexivity.
Qed.

(** ** The index and the scene under notifications *)

#[local] Instance index_frame_preorder : PreOrder index_frame.
Proof.
  split.
  - intros c. unfold index_frame. repeat apply conj; try reflexivity.
  - intros a b c (Hn & Hk & Hs & Hc & Ha) (Hn' & Hk' & Hs' & Hc' & Ha').
    unfold index_frame. repeat apply conj; try congruence.
    + set_solver.
    + lia.
Qed.

Lemma index_frame_nodeStore f c : index_frame c (upd_nodeStore f c).
Proof. unfold index_frame. simpl. repeat apply conj; reflexivity. Qed.

#[local] Instance index_frame_local : LocalFrame index_frame.
Proof.
  refine {| lf_fine := fun _ => True |};
    first [ exact _ | intros; exact I
          | intros; unfold index_frame; simpl; repeat apply conj; reflexivity ].
Qed.

#[local] Instance index_frame_commit : CommitFrame index_frame.
Proof.
  split; [exact _|].
  intros; unfold index_frame; simpl; repeat apply conj; reflexivity.
Qed.

#[local] Instance index_frame_handler : HandlerFrame index_frame.
Proof.
  refine {| hf_commit := index_frame_commit |};
    intros; unfold index_frame; simpl;
    repeat apply conj; try reflexivity; try lia.
  apply subseteq_difference_l. reflexivity.
Qed.

Lemma index_frame_call_setter s c : index_frame c (call_setter s c).
Proof.
  unfold index_frame.
  destruct s as [show|show|show]; destruct show;
    unfold call_setter, setShowIOletTooltips, setShowObjectHoverFeedback,
      setShowConnectionHoverFeedback, setShowIOletTooltips_false; simpl;
    repeat (match goal with
            | |- context [if ?b then _ else _] => destruct b; simpl
            end);
    repeat apply conj; reflexivity.
Qed.

#[local] Instance index_frame_user : UserFrame index_frame.
Proof.
  refine {| uf_handler := index_frame_handler |}.
  - apply index_frame_call_setter.
  - intros completion c. unfold index_frame. simpl. repeat apply conj; reflexivity.
Qed.

Lemma returns_ret {A} (a : A) : returns (ret a) a.
Proof. intros c b c' [= <- _]. reflexivity. Qed.

Lemma returns_bind {A B} (m : M A) (k : A → M B) b :
  (∀ a, returns (k a) b) → returns (bind m k) b.
Proof.
  intros Hk c b' c' H. apply bind_Ok_inv in H as (a & c1 & _ & H).
  exact (Hk a c1 b' c' H).
Qed.

(** The constructor of a node returns the address it was allocated at. *)
Lemma new_QDataflowNode_effect modelNode c r c' :
  new_QDataflowNode modelNode c = Ok r c' →
  r = nextAddr c ∧ index_frame c c' ∧ (nextAddr c < nextAddr c')%positive.
Proof.
  unfold new_QDataflowNode. intros H.
  apply bind_Ok_inv in H as (r0 & c0 & Halloc & H).
  injection Halloc as <- <-.
  assert (Hr : r = nextAddr c).
  { revert H. generalize (set_nextAddr (Pos.succ (nextAddr c)) c). intros c0.
    revert c0 r c'. change (returns ?m (nextAddr c)) with (returns m (nextAddr c)).
    repeat (apply returns_bind; intros ?). apply returns_ret. }
  apply (steps_Ok index_frame _ _ _ _
           (steps_init_QDataflowNode index_frame modelNode (nextAddr c))) in H.
  split; [exact Hr|].
  destruct H as (Hn & Hk & Hs & Hc & Ha). simpl in *.
  split; [|lia]. unfold index_frame. repeat apply conj; try assumption. lia.
Qed.

Lemma new_QDataflowConnection_effect modelConnection c r c' :
  new_QDataflowConnection modelConnection c = Ok r c' →
  r = nextAddr c ∧ index_frame c c' ∧ (nextAddr c < nextAddr c')%positive.
Proof.
  unfold new_QDataflowConnection. intros H.
  apply bind_Ok_inv in H as (r0 & c0 & Halloc & H).
  injection Halloc as <- <-.
  assert (Hr : r = nextAddr c).
  { revert H. generalize (set_nextAddr (Pos.succ (nextAddr c)) c). intros c0.
    revert c0 r c'. change (returns ?m (nextAddr c)) with (returns m (nextAddr c)).
    repeat (apply returns_bind; intros ?). apply returns_ret. }
  apply (steps_Ok index_frame _ _ _ _
           (steps_init_QDataflowConnection index_frame modelConnection (nextAddr c)))
    in H.
  split; [exact Hr|].
  destruct H as (Hn & Hk & Hsc & Hc & Ha). simpl in *.
  split; [|lia]. unfold index_frame. repeat apply conj; try assumption. lia.
Qed.

(** What each notification does to the indexes and to the scene. *)
Lemma onNodeAdded_effect mdlnode c c' :
  onNodeAdded mdlnode c = Ok tt c' →
  nodes_ c' = <[mn_ptr mdlnode := nextAddr c]> (nodes_ c) ∧
  connections_ c' = connections_ c ∧
  sceneNodes c' = {[nextAddr c]} ∪ sceneNodes c ∧
  sceneConns c' ⊆ sceneConns c ∧
  (nextAddr c < nextAddr c')%positive.
Proof.
  unfold onNodeAdded. intros H.
  apply bind_Ok_inv in H as (r & c1 & Hnew & H).
  apply new_QDataflowNode_effect in Hnew as (-> & (Hn & Hk & Hs & Hc & _) & Ha).
  apply bind_Ok_inv in H as ([] & c2 & Hins & H). injection Hins as <-.
  apply bind_Ok_inv in H as ([] & c3 & Hadd & H). injection Hadd as <-.
  assert (Hrest : index_frame
            (upd_sceneNodes (fun s => {[nextAddr c]} ∪ s)
               (upd_nodes_ <[mn_ptr mdlnode := nextAddr c]> c1)) c').
  { destruct (String.eqb _ _).
    - apply (steps_Ok index_frame) in H; [exact H | apply steps_enterEditMode, _].
    - injection H as <-. reflexivity. }
  destruct Hrest as (Hn' & Hk' & Hs' & Hc' & Ha'). simpl in *.
  repeat apply conj.
  - now rewrite Hn', Hn.
  - now rewrite Hk', Hk.
  - now rewrite Hs', Hs.
  - set_solver.
  - lia.
Qed.

Lemma onNodeRemoved_effect mdlnode c c' :
  onNodeRemoved mdlnode c = Ok tt c' →
  ∃ r, nodes_ c !! mdlnode = Some r ∧
       nodes_ c' = nodes_ c ∧ connections_ c' = connections_ c ∧
       sceneNodes c' = sceneNodes c ∖ {[r]} ∧
       sceneConns c' ⊆ sceneConns c ∧
       (nextAddr c ≤ nextAddr c')%positive.
Proof.
  unfold onNodeRemoved. intros H.
  apply bind_Ok_inv in H as (uinode & c1 & Hnode & H).
  unfold node in Hnode.
  destruct (nodes_ c !! mdlnode) as [r|] eqn:Hr; injection Hnode as <- <-;
    [|apply bind_Ok_inv in H as (? & ? & Hcrash & _); discriminate].
  exists r. split; [reflexivity|].
  apply bind_Ok_inv in H as (e & c2 & He & H).
  apply (steps_Ok index_frame) in He; [|apply steps_isInEditMode, _].
  apply bind_Ok_inv in H as ([] & c3 & Hexit & H).
  assert (Hexit' : index_frame c2 c3).
  { destruct e.
    - apply (steps_Ok index_frame) in Hexit; [exact Hexit | apply steps_exitEditMode, _].
    - injection Hexit as <-. reflexivity. }
  assert (H03 : index_frame c c3) by (etransitivity; eassumption).
  destruct H03 as (Hn & Hk & Hs & Hc & Ha).
  simpl in H. unfold scene_removeNode in H.
  destruct (decide (r ∈ sceneNodes c3)) as [Hin|Hout].
  - injection H as <-.
    destruct (decide (_ = _)); simpl; repeat apply conj; try assumption;
      now rewrite Hs.
  - injection H as <-. simpl. repeat apply conj; try assumption.
    rewrite Hs in *. set_solver.
Qed.

Lemma onConnectionAdded_effect mdlconn c c' :
  onConnectionAdded mdlconn c = Ok tt c' →
  nodes_ c' = nodes_ c ∧
  connections_ c' = <[mc_ptr mdlconn := nextAddr c]> (connections_ c) ∧
  sceneNodes c' = sceneNodes c ∧
  sceneConns c' ⊆ {[nextAddr c]} ∪ sceneConns c ∧
  (nextAddr c < nextAddr c')%positive.
Proof.
  unfold onConnectionAdded. intros H.
  apply bind_Ok_inv in H as (r & c1 & Hnew & H).
  apply new_QDataflowConnection_effect in Hnew
    as (-> & (Hn & Hk & Hs & Hc & _) & Ha).
  apply bind_Ok_inv in H as ([] & c2 & Hins & H). injection Hins as <-.
  injection H as <-. simpl.
  repeat apply conj; try assumption.
  - now rewrite Hk.
  - set_solver.
Qed.

Lemma onConnectionRemoved_effect mdlconn c c' :
  onConnectionRemoved mdlconn c = Ok tt c' →
  nodes_ c' = nodes_ c ∧ connections_ c' = connections_ c ∧
  sceneNodes c' = sceneNodes c ∧
  sceneConns c' ⊆ sceneConns c ∧
  (∀ r, connections_ c !! mdlconn = Some r → r ∉ sceneConns c') ∧
  (nextAddr c ≤ nextAddr c')%positive.
Proof.
  unfold onConnectionRemoved, connection, bind. intros H.
  destruct (connections_ c !! mdlconn) as [r|] eqn:Hr; simpl in H.
  - unfold scene_removeConnection in H.
    destruct (decide (r ∈ sceneConns c)); injection H as <-; simpl;
      repeat apply conj; try reflexivity; try set_solver.
  - injection H as <-. simpl. repeat apply conj; try reflexivity.
    intros r [=].
Qed.

Lemma tracks_index_frame liveN liveC c c' :
  index_frame c c' → tracks liveN liveC c → tracks liveN liveC c'.
Proof.
  intros (Hn & Hk & Hs & Hc & Ha) (T1 & T2 & T3 & T4 & T5 & T6).
  unfold tracks. rewrite Hn, Hk, Hs. repeat apply conj; try assumption.
  - intros n r H. specialize (T1 n r H). lia.
  - intros k r H. specialize (T2 k r H). lia.
  - intros k r H Hin. apply (T6 k r H). apply Hc, Hin.
Qed.

Lemma tracks_notify e liveN liveC c c' :
  tracks liveN liveC c → notify e c = Ok tt c' →
  tracks (live_nodes_from liveN [e]) (live_connections_from liveC [e]) c' ∧
  dom (nodes_ c') = announced_nodes [e] ∪ dom (nodes_ c) ∧
  dom (connections_ c') = announced_connections [e] ∪ dom (connections_ c).
Proof.
  intros T H.
  assert (Hframe : index_frame c c' →
            tracks liveN liveC c' ∧
            dom (nodes_ c') = ∅ ∪ dom (nodes_ c) ∧
            dom (connections_ c') = ∅ ∪ dom (connections_ c)).
  { intros F. split; [now apply (tracks_index_frame _ _ c)|].
    destruct F as (-> & -> & _). split; now rewrite union_empty_l_L. }
  destruct e as [n|n|n v|n pos|n t|n count|n count|k|k]; simpl in H |- *.
  - (* nodeAdded *)
    apply onNodeAdded_effect in H as (Hn & Hk & Hs & Hc & Ha).
    destruct T as (T1 & T2 & T3 & T4 & T5 & T6).
    split; [|split].
    + unfold tracks. rewrite Hn, Hk, Hs. repeat apply conj.
      * intros m r. rewrite lookup_insert. case_decide.
        -- intros [= <-]. exact Ha.
        -- intros Hm. specialize (T1 m r Hm). lia.
      * intros m r Hm. specialize (T2 m r Hm). lia.
      * intros m m' r. rewrite !lookup_insert.
        case_decide; case_decide; try congruence.
        -- intros [= <-] H'. specialize (T1 m' _ H'). lia.
        -- intros H' [= <-]. specialize (T1 m _ H'). lia.
        -- apply T3.
      * exact T4.
      * intros m. rewrite elem_of_union, elem_of_singleton, T5.
        rewrite lookup_insert. case_decide as E.
        -- split; [|intros _; now left].
           intros _. exists (nextAddr c). split; [reflexivity|].
           apply elem_of_union. left. now apply elem_of_singleton.
        -- split.
           ++ intros [->|(r & Hr & Hin)]; [congruence|].
              exists r. split; [exact Hr|]. apply elem_of_union. now right.
           ++ intros (r & Hr & Hin). right. exists r. split; [exact Hr|].
              apply elem_of_union in Hin as [Hin|Hin]; [|exact Hin].
              apply elem_of_singleton in Hin as ->.
              specialize (T1 m _ Hr). lia.
      * intros m r Hm Hin. apply (T6 m r Hm). apply Hc, Hin.
    + rewrite Hn, dom_insert_L. now rewrite union_empty_r_L.
    + rewrite Hk. now rewrite union_empty_l_L.
  - (* nodeRemoved *)
    apply onNodeRemoved_effect in H as (r & Hr & Hn & Hk & Hs & Hc & Ha).
    destruct T as (T1 & T2 & T3 & T4 & T5 & T6).
    split; [|split].
    + unfold tracks. rewrite Hn, Hk, Hs. repeat apply conj; try assumption.
      * intros m r' Hm. specialize (T1 m r' Hm). lia.
      * intros m r' Hm. specialize (T2 m r' Hm). lia.
      * intros m. rewrite elem_of_difference, elem_of_singleton, T5. split.
        -- intros [(r' & Hr' & Hin) Hne]. exists r'. split; [exact Hr'|].
           apply elem_of_difference. split; [exact Hin|].
           rewrite elem_of_singleton. intros ->. apply Hne. now apply (T3 m n r).
        -- intros (r' & Hr' & Hin). apply elem_of_difference in Hin as [Hin Hne].
           split; [now exists r'|]. intros ->.
           apply Hne, elem_of_singleton. congruence.
      * intros m r' Hm Hin. apply (T6 m r' Hm). apply Hc, Hin.
    + rewrite Hn. now rewrite union_empty_l_L.
    + rewrite Hk. now rewrite union_empty_l_L.
  - apply Hframe. apply (steps_Ok index_frame _ _ _ _ (steps_onNodeValidChanged _ n v) H).
  - apply Hframe. apply (steps_Ok index_frame _ _ _ _ (steps_onNodePosChanged _ n pos) H).
  - apply Hframe. apply (steps_Ok index_frame _ _ _ _ (steps_onNodeTextChanged _ n t) H).
  - apply Hframe.
    apply (steps_Ok index_frame _ _ _ _ (steps_onNodeInletCountChanged _ n count) H).
  - apply Hframe.
    apply (steps_Ok index_frame _ _ _ _ (steps_onNodeOutletCountChanged _ n count) H).
  - (* connectionAdded *)
    apply onConnectionAdded_effect in H as (Hn & Hk & Hs & Hc & Ha).
    destruct T as (T1 & T2 & T3 & T4 & T5 & T6).
    split; [|split].
    + unfold tracks. rewrite Hn, Hk, Hs. repeat apply conj; try assumption.
      * intros m r Hm. specialize (T1 m r Hm). lia.
      * intros m r. rewrite lookup_insert. case_decide.
        -- intros [= <-]. exact Ha.
        -- intros Hm. specialize (T2 m r Hm). lia.
      * intros m m' r. rewrite !lookup_insert.
        case_decide; case_decide; try congruence.
        -- intros [= <-] H'. specialize (T2 m' _ H'). lia.
        -- intros H' [= <-]. specialize (T2 m _ H'). lia.
        -- apply T4.
      * intros m r. rewrite lookup_insert, elem_of_union, elem_of_singleton.
        case_decide as E; [intros _ _; now left|].
        intros Hm Hin. right. apply (T6 m r Hm).
        apply Hc, elem_of_union in Hin as [Hin|Hin]; [|exact Hin].
        apply elem_of_singleton in Hin as ->. specialize (T2 m _ Hm). lia.
    + rewrite Hn. now rewrite union_empty_l_L.
    + rewrite Hk, dom_insert_L. now rewrite union_empty_r_L.
  - (* connectionRemoved *)
    apply onConnectionRemoved_effect in H as (Hn & Hk & Hs & Hc & Hgone & Ha).
    destruct T as (T1 & T2 & T3 & T4 & T5 & T6).
    split; [|split].
    + unfold tracks. rewrite Hn, Hk, Hs. repeat apply conj; try assumption.
      * intros m r' Hm. specialize (T1 m r' Hm). lia.
      * intros m r' Hm. specialize (T2 m r' Hm). lia.
      * intros m r Hm Hin. apply elem_of_difference. split.
        -- apply (T6 m r Hm). apply Hc, Hin.
        -- rewrite elem_of_singleton. intros ->. now apply (Hgone r).
    + rewrite Hn. now rewrite union_empty_l_L.
    + rewrite Hk. now rewrite union_empty_l_L.
Qed.

Lemma live_nodes_from_cons live e es :
  live_nodes_from live (e :: es) = live_nodes_from (live_nodes_from live [e]) es.
Proof. now destruct e. Qed.

Lemma live_connections_from_cons live e es :
  live_connections_from live (e :: es)
  = live_connections_from (live_connections_from live [e]) es.
Proof. now destruct e. Qed.

Lemma announced_nodes_cons e es :
  announced_nodes (e :: es) = announced_nodes [e] ∪ announced_nodes es.
Proof.
  destruct e; simpl; rewrite ?union_empty_l_L, ?union_empty_r_L; reflexivity.
Qed.

Lemma announced_connections_cons e es :
  announced_connections (e :: es)
  = announced_connections [e] ∪ announced_connections es.
Proof.
  destruct e; simpl; rewrite ?union_empty_l_L, ?union_empty_r_L; reflexivity.
Qed.

Lemma tracks_for_each_handle evs : ∀ liveN liveC c c',
  tracks liveN liveC c → for_each evs handle c = Ok tt c' →
  tracks (live_nodes_from liveN (notifications evs))
         (live_connections_from liveC (notifications evs)) c' ∧
  dom (nodes_ c') = announced_nodes (notifications evs) ∪ dom (nodes_ c) ∧
  dom (connections_ c')
  = announced_connections (notifications evs) ∪ dom (connections_ c).
Proof.
  induction evs as [|ev evs IH]; intros liveN liveC c c' T H.
  - injection H as <-. simpl. now rewrite !union_empty_l_L.
  - simpl in H. apply bind_Ok_inv in H as ([] & c1 & He & H).
    destruct ev as [e|u]; simpl in He.
    + destruct (tracks_notify e liveN liveC c c1 T He) as (T1 & Hn1 & Hk1).
      destruct (IH _ _ c1 c' T1 H) as (T' & Hn' & Hk').
      change (notifications (Notified e :: evs)) with (e :: notifications evs).
      rewrite live_nodes_from_cons, live_connections_from_cons.
      rewrite announced_nodes_cons, announced_connections_cons.
      split; [exact T'|]. rewrite Hn', Hk', Hn1, Hk1.
      split; set_solver.
    + assert (F := steps_Ok index_frame _ _ _ _ (steps_handle_user _ u) He).
      destruct (IH _ _ c1 c' (tracks_index_frame _ _ c c1 F T) H) as (T' & Hn' & Hk').
      destruct F as (Fn & Fk & _).
      change (notifications (Received u :: evs)) with (notifications evs).
      split; [exact T'|]. now rewrite Hn', Hk', Fn, Fk.
Qed.

Lemma tracks_new_QDataflowCanvas completion :
  tracks ∅ ∅ (new_QDataflowCanvas completion).
Proof.
  unfold tracks. simpl. repeat apply conj; try (intros; now simplify_map_eq).
  intros n. split; [intros H; now apply not_elem_of_empty in H|].
  intros (r & H & _). now simplify_map_eq.
Qed.

(** C1 as amended.  After any finite sequence of notifications, with
    whatever events of the user and calls of the application in between, that
    the handlers got through, starting from a new canvas: a model node is
    alive exactly when the index holds a visual for it that is in the scene;
    an indexed connection visual that is in the scene belongs to a model
    connection that is alive; no visual is indexed under two identities; and
    the index is never pruned, it holds an entry for every node and every
    connection that was ever announced.  So after [nodeRemoved n] the visual
    of [n] is out of the scene, and the lookup of [n] still finds it. *)
Theorem index_is_kept_scene_follows_model completion evs c :
  let es := notifications evs in
  for_each evs handle (new_QDataflowCanvas completion) = Ok tt c →
  (∀ n, n ∈ live_nodes es ↔ ∃ r, nodes_ c !! n = Some r ∧ r ∈ sceneNodes c) ∧
  (∀ k r, connections_ c !! k = Some r → r ∈ sceneConns c →
          k ∈ live_connections es) ∧
  (∀ n n' r, nodes_ c !! n = Some r → nodes_ c !! n' = Some r → n = n') ∧
  (∀ k k' r, connections_ c !! k = Some r → connections_ c !! k' = Some r →
             k = k') ∧
  dom (nodes_ c) = announced_nodes es ∧
  dom (connections_ c) = announced_connections es ∧
  (∀ n, n ∈ announced_nodes es → n ∉ live_nodes es →
        ∃ r, node n c = Ok (Some r) c ∧ r ∉ sceneNodes c).
Proof.
  intros es H.
  destruct (tracks_for_each_handle evs ∅ ∅ _ c
              (tracks_new_QDataflowCanvas completion) H)
    as ((T1 & T2 & T3 & T4 & T5 & T6) & Hn & Hk).
  simpl in Hn, Hk. rewrite dom_empty_L, union_empty_r_L in Hn, Hk.
  repeat apply conj; try assumption.
  intros n Hann Hdead. unfold es in Hann. rewrite <- Hn in Hann.
  apply elem_of_dom in Hann as [r Hr]. exists r.
  split; [now apply node_known|].
  intros Hin. apply Hdead, T5. now exists r.
Qed.

Lemma index_is_kept_scene_follows_model_witness :
  ∃ c, for_each [Notified (nodeAdded (mkModelNode 10 "osc" 0 1 (0, 0)));
                 Received (NodeSelected 1 true);
                 Notified (nodeAdded (mkModelNode 20 "dac" 1 0 (0, 40)));
                 Notified (nodeRemoved 10)] handle
         (new_QDataflowCanvas QDataflowTextCompletion_complete) = Ok tt c ∧
       dom (nodes_ c) = {[10%positive; 20%positive]}.
Proof.
  eexists. split; [vm_compute; reflexivity|].
  edestruct (index_is_kept_scene_follows_model QDataflowTextCompletion_complete
               [Notified (nodeAdded (mkModelNode 10 "osc" 0 1 (0, 0)));
                Received (NodeSelected 1 true);
                Notified (nodeAdded (mkModelNode 20 "dac" 1 0 (0, 40)));
                Notified (nodeRemoved 10)]) as (_ & _ & _ & _ & Hdom & _).
  - vm_compute. reflexivity.
  - rewrite Hdom. simpl. set_solver.
Defined.

(** C1, the claim as stated, fails: after a node was added and removed, and
    after a connection was added and removed, the lookup of the dead node and
    of the dead connection each return the visual, which is out of the scene,
    and log nothing. *)
Lemma removed_visuals_stay_in_the_index :
  let es := [nodeAdded (mkModelNode 10 "osc" 0 1 (0, 0));
             nodeAdded (mkModelNode 20 "dac" 1 0 (0, 40));
             connectionAdded (mkModelConnection 30 (10%positive, 0) (20%positive, 0));
             connectionRemoved 30;
             nodeRemoved 10] in
  ∃ c, notify_all es (new_QDataflowCanvas QDataflowTextCompletion_complete) = Ok tt c ∧
       (10%positive ∉ live_nodes es) ∧ (30%positive ∉ live_connections es) ∧
       node 10 c = Ok (Some 1%positive) c ∧ (1%positive ∉ sceneNodes c) ∧
       connection 30 c = Ok (Some 5%positive) c ∧ (5%positive ∉ sceneConns c) ∧
       diagnostics c = [].
Proof.
  intros es. eexists. split; [vm_compute; reflexivity|].
  repeat apply conj.
  - unfold es, live_nodes. simpl. set_solver.
  - unfold es, live_connections. simpl. set_solver.
  - reflexivity.
  - vm_compute. intros H. inversion H.
  - reflexivity.
  - vm_compute. intros H. inversion H.
  - reflexivity.
Qed.

(** ** Shrinking a port list *)

Lemma remove_connections_run xs : ∀ c, ∃ c' seg,
  for_each xs scene_removeConnection c = Ok tt c' ∧
  sceneConns c' = sceneConns c ∖ list_to_set xs ∧
  nodeStore c' = nodeStore c ∧ ioletStore c' = ioletStore c ∧
  connStore c' = connStore c ∧ sceneNodes c' = sceneNodes c ∧
  sceneLog c' = sceneLog c ++ seg ∧
  (∀ x, x ∈ xs → x ∈ sceneConns c → RemovedConnection x ∈ seg).
Proof.
  induction xs as [|x xs IH]; intros c.
  - exists c, []. simpl. repeat apply conj; try reflexivity.
    + set_solver.
    + now rewrite app_nil_r.
    + intros x Hx. now apply not_elem_of_nil in Hx.
  - assert (∃ c1 seg1, scene_removeConnection x c = Ok tt c1 ∧
              sceneConns c1 = sceneConns c ∖ {[x]} ∧
              nodeStore c1 = nodeStore c ∧ ioletStore c1 = ioletStore c ∧
              connStore c1 = connStore c ∧ sceneNodes c1 = sceneNodes c ∧
              sceneLog c1 = sceneLog c ++ seg1 ∧
              (x ∈ sceneConns c → RemovedConnection x ∈ seg1))
      as (c1 & seg1 & Hrun & Hs1 & Hn1 & Hio1 & Hcn1 & Hsn1 & Hlog1 & Hx1).
    { unfold scene_removeConnection. destruct (decide (x ∈ sceneConns c)) as [Hin|Hout].
      - eexists _, [RemovedConnection x]. repeat apply conj; try reflexivity.
        intros _. apply list_elem_of_singleton. reflexivity.
      - eexists _, []. repeat apply conj; try reflexivity.
        + simpl. set_solver.
        + simpl. now rewrite app_nil_r.
        + intros Hin. contradiction. }
    destruct (IH c1) as (c' & seg & Hrest & Hs & Hn & Hio & Hcn & Hsn & Hlog & Hx).
    exists c', (seg1 ++ seg). simpl.
    rewrite (bind_Ok _ _ _ _ _ Hrun).
    repeat apply conj; try congruence.
    + rewrite Hs, Hs1. set_solver.
    + rewrite Hlog, Hlog1. now rewrite app_assoc.
    + intros y Hy Hin. apply elem_of_app.
      destruct (decide (y = x)) as [->|Hne]; [left; now apply Hx1|].
      right. apply Hx.
      * apply elem_of_cons in Hy as [?|Hy]; [contradiction | exact Hy].
      * rewrite Hs1. apply elem_of_difference. split; [exact Hin|].
        now rewrite elem_of_singleton.
Qed.

Lemma set_iolets_iolets k n : set_iolets k (iolets k n) n = n.
Proof. destruct k, n; reflexivity. Qed.

Lemma iolets_set_iolets k l n : iolets k (set_iolets k l n) = l.
Proof. destruct k; reflexivity. Qed.

Lemma set_iolets_twice k l l' n :
  set_iolets k l (set_iolets k l' n) = set_iolets k l n.
Proof. destruct k; reflexivity. Qed.

(** One turn of the first loop, on a node whose last port is [p]. *)
Lemma drop_last_iolet_run k r n l p io c :
  nodeStore c !! r = Some n → iolets k n = l ++ [p] →
  ioletStore c !! p = Some io →
  ∃ c' seg,
    drop_last_iolet k r c = Ok tt c' ∧
    nodeStore c' = <[r := set_iolets k l n]> (nodeStore c) ∧
    ioletStore c' = delete p (ioletStore c) ∧
    connStore c' = connStore c ∧
    sceneConns c' = sceneConns c ∖ list_to_set (io_connections_ io) ∧
    sceneLog c' = sceneLog c ++ seg ++ [DeletedIOlet p] ∧
    (∀ x, x ∈ io_connections_ io → x ∈ sceneConns c → RemovedConnection x ∈ seg).
Proof.
  intros Hn Hl Hp. unfold drop_last_iolet.
  rewrite (bind_Ok _ _ _ _ _ (deref_node_Some _ _ _ Hn)).
  rewrite Hl, last_snoc.
  rewrite (bind_Ok _ _ _ _ _ (deref_iolet_Some _ _ _ Hp)).
  destruct (remove_connections_run (io_connections_ io) c)
    as (c1 & seg1 & Hrun & Hs1 & Hn1 & Hio1 & Hcn1 & Hsn1 & Hlog1 & Hx1).
  rewrite (bind_Ok _ _ _ _ _ Hrun).
  assert (Hp1 : ioletStore c1 !! p = Some io) by now rewrite Hio1.
  assert (∃ c2 seg2, scene_removeIOlet p c1 = Ok tt c2 ∧
            sceneConns c2 = sceneConns c1 ∧ nodeStore c2 = nodeStore c1 ∧
            ioletStore c2 = ioletStore c1 ∧ connStore c2 = connStore c1 ∧
            sceneLog c2 = sceneLog c1 ++ seg2)
    as (c2 & seg2 & Hrun2 & Hs2 & Hn2 & Hio2 & Hcn2 & Hlog2).
  { unfold scene_removeIOlet.
    rewrite (bind_Ok _ _ _ _ _ (deref_iolet_Some _ _ _ Hp1)).
    destruct (decide (node_ io ∈ sceneNodes c1)).
    - eexists _, [RemovedIOlet p]. repeat apply conj; reflexivity.
    - eexists _, []. repeat apply conj; try reflexivity.
      simpl. now rewrite app_nil_r. }
  rewrite (bind_Ok _ _ _ _ _ Hrun2).
  assert (Hnode2 : nodeStore c2 !! r = Some n) by now rewrite Hn2, Hn1.
  rewrite (bind_Ok _ _ _ _ _ (upd_node_Some _ _ _ _ Hnode2)).
  rewrite Hl, removelast_last.
  eexists _, (seg1 ++ seg2). split; [reflexivity|]. simpl.
  repeat apply conj.
  - now rewrite Hn2, Hn1.
  - now rewrite Hio2, Hio1.
  - now rewrite Hcn2, Hcn1.
  - now rewrite Hs2, Hs1.
  - rewrite Hlog2, Hlog1. now rewrite <- !app_assoc.
  - intros x Hx Hin. apply elem_of_app. left. now apply Hx1.
Qed.

Lemma shrink_loop_unfold fuel k r count :
  shrink_loop fuel k r count
  = (n <- deref_node r ;;
     if Z.of_nat (length (iolets k n)) >? count then
       match fuel with
       | O => crash OutOfFuel
       | S fuel' => drop_last_iolet k r ;; shrink_loop fuel' k r count
       end
     else ret tt).
Proof. destruct fuel; reflexivity. Qed.

Lemma before_app_l a b l l' : before a b l' → before a b (l ++ l').
Proof.
  intros (l1 & l2 & l3 & ->). exists (l ++ l1), l2, l3. now rewrite <- app_assoc.
Qed.

Lemma before_split a b l l' : a ∈ l → b ∈ l' → before a b (l ++ l').
Proof.
  intros (l1 & l2 & ->)%list_elem_of_split (m1 & m2 & ->)%list_elem_of_split.
  exists l1, (l2 ++ m1), m2. now rewrite <- !app_assoc.
Qed.

(** The first loop of [setInletCount] / [setOutletCount], on a node whose
    ports are [keep ++ d] with [count] the length of [keep]. *)
Lemma shrink_loop_run k r count d : ∀ keep fuel n c,
  nodeStore c !! r = Some n → iolets k n = keep ++ d →
  Z.of_nat (length keep) = count → (length d ≤ fuel)%nat → NoDup d →
  (∀ p, p ∈ d → is_Some (ioletStore c !! p)) →
  ∃ c' S,
    shrink_loop fuel k r count c = Ok tt c' ∧
    nodeStore c' = <[r := set_iolets k keep n]> (nodeStore c) ∧
    (∀ q, ioletStore c' !! q = if decide (q ∈ d) then None else ioletStore c !! q) ∧
    connStore c' = connStore c ∧
    sceneConns c' ⊆ sceneConns c ∧
    sceneLog c' = sceneLog c ++ S ∧
    (∀ x, x ∈ sceneConns c → x ∉ sceneConns c' → RemovedConnection x ∈ S) ∧
    (∀ p, p ∈ d → DeletedIOlet p ∈ S) ∧
    (∀ p io x, p ∈ d → ioletStore c !! p = Some io → x ∈ io_connections_ io →
       (x ∉ sceneConns c') ∧
       (x ∈ sceneConns c → before (RemovedConnection x) (DeletedIOlet p) S)).
Proof.
  induction d as [|p d IH] using rev_ind; intros keep fuel n c Hn Hl Hcount Hfuel Hnd Hlive.
  - exists c, []. rewrite app_nil_r in Hl.
    rewrite shrink_loop_unfold, (bind_Ok _ _ _ _ _ (deref_node_Some _ _ _ Hn)).
    rewrite Hl. destruct (Z.gtb_spec (Z.of_nat (length keep)) count); [lia|].
    repeat apply conj; try reflexivity.
    + rewrite <- Hl, set_iolets_iolets. symmetry. now apply insert_id.
    + now rewrite app_nil_r.
    + intros x Hin Hout. contradiction.
    + intros q Hq. now apply not_elem_of_nil in Hq.
    + intros q io x Hq. now apply not_elem_of_nil in Hq.
  - rewrite app_assoc in Hl. rewrite length_app in Hfuel. simpl in Hfuel.
    destruct fuel as [|fuel]; [lia|].
    apply NoDup_app in Hnd as (Hnd & Hfresh & _).
    assert (Hp : p ∉ d).
    { intros Hin. apply (Hfresh p Hin). now apply list_elem_of_singleton. }
    destruct (Hlive p) as [io Hio]; [apply elem_of_app; right; now left|].
    destruct (drop_last_iolet_run k r n (keep ++ d) p io c Hn Hl Hio)
      as (c1 & seg & Hrun & Hn1 & Hio1 & Hcn1 & Hs1 & Hlog1 & Hx1).
    set (n1 := set_iolets k (keep ++ d) n) in *.
    assert (Hnode1 : nodeStore c1 !! r = Some n1).
    { rewrite Hn1. apply lookup_insert_eq. }
    destruct (IH keep fuel n1 c1 Hnode1) as
      (c' & S' & Hloop & Hn' & Hio' & Hcn' & Hs' & Hlog' & Hrem' & Hdel' & Hbef').
    { unfold n1. apply iolets_set_iolets. }
    { exact Hcount. }
    { lia. }
    { exact Hnd. }
    { intros q Hq. rewrite Hio1, lookup_delete_ne; [|intros ->; contradiction].
      apply Hlive, elem_of_app. now left. }
    exists c', (seg ++ DeletedIOlet p :: S').
    rewrite shrink_loop_unfold, (bind_Ok _ _ _ _ _ (deref_node_Some _ _ _ Hn)).
    rewrite Hl, length_app. simpl.
    destruct (Z.gtb_spec (Z.of_nat (length (keep ++ d) + 1)) count) as [_|Hle];
      [|rewrite length_app in Hle; lia].
    rewrite (bind_Ok _ _ _ _ _ Hrun).
    repeat apply conj.
    + exact Hloop.
    + rewrite Hn', Hn1. unfold n1. rewrite set_iolets_twice.
      apply insert_insert_eq.
    + intros q. rewrite Hio', Hio1.
      destruct (decide (q ∈ d)) as [Hq|Hq].
      * rewrite decide_True; [reflexivity|]. apply elem_of_app. now left.
      * destruct (decide (q = p)) as [->|Hne].
        -- rewrite lookup_delete_eq.
           rewrite decide_True; [reflexivity|]. apply elem_of_app. right. now left.
        -- rewrite lookup_delete_ne by congruence.
           rewrite decide_False; [reflexivity|].
           intros [?|Hin%list_elem_of_singleton]%elem_of_app; contradiction.
    + now rewrite Hcn', Hcn1.
    + etransitivity; [exact Hs'|]. rewrite Hs1. apply subseteq_difference_l.
      reflexivity.
    + rewrite Hlog', Hlog1. now rewrite <- !app_assoc.
    + intros x Hin Hout.
      destruct (decide (x ∈ sceneConns c1)) as [Hin1|Hout1].
      * apply elem_of_app. right. apply elem_of_cons. right. now apply Hrem'.
      * apply elem_of_app. left. apply Hx1; [|exact Hin].
        rewrite Hs1 in Hout1.
        destruct (decide (x ∈ io_connections_ io)) as [?|Hno]; [assumption|].
        exfalso. apply Hout1. apply elem_of_difference. split; [exact Hin|].
        now rewrite elem_of_list_to_set.
    + intros q [Hq|Hq%list_elem_of_singleton]%elem_of_app.
      * apply elem_of_app. right. apply elem_of_cons. right. now apply Hdel'.
      * subst q. apply elem_of_app. right. apply elem_of_cons. now left.
    + intros q ioq x [Hq|Hq%list_elem_of_singleton]%elem_of_app Hioq Hx.
      * assert (Hioq1 : ioletStore c1 !! q = Some ioq).
        { rewrite Hio1, lookup_delete_ne; [exact Hioq|]. intros ->. contradiction. }
        destruct (Hbef' q ioq x Hq Hioq1 Hx) as [Hgone Hbefore].
        split; [exact Hgone|]. intros Hin.
        destruct (decide (x ∈ sceneConns c1)) as [Hin1|Hout1].
        -- change (seg ++ DeletedIOlet p :: S')
             with (seg ++ [DeletedIOlet p] ++ S').
           rewrite app_assoc. apply before_app_l. now apply Hbefore.
        -- change (seg ++ DeletedIOlet p :: S')
             with (seg ++ [DeletedIOlet p] ++ S').
           rewrite app_assoc. apply before_split; [|now apply Hdel'].
           apply elem_of_app. left. apply Hx1; [|exact Hin].
           rewrite Hs1 in Hout1.
           destruct (decide (x ∈ io_connections_ io)) as [?|Hno]; [assumption|].
           exfalso. apply Hout1. apply elem_of_difference. split; [exact Hin|].
           now rewrite elem_of_list_to_set.
      * subst q. assert (ioq = io) as -> by congruence.
        assert (Hgone1 : x ∉ sceneConns c1).
        { rewrite Hs1. intros [_ Hno]%elem_of_difference. apply Hno.
          now apply elem_of_list_to_set. }
        split; [intros Hin'; apply Hgone1, Hs', Hin'|].
        intros Hin. apply before_split; [now apply Hx1|].
        apply elem_of_cons. now left.
Qed.

(** ** What holds of every label of a reachable canvas *)

(** An invariant of the handlers that holds in a new canvas holds wherever
    the program gets. *)
Lemma reachable_keeps (I : QDataflowCanvas → Prop) `{!EventFrame (keeps I)} :
  (∀ completion, I (new_QDataflowCanvas completion)) →
  ∀ c, reachable c → I c.
Proof.
  intros Hnew c. induction 1 as [completion|ev c c' _ IH H]; [apply Hnew|].
  exact (steps_Ok (keeps I) _ _ _ _ (steps_handle _ ev) H IH).
Qed.

#[local] Instance keeps_preorder I : PreOrder (keeps I).
Proof. split; unfold keeps; [intros c; tauto | intros a b c; tauto]. Qed.

Lemma labels_ok_insert r n c :
  label_ok (textItem_ n) → labels_ok c → labels_ok (upd_nodeStore <[r := n]> c).
Proof.
  intros Hn Hc r' n'. simpl. rewrite lookup_insert. case_decide.
  - intros [= <-]. exact Hn.
  - apply Hc.
Qed.

#[local] Instance keeps_labels_local : LocalFrame (keeps labels_ok).
Proof.
  refine {| lf_fine := label_ok |}.
  - apply clearCompletion_ok.
  - apply setCompletion_ok.
  - apply set_plainText_ok.
  - apply set_textEditable_ok.
  - intros fuel d l l' Hl H. exact (cycleCompletion_ok fuel d l l' Hl H).
  - intros r n n' c Hn _ _ Hfine Hc. apply labels_ok_insert; [|exact Hc].
    apply Hfine, (Hc r n Hn).
  - intros o c Hc. exact Hc.
  - intros d c Hc. exact Hc.
Defined.

#[local] Instance keeps_labels_commit : CommitFrame (keeps labels_ok).
Proof. split; [exact _|]. intros cmd c Hc. exact Hc. Defined.

#[local] Instance keeps_labels_handler : HandlerFrame (keeps labels_ok).
Proof.
  refine {| hf_commit := keeps_labels_commit |}.
  - intros r n c Hn Hc. now apply labels_ok_insert.
  - intros r n k l c Hn Hc. apply labels_ok_insert; [|exact Hc].
    destruct k; exact (Hc r n Hn).
  - intros f c Hc. exact Hc.
  - intros f c Hc. exact Hc.
  - intros c Hc. exact Hc.
  - intros o c Hc. exact Hc.
  - intros r c Hc. exact Hc.
Defined.

Lemma labels_ok_alter_nodes (f : QDataflowNode → QDataflowNode) (rs : list addr)
    (st : gmap addr QDataflowNode) :
  (∀ n, textItem_ (f n) = textItem_ n) →
  (∀ r n, st !! r = Some n → label_ok (textItem_ n)) →
  ∀ r n, foldr (fun r st => alter f r st) st rs !! r = Some n →
         label_ok (textItem_ n).
Proof.
  intros Hf Hst. induction rs as [|a rs IH]; simpl; [exact Hst|].
  intros r n. rewrite lookup_alter. case_decide.
  - subst a. destruct (foldr _ st rs !! r) as [n0|] eqn:E; simpl; [|discriminate].
    intros [= <-]. rewrite Hf. exact (IH r n0 E).
  - apply IH.
Qed.

Lemma labels_ok_setShowObjectHoverFeedback show c :
  labels_ok c → labels_ok (setShowObjectHoverFeedback show c).
Proof.
  intros Hc. unfold setShowObjectHoverFeedback.
  intros r n. simpl. apply labels_ok_alter_nodes; [reflexivity|].
  destruct show; [|exact Hc]. simpl. now destruct (showIOletsTooltips_ c).
Qed.

Lemma labels_ok_setShowConnectionHoverFeedback show c :
  labels_ok c → labels_ok (setShowConnectionHoverFeedback show c).
Proof.
  intros Hc. unfold setShowConnectionHoverFeedback.
  intros r n. simpl.
  destruct show; [|apply Hc]. simpl. destruct (showIOletsTooltips_ c); apply Hc.
Qed.

Lemma labels_ok_call_setter s c : labels_ok c → labels_ok (call_setter s c).
Proof.
  intros Hc. destruct s as [show|show|show]; simpl.
  - unfold setShowIOletTooltips. destruct show; [|exact Hc].
    set (c1 := set_showIOletsTooltips_ true c).
    assert (H1 : labels_ok c1) by exact Hc.
    cbv zeta.
    destruct (showObjectHoverFeedback_ c1).
    + assert (H2 := labels_ok_setShowObjectHoverFeedback false c1 H1).
      destruct (showConnectionHoverFeedback_ _); [|exact H2].
      now apply labels_ok_setShowConnectionHoverFeedback.
    + destruct (showConnectionHoverFeedback_ _); [|exact H1].
      now apply labels_ok_setShowConnectionHoverFeedback.
  - now apply labels_ok_setShowObjectHoverFeedback.
  - now apply labels_ok_setShowConnectionHoverFeedback.
Qed.

#[local] Instance keeps_labels_user : UserFrame (keeps labels_ok).
Proof.
  refine {| uf_handler := keeps_labels_handler |}.
  - intros s c. exact (labels_ok_call_setter s c).
  - intros completion c Hc. exact Hc.
Defined.

#[local] Instance keeps_labels_event : EventFrame (keeps labels_ok).
Proof. refine {| ef_user := keeps_labels_user |}; intros f c Hc; exact Hc. Defined.

(** In a canvas the program can reach, an active completion overlay has
    candidates, and the highlight is [-1] or the index of a candidate. *)
Lemma reachable_labels_ok c : reachable c → labels_ok c.
Proof.
  apply (reachable_keeps labels_ok). intros completion r n Hn.
  simpl in Hn. now rewrite lookup_empty in Hn.
Qed.

(** ** The stores of a reachable canvas *)

Lemma heap_ok_similar c c' : similar c c' → heap_ok c → heap_ok c'.
Proof.
  intros (Hn & Hp & Hx & Hs & Ha) (H1 & H2 & H3 & H4 & H5 & H6 & H7).
  assert (Hnr : ∀ r n', nodeStore c' !! r = Some n' →
            ∃ n, nodeStore c !! r = Some n ∧ same_ports n n').
  { intros r n' Hr. apply option_Forall2_Some_r. rewrite <- Hr. apply Hn. }
  assert (Hpl : ∀ p io, ioletStore c !! p = Some io →
            ∃ io', ioletStore c' !! p = Some io' ∧ same_links io io').
  { intros p io Hr. apply option_Forall2_Some_l. rewrite <- Hr. apply Hp. }
  assert (Hpr : ∀ p io', ioletStore c' !! p = Some io' →
            ∃ io, ioletStore c !! p = Some io ∧ same_links io io').
  { intros p io Hr. apply option_Forall2_Some_r. rewrite <- Hr. apply Hp. }
  assert (Hxr : ∀ x cn', connStore c' !! x = Some cn' →
            ∃ cn, connStore c !! x = Some cn ∧ same_ends cn cn').
  { intros x cn Hr. apply option_Forall2_Some_r. rewrite <- Hr. apply Hx. }
  unfold heap_ok. repeat apply conj.
  - intros r n' k p Hr Hin. destruct (Hnr r n' Hr) as (n & Hold & Hsame).
    rewrite (iolets_same_ports k _ _ Hsame) in Hin.
    destruct (H1 r n k p Hold Hin) as (io & Hio & Hnode & Hkind).
    destruct (Hpl p io Hio) as (io' & Hio' & Hk & Hnd & _).
    exists io'. repeat split; congruence.
  - intros r n' k Hr. destruct (Hnr r n' Hr) as (n & Hold & Hsame).
    rewrite (iolets_same_ports k _ _ Hsame). exact (H2 r n k Hold).
  - intros p io' Hio'. destruct (Hpr p io' Hio') as (io & Hio & _ & Hnd & _).
    destruct (H3 p io Hio) as [n Hnode]. rewrite Hnd.
    destruct (option_Forall2_Some_l same_ports n (nodeStore c' !! node_ io))
      as (n' & Hn' & _); [rewrite <- Hnode; apply Hn | now exists n'].
  - intros p [io' Hio']. rewrite Ha. apply H4.
    destruct (Hpr p io' Hio') as (io & Hio & _). now exists io.
  - intros x [cn' Hcn']. rewrite Ha. apply H5.
    destruct (Hxr x cn' Hcn') as (cn & Hcn & _). now exists cn.
  - intros x Hin. destruct (H6 x (Hs x Hin)) as [cn Hcn].
    destruct (option_Forall2_Some_l same_ends cn (connStore c' !! x))
      as (cn' & Hcn' & _); [rewrite <- Hcn; apply Hx | now exists cn'].
  - intros x cn' Hin Hcn'.
    destruct (Hxr x cn' Hcn') as (cn & Hcn & Hsrc & Hdst).
    destruct (H7 x cn (Hs x Hin) Hcn)
      as [(src & Hsrc' & Hxs) (dst & Hdst' & Hxd)].
    destruct (Hpl _ _ Hsrc') as (src' & Hsn & _ & _ & Hsl).
    destruct (Hpl _ _ Hdst') as (dst' & Hdn & _ & _ & Hdl).
    split.
    + exists src'. rewrite Hsrc. split; [assumption | now rewrite Hsl].
    + exists dst'. rewrite Hdst. split; [assumption | now rewrite Hdl].
Qed.

Lemma similar_store_iolet p io io' c :
  ioletStore c !! p = Some io → same_links io io' →
  similar c (upd_ioletStore <[p := io']> c).
Proof.
  intros Hp Hl. apply similar_ioletStore.
  exact (option_Forall2_insert same_links _ p io io' Hp Hl).
Qed.

Lemma similar_connection_setSelected r selected :
  steps similar (connection_setSelected r selected).
Proof.
  intros c. unfold connection_setSelected, bind, deref_connection.
  destruct (connStore c !! r) as [cn|] eqn:E; simpl; [|reflexivity].
  apply similar_connStore.
  apply (option_Forall2_insert same_ends _ r cn _ E). now split.
Qed.

Lemma similar_outlet_mousePressEvent p : steps similar (outlet_mousePressEvent p).
Proof.
  intros c. unfold outlet_mousePressEvent, bind, deref_iolet.
  destruct (ioletStore c !! p) as [io|] eqn:E; simpl; [|reflexivity].
  apply (similar_store_iolet p io); [exact E | now repeat split].
Qed.

Lemma similar_outlet_mouseMoveEvent canMake canAccept p event :
  steps similar (outlet_mouseMoveEvent canMake canAccept p event).
Proof.
  intros c. unfold outlet_mouseMoveEvent, bind, deref_iolet, deref_node.
  destruct (ioletStore c !! p) as [io|] eqn:E; simpl; [|reflexivity].
  destruct (tmpConn_ io); simpl; [|reflexivity].
  destruct (nodeStore c !! node_ io) as [n|]; simpl; [|reflexivity].
  destruct (itemAtT_QDataflowInlet _) as [q|]; simpl.
  - destruct (ioletStore c !! q) as [inl|]; simpl; [|reflexivity].
    destruct (nodeStore c !! node_ inl) as [inlNode|]; simpl; [|reflexivity].
    destruct (_ && _); simpl;
      apply (similar_store_iolet p io); solve [exact E | now repeat split].
  - apply (similar_store_iolet p io); [exact E | now repeat split].
Qed.

Lemma similar_outlet_mouseReleaseEvent p event :
  steps similar (outlet_mouseReleaseEvent p event).
Proof.
  intros c. unfold outlet_mouseReleaseEvent. unfold bind at 1. unfold deref_iolet.
  destruct (ioletStore c !! p) as [io|] eqn:E; simpl; [|reflexivity].
  match goal with |- context [bind ?m _ c] => set (line := m) end.
  assert (Hc1 : similar c (final (line c))).
  { unfold line. destruct (tmpConn_ io); [|reflexivity].
    unfold node_scene, bind, deref_node, gets.
    destruct (nodeStore c !! node_ io); simpl; [|reflexivity].
    destruct (bool_decide _); simpl; [|reflexivity].
    apply (similar_store_iolet p io); [exact E | now repeat split]. }
  unfold bind at 1. destruct (line c) as [[] c1|f c1]; simpl in Hc1 |- *; [|exact Hc1].
  unfold bind, deref_iolet, deref_node.
  destruct (itemAtT_QDataflowInlet _) as [q|]; simpl; [|exact Hc1].
  destruct (nodeStore c1 !! node_ io) as [n|]; simpl; [|exact Hc1].
  destruct (ioletStore c1 !! q) as [inlet|]; simpl; [|exact Hc1].
  destruct (nodeStore c1 !! node_ inlet) as [inletNode|]; simpl; [|exact Hc1].
  etransitivity; [exact Hc1 | apply cf_issue].
Qed.

Lemma similar_scene_removeNode r : steps similar (scene_removeNode r).
Proof.
  intros c. unfold scene_removeNode. case_decide; simpl; [|now apply similar_same_stores].
  case_decide; now apply similar_same_stores.
Qed.

Lemma similar_scene_removeConnection r : steps similar (scene_removeConnection r).
Proof.
  intros c. unfold scene_removeConnection.
  case_decide; simpl; apply similar_same_stores; try reflexivity.
  simpl. apply subseteq_difference_l. reflexivity.
Qed.

Lemma similar_nodes_setAcceptHoverEvents show c :
  similar c (nodes_setAcceptHoverEvents show c).
Proof.
  apply similar_nodeStore. intros r.
  apply (option_Forall2_alter same_ports). intros n. now split.
Qed.

Lemma similar_connections_setAcceptHoverEvents show c :
  similar c (connections_setAcceptHoverEvents show c).
Proof.
  apply similar_connStore. intros r.
  apply (option_Forall2_alter same_ends). intros n. now split.
Qed.

Lemma similar_setShowObjectHoverFeedback show c :
  similar c (setShowObjectHoverFeedback show c).
Proof.
  unfold setShowObjectHoverFeedback. cbv zeta.
  etransitivity; [|apply similar_nodes_setAcceptHoverEvents].
  destruct show; [|now apply similar_same_stores]. simpl.
  destruct (showIOletsTooltips_ c); now apply similar_same_stores.
Qed.

Lemma similar_setShowConnectionHoverFeedback show c :
  similar c (setShowConnectionHoverFeedback show c).
Proof.
  unfold setShowConnectionHoverFeedback. cbv zeta.
  etransitivity; [|apply similar_connections_setAcceptHoverEvents].
  destruct show; [|now apply similar_same_stores]. simpl.
  destruct (showIOletsTooltips_ c); now apply similar_same_stores.
Qed.

Lemma similar_call_setter s c : similar c (call_setter s c).
Proof.
  destruct s as [show|show|show]; simpl.
  - unfold setShowIOletTooltips. cbv zeta.
    set (c1 := set_showIOletsTooltips_ show c).
    assert (H1 : similar c c1) by now apply similar_same_stores.
    destruct show; [|exact H1].
    set (c2 := if showObjectHoverFeedback_ c1
               then setShowObjectHoverFeedback false c1 else c1).
    assert (H2 : similar c1 c2).
    { subst c2. destruct (showObjectHoverFeedback_ c1); [|reflexivity].
      apply similar_setShowObjectHoverFeedback. }
    destruct (showConnectionHoverFeedback_ c2).
    + etransitivity; [exact H1|]. etransitivity; [exact H2|].
      apply similar_setShowConnectionHoverFeedback.
    + etransitivity; [exact H1 | exact H2].
  - apply similar_setShowObjectHoverFeedback.
  - apply similar_setShowConnectionHoverFeedback.
Qed.

Lemma iolet_Ok_inv k index r p c c' :
  iolet k index r c = Ok p c' →
  c' = c ∧ ∃ n, nodeStore c !! r = Some n ∧ p ∈ iolets k n.
Proof.
  unfold iolet. intros H. apply bind_Ok_inv in H as (n & c1 & Hn & H).
  apply deref_node_Ok_inv in Hn as [-> Hn].
  unfold at_ in H. destruct (index <? 0); [discriminate|].
  destruct (iolets k n !! Z.to_nat index) as [q|] eqn:E; [|discriminate].
  injection H as -> ->. split; [reflexivity|]. exists n. split; [exact Hn|].
  eapply list_elem_of_lookup_2. exact E.
Qed.

Lemma iolets_set_iolets_ne k k' l n :
  k' ≠ k → iolets k' (set_iolets k l n) = iolets k' n.
Proof. destruct k, k'; intros H; try reflexivity; contradiction. Qed.

Lemma IOletKind_eq_dec (k k' : IOletKind) : {k = k'} + {k ≠ k'}.
Proof. decide equality. Defined.

(** The last port of a list is popped and freed, and the connections it
    lists leave the scene. *)
Lemma heap_ok_pop k r n l p io c c' :
  heap_ok c →
  nodeStore c !! r = Some n → iolets k n = l ++ [p] →
  ioletStore c !! p = Some io →
  nodeStore c' = <[r := set_iolets k l n]> (nodeStore c) →
  ioletStore c' = delete p (ioletStore c) →
  connStore c' = connStore c →
  sceneConns c' = sceneConns c ∖ list_to_set (io_connections_ io) →
  (nextAddr c ≤ nextAddr c')%positive →
  heap_ok c'.
Proof.
  intros (H1 & H2 & H3 & H4 & H5 & H6 & H7) Hn Hl Hp Hns Hio Hcn Hsc Hnext.
  destruct (H1 r n k p Hn) as (io0 & Hio0 & Hnode & Hkind).
  { rewrite Hl. apply elem_of_app. right. now apply list_elem_of_singleton. }
  assert (io0 = io) by congruence. subst io0.
  assert (Hnd : NoDup (l ++ [p])) by (rewrite <- Hl; exact (H2 r n k Hn)).
  apply NoDup_app in Hnd as (Hndl & Hfresh & _).
  assert (Hpl : p ∉ l).
  { intros Hin. apply (Hfresh p Hin). now apply list_elem_of_singleton. }
  unfold heap_ok, conns_attached. rewrite Hns, Hio, Hcn, Hsc. repeat apply conj.
  - intros r' n' k' p' Hr' Hin. rewrite lookup_insert in Hr'. case_decide.
    + subst r'. injection Hr' as <-.
      assert (Hold : p' ∈ iolets k' n ∧ p' ≠ p).
      { destruct (IOletKind_eq_dec k' k) as [->|Hk].
        - rewrite iolets_set_iolets in Hin. split; [|congruence].
          rewrite Hl. apply elem_of_app. now left.
        - rewrite iolets_set_iolets_ne in Hin by exact Hk. split; [exact Hin|].
          intros ->. destruct (H1 r n k' p Hn Hin) as (io' & Hio' & _ & Hk').
          congruence. }
      destruct Hold as [Hold Hne].
      destruct (H1 r n k' p' Hn Hold) as (io' & Hio' & Hn' & Hk').
      exists io'. rewrite lookup_delete_ne by congruence. now repeat split.
    + destruct (H1 r' n' k' p' Hr' Hin) as (io' & Hio' & Hn' & Hk').
      exists io'. rewrite lookup_delete_ne by congruence. now repeat split.
  - intros r' n' k' Hr'. rewrite lookup_insert in Hr'. case_decide.
    + subst r'. injection Hr' as <-.
      destruct (IOletKind_eq_dec k' k) as [->|Hk].
      * now rewrite iolets_set_iolets.
      * rewrite iolets_set_iolets_ne by exact Hk. exact (H2 r n k' Hn).
    + exact (H2 r' n' k' Hr').
  - intros p' io' Hp'. apply lookup_delete_Some in Hp' as [_ Hp'].
    rewrite lookup_insert. case_decide; [now eexists|]. exact (H3 p' io' Hp').
  - intros p' [io' Hp']. apply lookup_delete_Some in Hp' as [_ Hp'].
    eapply Pos.lt_le_trans; [|exact Hnext]. apply H4. now exists io'.
  - intros x Hx. eapply Pos.lt_le_trans; [|exact Hnext]. now apply H5.
  - intros x Hx. apply elem_of_difference in Hx as [Hx _]. now apply H6.
  - intros x cn Hx Hcnx. apply elem_of_difference in Hx as [Hx Hout].
    rewrite elem_of_list_to_set in Hout.
    destruct (H7 x cn Hx Hcnx) as [(src & Hsrc & Hxs) (dst & Hdst & Hxd)].
    split.
    + exists src. split; [|exact Hxs]. rewrite lookup_delete_ne; [exact Hsrc|].
      intros E. rewrite <- E in Hsrc. congruence.
    + exists dst. split; [|exact Hxd]. rewrite lookup_delete_ne; [exact Hdst|].
      intros E. rewrite <- E in Hdst. congruence.
Qed.

Lemma heap_ok_drop_last_iolet k r c c' :
  drop_last_iolet k r c = Ok tt c' → heap_ok c → heap_ok c'.
Proof.
  intros Hrun Hc.
  assert (Hnext := steps_Ok index_frame _ _ _ _ (steps_drop_last_iolet _ k r) Hrun).
  destruct Hnext as (_ & _ & _ & _ & Hnext).
  assert (Hrun0 := Hrun). unfold drop_last_iolet in Hrun0.
  apply bind_Ok_inv in Hrun0 as (n & c1 & Hn & Hrun0).
  apply deref_node_Ok_inv in Hn as [-> Hn].
  destruct (last (iolets k n)) as [p|] eqn:Hlast; [|discriminate].
  apply last_Some in Hlast as [l Hl].
  apply bind_Ok_inv in Hrun0 as (io & c1 & Hp & _).
  apply deref_iolet_Ok_inv in Hp as [-> Hp].
  destruct (drop_last_iolet_run k r n l p io c Hn Hl Hp)
    as (c'' & seg & Hrun' & Hns & Hio & Hcn & Hsc & _).
  assert (c'' = c') by congruence. subst c''.
  exact (heap_ok_pop k r n l p io c c' Hc Hn Hl Hp Hns Hio Hcn Hsc Hnext).
Qed.

Lemma heap_ok_shrink_loop fuel k r count : ∀ c c',
  shrink_loop fuel k r count c = Ok tt c' → heap_ok c → heap_ok c'.
Proof.
  induction fuel as [|fuel IH]; intros c c' Hrun Hc;
    rewrite shrink_loop_unfold in Hrun;
    apply bind_Ok_inv in Hrun as (n & c1 & Hn & Hrun);
    apply deref_node_Ok_inv in Hn as [-> Hn];
    (destruct (_ >? _); [|injection Hrun as <-; exact Hc]).
  - discriminate.
  - apply bind_Ok_inv in Hrun as ([] & c1 & Hdrop & Hrun).
    exact (IH c1 c' Hrun (heap_ok_drop_last_iolet k r c c1 Hdrop Hc)).
Qed.

(** A port is made at the next free address and pushed on a list. *)
Lemma heap_ok_push k r n i c :
  heap_ok c → nodeStore c !! r = Some n →
  heap_ok
    (upd_nodeStore <[r := set_iolets k (iolets k n ++ [nextAddr c]) n]>
       (upd_ioletStore <[nextAddr c := mkIOlet k r i [] None]>
          (set_nextAddr (Pos.succ (nextAddr c)) c))).
Proof.
  intros (H1 & H2 & H3 & H4 & H5 & H6 & H7) Hn.
  remember (nextAddr c) as p eqn:Hp.
  assert (Hfresh : ioletStore c !! p = None).
  { destruct (ioletStore c !! p) as [io|] eqn:E; [|reflexivity].
    assert (p < p)%positive by (apply H4; now exists io). lia. }
  assert (Hold : ∀ q, is_Some (ioletStore c !! q) → q ≠ p).
  { intros q [io Hq] ->. congruence. }
  unfold heap_ok, conns_attached. simpl. repeat apply conj.
  - intros r' n' k' p' Hr' Hin. rewrite lookup_insert in Hr'. case_decide.
    + subst r'. injection Hr' as <-.
      assert (Hcase : p' ∈ iolets k' n ∨ (p' = p ∧ k' = k)).
      { destruct (IOletKind_eq_dec k' k) as [->|Hk].
        - rewrite iolets_set_iolets in Hin. apply elem_of_app in Hin as [Hin|Hin].
          + now left.
          + apply list_elem_of_singleton in Hin. now right.
        - rewrite iolets_set_iolets_ne in Hin by exact Hk. now left. }
      destruct Hcase as [Hin'|[-> ->]].
      * destruct (H1 r n k' p' Hn Hin') as (io' & Hio' & Hn' & Hk').
        exists io'. rewrite lookup_insert_ne; [now repeat split|].
        intros <-. congruence.
      * eexists. rewrite lookup_insert_eq. now repeat split.
    + destruct (H1 r' n' k' p' Hr' Hin) as (io' & Hio' & Hn' & Hk').
      exists io'. rewrite lookup_insert_ne; [now repeat split|].
      intros <-. congruence.
  - intros r' n' k' Hr'. rewrite lookup_insert in Hr'. case_decide.
    + subst r'. injection Hr' as <-.
      destruct (IOletKind_eq_dec k' k) as [->|Hk].
      * rewrite iolets_set_iolets. apply NoDup_app. repeat apply conj.
        -- exact (H2 r n k Hn).
        -- intros q Hq Hq'. apply list_elem_of_singleton in Hq'. subst q.
           destruct (H1 r n k p Hn Hq) as (io' & Hio' & _). congruence.
        -- apply NoDup_singleton.
      * rewrite iolets_set_iolets_ne by exact Hk. exact (H2 r n k' Hn).
    + exact (H2 r' n' k' Hr').
  - intros p' io' Hp'. rewrite lookup_insert in Hp'.
    rewrite lookup_insert. case_decide.
    + injection Hp' as <-. simpl. case_decide; [now eexists | contradiction].
    + case_decide; [now eexists|]. exact (H3 p' io' Hp').
  - intros p' Hp'. rewrite lookup_insert in Hp'. case_decide.
    + subst p'. lia.
    + apply H4 in Hp'. lia.
  - intros x Hx. apply H5 in Hx. lia.
  - exact H6.
  - intros x cn Hx Hcnx.
    destruct (H7 x cn Hx Hcnx) as [(src & Hsrc & Hxs) (dst & Hdst & Hxd)].
    split.
    + exists src. split; [|exact Hxs]. rewrite lookup_insert_ne; [exact Hsrc|].
      intros E. rewrite <- E in Hsrc. congruence.
    + exists dst. split; [|exact Hxd]. rewrite lookup_insert_ne; [exact Hdst|].
      intros E. rewrite <- E in Hdst. congruence.
Qed.

Lemma grow_loop_unfold fuel k r count :
  grow_loop fuel k r count
  = (n <- deref_node r ;;
     if Z.of_nat (length (iolets k n)) <? count then
       match fuel with
       | O => crash OutOfFuel
       | S fuel' =>
           let i := Z.of_nat (length (iolets k n)) in
           p <- new_QDataflowIOlet k r i ;;
           upd_node r (fun n => set_iolets k (iolets k n ++ [p]) n) ;;
           grow_loop fuel' k r count
       end
     else ret tt).
Proof. destruct fuel; reflexivity. Qed.

Lemma heap_ok_grow_loop fuel k r count : ∀ c c',
  grow_loop fuel k r count c = Ok tt c' → heap_ok c → heap_ok c'.
Proof.
  induction fuel as [|fuel IH]; intros c c' Hrun Hc;
    rewrite grow_loop_unfold in Hrun;
    apply bind_Ok_inv in Hrun as (n & c1 & Hn & Hrun);
    apply deref_node_Ok_inv in Hn as [-> Hn];
    (destruct (_ <? _); [|injection Hrun as <-; exact Hc]).
  - discriminate.
  - cbv zeta in Hrun. unfold new_QDataflowIOlet, alloc, store_iolet, modify in Hrun.
    unfold bind at 1 2 3 in Hrun. simpl in Hrun.
    apply bind_Ok_inv in Hrun as ([] & c1 & Hupd & Hrun).
    rewrite (upd_node_Some _ _ n) in Hupd by exact Hn.
    injection Hupd as <-.
    apply (IH _ c' Hrun). now apply heap_ok_push.
Qed.

Lemma heap_ok_setIOletCount k count skipAdjust r c c' :
  setIOletCount k count skipAdjust r c = Ok tt c' → heap_ok c → heap_ok c'.
Proof.
  intros Hrun Hc. unfold setIOletCount in Hrun.
  apply bind_Ok_inv in Hrun as (n & c1 & Hn & Hrun).
  apply deref_node_Ok_inv in Hn as [-> Hn].
  apply bind_Ok_inv in Hrun as ([] & c1 & Hshrink & Hrun).
  apply heap_ok_shrink_loop in Hshrink; [|exact Hc].
  apply bind_Ok_inv in Hrun as (n1 & c2 & Hn1 & Hrun).
  apply deref_node_Ok_inv in Hn1 as [-> Hn1].
  apply bind_Ok_inv in Hrun as ([] & c2 & Hgrow & Hrun).
  apply heap_ok_grow_loop in Hgrow; [|exact Hshrink].
  destruct skipAdjust.
  - injection Hrun as <-. exact Hgrow.
  - apply reads_Ok in Hrun as ->; [exact Hgrow | apply steps_node_adjust, _].
Qed.

Lemma heap_ok_alloc c : heap_ok c → heap_ok (set_nextAddr (Pos.succ (nextAddr c)) c).
Proof.
  intros (H1 & H2 & H3 & H4 & H5 & H6 & H7). repeat apply conj; try assumption.
  - intros p Hp. apply H4 in Hp. simpl. lia.
  - intros x Hx. apply H5 in Hx. simpl. lia.
Qed.

(** A node without ports is stored. *)
Lemma heap_ok_store_node r n c :
  inlets_ n = [] → outlets_ n = [] →
  heap_ok c → heap_ok (upd_nodeStore <[r := n]> c).
Proof.
  intros Hi Ho (H1 & H2 & H3 & H4 & H5 & H6 & H7).
  repeat apply conj; try assumption; simpl.
  - intros r' n' k p Hr' Hin. rewrite lookup_insert in Hr'. case_decide.
    + injection Hr' as <-. destruct k; simpl in Hin; rewrite ?Hi, ?Ho in Hin;
        now apply not_elem_of_nil in Hin.
    + exact (H1 r' n' k p Hr' Hin).
  - intros r' n' k Hr'. rewrite lookup_insert in Hr'. case_decide.
    + injection Hr' as <-. destruct k; simpl; rewrite ?Hi, ?Ho; apply NoDup_nil_2.
    + exact (H2 r' n' k Hr').
  - intros p io Hp. rewrite lookup_insert. case_decide; [now eexists|].
    exact (H3 p io Hp).
Qed.

Lemma heap_ok_new_QDataflowNode modelNode r c c' :
  new_QDataflowNode modelNode c = Ok r c' → heap_ok c → heap_ok c'.
Proof.
  intros Hrun Hc. unfold new_QDataflowNode, alloc, gets, store_node, modify in Hrun.
  unfold bind at 1 2 3 in Hrun. simpl in Hrun.
  apply bind_Ok_inv in Hrun as ([] & c1 & Hin & Hrun).
  apply bind_Ok_inv in Hrun as ([] & c2 & Hout & Hrun).
  apply bind_Ok_inv in Hrun as ([] & c2' & Hadj & Hrun).
  apply reads_Ok in Hadj as ->; [|apply steps_node_adjust, _].
  injection Hrun as _ <-.
  apply heap_ok_setIOletCount in Hin.
  - now apply heap_ok_setIOletCount in Hout.
  - apply heap_ok_store_node; [reflexivity | reflexivity |].
    now apply heap_ok_alloc.
Qed.

Lemma node_Ok_inv mdlnode r c c' :
  node mdlnode c = Ok (Some r) c' → c' = c.
Proof.
  unfold node. destruct (nodes_ c !! mdlnode); [|discriminate]. now intros [= _ ->].
Qed.

(** A connection visual is made at the next free address between two ports
    that are alive, listed at both and put in the scene. *)
Lemma heap_ok_link x cn src dst c c' :
  heap_ok c → x = nextAddr c →
  ioletStore c !! source_ cn = Some src → ioletStore c !! dest_ cn = Some dst →
  source_ cn ≠ dest_ cn →
  nodeStore c' = nodeStore c →
  ioletStore c' =
    <[dest_ cn := set_io_connections_ (io_connections_ dst ++ [x]) dst]>
      (<[source_ cn := set_io_connections_ (io_connections_ src ++ [x]) src]>
         (ioletStore c)) →
  connStore c' = <[x := cn]> (connStore c) →
  sceneConns c' = {[x]} ∪ sceneConns c →
  nextAddr c' = Pos.succ (nextAddr c) →
  heap_ok c'.
Proof.
  intros (H1 & H2 & H3 & H4 & H5 & H6 & H7) Hx Hsrc Hdst Hne Hns Hio Hcn Hsc Hnext.
  assert (Hfwd : ∀ p io, ioletStore c !! p = Some io →
            ∃ io', ioletStore c' !! p = Some io' ∧ kind io' = kind io ∧
                   node_ io' = node_ io ∧
                   (∀ y, y ∈ io_connections_ io → y ∈ io_connections_ io') ∧
                   (p = source_ cn ∨ p = dest_ cn → x ∈ io_connections_ io')).
  { intros p io Hp. rewrite Hio, lookup_insert. case_decide.
    - subst p. assert (io = dst) by congruence. subst io.
      eexists. split; [reflexivity|]. simpl. repeat split.
      + intros y Hy. apply elem_of_app. now left.
      + intros _. apply elem_of_app. right. now apply list_elem_of_singleton.
    - rewrite lookup_insert. case_decide.
      + subst p. assert (io = src) by congruence. subst io.
        eexists. split; [reflexivity|]. simpl. repeat split.
        * intros y Hy. apply elem_of_app. now left.
        * intros _. apply elem_of_app. right. now apply list_elem_of_singleton.
      + exists io. repeat split; try assumption; try tauto.
        intros [->| ->]; contradiction. }
  assert (Hbwd : ∀ p io', ioletStore c' !! p = Some io' →
            ∃ io, ioletStore c !! p = Some io ∧ node_ io' = node_ io).
  { intros p io'. rewrite Hio, lookup_insert. case_decide.
    - subst p. intros [= <-]. now exists dst.
    - rewrite lookup_insert. case_decide.
      + subst p. intros [= <-]. now exists src.
      + intros Hp. now exists io'. }
  assert (Hfresh : connStore c !! x = None).
  { destruct (connStore c !! x) as [cn0|] eqn:E; [|reflexivity].
    assert (x < nextAddr c)%positive by (apply H5; now exists cn0). lia. }
  unfold heap_ok, conns_attached. rewrite Hns, Hcn, Hsc, Hnext. repeat apply conj.
  - intros r n k p Hr Hin.
    destruct (H1 r n k p Hr Hin) as (io & Hp & Hnode & Hkind).
    destruct (Hfwd p io Hp) as (io' & Hp' & Hk' & Hn' & _).
    exists io'. repeat split; congruence.
  - exact H2.
  - intros p io' Hp'. destruct (Hbwd p io' Hp') as (io & Hp & ->).
    exact (H3 p io Hp).
  - intros p [io' Hp']. destruct (Hbwd p io' Hp') as (io & Hp & _).
    assert (p < nextAddr c)%positive by (apply H4; now exists io). lia.
  - intros y Hy. rewrite lookup_insert in Hy. case_decide; [subst; lia|].
    apply H5 in Hy. lia.
  - intros y Hy. rewrite lookup_insert. case_decide; [now eexists|].
    apply H6. apply elem_of_union in Hy as [Hy|Hy]; [|exact Hy].
    apply elem_of_singleton in Hy. congruence.
  - intros y cn' Hy Hcny. rewrite lookup_insert in Hcny. case_decide.
    + injection Hcny as <-. subst y.
      destruct (Hfwd _ _ Hsrc) as (src' & Hs' & _ & _ & _ & Hxs).
      destruct (Hfwd _ _ Hdst) as (dst' & Hd' & _ & _ & _ & Hxd).
      split; [exists src' | exists dst']; split; auto.
    + apply elem_of_union in Hy as [Hy|Hy];
        [apply elem_of_singleton in Hy; congruence|].
      destruct (H7 y cn' Hy Hcny) as [(s0 & Hs0 & Hys) (d0 & Hd0 & Hyd)].
      destruct (Hfwd _ _ Hs0) as (s1 & Hs1 & _ & _ & Hsub & _).
      destruct (Hfwd _ _ Hd0) as (d1 & Hd1 & _ & _ & Hsub' & _).
      split; [exists s1 | exists d1]; split; auto.
Qed.

Lemma addConnection_Ok_inv p x c c' :
  addConnection p x c = Ok tt c' →
  ∃ io, ioletStore c !! p = Some io ∧
        c' = upd_ioletStore
               <[p := set_io_connections_ (io_connections_ io ++ [x]) io]> c.
Proof.
  intros H. unfold addConnection in H.
  apply bind_Ok_inv in H as (io & c1 & Hio & H).
  apply deref_iolet_Ok_inv in Hio as [-> Hio].
  apply bind_Ok_inv in H as ([] & c1 & Hstore & H).
  injection Hstore as <-.
  apply reads_Ok in H as ->; [|apply steps_connection_adjust, _].
  now exists io.
Qed.

Lemma heap_ok_onConnectionAdded mdlconn c c' :
  onConnectionAdded mdlconn c = Ok tt c' → heap_ok c → heap_ok c'.
Proof.
  intros Hrun Hc. unfold onConnectionAdded in Hrun.
  apply bind_Ok_inv in Hrun as (x & c1 & Hnew & Hrun).
  unfold bind, modify, scene_addConnection in Hrun. simpl in Hrun.
  injection Hrun as <-.
  unfold new_QDataflowConnection, alloc, gets in Hnew.
  unfold bind at 1 2 in Hnew. cbv zeta in Hnew.
  set (c0 := set_nextAddr (Pos.succ (nextAddr c)) c) in Hnew.
  apply bind_Ok_inv in Hnew as (srcNode & c2 & Hsn & Hnew).
  destruct srcNode as [rs|]; [|apply bind_Ok_inv in Hnew as (? & ? & Hf & _);
                                discriminate Hf].
  apply node_Ok_inv in Hsn as ->.
  apply bind_Ok_inv in Hnew as (source & c2 & Hsource & Hnew).
  apply iolet_Ok_inv in Hsource as [-> (ns & Hns & Hsource)].
  apply bind_Ok_inv in Hnew as (dstNode & c2 & Hdn & Hnew).
  destruct dstNode as [rd|]; [|apply bind_Ok_inv in Hnew as (? & ? & Hf & _);
                                discriminate Hf].
  apply node_Ok_inv in Hdn as ->.
  apply bind_Ok_inv in Hnew as (dest & c2 & Hdest & Hnew).
  apply iolet_Ok_inv in Hdest as [-> (nd & Hnd & Hdest)].
  destruct Hc as (H1 & Hrest).
  destruct (H1 rs ns Outlet source Hns Hsource) as (src & Hsrc & _ & Hks).
  destruct (H1 rd nd Inlet dest Hnd Hdest) as (dst & Hdst & _ & Hkd).
  assert (Hne : source ≠ dest) by (intros ->; congruence).
  apply bind_Ok_inv in Hnew as ([] & c3 & Hstore & Hnew).
  injection Hstore as <-.
  apply bind_Ok_inv in Hnew as ([] & c4 & Hadd1 & Hnew).
  apply addConnection_Ok_inv in Hadd1 as (io1 & Hio1 & ->).
  apply bind_Ok_inv in Hnew as ([] & c5 & Hadd2 & Hnew).
  apply addConnection_Ok_inv in Hadd2 as (io2 & Hio2 & ->).
  apply bind_Ok_inv in Hnew as ([] & c6 & Hadj & Hnew).
  apply reads_Ok in Hadj as ->; [|apply steps_connection_adjust, _].
  injection Hnew as <- <-.
  simpl in Hio1. rewrite Hsrc in Hio1. injection Hio1 as <-.
  simpl in Hio2. rewrite lookup_insert_ne, Hdst in Hio2 by exact Hne.
  injection Hio2 as <-.
  eapply (heap_ok_link (nextAddr c)
            (mkConnection (mc_ptr mdlconn) source dest false _) src dst c);
    [exact (conj H1 Hrest) | reflexivity | exact Hsrc | exact Hdst | exact Hne
    | reflexivity ..].
Qed.

Lemma similar_onNodeRemoved mdlnode : steps similar (onNodeRemoved mdlnode).
Proof.
  unfold onNodeRemoved.
  apply steps_bind; [apply _ | apply steps_node, _ | intros uinode].
  apply steps_bind; [apply _ | | intros e].
  { apply steps_through; [apply _|]. intros r. apply steps_isInEditMode, _. }
  apply steps_bind; [apply _ | | intros _].
  { destruct e; [|apply steps_ret, _].
    apply steps_through; [apply _|]. intros r. apply steps_exitEditMode, _. }
  destruct uinode as [r|]; simpl.
  - apply similar_scene_removeNode.
  - apply steps_modify. intros c. now apply similar_same_stores.
Qed.

Lemma similar_onConnectionRemoved mdlconn : steps similar (onConnectionRemoved mdlconn).
Proof.
  unfold onConnectionRemoved.
  apply steps_bind; [apply _ | apply steps_connection, _ | intros uiconn].
  destruct uiconn as [r|]; simpl.
  - apply similar_scene_removeConnection.
  - apply steps_modify. intros c. now apply similar_same_stores.
Qed.

Lemma heap_ok_steps_similar (m : M unit) c c' :
  steps similar m → m c = Ok tt c' → heap_ok c → heap_ok c'.
Proof.
  intros Hm Hrun. exact (heap_ok_similar _ _ (steps_Ok similar m c tt c' Hm Hrun)).
Qed.

Lemma heap_ok_onNodeAdded mdlnode c c' :
  onNodeAdded mdlnode c = Ok tt c' → heap_ok c → heap_ok c'.
Proof.
  intros Hrun Hc. unfold onNodeAdded in Hrun.
  apply bind_Ok_inv in Hrun as (r & c1 & Hnew & Hrun).
  apply heap_ok_new_QDataflowNode in Hnew; [|exact Hc].
  unfold scene_addNode, modify in Hrun. unfold bind at 1 2 in Hrun.
  assert (Hadded : heap_ok (upd_sceneNodes (fun s => {[r]} ∪ s)
                              (upd_nodes_ <[mn_ptr mdlnode := r]> c1)))
    by exact Hnew.
  refine (heap_ok_steps_similar _ _ _ _ Hrun Hadded).
  destruct (String.eqb _ _); [apply steps_enterEditMode, _ | apply steps_ret, _].
Qed.

Lemma heap_ok_onNodeIOletCountChanged k mdlnode count c c' :
  (uinode <- node mdlnode ;; through uinode (setIOletCount k count false)) c
  = Ok tt c' →
  heap_ok c → heap_ok c'.
Proof.
  intros Hrun Hc.
  apply bind_Ok_inv in Hrun as (uinode & c1 & Hnode & Hrun).
  destruct uinode as [r|]; [|discriminate].
  apply node_Ok_inv in Hnode as ->.
  exact (heap_ok_setIOletCount k count false r c c' Hrun Hc).
Qed.

Lemma heap_ok_notify e c c' : notify e c = Ok tt c' → heap_ok c → heap_ok c'.
Proof.
  destruct e as [n|n|n v|n pos|n t|n count|n count|k|k]; simpl.
  - apply heap_ok_onNodeAdded.
  - apply heap_ok_steps_similar, similar_onNodeRemoved.
  - apply heap_ok_steps_similar, steps_onNodeValidChanged, _.
  - apply heap_ok_steps_similar, steps_onNodePosChanged, _.
  - apply heap_ok_steps_similar, steps_onNodeTextChanged, _.
  - apply heap_ok_onNodeIOletCountChanged.
  - apply heap_ok_onNodeIOletCountChanged.
  - apply heap_ok_onConnectionAdded.
  - apply heap_ok_steps_similar, similar_onConnectionRemoved.
Qed.

Lemma heap_ok_handle_user u c c' :
  handle_user u c = Ok tt c' → heap_ok c → heap_ok c'.
Proof.
  destruct u; simpl.
  - apply heap_ok_steps_similar.
    apply steps_bind; [apply _ | apply steps_sceneEvent, _ | intros _].
    apply steps_ret, _.
  - apply heap_ok_steps_similar, steps_setPlainText, _.
  - apply heap_ok_steps_similar, steps_keyPressEvent, _.
  - apply heap_ok_steps_similar, steps_mouseDoubleClickEvent, _.
  - apply heap_ok_steps_similar, steps_node_setSelected, _.
  - apply heap_ok_steps_similar, similar_connection_setSelected.
  - apply heap_ok_steps_similar, similar_outlet_mousePressEvent.
  - apply heap_ok_steps_similar, similar_outlet_mouseMoveEvent.
  - apply heap_ok_steps_similar, similar_outlet_mouseReleaseEvent.
  - apply heap_ok_steps_similar, steps_modify. apply similar_call_setter.
  - apply heap_ok_steps_similar, steps_modify. intros c0.
    now apply similar_same_stores.
  - apply heap_ok_steps_similar, steps_modify. intros c0.
    now apply similar_same_stores.
Qed.

Lemma heap_ok_handle ev c c' : handle ev c = Ok tt c' → heap_ok c → heap_ok c'.
Proof.
  destruct ev as [e|u]; simpl; [apply heap_ok_notify | apply heap_ok_handle_user].
Qed.

(** In a canvas the program can reach, the ports a node lists are alive and
    its own, and a connection visual in the scene has both its ports alive
    and is listed at both. *)
Lemma reachable_heap_ok c : reachable c → heap_ok c.
Proof.
  induction 1 as [completion|ev c c' _ IH H].
  - unfold heap_ok, conns_attached. simpl. repeat apply conj; intros *;
      rewrite ?lookup_empty; try discriminate; try (intros [? [=]]);
      try (intros Hin; now apply not_elem_of_empty in Hin).
  - exact (heap_ok_handle ev c c' H IH).
Qed.

(** ** Handlers on a reachable canvas *)

Lemma reachable_for_each evs : ∀ c c',
  reachable c → for_each evs handle c = Ok tt c' → reachable c'.
Proof.
  induction evs as [|ev evs IH]; intros c c' Hc Hrun.
  - injection Hrun as <-. exact Hc.
  - simpl in Hrun. apply bind_Ok_inv in Hrun as ([] & c1 & Hev & Hrun).
    exact (IH c1 c' (reachable_handle ev c c1 Hc Hev) Hrun).
Qed.

Lemma reachable_sample_editing : reachable sample_editing.
Proof.
  apply (reachable_for_each
           [Notified (nodeAdded (mkModelNode 10 EmptyString 0 0 (50, 50)))]
           (new_QDataflowCanvas sample_completion)); [apply reachable_new|].
  vm_compute. reflexivity.
Qed.

Lemma reachable_sample_selected : reachable sample_selected.
Proof.
  apply (reachable_for_each
           [Notified (nodeAdded (mkModelNode 10 "osc" 0 1 (0, 0)));
            Notified (nodeAdded (mkModelNode 20 "dac" 1 0 (0, 40)));
            Notified (connectionAdded (mkModelConnection 30 (10%positive, 0)
                                                            (20%positive, 0)));
            Received (NodeSelected 1 true); Received (NodeSelected 3 true);
            Received (ConnectionSelected 5 true)]
           (new_QDataflowCanvas QDataflowTextCompletion_complete));
    [apply reachable_new|].
  vm_compute. reflexivity.
Qed.

Lemma reachable_sample_dragging : reachable sample_dragging.
Proof.
  apply (reachable_for_each
           [Notified (nodeAdded (mkModelNode 10 "osc" 0 1 (0, 0)));
            Notified (nodeAdded (mkModelNode 20 "dac" 1 0 (0, 40)));
            Received (OutletPressed 2)]
           (new_QDataflowCanvas QDataflowTextCompletion_complete));
    [apply reachable_new|].
  vm_compute. reflexivity.
Qed.

Lemma reachable_sample_connected : reachable sample_connected.
Proof.
  apply (reachable_for_each
           [Notified (nodeAdded (mkModelNode 10 "osc" 0 1 (0, 0)));
            Notified (nodeAdded (mkModelNode 20 "mix" 3 0 (0, 40)));
            Notified (connectionAdded (mkModelConnection 30 (10%positive, 0)
                                                            (20%positive, 1)));
            Notified (connectionAdded (mkModelConnection 31 (10%positive, 0)
                                                            (20%positive, 2)))]
           (new_QDataflowCanvas QDataflowTextCompletion_complete));
    [apply reachable_new|].
  vm_compute. reflexivity.
Qed.

(** C7 as amended.  The key handler enters [cycleCompletion] only while the
    overlay is active, and in no canvas the program reaches is an overlay
    active without candidates; so there a Down or Up key on a label with an
    empty candidate list returns and changes nothing.  [cycleCompletion]
    itself, entered with an empty candidate list, does not return, whatever
    the step [d] and however long it is run. *)
Theorem cycling_without_candidates fuel r n c key :
  reachable c →
  nodeStore c !! r = Some n →
  completionItems_ (textItem_ n) = [] →
  key = Key_Down ∨ key = Key_Up →
  sceneEvent fuel r key c = Ok true c ∧
  ∀ fuel' d, cycleCompletion fuel' d (textItem_ n) = None.
Proof.
  intros Hreach Hn Hempty Hkey.
  destruct (reachable_labels_ok c Hreach r n Hn) as [Hact _]. split.
  - assert (Hoff : completionActive_ (textItem_ n) = false).
    { destruct (completionActive_ (textItem_ n)); [|reflexivity].
      now destruct (Hact eq_refl). }
    unfold sceneEvent. rewrite (bind_Ok _ _ _ _ _ (deref_node_Some _ _ _ Hn)), Hoff.
    destruct Hkey as [-> | ->]; reflexivity.
  - intros fuel' d. now apply cycleCompletion_empty.
Qed.

Lemma cycling_without_candidates_witness :
  sceneEvent 0 1%positive Key_Down
    (final (notify (nodeAdded (mkModelNode 10 EmptyString 0 0 (50, 50)))
              (new_QDataflowCanvas QDataflowTextCompletion_complete)))
  = Ok true
    (final (notify (nodeAdded (mkModelNode 10 EmptyString 0 0 (50, 50)))
              (new_QDataflowCanvas QDataflowTextCompletion_complete))).
Proof.
  eapply (cycling_without_candidates 0 1%positive _ _ Key_Down).
  - apply (reachable_handle
             (Notified (nodeAdded (mkModelNode 10 EmptyString 0 0 (50, 50))))
             (new_QDataflowCanvas QDataflowTextCompletion_complete));
      [apply reachable_new | vm_compute; reflexivity].
  - vm_compute. reflexivity.
  - reflexivity.
  - left. reflexivity.
Defined.

(** C7, the claim as stated, fails: on a label without candidates
    [cycleCompletion(1)] and [cycleCompletion(-1)] return after no number of
    steps. *)
Lemma cycleCompletion_empty_never_returns :
  ¬ (∃ fuel l', cycleCompletion fuel 1 (new_QDataflowNodeTextLabel EmptyString) = Some l') ∧
  ¬ (∃ fuel l', cycleCompletion fuel (-1) (new_QDataflowNodeTextLabel EmptyString) = Some l').
Proof.
  split; intros (fuel & l' & H); now rewrite cycleCompletion_empty in H.
Qed.

Lemma Forall2_is_Some {A B} (f : A → option B) (l : list A) :
  (∀ x, x ∈ l → is_Some (f x)) → ∃ ys, Forall2 (fun x y => f x = Some y) l ys.
Proof.
  induction l as [|x l IH]; intros H.
  - exists []. constructor.
  - destruct (H x) as [y Hy]; [now left|].
    destruct IH as [ys Hys]; [intros x' Hx'; apply H; now right|].
    exists (y :: ys). now constructor.
Qed.

(** In a canvas whose stores hang together, a selected connection visual has
    its two ports and their nodes, and a selected node visual is alive. *)
Lemma selected_connection_has_command c conn :
  heap_ok c → conn ∈ selectedConnections c → is_Some (disconnect_command c conn).
Proof.
  intros (_ & _ & H3 & _ & _ & _ & H7) Hin.
  unfold selectedConnections in Hin.
  apply list_elem_of_In, filter_In in Hin as [_ Hin].
  apply andb_prop in Hin as [Hscene Hsel].
  apply bool_decide_eq_true in Hscene.
  unfold connection_isSelected in Hsel. unfold disconnect_command.
  destruct (connStore c !! conn) as [cn|] eqn:Hcn; [|discriminate].
  destruct (H7 conn cn Hscene Hcn) as [(src & Hsrc & _) (dst & Hdst & _)].
  rewrite Hsrc, Hdst.
  destruct (H3 _ _ Hsrc) as [sn ->]. destruct (H3 _ _ Hdst) as [dn ->].
  now eexists.
Qed.

Lemma selected_node_has_command c r :
  r ∈ selectedNodes c → is_Some (remove_command c r).
Proof.
  intros Hin. unfold selectedNodes in Hin.
  apply list_elem_of_In, filter_In in Hin as [_ Hin].
  apply andb_prop in Hin as [_ Hsel].
  unfold node_isSelected in Hsel. unfold remove_command.
  destruct (nodeStore c !! r); [now eexists | discriminate].
Qed.

(** C5.  In every canvas the program reaches: on a press of the key that
    deletes ([Qt::Key_Backspace]) while some node is in edit mode the handler
    of the canvas issues no command.  While no node is in edit mode it
    returns, and the commands issued are, in this order, one [disconnect] for
    each selected connection visual, with the model nodes and indices of its
    two ports, and then one [remove] for each selected node visual, with its
    model node.  The label that Qt delivers the key to afterwards leaves it to
    the text editor, and a text the editor produces issues no command. *)
Theorem delete_key_disconnects_then_removes c :
  reachable c →
  (isSomeNodeInEditMode c = true → keyPressEvent Key_Backspace c = Ok tt c) ∧
  (isSomeNodeInEditMode c = false →
     ∃ disconnects removes c',
       Forall2 (fun conn cmd => disconnect_command c conn = Some cmd)
         (selectedConnections c) disconnects ∧
       Forall2 (fun r cmd => remove_command c r = Some cmd)
         (selectedNodes c) removes ∧
       keyPressEvent Key_Backspace c = Ok tt c' ∧
       issued c' = issued c ++ disconnects ++ removes) ∧
  (∀ fuel r n c0, nodeStore c0 !! r = Some n →
     sceneEvent fuel r Key_Backspace c0 = Ok false c0) ∧
  (∀ r t c0, issued (final (setPlainText r t c0)) = issued c0).
Proof.
  intros Hreach. apply reachable_heap_ok in Hreach.
  destruct (Forall2_is_Some (disconnect_command c) (selectedConnections c))
    as [disconnects Hd].
  { intros conn. now apply selected_connection_has_command. }
  destruct (Forall2_is_Some (remove_command c) (selectedNodes c))
    as [removes Hr].
  { intros r. apply selected_node_has_command. }
  destruct (keyPressEvent_run c disconnects removes Hd Hr) as [Hedit Hdelete].
  split; [intros He; exact (Hedit He Key_Backspace)|].
  split; [|split].
  - intros Hoff. destruct (Hdelete Hoff) as (c' & Hrun & Hissued).
    now exists disconnects, removes, c'.
  - intros fuel r n c0 Hn. unfold sceneEvent.
    now rewrite (bind_Ok _ _ _ _ _ (deref_node_Some _ _ _ Hn)).
  - intros r t c0. exact (steps_setPlainText same_issued r t c0).
Qed.

Lemma delete_key_disconnects_then_removes_witness :
  issued (final (keyPressEvent Key_Backspace sample_selected))
  = [disconnect 10 0 20 0; remove 10; remove 20].
Proof.
  assert (Hconns : selectedConnections sample_selected = [5%positive])
    by (vm_compute; reflexivity).
  assert (Hnodes : selectedNodes sample_selected = [1%positive; 3%positive])
    by (vm_compute; reflexivity).
  assert (H5 : disconnect_command sample_selected 5 = Some (disconnect 10 0 20 0))
    by (vm_compute; reflexivity).
  assert (H1 : remove_command sample_selected 1 = Some (remove 10))
    by (vm_compute; reflexivity).
  assert (H3 : remove_command sample_selected 3 = Some (remove 20))
    by (vm_compute; reflexivity).
  assert (Hissued0 : issued sample_selected = []) by (vm_compute; reflexivity).
  destruct (delete_key_disconnects_then_removes sample_selected
              reachable_sample_selected) as (_ & H & _).
  destruct H as (disconnects & removes & c' & Hd & Hr & Hkey & Hissued).
  - vm_compute. reflexivity.
  - rewrite Hkey. simpl. rewrite Hissued, Hissued0. simpl.
    rewrite Hconns in Hd. rewrite Hnodes in Hr.
    apply Forall2_cons_inv_l in Hd as (d & ds & Hd & Hds & ->).
    apply Forall2_nil_inv_l in Hds as ->.
    apply Forall2_cons_inv_l in Hr as (r1 & rs & Hr1 & Hrs & ->).
    apply Forall2_cons_inv_l in Hrs as (r3 & rs' & Hr3 & Hrs & ->).
    apply Forall2_nil_inv_l in Hrs as ->.
    rewrite H5 in Hd. rewrite H1 in Hr1. rewrite H3 in Hr3.
    injection Hd as <-. injection Hr1 as <-. injection Hr3 as <-. reflexivity.
Defined.



(** ** The display toggles of a reachable canvas *)

#[local] Instance keeps_toggles_local : LocalFrame (keeps toggles_ok).
Proof.
  refine {| lf_fine := fun _ => True |}; try (intros; exact I).
  - intros r n n' c _ _ _ _ Hc. exact Hc.
  - intros o c Hc. exact Hc.
  - intros d c Hc. exact Hc.
Defined.

#[local] Instance keeps_toggles_commit : CommitFrame (keeps toggles_ok).
Proof. split; [exact _|]. intros cmd c Hc. exact Hc. Defined.

#[local] Instance keeps_toggles_handler : HandlerFrame (keeps toggles_ok).
Proof.
  refine {| hf_commit := keeps_toggles_commit |}; intros; intros Hc; exact Hc.
Defined.

#[local] Instance keeps_toggles_user : UserFrame (keeps toggles_ok).
Proof.
  refine {| uf_handler := keeps_toggles_handler |}.
  - intros s c Hc. exact (call_setter_exclusive s c Hc).
  - intros completion c Hc. exact Hc.
Defined.

#[local] Instance keeps_toggles_event : EventFrame (keeps toggles_ok).
Proof. refine {| ef_user := keeps_toggles_user |}; intros f c Hc; exact Hc. Defined.

Lemma reachable_toggles_ok c : reachable c → toggles_ok c.
Proof. apply (reachable_keeps toggles_ok). reflexivity. Qed.

Lemma reachable_call_setters ss : ∀ c, reachable c → reachable (call_setters ss c).
Proof.
  induction ss as [|s ss IH]; intros c Hc; [exact Hc|].
  apply IH. apply (reachable_handle (Received (SetterCalled s)) c); [exact Hc|].
  reflexivity.
Qed.

(** C9 as amended.  Port tooltips exclude each of the two hover feedbacks:
    enabling tooltips disables both hover feedbacks, and enabling either hover
    feedback disables tooltips while leaving the other hover feedback as it
    was.  So in no canvas the program reaches, and after no sequence of setter
    calls on one, are tooltips enabled together with a hover feedback. *)
Theorem tooltips_exclude_hover_feedback :
  (∀ c, let c' := setShowIOletTooltips true c in
        showIOletsTooltips_ c' = true ∧ showObjectHoverFeedback_ c' = false
        ∧ showConnectionHoverFeedback_ c' = false) ∧
  (∀ c, let c' := setShowObjectHoverFeedback true c in
        showObjectHoverFeedback_ c' = true ∧ showIOletsTooltips_ c' = false
        ∧ showConnectionHoverFeedback_ c' = showConnectionHoverFeedback_ c) ∧
  (∀ c, let c' := setShowConnectionHoverFeedback true c in
        showConnectionHoverFeedback_ c' = true ∧ showIOletsTooltips_ c' = false
        ∧ showObjectHoverFeedback_ c' = showObjectHoverFeedback_ c) ∧
  (∀ c ss, reachable c →
     let c' := call_setters ss c in
     showIOletsTooltips_ c'
     && (showObjectHoverFeedback_ c' || showConnectionHoverFeedback_ c') = false).
Proof.
  repeat split.
  - apply (toggles_setShowIOletTooltips true).
  - apply (toggles_setShowIOletTooltips true).
  - apply (toggles_setShowIOletTooltips true).
  - apply (toggles_setShowObjectHoverFeedback true).
  - apply (toggles_setShowObjectHoverFeedback true).
  - apply (toggles_setShowObjectHoverFeedback true).
  - apply (toggles_setShowConnectionHoverFeedback true).
  - apply (toggles_setShowConnectionHoverFeedback true).
  - apply (toggles_setShowConnectionHoverFeedback true).
  - intros c ss Hc c'. apply negb_true_iff.
    exact (reachable_toggles_ok c' (reachable_call_setters ss c Hc)).
Qed.

Lemma tooltips_exclude_hover_feedback_witness :
  let c' := call_setters [SetShowObjectHoverFeedback true; SetShowIOletTooltips true]
              sample_editing in
  showIOletsTooltips_ c'
  && (showObjectHoverFeedback_ c' || showConnectionHoverFeedback_ c') = false.
Proof.
  destruct tooltips_exclude_hover_feedback as (_ & _ & _ & H).
  exact (H sample_editing
           [SetShowObjectHoverFeedback true; SetShowIOletTooltips true]
           reachable_sample_editing).
Defined.

(** C9, the claim as stated, fails: enabling the hover feedback on nodes and
    then the one on connections leaves both enabled. *)
Lemma both_hover_feedbacks_enabled :
  let c := call_setters [SetShowObjectHoverFeedback true;
                         SetShowConnectionHoverFeedback true]
             (new_QDataflowCanvas QDataflowTextCompletion_complete) in
  showObjectHoverFeedback_ c = true ∧ showConnectionHoverFeedback_ c = true.
Proof. split; reflexivity. Qed.


(** ** Connections of a dropped port *)

(** C2, where the code departs from the claim.  Node 10 has one outlet, node
    20 three inlets, and two connections run from the outlet to inlets 1 and
    2.  When the inlets of node 20 are shrunk to two, the handler returns; the
    visual of the connection into the former inlet 2 is out of the scene but
    not destroyed: it stays in the index, it still names the freed inlet as
    its destination, and the outlet at its other end still lists it.  The next
    [adjust()] of node 10, here on [nodeValidChanged], adjusts the connections
    listed at the outlet and, at that one, goes through the pointer to the
    freed inlet. *)
Theorem shrinking_leaves_a_dangling_connection :
  notify (nodeInletCountChanged 20 2) sample_connected = Ok tt sample_shrunk ∧
  reachable sample_shrunk ∧
  (8%positive ∉ sceneConns sample_shrunk) ∧
  connections_ sample_shrunk !! 31%positive = Some 8%positive ∧
  (∃ cn outlet,
     connStore sample_shrunk !! 8%positive = Some cn ∧
     dest_ cn = 6%positive ∧ ioletStore sample_shrunk !! 6%positive = None ∧
     ioletStore sample_shrunk !! source_ cn = Some outlet ∧
     8%positive ∈ io_connections_ outlet) ∧
  connection_adjust 7 sample_shrunk = Ok tt sample_shrunk ∧
  connection_adjust 8 sample_shrunk = Crash DanglingPointer sample_shrunk ∧
  notify (nodeValidChanged 10 false) sample_shrunk
  = Crash DanglingPointer (upd_nodeStore (alter (set_valid_ false) 1%positive)
                             sample_shrunk).
Proof.
  assert (Hrun : notify (nodeInletCountChanged 20 2) sample_connected
                 = Ok tt sample_shrunk) by (vm_compute; reflexivity).
  split; [exact Hrun|].
  split.
  { exact (reachable_handle (Notified (nodeInletCountChanged 20 2))
             sample_connected sample_shrunk reachable_sample_connected Hrun). }
  split.
  { apply (bool_decide_unpack (8%positive ∉ sceneConns sample_shrunk)).
    vm_compute. exact I. }
  split; [vm_compute; reflexivity|].
  split.
  - exists (mkConnection 31 2 6 false false), (mkIOlet Outlet 1 0 [7; 8]%positive None).
    split; [vm_compute; reflexivity|].
    split; [reflexivity|].
    split; [vm_compute; reflexivity|].
    split; [vm_compute; reflexivity|].
    apply elem_of_cons. right. now apply list_elem_of_singleton.
  - split; [vm_compute; reflexivity|].
    split; vm_compute; reflexivity.
Qed.

(** ** Editing a node that lists a dangling connection *)

Lemma reachable_sample_shrunk : reachable sample_shrunk.
Proof.
  apply (reachable_handle (Notified (nodeInletCountChanged 20 2)) sample_connected);
    [exact reachable_sample_connected | vm_compute; reflexivity].
Qed.

Lemma reachable_sample_shrunk_editing : reachable sample_shrunk_editing.
Proof.
  apply (reachable_handle (Notified (nodeInletCountChanged 20 2))
           (final (node_mouseDoubleClickEvent 1%positive sample_connected)));
    [|vm_compute; reflexivity].
  apply (reachable_handle
           (Received (CanvasDoubleClicked (mkMouseEvent (Some (ItemNode 1)) (0, 0))))
           sample_connected);
    [exact reachable_sample_connected | vm_compute; reflexivity].
Qed.

(** C6, where the code departs from the claim.  The edit handlers call
    [adjust()] on the node, on selection and on every change of the text.
    Node 10 of [sample_shrunk] is in the scene, and its outlet lists the
    connection that lost its inlet when node 20 was shrunk (C2): entering
    edit mode on it, the first step of the round trip, goes through the
    pointer to the freed inlet and does not return.  When the node was in
    edit mode before the shrink, replacing its text does not return, and
    neither does the Escape key: the text at edit entry (still the label
    text) is written, but the node stays in edit mode. *)
Theorem editing_faults_at_a_dangling_connection :
  reachable sample_shrunk ∧ 1%positive ∈ sceneNodes sample_shrunk ∧
  (∃ c', enterEditMode 1%positive sample_shrunk = Crash DanglingPointer c' ∧
         handle (Received (CanvasDoubleClicked
                             (mkMouseEvent (Some (ItemNode 1)) (0, 0))))
           sample_shrunk = Crash DanglingPointer c' ∧
         isInEditMode 1%positive c' = Ok false c') ∧
  reachable sample_shrunk_editing ∧
  isInEditMode 1%positive sample_shrunk_editing = Ok true sample_shrunk_editing ∧
  (∃ c', setPlainText 1%positive "foo" sample_shrunk_editing
         = Crash DanglingPointer c') ∧
  (∃ c', sceneEvent 0 1%positive Key_Escape sample_shrunk_editing
         = Crash DanglingPointer c' ∧
         isInEditMode 1%positive c' = Ok true c').
Proof.
  split; [exact reachable_sample_shrunk|].
  split.
  { apply (bool_decide_unpack (1%positive ∈ sceneNodes sample_shrunk)).
    vm_compute. exact I. }
  split.
  { eexists. split; [vm_compute; reflexivity|].
    split; vm_compute; reflexivity. }
  split; [exact reachable_sample_shrunk_editing|].
  split; [vm_compute; reflexivity|].
  split; eexists; [vm_compute; reflexivity|].
  split; vm_compute; reflexivity.
Qed.

(** * Further properties of the handlers *)

(** ** The two loops of [cycleCompletion] *)

(** The first loop adds [n] once per turn: from a negative index it returns
    after [k] turns with the first index that is not negative. *)
Lemma while_negative_turns n k : ∀ i fuel,
  0 < n → i < 0 → 0 <= i + Z.of_nat k * n < n → (k < fuel)%nat →
  while_negative fuel n i = Some (i + Z.of_nat k * n).
Proof.
  induction k as [|k IH]; intros i fuel Hn Hi Hk Hfuel; [lia|].
  destruct fuel as [|fuel]; [lia|]. simpl.
  destruct (Z.ltb_spec i 0); [|lia].
  destruct (Z_lt_dec (i + n) 0) as [Hneg|Hpos].
  - rewrite (IH (i + n) fuel) by lia. f_equal. lia.
  - assert (k = 0%nat) by nia. subst k.
    destruct fuel as [|fuel]; [lia|].
    rewrite while_negative_done by lia. f_equal. lia.
Qed.

(** The second loop subtracts [n] once per turn. *)
Lemma while_not_below_turns n k : ∀ i fuel,
  0 < n → 0 <= i - Z.of_nat k * n < n → (k < fuel)%nat →
  while_not_below fuel n i = Some (i - Z.of_nat k * n).
Proof.
  induction k as [|k IH]; intros i fuel Hn Hk Hfuel.
  - destruct fuel as [|fuel]; [lia|].
    rewrite while_not_below_done by lia. f_equal. lia.
  - destruct fuel as [|fuel]; [lia|]. simpl.
    destruct (Z.geb_spec i n); [|nia].
    rewrite (IH (i - n) fuel) by lia. f_equal. lia.
Qed.

Lemma while_negative_mod fuel n i :
  0 < n → (Z.to_nat (Z.abs i / n) + 2 ≤ fuel)%nat →
  while_negative fuel n i = Some (if i <? 0 then i mod n else i).
Proof.
  intros Hn Hfuel. destruct (Z.ltb_spec i 0) as [Hi|Hi].
  - pose proof (Z.div_mod i n ltac:(lia)) as Hdiv.
    pose proof (Z.mod_pos_bound i n Hn) as Hmod.
    assert (Hq : i / n < 0) by nia.
    pose proof (Z.div_mod (Z.abs i) n ltac:(lia)) as Habs.
    pose proof (Z.mod_pos_bound (Z.abs i) n Hn) as Hamod.
    assert (Hle : - (i / n) <= Z.abs i / n + 1) by nia.
    rewrite (while_negative_turns n (Z.to_nat (- (i / n))) i fuel) by lia.
    f_equal. lia.
  - destruct fuel as [|fuel]; [lia|]. now apply while_negative_done.
Qed.

Lemma while_not_below_mod fuel n i :
  0 < n → 0 <= i → (Z.to_nat (i / n) + 1 ≤ fuel)%nat →
  while_not_below fuel n i = Some (i mod n).
Proof.
  intros Hn Hi Hfuel.
  pose proof (Z.div_mod i n ltac:(lia)) as Hdiv.
  pose proof (Z.mod_pos_bound i n Hn) as Hmod.
  assert (Hq : 0 <= i / n) by (apply Z.div_pos; lia).
  rewrite (while_not_below_turns n (Z.to_nat (i / n)) i fuel) by lia.
  f_equal. lia.
Qed.

Lemma to_int_fits z : fits_int z → to_int z = z.
Proof.
  unfold fits_int, to_int, INT_MIN, INT_MAX. intros Hz.
  rewrite Z.mod_small by lia. lia.
Qed.

Lemma while_negative_below fuel n : ∀ i j,
  while_negative fuel n i = Some j → i <= INT_MAX → n <= INT_MAX → j <= INT_MAX.
Proof.
  induction fuel as [|fuel IH]; intros i j; simpl; [discriminate|].
  destruct (Z.ltb_spec i 0) as [Hneg|Hpos]; [|now intros [= <-]].
  intros Hrun Hi Hn. apply (IH (i + n) j Hrun); lia.
Qed.

(** Within the range of [int] the first loop never wraps around. *)
Lemma while_negative_int_exact fuel n : ∀ i,
  0 <= n <= INT_MAX → INT_MIN <= i →
  while_negative_int fuel n i = while_negative fuel n i.
Proof.
  induction fuel as [|fuel IH]; intros i Hn Hi; simpl; [reflexivity|].
  destruct (Z.ltb_spec i 0); [|reflexivity].
  rewrite to_int_fits by (unfold fits_int; lia). apply IH; lia.
Qed.

(** Neither does the second. *)
Lemma while_not_below_int_exact fuel n : ∀ i,
  0 <= n → i <= INT_MAX →
  while_not_below_int fuel n i = while_not_below fuel n i.
Proof.
  induction fuel as [|fuel IH]; intros i Hn Hi; simpl; [reflexivity|].
  destruct (Z.geb_spec i n); [|reflexivity].
  rewrite to_int_fits by (unfold fits_int, INT_MIN, INT_MAX in *; lia).
  apply IH; lia.
Qed.

Lemma cycleCompletion_int_exact fuel d l :
  Z.of_nat (length (completionItems_ l)) <= INT_MAX →
  fits_int (completionIndex_ l + d) →
  cycleCompletion_int fuel d l = cycleCompletion fuel d l.
Proof.
  intros Hn Hsum. unfold cycleCompletion_int, cycleCompletion.
  set (n := Z.of_nat (length (completionItems_ l))) in *.
  assert (Hn0 : 0 <= n) by (subst n; lia).
  rewrite (to_int_fits n) by (unfold fits_int, INT_MIN in *; lia).
  rewrite (to_int_fits (n - 1)) by (unfold fits_int, INT_MIN, INT_MAX in *; lia).
  rewrite (to_int_fits (completionIndex_ l + d)) by exact Hsum.
  set (i0 := if (completionIndex_ l =? -1) && (d =? -1)
             then n - 1 else completionIndex_ l + d).
  assert (Hi0 : fits_int i0).
  { subst i0. destruct ((completionIndex_ l =? -1) && (d =? -1)); [|exact Hsum].
    unfold fits_int, INT_MIN, INT_MAX in *. lia. }
  rewrite while_negative_int_exact by (unfold fits_int in Hi0; lia).
  destruct (while_negative fuel n i0) as [i1|] eqn:H1; [|reflexivity].
  rewrite while_not_below_int_exact; [reflexivity | exact Hn0 |].
  apply (while_negative_below fuel n i0 i1 H1); [apply Hi0 | exact Hn].
Qed.

(** X1.  [cycleCompletion] on a label with candidates, for a step [d] and an
    index whose sum is an [int] (no sum of the function then overflows, and
    the function computes the same with the wrap-around of [int] written
    out): when each loop may run for the number of whole lists between the
    moved index and zero, plus two tests, the function returns, and the
    index the label holds afterwards is the moved index modulo the number of
    candidates, hence the index of a candidate; the candidates, the text and
    the state of the overlay stay.  The moved index is the last candidate
    when nothing is highlighted and the step is [-1], and the index plus [d]
    otherwise. *)
Theorem cycleCompletion_wraps fuel d l :
  let n := Z.of_nat (length (completionItems_ l)) in
  let i := completionIndex_ l in
  let i0 := if (i =? -1) && (d =? -1) then n - 1 else i + d in
  completionItems_ l ≠ [] → n <= INT_MAX → fits_int (i + d) →
  (Z.to_nat (Z.abs i0 / n) + 2 ≤ fuel)%nat →
  ∃ l',
    cycleCompletion fuel d l = Some l' ∧
    cycleCompletion_int fuel d l = Some l' ∧
    completionIndex_ l' = i0 mod n ∧
    is_Some (completionItems_ l' !! Z.to_nat (completionIndex_ l')) ∧
    completionItems_ l' = completionItems_ l ∧
    completionActive_ l' = completionActive_ l ∧
    plainText l' = plainText l ∧ textEditable l' = textEditable l.
Proof.
  intros n i i0 Hitems Hmax Hsum Hfuel.
  assert (Hn : 0 < n).
  { subst n. destruct (completionItems_ l); [congruence | simpl; lia]. }
  pose proof (Z.mod_pos_bound i0 n Hn) as Hmod.
  assert (Hrun : cycleCompletion fuel d l = Some (set_completionIndex_ (i0 mod n) l)).
  { unfold cycleCompletion. fold n. fold i. fold i0.
    rewrite (while_negative_mod fuel n i0 Hn Hfuel).
    destruct (Z.ltb_spec i0 0) as [Hi|Hi].
    + destruct fuel as [|fuel]; [lia|].
      now rewrite while_not_below_done by lia.
    + rewrite while_not_below_mod; [reflexivity | lia | lia |].
      rewrite Z.abs_eq in Hfuel by lia. lia. }
  eexists. split; [exact Hrun|].
  split; [now rewrite (cycleCompletion_int_exact fuel d l Hmax Hsum)|].
  split; [reflexivity|]. split; [|now repeat split].
  apply lookup_lt_is_Some. cbn [completionIndex_ completionItems_ set_completionIndex_].
  subst n. lia.
Qed.

Lemma cycleCompletion_wraps_witness :
  ∃ l', cycleCompletion 4 (-7) (mkLabel "a" true ["add"; "mul"; "sub"]%string 1 true)
        = Some l' ∧
        completionIndex_ l' = 0 ∧
        completionItems_ l' !! 0%nat = Some "add"%string.
Proof.
  destruct (cycleCompletion_wraps 4 (-7)
              (mkLabel "a" true ["add"; "mul"; "sub"]%string 1 true))
    as (l' & Hrun & _ & Hindex & _ & Hitems & _).
  - discriminate.
  - vm_compute. discriminate.
  - split; vm_compute; discriminate.
  - vm_compute. lia.
  - exists l'. split; [exact Hrun|]. split; [exact Hindex|].
    rewrite Hitems. reflexivity.
Defined.

(** ** Leaving and entering edit mode *)

Lemma clearFocus_run r c :
  ∃ c', clearFocus r c = Ok tt c' ∧ nodeStore c' = nodeStore c ∧
        focusItem c' = (if decide (focusItem c = Some r) then None else focusItem c) ∧
        issued c' = issued c ∧ completion_ c' = completion_ c ∧
        sceneNodes c' = sceneNodes c.
Proof. unfold clearFocus. case_decide; eexists; repeat split. Qed.

Lemma setCompletion_clearCompletion list t l :
  setCompletion list (set_plainText t (clearCompletion l))
  = setCompletion list (set_plainText t l).
Proof. now destruct list. Qed.

(** What [exitEditMode] leaves of the node and of the canvas. *)
Lemma exitEditMode_run revertText r n c :
  nodeStore c !! r = Some n → (revertText = true → adjusts r c) →
  ∃ c' n',
    exitEditMode revertText r c = Ok tt c' ∧
    nodeStore c' !! r = Some n' ∧
    focusItem c' = (if decide (focusItem c = Some r) then None else focusItem c) ∧
    textItem_ n' =
      set_textEditable false
        (if revertText
         then setCompletion (completion_ c (oldText_ n))
                (set_plainText (oldText_ n) (textItem_ n))
         else clearCompletion (textItem_ n)) ∧
    oldText_ n' = (if revertText then oldText_ n else text n) ∧
    node_selected n' = node_selected n ∧
    issued c' = issued c ++ (if revertText || String.eqb (oldText_ n) (text n)
                             then [] else [setText (modelNode_ n) (text n)]).
Proof.
  intros H Hadj. unfold exitEditMode.
  rewrite (bind_Ok _ _ _ _ _ (upd_label_Some _ _ _ _ H)).
  set (n1 := set_textItem_ (clearCompletion (textItem_ n)) n).
  set (c1 := upd_nodeStore <[r := n1]> c).
  assert (H1 : nodeStore c1 !! r = Some n1) by apply nodeStore_upd_eq.
  rewrite (bind_Ok _ _ _ _ _ (deref_node_Some _ _ _ H1)).
  assert (∃ c2 n2,
            (if revertText then setPlainText r (oldText_ n1)
             else if negb (String.eqb (oldText_ n1) (text n1))
             then modify (issue (setText (modelNode_ n1) (text n1))) ;;
                  upd_node r (fun n => set_oldText_ (text n) n)
             else ret tt) c1 = Ok tt c2 ∧
            nodeStore c2 !! r = Some n2 ∧ focusItem c2 = focusItem c ∧
            textItem_ n2 =
              (if revertText
               then setCompletion (completion_ c (oldText_ n))
                      (set_plainText (oldText_ n) (textItem_ n))
               else clearCompletion (textItem_ n)) ∧
            oldText_ n2 = (if revertText then oldText_ n else text n) ∧
            node_selected n2 = node_selected n ∧
            issued c2 = issued c ++ (if revertText || String.eqb (oldText_ n) (text n)
                                     then [] else [setText (modelNode_ n) (text n)]))
    as (c2 & n2 & Hrun & H2 & Hf2 & Ht2 & Ho2 & Hs2 & Hi2).
  { destruct revertText.
    - rewrite (setPlainText_run _ _ _ _ H1
                 (adjusts_upd r r n n1 c H eq_refl eq_refl (Hadj eq_refl))).
      eexists _, _. split; [reflexivity|].
      split; [apply nodeStore_upd_eq|]. split; [reflexivity|].
      split; [simpl; apply setCompletion_clearCompletion|].
      repeat split. simpl. now rewrite app_nil_r.
    - change (oldText_ n1) with (oldText_ n). change (text n1) with (text n).
      destruct (String.eqb_spec (oldText_ n) (text n)) as [E|E]; simpl.
      + exists c1, n1. repeat split; try assumption. simpl. now rewrite app_nil_r.
      + unfold modify, bind at 1.
        assert (Hi : nodeStore (issue (setText (modelNode_ n1) (text n)) c1) !! r
                     = Some n1) by exact H1.
        rewrite (upd_node_Some _ _ _ _ Hi).
        eexists _, _. split; [reflexivity|].
        split; [apply nodeStore_upd_eq|]. repeat split. }
  rewrite (bind_Ok _ _ _ _ _ Hrun).
  destruct (clearFocus_run r c2) as (c3 & Hfoc & Hst3 & Hf3 & Hi3 & _).
  rewrite (bind_Ok _ _ _ _ _ Hfoc).
  assert (H3 : nodeStore c3 !! r = Some n2) by now rewrite Hst3.
  rewrite (upd_label_Some _ _ _ _ H3).
  eexists _, _. split; [reflexivity|].
  split; [apply nodeStore_upd_eq|].
  split; [|split; [|split; [|split]]].
  - simpl. now rewrite Hf3, Hf2.
  - simpl. now rewrite Ht2.
  - exact Ho2.
  - exact Hs2.
  - simpl. now rewrite Hi3.
Qed.

(** X2.  [exitEditMode] always leaves edit mode: the label is no longer
    editable and gives up the focus, and the focus of any other item stays.
    When the text is committed the overlay is cleared and the text becomes the
    one to revert to.  When it is reverted, on a node whose [adjust()]
    returns, the text at edit entry is put back and the overlay is rebuilt
    from what the provider offers for that text. *)
Theorem exitEditMode_leaves_edit_mode revertText r n c :
  nodeStore c !! r = Some n → (revertText = true → adjusts r c) →
  ∃ c' n',
    exitEditMode revertText r c = Ok tt c' ∧
    nodeStore c' !! r = Some n' ∧
    isInEditMode r c' = Ok false c' ∧
    focusItem c' = (if decide (focusItem c = Some r) then None else focusItem c) ∧
    textItem_ n' =
      set_textEditable false
        (if revertText
         then setCompletion (completion_ c (oldText_ n))
                (set_plainText (oldText_ n) (textItem_ n))
         else clearCompletion (textItem_ n)) ∧
    oldText_ n' = (if revertText then oldText_ n else text n).
Proof.
  intros H Hadj.
  destruct (exitEditMode_run revertText r n c H Hadj)
    as (c' & n' & Hrun & H' & Hf & Ht & Ho & _).
  exists c', n'. split; [exact Hrun|]. split; [exact H'|].
  split; [|now repeat split].
  rewrite (isInEditMode_run r n' c' H'), Ht. reflexivity.
Qed.

Lemma exitEditMode_leaves_edit_mode_witness :
  ∃ c' n',
    exitEditMode true 1%positive sample_editing = Ok tt c' ∧
    nodeStore c' !! 1%positive = Some n' ∧
    isInEditMode 1%positive c' = Ok false c' ∧
    focusItem c' = None ∧
    textItem_ n' = mkLabel EmptyString false ["add"; "mul"; "sub"]%string (-1) true ∧
    oldText_ n' = EmptyString.
Proof.
  assert (Hn : nodeStore sample_editing !! 1%positive = Some sample_node)
    by (vm_compute; reflexivity).
  assert (Hadj : adjusts 1%positive sample_editing) by (vm_compute; reflexivity).
  exact (exitEditMode_leaves_edit_mode true 1%positive sample_node sample_editing
           Hn (fun _ => Hadj)).
Defined.

Lemma textEditable_setCompletion list l :
  textEditable (setCompletion list l) = textEditable l.
Proof. now destruct list. Qed.

(** The canvas [enterEditMode] leaves when the node is in the scene. *)
Lemma enterEditMode_scene_run r n c :
  nodeStore c !! r = Some n → adjusts r c → r ∈ sceneNodes c →
  enterEditMode r c
  = Ok tt (upd_nodeStore
             <[r := set_textItem_
                      (setCompletion (completion_ c (text n))
                         (set_textEditable true (textItem_ n)))
                      (set_oldText_ (text n) (set_node_selected true n))]>
             (set_focusItem (Some r) c)).
Proof.
  intros H Hadj Hscene. unfold enterEditMode.
  rewrite (bind_Ok _ _ _ _ _ (upd_node_Some _ _ _ _ H)).
  set (n1 := set_oldText_ (text n) n).
  set (c1 := upd_nodeStore <[r := n1]> c).
  assert (H1 : nodeStore c1 !! r = Some n1) by apply nodeStore_upd_eq.
  assert (Hadj1 : adjusts r c1) by exact (adjusts_upd r r n n1 c H eq_refl eq_refl Hadj).
  set (n2 := set_oldText_ (text n) (set_node_selected true n)).
  assert (Hsel : node_setSelected r true c1 = Ok tt (upd_nodeStore <[r := n2]> c)).
  { unfold node_setSelected.
    rewrite (bind_Ok _ _ _ _ _ (deref_node_Some _ _ _ H1)).
    destruct (node_selected n1) eqn:Hs; simpl.
    - unfold ret. do 2 f_equal. unfold n2, n1 in *. destruct n. simpl in *. now subst.
    - unfold store_node, modify, bind at 1.
      unfold itemChange_ItemSelectedHasChanged.
      rewrite (bind_Ok _ _ _ _ _
                 (adjusts_upd r r n1 (set_node_selected true n1) c1
                    H1 eq_refl eq_refl Hadj1)).
      rewrite (upd_node_Some _ _ _ _ (nodeStore_upd_eq _ _ _)).
      unfold c1, upd_nodeStore. simpl. now rewrite !insert_insert_eq. }
  rewrite (bind_Ok _ _ _ _ _ Hsel).
  rewrite (bind_Ok _ _ _ _ _ (upd_label_Some _ _ _ _ (nodeStore_upd_eq _ _ _))).
  set (n3 := set_textItem_ (set_textEditable true (textItem_ n2)) n2).
  set (c3 := upd_nodeStore <[r := n3]> (upd_nodeStore <[r := n2]> c)).
  assert (Hfoc : setFocus r c3 = Ok tt (set_focusItem (Some r) c3)).
  { unfold setFocus. now rewrite decide_True. }
  rewrite (bind_Ok _ _ _ _ _ Hfoc).
  assert (H4 : nodeStore (set_focusItem (Some r) c3) !! r = Some n3)
    by apply nodeStore_upd_eq.
  rewrite (complete_run _ _ _ H4).
  unfold c3, upd_nodeStore, set_focusItem. simpl. now rewrite !insert_insert_eq.
Qed.

(** X3.  [enterEditMode] on a node of the scene whose [adjust()] returns: the
    node is selected and in edit mode, no other node is in edit mode, the text
    at entry is the one to revert to, the overlay shows what the provider
    offers for the text, and a double click on the node now changes
    nothing. *)
Theorem enterEditMode_enters_edit_mode r n c :
  nodeStore c !! r = Some n → adjusts r c → r ∈ sceneNodes c →
  ∃ c' n',
    enterEditMode r c = Ok tt c' ∧
    nodeStore c' !! r = Some n' ∧
    isInEditMode r c' = Ok true c' ∧
    (∀ r', r' ≠ r → node_inEditMode c' r' = false) ∧
    node_selected n' = true ∧
    oldText_ n' = text n ∧
    textItem_ n' = setCompletion (completion_ c (text n))
                     (set_textEditable true (textItem_ n)) ∧
    node_mouseDoubleClickEvent r c' = Ok tt c'.
Proof.
  intros H Hadj Hscene.
  pose proof (enterEditMode_scene_run r n c H Hadj Hscene) as Hrun.
  match type of Hrun with
  | _ = Ok tt (upd_nodeStore <[r := ?x]> ?y) =>
      set (n' := x) in *; set (c' := upd_nodeStore <[r := n']> y) in *
  end.
  assert (H' : nodeStore c' !! r = Some n') by apply nodeStore_upd_eq.
  assert (Hedit : isInEditMode r c' = Ok true c').
  { rewrite (isInEditMode_run r n' c' H'). f_equal.
    unfold n'. simpl. rewrite textEditable_setCompletion. simpl.
    now rewrite bool_decide_eq_true_2. }
  exists c', n'. split; [exact Hrun|]. split; [exact H'|].
  split; [exact Hedit|]. repeat apply conj; try reflexivity.
  - intros r' Hr'. unfold node_inEditMode.
    destruct (nodeStore c' !! r'); [|reflexivity].
    rewrite bool_decide_eq_false_2; [apply andb_false_r|].
    simpl. congruence.
  - unfold node_mouseDoubleClickEvent. now rewrite (bind_Ok _ _ _ _ _ Hedit).
Qed.

Lemma enterEditMode_enters_edit_mode_witness :
  ∃ c' n',
    enterEditMode 3%positive sample_selected = Ok tt c' ∧
    nodeStore c' !! 3%positive = Some n' ∧
    isInEditMode 3%positive c' = Ok true c' ∧
    (∀ r', r' ≠ 3%positive → node_inEditMode c' r' = false) ∧
    node_selected n' = true ∧
    oldText_ n' = "dac"%string ∧
    textItem_ n' = mkLabel "dac" true [] (-1) false ∧
    node_mouseDoubleClickEvent 3%positive c' = Ok tt c'.
Proof.
  assert (Hn : nodeStore sample_selected !! 3%positive
               = Some (mkNode 20 [4%positive] [] (new_QDataflowNodeTextLabel "dac")
                         true "dac" true false))
    by (vm_compute; reflexivity).
  assert (Hadj : adjusts 3%positive sample_selected) by (vm_compute; reflexivity).
  assert (Hscene : 3%positive ∈ sceneNodes sample_selected).
  { apply (bool_decide_unpack (3%positive ∈ sceneNodes sample_selected)).
    vm_compute. exact I. }
  exact (enterEditMode_enters_edit_mode 3%positive _ sample_selected Hn Hadj Hscene).
Defined.

(** X4.  Deselecting a selected node whose [adjust()] returns ends its edit
    mode and commits its text: one [setText] command with the text of the
    label is issued when that text differs from the one captured at selection
    or edit entry, and none otherwise.  Deselecting a node that is not
    selected does nothing. *)
Theorem deselecting_commits_the_text r n c :
  nodeStore c !! r = Some n → adjusts r c →
  (node_selected n = false → node_setSelected r false c = Ok tt c) ∧
  (node_selected n = true →
   ∃ c' n',
     node_setSelected r false c = Ok tt c' ∧
     nodeStore c' !! r = Some n' ∧
     node_selected n' = false ∧ text n' = text n ∧ oldText_ n' = text n ∧
     isInEditMode r c' = Ok false c' ∧
     issued c' = issued c ++ (if String.eqb (oldText_ n) (text n) then []
                              else [setText (modelNode_ n) (text n)])).
Proof.
  intros H Hadj. unfold node_setSelected.
  rewrite (bind_Ok _ _ _ _ _ (deref_node_Some _ _ _ H)).
  split; intros Hsel; rewrite Hsel; simpl; [reflexivity|].
  unfold store_node, modify, bind at 1.
  unfold itemChange_ItemSelectedHasChanged.
  set (n1 := set_node_selected false n).
  pose proof (adjusts_upd r r n n1 c H eq_refl eq_refl Hadj) as Hadj1.
  rewrite (bind_Ok _ _ _ _ _ Hadj1).
  destruct (exitEditMode_run false r n1 _ (nodeStore_upd_eq r n1 c) (fun _ => Hadj1))
    as (c' & n' & Hrun & H' & _ & Ht & Ho & Hs & Hi).
  exists c', n'. split; [exact Hrun|]. split; [exact H'|].
  repeat apply conj.
  - exact Hs.
  - unfold text. now rewrite Ht.
  - exact Ho.
  - rewrite (isInEditMode_run r n' c' H'), Ht. reflexivity.
  - exact Hi.
Qed.

Lemma deselecting_commits_the_text_witness :
  ∃ c', node_setSelected 1%positive false sample_typed = Ok tt c' ∧
        isInEditMode 1%positive c' = Ok false c' ∧
        issued c' = [setText 10%positive "foo"%string].
Proof.
  pose (n := mkNode 10 [] [] (mkLabel "foo" true ["add"; "mul"; "sub"]%string (-1) true)
               true EmptyString true false).
  assert (Hn : nodeStore sample_typed !! 1%positive = Some n)
    by (vm_compute; reflexivity).
  assert (Hadj : adjusts 1%positive sample_typed) by (vm_compute; reflexivity).
  destruct (deselecting_commits_the_text 1%positive n sample_typed Hn Hadj)
    as [_ Hsel].
  destruct (Hsel eq_refl) as (c' & n' & Hrun & _ & _ & _ & _ & Hedit & Hi).
  exists c'. split; [exact Hrun|]. split; [exact Hedit|]. exact Hi.
Defined.

(** X5.  The Escape key on a label whose overlay is open closes the overlay
    and nothing else: the text stays, the node stays in edit mode when it was,
    and no command is issued.  On a node whose [adjust()] returns, a second
    Escape then leaves edit mode with the text at edit entry put back, again
    without a command. *)
Theorem escape_closes_the_overlay_first fuel r n c :
  nodeStore c !! r = Some n →
  completionActive_ (textItem_ n) = true →
  let n1 := set_textItem_ (clearCompletion (textItem_ n)) n in
  let c1 := upd_nodeStore <[r := n1]> c in
  sceneEvent fuel r Key_Escape c = Ok true c1 ∧
  text n1 = text n ∧
  (∀ b, isInEditMode r c = Ok b c → isInEditMode r c1 = Ok b c1) ∧
  issued c1 = issued c ∧
  (adjusts r c →
   ∃ c2 n2,
     sceneEvent fuel r Key_Escape c1 = Ok true c2 ∧
     nodeStore c2 !! r = Some n2 ∧ text n2 = oldText_ n ∧
     isInEditMode r c2 = Ok false c2 ∧ issued c2 = issued c).
Proof.
  intros H Hact n1 c1.
  assert (H1 : nodeStore c1 !! r = Some n1) by apply nodeStore_upd_eq.
  split; [|split; [reflexivity|split; [|split; [reflexivity|intros Hadj]]]].
  - unfold sceneEvent.
    rewrite (bind_Ok _ _ _ _ _ (deref_node_Some _ _ _ H)), Hact.
    now rewrite (bind_Ok _ _ _ _ _ (upd_label_Some _ _ _ _ H)).
  - intros b Hb. rewrite (isInEditMode_run r n c H) in Hb. injection Hb as <-.
    now rewrite (isInEditMode_run r n1 c1 H1).
  - assert (Hadj1 : adjusts r c1)
      by exact (adjusts_upd r r n n1 c H eq_refl eq_refl Hadj).
    destruct (exitEditMode_run true r n1 c1 H1 (fun _ => Hadj1))
      as (c2 & n2 & Hrun & H2 & _ & Ht & _ & _ & Hi).
    exists c2, n2. repeat apply conj.
    + unfold sceneEvent.
      rewrite (bind_Ok _ _ _ _ _ (deref_node_Some _ _ _ H1)). simpl.
      now rewrite (bind_Ok _ _ _ _ _ Hrun).
    + exact H2.
    + unfold text. rewrite Ht. simpl. now rewrite text_setCompletion.
    + rewrite (isInEditMode_run r n2 c2 H2), Ht. reflexivity.
    + rewrite Hi. simpl. now rewrite app_nil_r.
Qed.

Lemma escape_closes_the_overlay_first_witness :
  ∃ c1, sceneEvent 0 1%positive Key_Escape sample_typed = Ok true c1 ∧
        isInEditMode 1%positive c1 = Ok true c1 ∧
        text <$> nodeStore c1 !! 1%positive = Some "foo"%string ∧
        ∃ c2, sceneEvent 0 1%positive Key_Escape c1 = Ok true c2 ∧
              text <$> nodeStore c2 !! 1%positive = Some EmptyString.
Proof.
  pose (n := mkNode 10 [] [] (mkLabel "foo" true ["add"; "mul"; "sub"]%string (-1) true)
               true EmptyString true false).
  assert (Hn : nodeStore sample_typed !! 1%positive = Some n)
    by (vm_compute; reflexivity).
  assert (Hadj : adjusts 1%positive sample_typed) by (vm_compute; reflexivity).
  destruct (escape_closes_the_overlay_first 0 1%positive n sample_typed Hn eq_refl)
    as (Hesc & _ & Hedit & _ & Hsecond).
  destruct (Hsecond Hadj) as (c2 & n2 & Hesc2 & H2 & Ht2 & _).
  eexists. split; [exact Hesc|].
  split; [apply Hedit; vm_compute; reflexivity|].
  split; [vm_compute; reflexivity|].
  exists c2. split; [exact Hesc2|]. rewrite H2. simpl. now rewrite Ht2.
Defined.

(** X6.  The Return key on the label of a node whose [adjust()] returns, in a
    reachable canvas, with the overlay open and a candidate highlighted: the
    highlight is the index of a candidate, the text of the label becomes that
    candidate, the overlay is rebuilt from what the provider offers for it,
    the node stays in edit mode when it was, and no command is issued. *)
Theorem return_takes_the_highlighted_candidate fuel r n c :
  reachable c → nodeStore c !! r = Some n → adjusts r c →
  completionActive_ (textItem_ n) = true →
  0 <= completionIndex_ (textItem_ n) →
  ∃ t,
    completionItems_ (textItem_ n) !! Z.to_nat (completionIndex_ (textItem_ n))
    = Some t ∧
    let n' := set_textItem_
                (setCompletion (completion_ c t) (set_plainText t (textItem_ n))) n in
    let c' := upd_nodeStore <[r := n']> c in
    sceneEvent fuel r Key_Return c = Ok true c' ∧
    text n' = t ∧
    (∀ b, isInEditMode r c = Ok b c → isInEditMode r c' = Ok b c') ∧
    issued c' = issued c.
Proof.
  intros Hreach H Hadj Hact Hidx.
  destruct (reachable_labels_ok c Hreach r n H) as [_ Hrange].
  destruct (lookup_lt_is_Some_2 (completionItems_ (textItem_ n))
              (Z.to_nat (completionIndex_ (textItem_ n)))) as [t Ht]; [lia|].
  exists t. split; [exact Ht|]. intros n' c'.
  split; [|split; [|split; [|reflexivity]]].
  - unfold sceneEvent.
    rewrite (bind_Ok _ _ _ _ _ (deref_node_Some _ _ _ H)), Hact.
    assert (Haccept : acceptCompletion r c = Ok tt c').
    { unfold acceptCompletion.
      rewrite (bind_Ok _ _ _ _ _ (deref_node_Some _ _ _ H)), Hact.
      destruct (Z.geb_spec (completionIndex_ (textItem_ n)) 0); [|lia].
      rewrite Ht. exact (setPlainText_run r t n c H Hadj). }
    now rewrite (bind_Ok _ _ _ _ _ Haccept).
  - unfold text, n'. simpl. now rewrite text_setCompletion.
  - intros b Hb. rewrite (isInEditMode_run r n c H) in Hb. injection Hb as <-.
    rewrite (isInEditMode_run r n' c' (nodeStore_upd_eq _ _ _)).
    unfold n'. simpl. now rewrite textEditable_setCompletion.
Qed.

Lemma reachable_sample_highlighted : reachable sample_highlighted.
Proof.
  apply (reachable_handle (Received (LabelKeyPressed 2 1 Key_Down)) sample_editing);
    [exact reachable_sample_editing|].
  vm_compute. reflexivity.
Qed.

Lemma return_takes_the_highlighted_candidate_witness :
  text <$> nodeStore (final (sceneEvent 0 1%positive Key_Return sample_highlighted))
           !! 1%positive
  = Some "add"%string.
Proof.
  pose (n := mkNode 10 [] [] (mkLabel EmptyString true ["add"; "mul"; "sub"]%string 0 true)
               true EmptyString true false).
  assert (Hn : nodeStore sample_highlighted !! 1%positive = Some n)
    by (vm_compute; reflexivity).
  assert (Hadj : adjusts 1%positive sample_highlighted) by (vm_compute; reflexivity).
  destruct (return_takes_the_highlighted_candidate 0 1%positive n sample_highlighted
              reachable_sample_highlighted Hn Hadj eq_refl ltac:(simpl; lia))
    as (t & Ht & Hrun & _).
  vm_compute in Ht. injection Ht as <-.
  rewrite Hrun. simpl. now rewrite lookup_insert_eq.
Defined.

(** ** The round trip of an edit *)

(** X28.  For every node whose [adjust()] returns and every text [s]: entering
    edit mode and then replacing the label text by [s] succeeds; after that
    the Escape key, when no completion overlay is open, puts the text back to
    what it was at edit entry and issues no command; the Return key instead
    issues one [setText] command carrying [s], and none when [s] is the text
    captured at edit entry. *)
Theorem edit_round_trip fuel r n s c :
  nodeStore c !! r = Some n → adjusts r c →
  ∃ c1 c2 n2,
    enterEditMode r c = Ok tt c1 ∧
    setPlainText r s c1 = Ok tt c2 ∧
    nodeStore c2 !! r = Some n2 ∧ text n2 = s ∧
    (completionActive_ (textItem_ n2) = false →
     ∃ c3 n3, sceneEvent fuel r Key_Escape c2 = Ok true c3 ∧
              nodeStore c3 !! r = Some n3 ∧ text n3 = text n ∧
              issued c3 = issued c) ∧
    (∃ c3 n3, sceneEvent fuel r Key_Return c2 = Ok true c3 ∧
              nodeStore c3 !! r = Some n3 ∧ text n3 = s ∧
              issued c3 = issued c ++ (if String.eqb (text n) s then []
                                       else [setText (modelNode_ n) s])).
Proof.
  intros H Hadj.
  destruct (enterEditMode_run r n c H Hadj)
    as (c1 & n1 & Henter & (H1 & Hm1 & Hc1) & Ht1 & Ho1 & Hi1 & _).
  assert (Hadj1 : adjusts r c1)
    by exact (adjusts_steps _ r c tt c1 (steps_enterEditMode similar r) Henter Hadj).
  pose proof (setPlainText_run r s n1 c1 H1 Hadj1) as Htype.
  set (n2 := set_textItem_
               (setCompletion (completion_ c1 s) (set_plainText s (textItem_ n1))) n1)
    in Htype.
  set (c2 := upd_nodeStore <[r := n2]> c1) in Htype.
  assert (H2 : nodeStore c2 !! r = Some n2) by apply nodeStore_upd_eq.
  assert (Hadj2 : adjusts r c2)
    by exact (adjusts_steps _ r c1 tt c2 (steps_setPlainText similar r s) Htype Hadj1).
  assert (Ht2 : text n2 = s).
  { unfold text, n2. simpl. now rewrite text_setCompletion. }
  assert (Ho2 : oldText_ n2 = text n) by exact Ho1.
  assert (Hm2 : modelNode_ n2 = modelNode_ n) by exact Hm1.
  assert (Hi2 : issued c2 = issued c) by exact Hi1.
  assert (Hx2 : completionIndex_ (textItem_ n2) = -1).
  { unfold n2. simpl. apply completionIndex_setCompletion. }
  exists c1, c2, n2. repeat apply conj; try assumption.
  - intros Hoff.
    destruct (exitEditMode_revert_run r n2 c2 H2 Hadj2)
      as (c3 & n3 & Hexit & (H3 & _) & Ht3 & Hi3).
    exists c3, n3. repeat apply conj.
    + unfold sceneEvent.
      rewrite (bind_Ok _ _ _ _ _ (deref_node_Some _ _ _ H2)), Hoff.
      now rewrite (bind_Ok _ _ _ _ _ Hexit).
    + exact H3.
    + now rewrite Ht3.
    + now rewrite Hi3.
  - destruct (exitEditMode_commit_run r n2 c2 H2)
      as (c3 & n3 & Hexit & (H3 & _) & Ht3 & Hi3).
    exists c3, n3. repeat apply conj.
    + unfold sceneEvent.
      rewrite (bind_Ok _ _ _ _ _ (deref_node_Some _ _ _ H2)).
      destruct (completionActive_ (textItem_ n2)) eqn:Hact.
      * assert (Haccept : acceptCompletion r c2 = Ok tt c3).
        { unfold acceptCompletion.
          rewrite (bind_Ok _ _ _ _ _ (deref_node_Some _ _ _ H2)), Hact, Hx2.
          exact Hexit. }
        now rewrite (bind_Ok _ _ _ _ _ Haccept).
      * now rewrite (bind_Ok _ _ _ _ _ Hexit).
    + exact H3.
    + now rewrite Ht3.
    + rewrite Hi3, Hi2, Ho2, Ht2, Hm2. reflexivity.
Qed.

Lemma edit_round_trip_witness :
  (∃ c2, (enterEditMode 1%positive ;; setPlainText 1%positive "foo"%string)
           sample_editing = Ok tt c2 ∧
         issued (final (sceneEvent 0 1%positive Key_Return c2))
         = [setText 10%positive "foo"%string]) ∧
  (∃ c2 c3 n3, (enterEditMode 3%positive ;; setPlainText 3%positive "foo"%string)
                 sample_selected = Ok tt c2 ∧
               sceneEvent 0 3%positive Key_Escape c2 = Ok true c3 ∧
               nodeStore c3 !! 3%positive = Some n3 ∧ text n3 = "dac"%string ∧
               issued c3 = []).
Proof.
  split.
  - assert (Hn : nodeStore sample_editing !! 1%positive = Some sample_node)
      by (vm_compute; reflexivity).
    assert (Hadj : adjusts 1%positive sample_editing) by (vm_compute; reflexivity).
    destruct (edit_round_trip 0 1%positive sample_node "foo"%string sample_editing
                Hn Hadj)
      as (c1 & c2 & n2 & Henter & Htype & _ & _ & _ & (c3 & n3 & Hret & _ & _ & Hi)).
    exists c2. split.
    + rewrite (bind_Ok _ _ _ _ _ Henter). exact Htype.
    + rewrite Hret. simpl. rewrite Hi. reflexivity.
  - pose (n := mkNode 20 [4%positive] [] (new_QDataflowNodeTextLabel "dac")
                 true "dac" true false).
    assert (Hn : nodeStore sample_selected !! 3%positive = Some n)
      by (vm_compute; reflexivity).
    assert (Hadj : adjusts 3%positive sample_selected) by (vm_compute; reflexivity).
    destruct (edit_round_trip 0 3%positive n "foo"%string sample_selected Hn Hadj)
      as (c1 & c2 & n2 & Henter & Htype & H2 & _ & Hesc & _).
    assert (Hoff : completionActive_ (textItem_ n2) = false).
    { assert (Hrun : (enterEditMode 3%positive ;; setPlainText 3%positive "foo"%string)
                       sample_selected = Ok tt c2)
        by (rewrite (bind_Ok _ _ _ _ _ Henter); exact Htype).
      vm_compute in Hrun. injection Hrun as <-.
      vm_compute in H2. injection H2 as <-. reflexivity. }
    destruct (Hesc Hoff) as (c3 & n3 & Hrun & H3 & Ht & Hi).
    exists c2, c3, n3. split; [rewrite (bind_Ok _ _ _ _ _ Henter); exact Htype|].
    split; [exact Hrun|]. split; [exact H3|]. split; [exact Ht | exact Hi].
Defined.

(** ** A text announced by the model *)

(** X7.  [nodeTextChanged] for a node in the index whose [adjust()] returns: a
    text equal to the one on the label changes nothing; any other text is
    written to the label and the overlay is rebuilt from what the provider
    offers for it, while the text to revert to, the edit mode and the commands
    issued stay as they were. *)
Theorem nodeTextChanged_sets_the_label m r n t c :
  nodes_ c !! m = Some r → nodeStore c !! r = Some n → adjusts r c →
  (t = text n → onNodeTextChanged m t c = Ok tt c) ∧
  (t ≠ text n →
   let n' := set_textItem_
               (setCompletion (completion_ c t) (set_plainText t (textItem_ n))) n in
   let c' := upd_nodeStore <[r := n']> c in
   onNodeTextChanged m t c = Ok tt c' ∧
   text n' = t ∧ oldText_ n' = oldText_ n ∧
   (∀ b, isInEditMode r c = Ok b c → isInEditMode r c' = Ok b c') ∧
   issued c' = issued c).
Proof.
  intros Hm H Hadj.
  assert (Hrun : onNodeTextChanged m t c
                 = if String.eqb t (text n) then Ok tt c else setPlainText r t c).
  { unfold onNodeTextChanged.
    rewrite (bind_Ok _ _ _ _ _ (node_known m r c Hm)). simpl.
    unfold node_setText. rewrite (bind_Ok _ _ _ _ _ (deref_node_Some _ _ _ H)).
    now destruct (String.eqb t (text n)). }
  rewrite Hrun. split.
  - intros ->. now rewrite String.eqb_refl.
  - intros Ht n' c'.
    destruct (String.eqb_spec t (text n)) as [E|_]; [contradiction|].
    split; [exact (setPlainText_run r t n c H Hadj)|].
    split; [unfold text, n'; simpl; now rewrite text_setCompletion|].
    split; [reflexivity|]. split; [|reflexivity].
    intros b Hb. rewrite (isInEditMode_run r n c H) in Hb. injection Hb as <-.
    rewrite (isInEditMode_run r n' c' (nodeStore_upd_eq _ _ _)).
    unfold n'. simpl. now rewrite textEditable_setCompletion.
Qed.

Lemma nodeTextChanged_sets_the_label_witness :
  onNodeTextChanged 10 "osc" sample_selected = Ok tt sample_selected ∧
  text <$> nodeStore (final (onNodeTextChanged 10 "phasor" sample_selected))
           !! 1%positive
  = Some "phasor"%string.
Proof.
  pose (n := mkNode 10 [] [2%positive] (new_QDataflowNodeTextLabel "osc")
               true "osc" true false).
  assert (Hm : nodes_ sample_selected !! 10%positive = Some 1%positive)
    by (vm_compute; reflexivity).
  assert (Hn : nodeStore sample_selected !! 1%positive = Some n)
    by (vm_compute; reflexivity).
  assert (Hadj : adjusts 1%positive sample_selected) by (vm_compute; reflexivity).
  split.
  - destruct (nodeTextChanged_sets_the_label 10 1 n "osc" sample_selected Hm Hn Hadj)
      as [Hsame _].
    exact (Hsame eq_refl).
  - destruct (nodeTextChanged_sets_the_label 10 1 n "phasor" sample_selected Hm Hn Hadj)
      as [_ Hnew].
    destruct (Hnew ltac:(discriminate)) as (Hrun & _).
    rewrite Hrun. simpl. now rewrite lookup_insert_eq.
Defined.

(** ** Visuals taken out of the scene *)

Lemma selectedNodes_in_scene c r : r ∈ selectedNodes c → r ∈ sceneNodes c.
Proof.
  intros Hin. unfold selectedNodes in Hin.
  apply list_elem_of_In, filter_In in Hin as [_ Hin].
  apply andb_prop in Hin as [Hscene _].
  now apply bool_decide_eq_true in Hscene.
Qed.

Lemma selectedConnections_in_scene c x : x ∈ selectedConnections c → x ∈ sceneConns c.
Proof.
  intros Hin. unfold selectedConnections in Hin.
  apply list_elem_of_In, filter_In in Hin as [_ Hin].
  apply andb_prop in Hin as [Hscene _].
  now apply bool_decide_eq_true in Hscene.
Qed.

#[local] Instance links_stay_preorder : PreOrder links_stay.
Proof.
  split; [intros c; now repeat split|].
  intros a b c (?&?&?) (?&?&?). unfold links_stay. repeat split; congruence.
Qed.

#[local] Instance links_stay_local : LocalFrame links_stay.
Proof.
  refine {| lf_fine := fun _ => True |};
    first [exact _ | intros; exact I | intros; now repeat split].
Qed.

#[local] Instance links_stay_commit : CommitFrame links_stay.
Proof. split; [exact _|]. intros; now repeat split. Qed.

Lemma scene_removeNode_run r c :
  ∃ c', scene_removeNode r c = Ok tt c' ∧ (r ∉ sceneNodes c') ∧
        nodes_ c' = nodes_ c ∧ nodeStore c' = nodeStore c ∧ issued c' = issued c ∧
        (focusItem c' = focusItem c ∨ focusItem c' = None) ∧
        links_stay c c'.
Proof.
  unfold scene_removeNode. case_decide as Hin.
  - eexists. split; [reflexivity|]. simpl.
    split; [case_decide; simpl; set_solver|].
    repeat split; try (case_decide; reflexivity).
    case_decide; simpl; [now right | now left].
  - eexists. split; [reflexivity|]. simpl. repeat split; auto.
Qed.

(** X8.  [nodeRemoved] for a node in the index, whose [adjust()] returns if it
    is in edit mode: the visual leaves the scene but stays in the index; it
    is no longer in edit mode, its text is the one at edit entry when it was,
    and it is not among the selected nodes whatever its selection flag; its
    ports stay allocated and the connections at its ports stay in the scene;
    no command is issued.  The same notification once more finds the visual,
    leaves it where it is and logs that the item is not in the scene. *)
Theorem removing_a_node_twice m r n c :
  nodes_ c !! m = Some r → nodeStore c !! r = Some n →
  (node_inEditMode c r = true → adjusts r c) →
  ∃ c' n',
    onNodeRemoved m c = Ok tt c' ∧
    (r ∉ sceneNodes c') ∧
    node m c' = Ok (Some r) c' ∧
    nodeStore c' !! r = Some n' ∧
    text n' = (if node_inEditMode c r then oldText_ n else text n) ∧
    isInEditMode r c' = Ok false c' ∧
    (r ∉ selectedNodes c') ∧
    ioletStore c' = ioletStore c ∧ sceneConns c' = sceneConns c ∧
    issued c' = issued c ∧
    onNodeRemoved m c' = Ok tt (warn (RemoveForeignItem r) c').
Proof.
  intros Hm H Hadj.
  assert (∃ c1 n1,
            (e <- isInEditMode r ;;
             if e then exitEditMode true r else ret tt) c = Ok tt c1 ∧
            nodeStore c1 !! r = Some n1 ∧ nodes_ c1 = nodes_ c ∧
            text n1 = (if node_inEditMode c r then oldText_ n else text n) ∧
            textEditable (textItem_ n1) && bool_decide (focusItem c1 = Some r) = false ∧
            issued c1 = issued c ∧ links_stay c c1)
    as (c1 & n1 & Hexit & H1 & Hm1 & Ht1 & He1 & Hi1 & Hl1).
  { rewrite (bind_Ok _ _ _ _ _ (isInEditMode_run r n c H)).
    unfold node_inEditMode in Hadj |- *. rewrite H in Hadj |- *.
    destruct (textEditable (textItem_ n) && bool_decide (focusItem c = Some r))
      eqn:He.
    - destruct (exitEditMode_run true r n c H (fun _ => Hadj eq_refl))
        as (c1 & n1 & Hrun & H1 & _ & Ht & _ & _ & Hi).
      exists c1, n1. split; [exact Hrun|]. split; [exact H1|].
      pose proof (steps_Ok index_frame _ _ _ _
                    (steps_exitEditMode index_frame true r) Hrun) as (Hn & _).
      split; [exact Hn|].
      split; [unfold text; rewrite Ht; simpl; now rewrite text_setCompletion|].
      split; [now rewrite Ht|].
      split; [rewrite Hi; simpl; now rewrite app_nil_r|].
      exact (steps_Ok links_stay _ _ _ _ (steps_exitEditMode links_stay true r) Hrun).
    - exists c, n. repeat split; assumption. }
  destruct (scene_removeNode_run r c1)
    as (c' & Hrem & Hout & Hm' & Hst' & Hi' & Hf' & Hl').
  assert (H' : nodeStore c' !! r = Some n1) by now rewrite Hst'.
  assert (Hm2 : nodes_ c' !! m = Some r) by now rewrite Hm', Hm1.
  assert (He' : isInEditMode r c' = Ok false c').
  { rewrite (isInEditMode_run r n1 c' H'). f_equal.
    destruct Hf' as [-> | ->]; [exact He1|].
    rewrite bool_decide_eq_false_2 by discriminate. apply andb_false_r. }
  assert (Hrun : onNodeRemoved m c = Ok tt c').
  { unfold onNodeRemoved.
    rewrite (bind_Ok _ _ _ _ _ (node_known m r c Hm)). simpl.
    apply bind_Ok_inv in Hexit as (e & c0 & He & Hbranch).
    rewrite (bind_Ok _ _ _ _ _ He).
    assert (Hbranch' : (if e then through (Some r) (exitEditMode true) else ret tt) c0
                       = Ok tt c1) by (destruct e; exact Hbranch).
    rewrite (bind_Ok _ _ _ _ _ Hbranch'). exact Hrem. }
  destruct (transitivity Hl1 Hl') as (Hio & _ & Hsc).
  exists c', n1. split; [exact Hrun|]. split; [exact Hout|].
  split; [exact (node_known m r c' Hm2)|]. split; [exact H'|].
  split; [exact Ht1|]. split; [exact He'|].
  split; [intros Hin; exact (Hout (selectedNodes_in_scene c' r Hin))|].
  split; [exact Hio|]. split; [exact Hsc|].
  split; [now rewrite Hi'|].
  unfold onNodeRemoved.
  rewrite (bind_Ok _ _ _ _ _ (node_known m r c' Hm2)). simpl.
  rewrite (bind_Ok _ _ _ _ _ He'). simpl. unfold bind, ret.
  unfold scene_removeNode. now rewrite decide_False.
Qed.

Lemma removing_a_node_twice_witness :
  ∃ c',
    onNodeRemoved 10 sample_typed = Ok tt c' ∧
    node 10 c' = Ok (Some 1%positive) c' ∧
    text <$> nodeStore c' !! 1%positive = Some EmptyString ∧
    onNodeRemoved 10 c' = Ok tt (warn (RemoveForeignItem 1) c').
Proof.
  pose (n := mkNode 10 [] [] (mkLabel "foo" true ["add"; "mul"; "sub"]%string (-1) true)
               true EmptyString true false).
  assert (Hm : nodes_ sample_typed !! 10%positive = Some 1%positive)
    by (vm_compute; reflexivity).
  assert (Hn : nodeStore sample_typed !! 1%positive = Some n)
    by (vm_compute; reflexivity).
  assert (Hadj : adjusts 1%positive sample_typed) by (vm_compute; reflexivity).
  destruct (removing_a_node_twice 10 1 n sample_typed Hm Hn (fun _ => Hadj))
    as (c' & n' & Hrun & _ & Hnode & H' & Ht & _ & _ & _ & _ & _ & Hagain).
  exists c'. split; [exact Hrun|]. split; [exact Hnode|].
  split; [|exact Hagain].
  rewrite H'. simpl. rewrite Ht. vm_compute. reflexivity.
Defined.

(** X9.  [connectionRemoved] for a connection in the index: the visual leaves
    the scene but stays in the index and in the store, and the ports it joins
    keep it in their lists; it is not among the selected connections whatever
    its selection flag.  The same notification once more logs that the item
    is not in the scene and changes nothing else. *)
Theorem removing_a_connection_twice k x c :
  connections_ c !! k = Some x →
  ∃ c',
    onConnectionRemoved k c = Ok tt c' ∧
    (x ∉ sceneConns c') ∧
    connection k c' = Ok (Some x) c' ∧
    connStore c' = connStore c ∧ ioletStore c' = ioletStore c ∧
    (x ∉ selectedConnections c') ∧
    issued c' = issued c ∧
    onConnectionRemoved k c' = Ok tt (warn (RemoveForeignItem x) c').
Proof.
  intros Hk.
  assert (Hfind : ∀ c0, connections_ c0 = connections_ c →
                        connection k c0 = Ok (Some x) c0).
  { intros c0 E. unfold connection. now rewrite E, Hk. }
  assert (∃ c', scene_removeConnection x c = Ok tt c' ∧ (x ∉ sceneConns c') ∧
                connections_ c' = connections_ c ∧ connStore c' = connStore c ∧
                ioletStore c' = ioletStore c ∧ issued c' = issued c)
    as (c' & Hrem & Hout & Hk' & Hcs & Hio & Hi).
  { unfold scene_removeConnection. case_decide.
    - eexists. split; [reflexivity|]. simpl. split; [set_solver|]. repeat split.
    - eexists. split; [reflexivity|]. now repeat split. }
  exists c'. unfold onConnectionRemoved.
  rewrite (bind_Ok _ _ _ _ _ (Hfind c eq_refl)). simpl.
  split; [exact Hrem|]. split; [exact Hout|].
  split; [exact (Hfind c' Hk')|]. split; [exact Hcs|]. split; [exact Hio|].
  split; [intros Hin; exact (Hout (selectedConnections_in_scene c' x Hin))|].
  split; [exact Hi|].
  rewrite (bind_Ok _ _ _ _ _ (Hfind c' Hk')). simpl.
  unfold scene_removeConnection. now rewrite decide_False.
Qed.

Lemma removing_a_connection_twice_witness :
  ∃ c',
    onConnectionRemoved 30 sample_selected = Ok tt c' ∧
    connection 30 c' = Ok (Some 5%positive) c' ∧
    io_connections_ <$> ioletStore c' !! 2%positive = Some [5%positive] ∧
    onConnectionRemoved 30 c' = Ok tt (warn (RemoveForeignItem 5) c').
Proof.
  assert (Hk : connections_ sample_selected !! 30%positive = Some 5%positive)
    by (vm_compute; reflexivity).
  destruct (removing_a_connection_twice 30 5 sample_selected Hk)
    as (c' & Hrun & _ & Hfind & _ & Hio & _ & _ & Hagain).
  exists c'. split; [exact Hrun|]. split; [exact Hfind|].
  split; [|exact Hagain].
  rewrite Hio. vm_compute. reflexivity.
Defined.

(** ** Growing a port list *)

Lemma length_fresh m : ∀ a, length (fresh a m) = m.
Proof. induction m as [|m IH]; intros a; simpl; [reflexivity | now rewrite IH]. Qed.

Lemma elem_of_fresh m : ∀ a p,
  p ∈ fresh a m → Z.pos a <= Z.pos p < Z.pos a + Z.of_nat m.
Proof.
  induction m as [|m IH]; intros a p Hin; simpl in Hin.
  - now apply not_elem_of_nil in Hin.
  - apply elem_of_cons in Hin as [->|Hin]; [lia|].
    apply IH in Hin. lia.
Qed.

Lemma NoDup_fresh m : ∀ a, NoDup (fresh a m).
Proof.
  induction m as [|m IH]; intros a; simpl; constructor; [|apply IH].
  intros Hin%elem_of_fresh. lia.
Qed.

#[local] Instance same_but_ports_preorder : PreOrder same_but_ports.
Proof.
  split.
  - intros c. now repeat split.
  - intros c1 c2 c3 H12 H23. unfold same_but_ports in *.
    destruct H12 as (?&?&?&?&?&?&?&?&?&?&?&?&?).
    destruct H23 as (?&?&?&?&?&?&?&?&?&?&?&?&?).
    repeat split; congruence.
Qed.

(** The second loop of [setInletCount] / [setOutletCount] appends one fresh,
    unconnected port per turn, numbered by its position in the list. *)
Lemma grow_loop_run k r count : ∀ m fuel n c,
  nodeStore c !! r = Some n →
  Z.of_nat (length (iolets k n)) + Z.of_nat m = count → (m ≤ fuel)%nat →
  ∃ c',
    grow_loop fuel k r count c = Ok tt c' ∧
    nodeStore c'
    = <[r := set_iolets k (iolets k n ++ fresh (nextAddr c) m) n]> (nodeStore c) ∧
    (∀ j p, fresh (nextAddr c) m !! j = Some p →
       ioletStore c' !! p
       = Some (mkIOlet k r (Z.of_nat (length (iolets k n) + j)) [] None)) ∧
    (∀ q, q ∉ fresh (nextAddr c) m → ioletStore c' !! q = ioletStore c !! q) ∧
    Z.pos (nextAddr c') = Z.pos (nextAddr c) + Z.of_nat m ∧
    same_but_ports c c'.
Proof.
  induction m as [|m IH]; intros fuel n c Hn Hcount Hfuel;
    rewrite grow_loop_unfold, (bind_Ok _ _ _ _ _ (deref_node_Some _ _ _ Hn)).
  - destruct (Z.ltb_spec (Z.of_nat (length (iolets k n))) count); [lia|].
    exists c. split; [reflexivity|]. simpl. rewrite app_nil_r, set_iolets_iolets.
    split; [symmetry; now apply insert_id|].
    split; [intros j p Hj; now rewrite lookup_nil in Hj|].
    split; [reflexivity|]. split; [lia | reflexivity].
  - destruct (Z.ltb_spec (Z.of_nat (length (iolets k n))) count); [|lia].
    destruct fuel as [|fuel]; [lia|]. cbv zeta.
    unfold new_QDataflowIOlet, alloc, store_iolet, modify.
    unfold bind at 1 2 3. simpl.
    set (a := nextAddr c).
    set (c1 := upd_ioletStore _ _).
    assert (Hn1 : nodeStore c1 !! r = Some n) by exact Hn.
    rewrite (bind_Ok _ _ _ _ _ (upd_node_Some _ _ _ _ Hn1)).
    set (n2 := set_iolets k (iolets k n ++ [a]) n).
    set (c2 := upd_nodeStore <[r := n2]> c1).
    destruct (IH fuel n2 c2) as (c' & Hrun & Hst & Hnew & Hold & Hnext & Hsame).
    { apply nodeStore_upd_eq. }
    { unfold n2. rewrite iolets_set_iolets, length_app. simpl. lia. }
    { lia. }
    change (nextAddr c2) with (Pos.succ a) in *.
    exists c'. split; [exact Hrun|].
    unfold n2 in Hst, Hnew. rewrite iolets_set_iolets in Hst, Hnew.
    split; [|split; [|split; [|split]]].
    + rewrite Hst. rewrite set_iolets_twice, <- app_assoc. simpl.
      unfold c2, upd_nodeStore. simpl. apply insert_insert_eq.
    + intros [|j] p Hj; simpl in Hj.
      * injection Hj as <-. rewrite Hold.
        -- unfold c2, c1. simpl. rewrite lookup_insert_eq.
           now rewrite Nat.add_0_r.
        -- intros Hin%elem_of_fresh. lia.
      * rewrite (Hnew j p Hj). rewrite length_app. simpl.
        do 3 f_equal. lia.
    + intros q Hq. rewrite Hold.
      * unfold c2, c1. simpl. apply lookup_insert_ne.
        intros ->. apply Hq. now left.
      * intros Hin. apply Hq. now right.
    + rewrite Hnext. lia.
    + etransitivity; [|exact Hsame]. now repeat split.
Qed.

(** [adjust()] still returns when objects are added and the ones it reads
    stay as they are. *)
Lemma connection_adjust_extends x c c' :
  (∀ r, is_Some (nodeStore c !! r) → is_Some (nodeStore c' !! r)) →
  (∀ p io, ioletStore c !! p = Some io → ioletStore c' !! p = Some io) →
  connStore c' = connStore c →
  connection_adjust x c = Ok tt c → connection_adjust x c' = Ok tt c'.
Proof.
  intros Hnodes Hports Hconns H.
  apply connection_adjust_Ok in H as (cn & source & dest & Hcn & Hs & Hsn & Hd & Hdn).
  apply connection_adjust_Ok. exists cn, source, dest.
  rewrite Hconns. split; [exact Hcn|].
  split; [exact (Hports _ _ Hs)|]. split; [exact (Hnodes _ Hsn)|].
  split; [exact (Hports _ _ Hd) | exact (Hnodes _ Hdn)].
Qed.

Lemma iolet_adjustConnections_extends p c c' :
  (∀ r, is_Some (nodeStore c !! r) → is_Some (nodeStore c' !! r)) →
  (∀ p io, ioletStore c !! p = Some io → ioletStore c' !! p = Some io) →
  connStore c' = connStore c →
  iolet_adjustConnections p c = Ok tt c → iolet_adjustConnections p c' = Ok tt c'.
Proof.
  intros Hnodes Hports Hconns H. unfold iolet_adjustConnections in *.
  apply bind_Ok_inv in H as (io & c1 & Hio & H).
  apply deref_iolet_Ok_inv in Hio as [-> Hio].
  rewrite (bind_Ok _ _ _ _ _ (deref_iolet_Some _ _ _ (Hports _ _ Hio))).
  apply for_each_reads_inv in H as [_ H];
    [|intros x; apply steps_connection_adjust, _].
  apply for_each_reads. intros x Hx.
  exact (connection_adjust_extends x c c' Hnodes Hports Hconns (H x Hx)).
Qed.

Lemma iolet_adjustConnections_unconnected p io c :
  ioletStore c !! p = Some io → io_connections_ io = [] →
  iolet_adjustConnections p c = Ok tt c.
Proof.
  intros Hio Hnil. unfold iolet_adjustConnections.
  now rewrite (bind_Ok _ _ _ _ _ (deref_iolet_Some _ _ _ Hio)), Hnil.
Qed.

Lemma adjusts_grown k r n new c c' :
  nodeStore c !! r = Some n →
  nodeStore c' = <[r := set_iolets k (iolets k n ++ new) n]> (nodeStore c) →
  (∀ p, p ∈ new → ∃ io, ioletStore c' !! p = Some io ∧ io_connections_ io = []) →
  (∀ p io, ioletStore c !! p = Some io → ioletStore c' !! p = Some io) →
  connStore c' = connStore c →
  adjusts r c → adjusts r c'.
Proof.
  intros Hn Hst Hnew Hports Hconns H.
  assert (Hnodes : ∀ r0, is_Some (nodeStore c !! r0) → is_Some (nodeStore c' !! r0)).
  { intros r0 Hr0. rewrite Hst. destruct (decide (r = r0)) as [->|Hne].
    - rewrite lookup_insert_eq. now eexists.
    - now rewrite lookup_insert_ne. }
  unfold adjusts, node_adjust, node_adjustConnections in *.
  rewrite (bind_Ok _ _ _ _ _ (deref_node_Some _ _ _ Hn)) in H.
  apply bind_Ok_inv in H as ([] & c1 & Hin & Hout).
  apply for_each_reads_inv in Hin as [-> Hin];
    [|intros x; apply steps_iolet_adjustConnections, _].
  apply for_each_reads_inv in Hout as [_ Hout];
    [|intros x; apply steps_iolet_adjustConnections, _].
  assert (Hn' : nodeStore c' !! r = Some (set_iolets k (iolets k n ++ new) n)).
  { rewrite Hst. apply lookup_insert_eq. }
  rewrite (bind_Ok _ _ _ _ _ (deref_node_Some _ _ _ Hn')).
  assert (Hport : ∀ p, p ∈ inlets_ n ∨ p ∈ outlets_ n ∨ p ∈ new →
                       iolet_adjustConnections p c' = Ok tt c').
  { intros p [Hp|[Hp|Hp]].
    - exact (iolet_adjustConnections_extends p c c' Hnodes Hports Hconns (Hin p Hp)).
    - exact (iolet_adjustConnections_extends p c c' Hnodes Hports Hconns (Hout p Hp)).
    - destruct (Hnew p Hp) as (io & Hio & Hnil).
      exact (iolet_adjustConnections_unconnected p io c' Hio Hnil). }
  erewrite bind_Ok.
  - apply for_each_reads. intros p Hp. apply Hport.
    destruct k; simpl in Hp; [auto|].
    apply elem_of_app in Hp as [Hp|Hp]; auto.
  - apply for_each_reads. intros p Hp. apply Hport.
    destruct k; simpl in Hp; [|auto].
    apply elem_of_app in Hp as [Hp|Hp]; auto.
Qed.

(** [setInletCount] / [setOutletCount] with a count that is not below the
    length of the list. *)
Lemma setIOletCount_grow_run k count r n c :
  nodeStore c !! r = Some n →
  Z.of_nat (length (iolets k n)) <= count →
  let new := fresh (nextAddr c) (Z.to_nat count - length (iolets k n)) in
  ∃ c',
    (∀ skipAdjust, setIOletCount k count skipAdjust r c
                   = if skipAdjust then Ok tt c' else node_adjust r c') ∧
    nodeStore c' = <[r := set_iolets k (iolets k n ++ new) n]> (nodeStore c) ∧
    (∀ j p, new !! j = Some p →
       ioletStore c' !! p
       = Some (mkIOlet k r (Z.of_nat (length (iolets k n) + j)) [] None)) ∧
    (∀ q, q ∉ new → ioletStore c' !! q = ioletStore c !! q) ∧
    Z.pos (nextAddr c') = Z.pos (nextAddr c) + Z.of_nat (length new) ∧
    same_but_ports c c'.
Proof.
  intros Hn Hcount new.
  destruct (grow_loop_run k r count (Z.to_nat count - length (iolets k n))
              (Z.to_nat (count - Z.of_nat (length (iolets k n)))) n c Hn)
    as (c' & Hgrow & Hst & Hnew & Hold & Hnext & Hsame); [lia | lia |].
  exists c'. split; [|split; [exact Hst|split; [exact Hnew|split; [exact Hold|]]]].
  - intros skipAdjust. unfold setIOletCount.
    rewrite (bind_Ok _ _ _ _ _ (deref_node_Some _ _ _ Hn)).
    assert (Hshrink : shrink_loop (S (length (iolets k n))) k r count c = Ok tt c).
    { rewrite shrink_loop_unfold, (bind_Ok _ _ _ _ _ (deref_node_Some _ _ _ Hn)).
      now destruct (Z.gtb_spec (Z.of_nat (length (iolets k n))) count); [lia|]. }
    rewrite (bind_Ok _ _ _ _ _ Hshrink).
    rewrite (bind_Ok _ _ _ _ _ (deref_node_Some _ _ _ Hn)).
    rewrite (bind_Ok _ _ _ _ _ Hgrow). now destruct skipAdjust.
  - split; [|exact Hsame]. unfold new. now rewrite length_fresh.
Qed.

(** X10.  [setInletCount] / [setOutletCount] on a node of a reachable canvas
    whose [adjust()] returns, with a count that is not below the number of
    ports the node has: the call returns, with or without the final
    [adjust()]; the ports the node had stay, and behind them the node lists
    one new port per missing one, at the next free addresses, none of which
    held a port; each new port belongs to the node, is numbered by its
    position in the list and has no connection.  Nothing else changes. *)
Theorem growing_appends_fresh_ports k count r n c :
  reachable c → nodeStore c !! r = Some n → adjusts r c →
  Z.of_nat (length (iolets k n)) <= count →
  let new := fresh (nextAddr c) (Z.to_nat count - length (iolets k n)) in
  ∃ c',
    (∀ skipAdjust, setIOletCount k count skipAdjust r c = Ok tt c') ∧
    nodeStore c' = <[r := set_iolets k (iolets k n ++ new) n]> (nodeStore c) ∧
    Z.of_nat (length (iolets k n ++ new)) = count ∧
    (∀ j p, new !! j = Some p →
       ioletStore c' !! p
       = Some (mkIOlet k r (Z.of_nat (length (iolets k n) + j)) [] None)) ∧
    (∀ q, q ∉ new → ioletStore c' !! q = ioletStore c !! q) ∧
    (∀ p, p ∈ new → ioletStore c !! p = None) ∧
    same_but_ports c c'.
Proof.
  intros Hreach Hn Hadj Hcount new.
  destruct (reachable_heap_ok c Hreach) as (_ & _ & _ & H4 & _).
  destruct (setIOletCount_grow_run k count r n c Hn Hcount)
    as (c' & Hrun & Hst & Hnew & Hold & _ & Hsame).
  fold new in Hst, Hnew, Hold.
  assert (Hfree : ∀ p, p ∈ new → ioletStore c !! p = None).
  { intros p Hp%elem_of_fresh.
    destruct (ioletStore c !! p) eqn:E; [|reflexivity].
    assert (p < nextAddr c)%positive by (apply H4; eexists; exact E). lia. }
  assert (Hadj' : adjusts r c').
  { apply (adjusts_grown k r n new c c' Hn Hst); [| |apply Hsame|exact Hadj].
    - intros p Hp. apply list_elem_of_lookup_1 in Hp as [j Hj].
      eexists. split; [exact (Hnew j p Hj) | reflexivity].
    - intros p io Hio. rewrite Hold; [exact Hio|].
      intros Hp. apply Hfree in Hp. congruence. }
  exists c'. split; [|split; [exact Hst|split; [|split; [exact Hnew|]]]].
  - intros skipAdjust. rewrite Hrun. destruct skipAdjust; [reflexivity | exact Hadj'].
  - unfold new. rewrite length_app, length_fresh. lia.
  - split; [exact Hold|]. split; [exact Hfree | exact Hsame].
Qed.

Lemma growing_appends_fresh_ports_witness :
  ∃ c', setIOletCount Outlet 3 false 1%positive sample_selected = Ok tt c' ∧
        outlets_ <$> nodeStore c' !! 1%positive = Some [2; 6; 7]%positive ∧
        ioletStore c' !! 7%positive = Some (mkIOlet Outlet 1 2 [] None).
Proof.
  pose (n := mkNode 10 [] [2%positive] (new_QDataflowNodeTextLabel "osc")
               true "osc" true false).
  assert (Hn : nodeStore sample_selected !! 1%positive = Some n)
    by (vm_compute; reflexivity).
  assert (Hadj : adjusts 1%positive sample_selected) by (vm_compute; reflexivity).
  assert (Hnext : nextAddr sample_selected = 6%positive) by (vm_compute; reflexivity).
  destruct (growing_appends_fresh_ports Outlet 3 1%positive n sample_selected
              reachable_sample_selected Hn Hadj ltac:(simpl; lia))
    as (c' & Hrun & Hst & _ & Hnew & _).
  rewrite Hnext in Hst, Hnew.
  exists c'. split; [exact (Hrun false)|].
  split; [rewrite Hst, lookup_insert_eq; reflexivity|].
  exact (Hnew 1%nat 7%positive eq_refl).
Defined.

(** ** Shrinking a port list, and a negative count *)

Lemma grow_loop_done fuel k r count n c :
  nodeStore c !! r = Some n → count <= Z.of_nat (length (iolets k n)) →
  grow_loop fuel k r count c = Ok tt c.
Proof.
  intros Hn Hcount.
  rewrite grow_loop_unfold, (bind_Ok _ _ _ _ _ (deref_node_Some _ _ _ Hn)).
  now destruct (Z.ltb_spec (Z.of_nat (length (iolets k n))) count); [lia|].
Qed.

(** X11.  [setInletCount] / [setOutletCount] on a node of a reachable canvas
    with a count between zero and the number of ports the node has: the two
    loops return; the node keeps its first [count] ports; every other port it
    had is freed, and each connection visual listed at such a port is out of
    the scene afterwards, taken out before the port was freed when it was in
    the scene; the connection visuals themselves stay in the store.  With the
    final [adjust()] the call goes on with [adjust()] on that canvas. *)
Theorem shrinking_frees_the_last_ports k count r n c :
  reachable c → nodeStore c !! r = Some n →
  0 <= count <= Z.of_nat (length (iolets k n)) →
  let keep := take (Z.to_nat count) (iolets k n) in
  let dropped := drop (Z.to_nat count) (iolets k n) in
  ∃ c' S,
    (∀ skipAdjust, setIOletCount k count skipAdjust r c
                   = if skipAdjust then Ok tt c' else node_adjust r c') ∧
    nodeStore c' = <[r := set_iolets k keep n]> (nodeStore c) ∧
    (∀ q, ioletStore c' !! q
          = if decide (q ∈ dropped) then None else ioletStore c !! q) ∧
    connStore c' = connStore c ∧
    sceneLog c' = sceneLog c ++ S ∧
    (∀ p, p ∈ dropped → DeletedIOlet p ∈ S) ∧
    (∀ p io x, p ∈ dropped → ioletStore c !! p = Some io → x ∈ io_connections_ io →
       (x ∉ sceneConns c') ∧
       (x ∈ sceneConns c → before (RemovedConnection x) (DeletedIOlet p) S)).
Proof.
  intros Hreach Hn Hcount keep dropped.
  destruct (reachable_heap_ok c Hreach) as (H1 & H2 & _).
  assert (Hl : iolets k n = keep ++ dropped) by (symmetry; apply take_drop).
  assert (Hkeep : Z.of_nat (length keep) = count).
  { unfold keep. rewrite length_take. lia. }
  destruct (shrink_loop_run k r count dropped keep (S (length (iolets k n))) n c
              Hn Hl Hkeep)
    as (c' & S & Hshrink & Hst & Hio & Hcn & _ & Hlog & _ & Hdel & Hbefore).
  { unfold dropped. rewrite length_drop. lia. }
  { pose proof (H2 r n k Hn) as Hnd. rewrite Hl in Hnd.
    now apply NoDup_app in Hnd as (_ & _ & Hnd). }
  { intros p Hp. destruct (H1 r n k p Hn) as (io & Hp' & _); [|eexists; exact Hp'].
    rewrite Hl. apply elem_of_app. now right. }
  exists c', S.
  split; [|split; [exact Hst|split; [exact Hio|split; [exact Hcn|]]]].
  - intros skipAdjust. unfold setIOletCount.
    rewrite (bind_Ok _ _ _ _ _ (deref_node_Some _ _ _ Hn)).
    rewrite (bind_Ok _ _ _ _ _ Hshrink).
    assert (Hn' : nodeStore c' !! r = Some (set_iolets k keep n)).
    { rewrite Hst. apply lookup_insert_eq. }
    rewrite (bind_Ok _ _ _ _ _ (deref_node_Some _ _ _ Hn')).
    rewrite (bind_Ok _ _ _ _ _ (grow_loop_done _ k r count _ c' Hn'
                                  ltac:(rewrite iolets_set_iolets; lia))).
    now destruct skipAdjust.
  - split; [exact Hlog|]. split; [exact Hdel | exact Hbefore].
Qed.

Lemma shrinking_frees_the_last_ports_witness :
  ∃ c', setIOletCount Inlet 1 true 3%positive sample_connected = Ok tt c' ∧
        inlets_ <$> nodeStore c' !! 3%positive = Some [4%positive] ∧
        ioletStore c' !! 5%positive = None ∧ ioletStore c' !! 6%positive = None ∧
        connStore c' = connStore sample_connected.
Proof.
  pose (n := mkNode 20 [4; 5; 6]%positive [] (new_QDataflowNodeTextLabel "mix")
               true EmptyString false false).
  assert (Hn : nodeStore sample_connected !! 3%positive = Some n)
    by (vm_compute; reflexivity).
  destruct (shrinking_frees_the_last_ports Inlet 1 3%positive n sample_connected
              reachable_sample_connected Hn ltac:(simpl; lia))
    as (c' & S & Hrun & Hst & Hio & Hcn & _).
  exists c'. split; [exact (Hrun true)|].
  split; [rewrite Hst, lookup_insert_eq; reflexivity|].
  split; [|split; [|exact Hcn]]; rewrite Hio; apply decide_True; simpl.
  - now left.
  - right. now left.
Defined.

(** With a negative count the first loop frees every port and then asks for
    the last port of an empty list. *)
Lemma shrink_loop_negative k r count d : ∀ fuel n c,
  nodeStore c !! r = Some n → iolets k n = d → count < 0 →
  (length d < fuel)%nat → NoDup d →
  (∀ p, p ∈ d → is_Some (ioletStore c !! p)) →
  ∃ c',
    shrink_loop fuel k r count c = Crash OutOfRange c' ∧
    nodeStore c' = <[r := set_iolets k [] n]> (nodeStore c) ∧
    (∀ q, ioletStore c' !! q = if decide (q ∈ d) then None else ioletStore c !! q).
Proof.
  induction d as [|p d IH] using rev_ind; intros fuel n c Hn Hl Hcount Hfuel Hnd Hlive;
    (destruct fuel as [|fuel]; [simpl in Hfuel; lia|]);
    rewrite shrink_loop_unfold, (bind_Ok _ _ _ _ _ (deref_node_Some _ _ _ Hn)), Hl.
  - destruct (Z.gtb_spec (Z.of_nat (length (@nil positive))) count);
      [|simpl in *; lia].
    exists c. split.
    + assert (Hdrop : drop_last_iolet k r c = Crash OutOfRange c).
      { unfold drop_last_iolet.
        rewrite (bind_Ok _ _ _ _ _ (deref_node_Some _ _ _ Hn)). now rewrite Hl. }
      now rewrite (bind_Crash _ _ _ _ _ Hdrop).
    + split; [|reflexivity].
      rewrite <- Hl, set_iolets_iolets. symmetry. now apply insert_id.
  - rewrite length_app in Hfuel. simpl in Hfuel.
    destruct (Z.gtb_spec (Z.of_nat (length (d ++ [p]))) count); [|lia].
    apply NoDup_app in Hnd as (Hnd & Hfresh & _).
    assert (Hp : p ∉ d).
    { intros Hin. apply (Hfresh p Hin). now apply list_elem_of_singleton. }
    destruct (Hlive p) as [io Hio]; [apply elem_of_app; right; now left|].
    destruct (drop_last_iolet_run k r n d p io c Hn Hl Hio)
      as (c1 & seg & Hrun & Hn1 & Hio1 & _).
    rewrite (bind_Ok _ _ _ _ _ Hrun).
    set (n1 := set_iolets k d n) in *.
    assert (Hnode1 : nodeStore c1 !! r = Some n1).
    { rewrite Hn1. apply lookup_insert_eq. }
    destruct (IH fuel n1 c1 Hnode1) as (c' & Hloop & Hn' & Hio').
    { unfold n1. apply iolets_set_iolets. }
    { exact Hcount. }
    { lia. }
    { exact Hnd. }
    { intros q Hq. rewrite Hio1, lookup_delete_ne; [|intros ->; contradiction].
      apply Hlive, elem_of_app. now left. }
    exists c'. split; [exact Hloop|]. split.
    + rewrite Hn', Hn1. unfold n1. rewrite set_iolets_twice.
      apply insert_insert_eq.
    + intros q. rewrite Hio', Hio1.
      destruct (decide (q ∈ d)) as [Hq|Hq].
      * rewrite decide_True; [reflexivity|]. apply elem_of_app. now left.
      * destruct (decide (q = p)) as [->|Hne].
        -- rewrite lookup_delete_eq.
           rewrite decide_True; [reflexivity|]. apply elem_of_app. right. now left.
        -- rewrite lookup_delete_ne by congruence.
           rewrite decide_False; [reflexivity|].
           intros [?|Hin%list_elem_of_singleton]%elem_of_app; contradiction.
Qed.

(** X12.  [setInletCount] / [setOutletCount] with a negative count on a node
    of a reachable canvas does not return: the first loop frees every port of
    the list and then takes the last element of the empty list. *)
Theorem negative_count_faults k count skipAdjust r n c :
  reachable c → nodeStore c !! r = Some n → count < 0 →
  ∃ c',
    setIOletCount k count skipAdjust r c = Crash OutOfRange c' ∧
    nodeStore c' = <[r := set_iolets k [] n]> (nodeStore c) ∧
    (∀ p, p ∈ iolets k n → ioletStore c' !! p = None).
Proof.
  intros Hreach Hn Hcount.
  destruct (reachable_heap_ok c Hreach) as (H1 & H2 & _).
  destruct (shrink_loop_negative k r count (iolets k n) (S (length (iolets k n))) n c
              Hn eq_refl Hcount)
    as (c' & Hshrink & Hst & Hio).
  { lia. }
  { exact (H2 r n k Hn). }
  { intros p Hp. destruct (H1 r n k p Hn Hp) as (io & Hp' & _). eexists. exact Hp'. }
  exists c'. split; [|split; [exact Hst|]].
  - unfold setIOletCount.
    rewrite (bind_Ok _ _ _ _ _ (deref_node_Some _ _ _ Hn)).
    now rewrite (bind_Crash _ _ _ _ _ Hshrink).
  - intros p Hp. rewrite Hio. now apply decide_True.
Qed.

Lemma negative_count_faults_witness :
  ∃ c', setIOletCount Outlet (-1) false 1%positive sample_selected
        = Crash OutOfRange c' ∧
        ioletStore c' !! 2%positive = None.
Proof.
  pose (n := mkNode 10 [] [2%positive] (new_QDataflowNodeTextLabel "osc")
               true "osc" true false).
  assert (Hn : nodeStore sample_selected !! 1%positive = Some n)
    by (vm_compute; reflexivity).
  destruct (negative_count_faults Outlet (-1) false 1%positive n sample_selected
              reachable_sample_selected Hn ltac:(lia))
    as (c' & Hrun & _ & Hio).
  exists c'. split; [exact Hrun|]. apply Hio. now left.
Defined.

(** ** The visual of an announced node *)

Lemma adjusts_unconnected r n c :
  nodeStore c !! r = Some n →
  (∀ p, p ∈ inlets_ n ∨ p ∈ outlets_ n →
        ∃ io, ioletStore c !! p = Some io ∧ io_connections_ io = []) →
  adjusts r c.
Proof.
  intros Hn Hports. unfold adjusts, node_adjust, node_adjustConnections.
  rewrite (bind_Ok _ _ _ _ _ (deref_node_Some _ _ _ Hn)).
  erewrite bind_Ok.
  - apply for_each_reads. intros p Hp.
    destruct (Hports p (or_intror Hp)) as (io & Hio & Hnil).
    exact (iolet_adjustConnections_unconnected p io c Hio Hnil).
  - apply for_each_reads. intros p Hp.
    destruct (Hports p (or_introl Hp)) as (io & Hio & Hnil).
    exact (iolet_adjustConnections_unconnected p io c Hio Hnil).
Qed.

(** The constructor of a node, for counts that are not negative. *)
Lemma new_QDataflowNode_run m c :
  0 <= mn_inletCount m → 0 <= mn_outletCount m →
  let r := nextAddr c in
  let ins := fresh (Pos.succ r) (Z.to_nat (mn_inletCount m)) in
  let outs := fresh (Z.to_pos (Z.pos r + 1 + mn_inletCount m))
                (Z.to_nat (mn_outletCount m)) in
  let n' := mkNode (mn_ptr m) ins outs (new_QDataflowNodeTextLabel (mn_text m))
              true EmptyString false (showObjectHoverFeedback_ c) in
  ∃ c',
    new_QDataflowNode m c = Ok r c' ∧
    nodeStore c' = <[r := n']> (nodeStore c) ∧
    (∀ j p, ins !! j = Some p →
       ioletStore c' !! p = Some (mkIOlet Inlet r (Z.of_nat j) [] None)) ∧
    (∀ j p, outs !! j = Some p →
       ioletStore c' !! p = Some (mkIOlet Outlet r (Z.of_nat j) [] None)) ∧
    (∀ q, q ∉ ins ++ outs → ioletStore c' !! q = ioletStore c !! q) ∧
    Z.pos (nextAddr c') = Z.pos r + 1 + mn_inletCount m + mn_outletCount m ∧
    same_but_ports c c'.
Proof.
  intros Hci Hco r ins outs n'.
  unfold new_QDataflowNode, alloc, gets, store_node, modify.
  unfold bind at 1 2 3. simpl.
  set (n0 := mkNode (mn_ptr m) [] [] (new_QDataflowNodeTextLabel (mn_text m))
               true EmptyString false (showObjectHoverFeedback_ c)).
  set (c1 := upd_nodeStore <[nextAddr c := n0]> (set_nextAddr (Pos.succ (nextAddr c)) c)).
  fold r in c1 |- *.
  assert (H1 : nodeStore c1 !! r = Some n0) by apply lookup_insert_eq.
  destruct (setIOletCount_grow_run Inlet (mn_inletCount m) r n0 c1 H1 ltac:(simpl; lia))
    as (c2 & Hrun2 & Hst2 & Hnew2 & Hold2 & Hnext2 & Hsame2).
  simpl in Hst2, Hnew2, Hold2, Hnext2.
  rewrite Nat.sub_0_r in Hst2, Hnew2, Hold2, Hnext2. fold r ins in Hst2, Hnew2, Hold2, Hnext2.
  unfold setInletCount. rewrite (bind_Ok _ _ _ _ _ (Hrun2 true)).
  set (n2 := set_inlets_ ins n0) in *.
  assert (H2 : nodeStore c2 !! r = Some n2) by (rewrite Hst2; apply lookup_insert_eq).
  assert (Ha2 : nextAddr c2 = Z.to_pos (Z.pos r + 1 + mn_inletCount m)).
  { apply Pos2Z.inj. rewrite Z2Pos.id by lia. rewrite Hnext2.
    unfold ins. rewrite length_fresh. lia. }
  destruct (setIOletCount_grow_run Outlet (mn_outletCount m) r n2 c2 H2
              ltac:(simpl; lia))
    as (c3 & Hrun3 & Hst3 & Hnew3 & Hold3 & Hnext3 & Hsame3).
  simpl in Hst3, Hnew3, Hold3, Hnext3.
  rewrite Nat.sub_0_r, Ha2 in Hst3, Hnew3, Hold3, Hnext3.
  fold outs in Hst3, Hnew3, Hold3, Hnext3.
  unfold setOutletCount. rewrite (bind_Ok _ _ _ _ _ (Hrun3 true)).
  set (n3 := set_outlets_ outs n2) in *.
  assert (H3 : nodeStore c3 !! r = Some n3) by (rewrite Hst3; apply lookup_insert_eq).
  assert (Hins : ∀ j p, ins !! j = Some p →
                        ioletStore c3 !! p = Some (mkIOlet Inlet r (Z.of_nat j) [] None)).
  { intros j p Hj. rewrite Hold3; [exact (Hnew2 j p Hj)|].
    intros Hout%elem_of_fresh.
    apply list_elem_of_lookup_2, elem_of_fresh in Hj. lia. }
  assert (Hadj3 : adjusts r c3).
  { apply (adjusts_unconnected r n3 c3 H3). intros p [Hp|Hp].
    - apply list_elem_of_lookup_1 in Hp as [j Hj]. eexists.
      split; [exact (Hins j p Hj) | reflexivity].
    - apply list_elem_of_lookup_1 in Hp as [j Hj]. eexists.
      split; [exact (Hnew3 j p Hj) | reflexivity]. }
  rewrite (bind_Ok _ _ _ _ _ Hadj3).
  eexists. split; [reflexivity|].
  split; [|split; [exact Hins|split; [exact Hnew3|split; [|split]]]].
  - rewrite Hst3, Hst2. unfold c1. simpl. now rewrite !insert_insert_eq.
  - intros q Hq. rewrite Hold3, Hold2; [reflexivity| |];
      intros Hin; apply Hq, elem_of_app; auto.
  - rewrite Hnext3, Z2Pos.id by lia. unfold outs. rewrite length_fresh. lia.
  - transitivity c2; [|transitivity c3; [exact Hsame3|now repeat split]].
    transitivity c1; [now repeat split | exact Hsame2].
Qed.

(** X13.  [nodeAdded] with counts that are not negative, in any canvas: the
    handler returns; the new visual sits at the next free address, is found
    under the identity of the model node and is in the scene; it carries the
    text of the model node, is valid, and accepts hover events as the canvas
    shows hover feedback (where it lies is not represented); it has as many
    inlets and
    outlets as announced, at the addresses that follow, each port belonging
    to it, numbered by its position and without connections.  A node
    announced with an empty text is selected and in edit mode, any other is
    neither.  No command is issued, and no other node or port changes. *)
Theorem nodeAdded_builds_the_visual m c :
  0 <= mn_inletCount m → 0 <= mn_outletCount m →
  let r := nextAddr c in
  let ins := fresh (Pos.succ r) (Z.to_nat (mn_inletCount m)) in
  let outs := fresh (Z.to_pos (Z.pos r + 1 + mn_inletCount m))
                (Z.to_nat (mn_outletCount m)) in
  let editing := String.eqb (mn_text m) EmptyString in
  ∃ c' n',
    onNodeAdded m c = Ok tt c' ∧
    node (mn_ptr m) c' = Ok (Some r) c' ∧ r ∈ sceneNodes c' ∧
    nodeStore c' = <[r := n']> (nodeStore c) ∧
    modelNode_ n' = mn_ptr m ∧ text n' = mn_text m ∧
    valid_ n' = true ∧ node_acceptHover n' = showObjectHoverFeedback_ c ∧
    inlets_ n' = ins ∧ outlets_ n' = outs ∧
    (∀ j p, ins !! j = Some p →
       ioletStore c' !! p = Some (mkIOlet Inlet r (Z.of_nat j) [] None)) ∧
    (∀ j p, outs !! j = Some p →
       ioletStore c' !! p = Some (mkIOlet Outlet r (Z.of_nat j) [] None)) ∧
    (∀ q, q ∉ ins ++ outs → ioletStore c' !! q = ioletStore c !! q) ∧
    isInEditMode r c' = Ok editing c' ∧ node_selected n' = editing ∧
    issued c' = issued c.
Proof.
  intros Hci Hco r ins outs editing.
  destruct (new_QDataflowNode_run m c Hci Hco)
    as (c1 & Hnew & Hst & Hins & Houts & Hold & _ & Hsame).
  fold r ins outs in Hnew, Hst, Hins, Houts, Hold.
  set (n1 := mkNode (mn_ptr m) ins outs (new_QDataflowNodeTextLabel (mn_text m))
               true EmptyString false (showObjectHoverFeedback_ c)) in *.
  destruct Hsame as (Hcompl & _ & _ & _ & _ & _ & _ & _ & _ & _ & Hissued & _).
  unfold onNodeAdded. rewrite (bind_Ok _ _ _ _ _ Hnew).
  unfold scene_addNode, modify. unfold bind at 1 2.
  set (c2 := upd_sceneNodes _ _).
  assert (H2 : nodeStore c2 !! r = Some n1) by (unfold c2; simpl; rewrite Hst; apply lookup_insert_eq).
  assert (Hfind : ∀ c0, nodes_ c0 = nodes_ c2 → node (mn_ptr m) c0 = Ok (Some r) c0).
  { intros c0 E. unfold node. rewrite E. unfold c2. simpl. now rewrite lookup_insert_eq. }
  assert (Hscene : r ∈ sceneNodes c2) by (unfold c2; simpl; set_solver).
  assert (Hadj2 : adjusts r c2).
  { apply (adjusts_unconnected r n1 c2 H2). intros p [Hp|Hp].
    - apply list_elem_of_lookup_1 in Hp as [j Hj]. eexists.
      split; [exact (Hins j p Hj) | reflexivity].
    - apply list_elem_of_lookup_1 in Hp as [j Hj]. eexists.
      split; [exact (Houts j p Hj) | reflexivity]. }
  subst editing. destruct (String.eqb (mn_text m) EmptyString) eqn:Htext.
  - rewrite (enterEditMode_scene_run r n1 c2 H2 Hadj2 Hscene).
    eexists _, _. split; [reflexivity|].
    split; [now apply Hfind|]. split; [exact Hscene|].
    split; [simpl; rewrite Hst; now rewrite insert_insert_eq|].
    repeat (split; [reflexivity|]).
    split; [unfold text; cbn [textItem_ set_textItem_];
            now rewrite text_setCompletion|].
    repeat (split; [reflexivity|]).
    split; [exact Hins|]. split; [exact Houts|]. split; [exact Hold|].
    split; [|split; [reflexivity | exact Hissued]].
    rewrite (isInEditMode_run r _ _ (nodeStore_upd_eq _ _ _)). f_equal.
    cbn [textItem_ set_textItem_ focusItem upd_nodeStore set_focusItem].
    rewrite textEditable_setCompletion. simpl. now rewrite bool_decide_eq_true_2.
  - exists c2, n1. split; [reflexivity|].
    split; [now apply Hfind|]. split; [exact Hscene|].
    split; [exact Hst|]. repeat (split; [reflexivity|]).
    split; [exact Hins|]. split; [exact Houts|]. split; [exact Hold|].
    split; [|split; [reflexivity | exact Hissued]].
    now rewrite (isInEditMode_run r n1 c2 H2).
Qed.

Lemma nodeAdded_builds_the_visual_witness :
  ∃ c' n',
    onNodeAdded (mkModelNode 40 "mix" 2 1 (10, 20)) sample_selected = Ok tt c' ∧
    node 40 c' = Ok (Some 6%positive) c' ∧
    nodeStore c' !! 6%positive = Some n' ∧
    inlets_ n' = [7; 8]%positive ∧ outlets_ n' = [9%positive] ∧
    ioletStore c' !! 8%positive = Some (mkIOlet Inlet 6 1 [] None) ∧
    isInEditMode 6%positive c' = Ok false c'.
Proof.
  assert (Hnext : nextAddr sample_selected = 6%positive) by (vm_compute; reflexivity).
  destruct (nodeAdded_builds_the_visual (mkModelNode 40 "mix" 2 1 (10, 20))
              sample_selected ltac:(simpl; lia) ltac:(simpl; lia))
    as (c' & n' & Hrun & Hfind & _ & Hst & _ & _ & _ & _ & Hi & Ho & Hins & _ & _
        & Hedit & _).
  rewrite Hnext in Hfind, Hst, Hi, Ho, Hins, Hedit.
  exists c', n'. split; [exact Hrun|]. split; [exact Hfind|].
  split; [rewrite Hst; apply lookup_insert_eq|].
  split; [exact Hi|]. split; [exact Ho|].
  split; [exact (Hins 1%nat 8%positive eq_refl) | exact Hedit].
Defined.

(** ** The visual of an announced connection *)

Lemma iolet_run k index r n p c :
  nodeStore c !! r = Some n → 0 <= index → iolets k n !! Z.to_nat index = Some p →
  iolet k index r c = Ok p c.
Proof.
  intros Hn Hindex Hp. unfold iolet.
  rewrite (bind_Ok _ _ _ _ _ (deref_node_Some _ _ _ Hn)). unfold at_.
  destruct (Z.ltb_spec index 0); [lia|]. now rewrite Hp.
Qed.

Lemma iolet_out_of_range k index r n c :
  nodeStore c !! r = Some n →
  index < 0 ∨ Z.of_nat (length (iolets k n)) <= index →
  iolet k index r c = Crash OutOfRange c.
Proof.
  intros Hn Hindex. unfold iolet.
  rewrite (bind_Ok _ _ _ _ _ (deref_node_Some _ _ _ Hn)). unfold at_.
  destruct (Z.ltb_spec index 0); [reflexivity|].
  rewrite (lookup_ge_None_2 (iolets k n) (Z.to_nat index)); [reflexivity | lia].
Qed.

Lemma addConnection_run p x io c :
  ioletStore c !! p = Some io →
  let c' := upd_ioletStore
              <[p := set_io_connections_ (io_connections_ io ++ [x]) io]> c in
  connection_adjust x c' = Ok tt c' → addConnection p x c = Ok tt c'.
Proof.
  intros Hio c' Hadj. unfold addConnection.
  rewrite (bind_Ok _ _ _ _ _ (deref_iolet_Some _ _ _ Hio)).
  unfold store_iolet, modify, bind at 1. exact Hadj.
Qed.

(** [connectionAdded] between two ports that are alive, with their nodes. *)
Lemma onConnectionAdded_run k rs ns ps source rd nd pd dest c :
  nodes_ c !! fst (mc_source k) = Some rs → nodeStore c !! rs = Some ns →
  0 <= snd (mc_source k) → outlets_ ns !! Z.to_nat (snd (mc_source k)) = Some ps →
  nodes_ c !! fst (mc_dest k) = Some rd → nodeStore c !! rd = Some nd →
  0 <= snd (mc_dest k) → inlets_ nd !! Z.to_nat (snd (mc_dest k)) = Some pd →
  ioletStore c !! ps = Some source → ioletStore c !! pd = Some dest → ps ≠ pd →
  is_Some (nodeStore c !! node_ source) → is_Some (nodeStore c !! node_ dest) →
  let x := nextAddr c in
  let cn := mkConnection (mc_ptr k) ps pd false (showConnectionHoverFeedback_ c) in
  onConnectionAdded k c
  = Ok tt
      (upd_sceneConns (fun s => {[x]} ∪ s)
         (upd_connections_ <[mc_ptr k := x]>
            (upd_ioletStore
               <[pd := set_io_connections_ (io_connections_ dest ++ [x]) dest]>
               (upd_ioletStore
                  <[ps := set_io_connections_ (io_connections_ source ++ [x]) source]>
                  (upd_connStore <[x := cn]>
                     (set_nextAddr (Pos.succ x) c)))))).
Proof.
  intros Hms Hns His Hps Hmd Hnd Hid Hpd Hsource Hdest Hne Hsn Hdn x cn.
  unfold onConnectionAdded, new_QDataflowConnection, alloc, gets.
  unfold bind at 1 2 3. cbv zeta.
  set (c0 := set_nextAddr (Pos.succ (nextAddr c)) c).
  rewrite (bind_Ok _ _ _ _ _ (node_known _ rs c0 Hms)). simpl through.
  rewrite (bind_Ok _ _ _ _ _ (iolet_run Outlet _ rs ns ps c0 Hns His Hps)).
  rewrite (bind_Ok _ _ _ _ _ (node_known _ rd c0 Hmd)). simpl through.
  rewrite (bind_Ok _ _ _ _ _ (iolet_run Inlet _ rd nd pd c0 Hnd Hid Hpd)).
  unfold store_connection, modify. unfold bind at 1.
  fold x. fold cn.
  set (c3 := upd_connStore <[x := cn]> c0).
  set (source' := set_io_connections_ (io_connections_ source ++ [x]) source).
  set (dest' := set_io_connections_ (io_connections_ dest ++ [x]) dest).
  set (c4 := upd_ioletStore <[ps := source']> c3).
  set (c5 := upd_ioletStore <[pd := dest']> c4).
  assert (Hadj4 : connection_adjust x c4 = Ok tt c4).
  { apply connection_adjust_Ok. exists cn, source', dest. simpl.
    split; [apply lookup_insert_eq|]. split; [apply lookup_insert_eq|].
    split; [exact Hsn|]. split; [|exact Hdn].
    now rewrite lookup_insert_ne. }
  assert (Hadj5 : connection_adjust x c5 = Ok tt c5).
  { apply connection_adjust_Ok. exists cn, source', dest'. simpl.
    split; [apply lookup_insert_eq|].
    split; [rewrite lookup_insert_ne by congruence; apply lookup_insert_eq|].
    split; [exact Hsn|]. split; [apply lookup_insert_eq | exact Hdn]. }
  rewrite (bind_Ok _ _ _ _ _ (addConnection_run ps x source c3 Hsource Hadj4)).
  assert (Hdest4 : ioletStore c4 !! pd = Some dest).
  { simpl. now rewrite lookup_insert_ne. }
  rewrite (bind_Ok _ _ _ _ _ (addConnection_run pd x dest c4 Hdest4 Hadj5)).
  rewrite (bind_Ok _ _ _ _ _ Hadj5). reflexivity.
Qed.

(** X14.  [connectionAdded] in a reachable canvas, between an outlet and an
    inlet that the two announced nodes have: the handler returns; the new
    visual sits at the next free address, which held no connection, is found
    under the identity of the model connection and is in the scene; it joins
    the outlet at the announced index of the source node to the inlet at the
    announced index of the destination node, and each of the two ports lists
    it last; [adjust()] on it returns.  No node changes and no command is
    issued. *)
Theorem connectionAdded_links_the_ports k rs ns ps rd nd pd c :
  reachable c →
  nodes_ c !! fst (mc_source k) = Some rs → nodeStore c !! rs = Some ns →
  0 <= snd (mc_source k) → outlets_ ns !! Z.to_nat (snd (mc_source k)) = Some ps →
  nodes_ c !! fst (mc_dest k) = Some rd → nodeStore c !! rd = Some nd →
  0 <= snd (mc_dest k) → inlets_ nd !! Z.to_nat (snd (mc_dest k)) = Some pd →
  let x := nextAddr c in
  ∃ c' source dest,
    onConnectionAdded k c = Ok tt c' ∧
    connection (mc_ptr k) c' = Ok (Some x) c' ∧ x ∈ sceneConns c' ∧
    connStore c !! x = None ∧
    connStore c'
    = <[x := mkConnection (mc_ptr k) ps pd false (showConnectionHoverFeedback_ c)]>
        (connStore c) ∧
    ioletStore c !! ps = Some source ∧ ioletStore c !! pd = Some dest ∧
    ioletStore c'
    = <[pd := set_io_connections_ (io_connections_ dest ++ [x]) dest]>
        (<[ps := set_io_connections_ (io_connections_ source ++ [x]) source]>
           (ioletStore c)) ∧
    nodeStore c' = nodeStore c ∧ issued c' = issued c ∧
    connection_adjust x c' = Ok tt c'.
Proof.
  intros Hreach Hms Hns His Hps Hmd Hnd Hid Hpd x.
  destruct (reachable_heap_ok c Hreach) as (H1 & _ & _ & _ & H5 & _).
  destruct (H1 rs ns Outlet ps Hns (list_elem_of_lookup_2 _ _ _ Hps))
    as (source & Hsource & Hsn & Hsk).
  destruct (H1 rd nd Inlet pd Hnd (list_elem_of_lookup_2 _ _ _ Hpd))
    as (dest & Hdest & Hdn & Hdk).
  assert (Hne : ps ≠ pd) by (intros ->; congruence).
  assert (Hsn' : is_Some (nodeStore c !! node_ source))
    by (rewrite Hsn; eexists; exact Hns).
  assert (Hdn' : is_Some (nodeStore c !! node_ dest))
    by (rewrite Hdn; eexists; exact Hnd).
  pose proof (onConnectionAdded_run k rs ns ps source rd nd pd dest c
                Hms Hns His Hps Hmd Hnd Hid Hpd Hsource Hdest Hne Hsn' Hdn') as Hrun.
  cbv zeta in Hrun. fold x in Hrun.
  eexists _, source, dest. split; [exact Hrun|].
  split; [unfold connection; simpl; now rewrite lookup_insert_eq|].
  split; [simpl; set_solver|].
  split.
  { destruct (connStore c !! x) eqn:E; [|reflexivity].
    assert (x < nextAddr c)%positive by (apply H5; eexists; exact E).
    unfold x in *. lia. }
  repeat (split; [reflexivity || assumption|]).
  apply connection_adjust_Ok.
  exists (mkConnection (mc_ptr k) ps pd false (showConnectionHoverFeedback_ c)),
         (set_io_connections_ (io_connections_ source ++ [x]) source),
         (set_io_connections_ (io_connections_ dest ++ [x]) dest).
  simpl.
  split; [apply lookup_insert_eq|].
  split; [rewrite lookup_insert_ne by congruence; apply lookup_insert_eq|].
  split; [exact Hsn'|]. split; [apply lookup_insert_eq | exact Hdn'].
Qed.

Lemma connectionAdded_links_the_ports_witness :
  ∃ c',
    onConnectionAdded (mkModelConnection 32 (10%positive, 0) (20%positive, 0))
      sample_connected = Ok tt c' ∧
    connection 32 c' = Ok (Some 9%positive) c' ∧
    connStore c' !! 9%positive = Some (mkConnection 32 2 4 false false) ∧
    io_connections_ <$> ioletStore c' !! 2%positive = Some [7; 8; 9]%positive ∧
    io_connections_ <$> ioletStore c' !! 4%positive = Some [9%positive].
Proof.
  pose (ns := mkNode 10 [] [2%positive] (new_QDataflowNodeTextLabel "osc")
                true EmptyString false false).
  pose (nd := mkNode 20 [4; 5; 6]%positive [] (new_QDataflowNodeTextLabel "mix")
                true EmptyString false false).
  assert (Hms : nodes_ sample_connected !! 10%positive = Some 1%positive)
    by (vm_compute; reflexivity).
  assert (Hns : nodeStore sample_connected !! 1%positive = Some ns)
    by (vm_compute; reflexivity).
  assert (Hmd : nodes_ sample_connected !! 20%positive = Some 3%positive)
    by (vm_compute; reflexivity).
  assert (Hnd : nodeStore sample_connected !! 3%positive = Some nd)
    by (vm_compute; reflexivity).
  assert (Hnext : nextAddr sample_connected = 9%positive) by (vm_compute; reflexivity).
  assert (Hsource : ioletStore sample_connected !! 2%positive
                    = Some (mkIOlet Outlet 1 0 [7; 8]%positive None))
    by (vm_compute; reflexivity).
  assert (Hdest : ioletStore sample_connected !! 4%positive
                  = Some (mkIOlet Inlet 3 0 [] None))
    by (vm_compute; reflexivity).
  destruct (connectionAdded_links_the_ports
              (mkModelConnection 32 (10%positive, 0) (20%positive, 0))
              1%positive ns 2%positive 3%positive nd 4%positive sample_connected
              reachable_sample_connected Hms Hns ltac:(simpl; lia) eq_refl
              Hmd Hnd ltac:(simpl; lia) eq_refl)
    as (c' & source & dest & Hrun & Hfind & _ & _ & Hcs & Hs & Hd & Hio & _).
  rewrite Hnext in Hfind, Hcs, Hio.
  cbn [fst snd mc_source mc_dest mc_ptr] in *.
  rewrite Hsource in Hs. injection Hs as <-.
  rewrite Hdest in Hd. injection Hd as <-.
  exists c'. split; [exact Hrun|]. split; [exact Hfind|].
  split; [rewrite Hcs; apply lookup_insert_eq|].
  rewrite Hio. split.
  - rewrite lookup_insert_ne by discriminate. now rewrite lookup_insert_eq.
  - now rewrite lookup_insert_eq.
Defined.

(** X15.  [connectionAdded] that names a node the canvas does not know, or a
    port index the node does not have, does not return: an unknown source or
    destination node is logged and then dereferenced as a null pointer, and an
    index that is negative or not below the number of ports fails the range
    check of the list.  The address taken for the visual is spent; the index
    and the scene stay as they were. *)
Theorem connectionAdded_with_a_missing_end k c :
  let spent := set_nextAddr (Pos.succ (nextAddr c)) c in
  let src := mc_source k in
  let dst := mc_dest k in
  (nodes_ c !! fst src = None →
     onConnectionAdded k c = Crash NullPointer (warn (UnknownNode (fst src)) spent)) ∧
  (∀ rs ns, nodes_ c !! fst src = Some rs → nodeStore c !! rs = Some ns →
     (snd src < 0 ∨ Z.of_nat (length (outlets_ ns)) <= snd src →
        onConnectionAdded k c = Crash OutOfRange spent) ∧
     (∀ ps, 0 <= snd src → outlets_ ns !! Z.to_nat (snd src) = Some ps →
        (nodes_ c !! fst dst = None →
           onConnectionAdded k c
           = Crash NullPointer (warn (UnknownNode (fst dst)) spent)) ∧
        (∀ rd nd, nodes_ c !! fst dst = Some rd → nodeStore c !! rd = Some nd →
           snd dst < 0 ∨ Z.of_nat (length (inlets_ nd)) <= snd dst →
           onConnectionAdded k c = Crash OutOfRange spent))).
Proof.
  intros spent src dst.
  assert (Hunfold : onConnectionAdded k c
                    = (uiconn <- (srcNode <- node (fst src) ;;
                                  source <- through srcNode (iolet Outlet (snd src)) ;;
                                  dstNode <- node (fst dst) ;;
                                  dest <- through dstNode (iolet Inlet (snd dst)) ;;
                                  store_connection (nextAddr c)
                                    (mkConnection (mc_ptr k) source dest false
                                       (showConnectionHoverFeedback_ c)) ;;
                                  addConnection source (nextAddr c) ;;
                                  addConnection dest (nextAddr c) ;;
                                  connection_adjust (nextAddr c) ;;
                                  ret (nextAddr c)) ;;
                       modify (upd_connections_ <[mc_ptr k := uiconn]>) ;;
                       scene_addConnection uiconn) spent) by reflexivity.
  rewrite Hunfold.
  match goal with |- context [bind ?m _ spent] => set (inner := m) end.
  assert (Hlift : ∀ f c', inner spent = Crash f c' →
                          (uiconn <- inner ;;
                           modify (upd_connections_ <[mc_ptr k := uiconn]>) ;;
                           scene_addConnection uiconn) spent = Crash f c').
  { intros f c' H. exact (bind_Crash _ _ _ _ _ H). }
  split.
  - intros Hms. apply Hlift. unfold inner.
    now rewrite (bind_Ok _ _ _ _ _ (node_unknown _ spent Hms)).
  - intros rs ns Hms Hns.
    assert (Hsrc : inner spent
                   = (source <- iolet Outlet (snd src) rs ;;
                      dstNode <- node (fst dst) ;;
                      dest <- through dstNode (iolet Inlet (snd dst)) ;;
                      store_connection (nextAddr c)
                        (mkConnection (mc_ptr k) source dest false
                           (showConnectionHoverFeedback_ c)) ;;
                      addConnection source (nextAddr c) ;;
                      addConnection dest (nextAddr c) ;;
                      connection_adjust (nextAddr c) ;;
                      ret (nextAddr c)) spent).
    { unfold inner. now rewrite (bind_Ok _ _ _ _ _ (node_known _ rs spent Hms)). }
    split.
    + intros Hrange. apply Hlift. rewrite Hsrc.
      exact (bind_Crash _ _ _ _ _
               (iolet_out_of_range Outlet _ rs ns spent Hns Hrange)).
    + intros ps His Hps.
      rewrite (bind_Ok _ _ _ _ _ (iolet_run Outlet _ rs ns ps spent Hns His Hps))
        in Hsrc.
      split.
      * intros Hmd. apply Hlift. rewrite Hsrc.
        now rewrite (bind_Ok _ _ _ _ _ (node_unknown _ spent Hmd)).
      * intros rd nd Hmd Hnd Hrange. apply Hlift. rewrite Hsrc.
        rewrite (bind_Ok _ _ _ _ _ (node_known _ rd spent Hmd)).
        exact (bind_Crash _ _ _ _ _
                 (iolet_out_of_range Inlet _ rd nd spent Hnd Hrange)).
Qed.

Lemma connectionAdded_with_a_missing_end_witness :
  onConnectionAdded (mkModelConnection 32 (11%positive, 0) (20%positive, 0))
    sample_connected
  = Crash NullPointer
      (warn (UnknownNode 11) (set_nextAddr 10%positive sample_connected)) ∧
  onConnectionAdded (mkModelConnection 32 (10%positive, 1) (20%positive, 0))
    sample_connected
  = Crash OutOfRange (set_nextAddr 10%positive sample_connected).
Proof.
  pose (ns := mkNode 10 [] [2%positive] (new_QDataflowNodeTextLabel "osc")
                true EmptyString false false).
  assert (Hms : nodes_ sample_connected !! 10%positive = Some 1%positive)
    by (vm_compute; reflexivity).
  assert (Hns : nodeStore sample_connected !! 1%positive = Some ns)
    by (vm_compute; reflexivity).
  assert (Hnone : nodes_ sample_connected !! 11%positive = None)
    by (vm_compute; reflexivity).
  assert (Hnext : Pos.succ (nextAddr sample_connected) = 10%positive)
    by (vm_compute; reflexivity).
  rewrite <- Hnext. split.
  - destruct (connectionAdded_with_a_missing_end
                (mkModelConnection 32 (11%positive, 0) (20%positive, 0))
                sample_connected) as [Hunknown _].
    exact (Hunknown Hnone).
  - destruct (connectionAdded_with_a_missing_end
                (mkModelConnection 32 (10%positive, 1) (20%positive, 0))
                sample_connected) as [_ Hknown].
    destruct (Hknown 1%positive ns Hms Hns) as [Hrange _].
    apply Hrange. right. simpl. lia.
Defined.

(** ** What the handlers of ports leave alone *)

Section PortEffects.

Context (R : QDataflowCanvas → QDataflowCanvas → Prop) `{!PortFrame R}.

Lemma ports_store_iolet p io : steps R (store_iolet p io).
Proof. apply steps_modify. intros c. apply pf_ioletStore. Qed.

Lemma ports_alloc : steps R alloc.
Proof. intros c. simpl. apply pf_alloc. Qed.

Lemma ports_upd_node_ports r k g :
  steps R (upd_node r (fun n => set_iolets k (g n) n)).
Proof.
  intros c. unfold upd_node, bind, deref_node.
  destruct (nodeStore c !! r) as [n|] eqn:Hn; simpl; [|reflexivity].
  now apply pf_nodePorts.
Qed.

Lemma ports_new_QDataflowIOlet k r i : steps R (new_QDataflowIOlet k r i).
Proof.
  unfold new_QDataflowIOlet.
  apply steps_bind; [apply _ | apply ports_alloc | intros p].
  apply steps_bind; [apply _ | apply ports_store_iolet | intros _].
  apply steps_ret, _.
Qed.

Lemma ports_addConnection p r : steps R (addConnection p r).
Proof.
  unfold addConnection.
  apply steps_bind; [apply _ | apply steps_deref_iolet, _ | intros io].
  apply steps_bind; [apply _ | apply ports_store_iolet | intros _].
  apply steps_connection_adjust, _.
Qed.

Lemma ports_scene_removeConnection r : steps R (scene_removeConnection r).
Proof.
  intros c. unfold scene_removeConnection. case_decide; simpl.
  - etransitivity; [apply pf_removeConnection | apply pf_record_op].
  - apply lf_warn.
Qed.

Lemma ports_drop_last_iolet k r : steps R (drop_last_iolet k r).
Proof.
  unfold drop_last_iolet.
  apply steps_bind; [apply _ | apply steps_deref_node, _ | intros n].
  destruct (last _); [|apply steps_crash, _].
  apply steps_bind; [apply _ | apply steps_deref_iolet, _ | intros io].
  apply steps_bind; [apply _ | | intros _].
  { apply steps_for_each; [apply _|]. intros x. apply ports_scene_removeConnection. }
  apply steps_bind; [apply _ | | intros _].
  { unfold scene_removeIOlet.
    apply steps_bind; [apply _ | apply steps_deref_iolet, _ | intros io'].
    intros c. case_decide; simpl; [apply pf_record_op | apply lf_warn]. }
  apply steps_bind; [apply _ | | intros _].
  { apply (ports_upd_node_ports r k (fun n => removelast (iolets k n))). }
  apply steps_modify. intros c.
  etransitivity; [apply pf_ioletStore | apply pf_record_op].
Qed.

Lemma ports_setIOletCount k count skipAdjust r :
  steps R (setIOletCount k count skipAdjust r).
Proof.
  assert (Hshrink : ∀ fuel, steps R (shrink_loop fuel k r count)).
  { induction fuel as [|fuel IH]; simpl;
      (apply steps_bind; [apply _ | apply steps_deref_node, _ | intros n]);
      (destruct (_ >? _); [|apply steps_ret, _]).
    - apply steps_crash, _.
    - apply steps_bind; [apply _ | apply ports_drop_last_iolet | intros _].
      exact IH. }
  assert (Hgrow : ∀ fuel, steps R (grow_loop fuel k r count)).
  { induction fuel as [|fuel IH]; simpl;
      (apply steps_bind; [apply _ | apply steps_deref_node, _ | intros n]);
      (destruct (_ <? _); [|apply steps_ret, _]).
    - apply steps_crash, _.
    - apply steps_bind; [apply _ | apply ports_new_QDataflowIOlet | intros p].
      apply steps_bind; [apply _ | | intros _; exact IH].
      apply (ports_upd_node_ports r k (fun n => iolets k n ++ [p])). }
  unfold setIOletCount.
  apply steps_bind; [apply _ | apply steps_deref_node, _ | intros n].
  apply steps_bind; [apply _ | apply Hshrink | intros _].
  apply steps_bind; [apply _ | apply steps_deref_node, _ | intros n'].
  apply steps_bind; [apply _ | apply Hgrow | intros _].
  destruct skipAdjust; [apply steps_ret, _ | apply steps_node_adjust, _].
Qed.

Lemma ports_new_QDataflowNode modelNode : steps R (new_QDataflowNode modelNode).
Proof.
  unfold new_QDataflowNode.
  apply steps_bind; [apply _ | apply ports_alloc | intros r].
  apply steps_bind; [apply _ | apply steps_gets, _ | intros hover].
  apply steps_bind; [apply _ | | intros _].
  { apply steps_modify. intros c. apply pf_nodeNew. simpl.
    change (new_QDataflowNodeTextLabel (mn_text modelNode))
      with (clearCompletion (new_QDataflowNodeTextLabel (mn_text modelNode))).
    apply lf_fine_clear. }
  apply steps_bind; [apply _ | apply ports_setIOletCount | intros _].
  apply steps_bind; [apply _ | apply ports_setIOletCount | intros _].
  apply steps_bind; [apply _ | apply steps_node_adjust, _ | intros _].
  apply steps_ret, _.
Qed.

(** Leaving edit mode with the text put back issues nothing, so the relation
    need not allow for a command. *)
Lemma ports_exitEditMode_revert r : steps R (exitEditMode true r).
Proof.
  unfold exitEditMode.
  apply steps_bind; [apply _ | | intros _].
  { apply (steps_upd_label R). intros l _. apply lf_fine_clear. }
  apply steps_bind; [apply _ | apply steps_deref_node, _ | intros n].
  apply steps_bind; [apply _ | apply steps_setPlainText, _ | intros _].
  apply steps_bind; [apply _ | apply steps_clearFocus, _ | intros _].
  apply (steps_upd_label R). apply lf_fine_editable.
Qed.

(** The handlers of the notifications, when the relation moreover does not
    see what the canvas itself does in them: register and show a visual,
    store a connection visual, take a node out of the scene. *)
Lemma ports_notify e :
  (∀ f c, R c (upd_nodes_ f c)) → (∀ f c, R c (upd_connections_ f c)) →
  (∀ f c, R c (upd_sceneNodes f c)) → (∀ f c, R c (upd_sceneConns f c)) →
  (∀ x cn c, R c (upd_connStore <[x := cn]> c)) →
  steps R (notify e).
Proof.
  intros Hnodes Hconns HsceneN HsceneC Hstore.
  destruct e as [n|n|n v|n pos|n t|n count|n count|k|k]; simpl.
  - unfold onNodeAdded.
    apply steps_bind; [apply _ | apply ports_new_QDataflowNode | intros r].
    apply steps_bind; [apply _ | apply steps_modify, Hnodes | intros _].
    apply steps_bind; [apply _ | apply steps_modify, HsceneN | intros _].
    destruct (String.eqb _ _); [apply steps_enterEditMode, _ | apply steps_ret, _].
  - unfold onNodeRemoved.
    apply steps_bind; [apply _ | apply steps_node, _ | intros uinode].
    apply steps_bind; [apply _ | | intros e].
    { apply steps_through; [apply _|]. intros r. apply steps_isInEditMode, _. }
    apply steps_bind; [apply _ | | intros _].
    { destruct e; [|apply steps_ret, _].
      apply steps_through; [apply _|]. intros r. apply ports_exitEditMode_revert. }
    destruct uinode as [r|]; simpl.
    + intros c. unfold scene_removeNode. case_decide; simpl; [|apply lf_warn].
      etransitivity; [apply (HsceneN (fun s => s ∖ {[r]}))|].
      case_decide; (etransitivity; [|apply pf_record_op]);
        [apply lf_focus | reflexivity].
    + apply steps_modify. intros c. apply lf_warn.
  - apply steps_onNodeValidChanged, _.
  - apply steps_onNodePosChanged, _.
  - apply steps_onNodeTextChanged, _.
  - unfold onNodeInletCountChanged.
    apply steps_bind; [apply _ | apply steps_node, _ | intros uinode].
    apply steps_through; [apply _|]. intros r. apply ports_setIOletCount.
  - unfold onNodeOutletCountChanged.
    apply steps_bind; [apply _ | apply steps_node, _ | intros uinode].
    apply steps_through; [apply _|]. intros r. apply ports_setIOletCount.
  - unfold onConnectionAdded.
    apply steps_bind; [apply _ | | intros x].
    { unfold new_QDataflowConnection.
      apply steps_bind; [apply _ | apply ports_alloc | intros x].
      apply steps_bind; [apply _ | apply steps_gets, _ | intros hover].
      apply steps_bind; [apply _ | apply steps_node, _ | intros srcNode].
      apply steps_bind; [apply _ | | intros source].
      { apply steps_through; [apply _|]. intros r. apply steps_iolet, _. }
      apply steps_bind; [apply _ | apply steps_node, _ | intros dstNode].
      apply steps_bind; [apply _ | | intros dest].
      { apply steps_through; [apply _|]. intros r. apply steps_iolet, _. }
      apply steps_bind; [apply _ | apply steps_modify, Hstore | intros _].
      apply steps_bind; [apply _ | apply ports_addConnection | intros _].
      apply steps_bind; [apply _ | apply ports_addConnection | intros _].
      apply steps_bind; [apply _ | apply steps_connection_adjust, _ | intros _].
      apply steps_ret, _. }
    apply steps_bind; [apply _ | apply steps_modify, Hconns | intros _].
    apply steps_modify, HsceneC.
  - unfold onConnectionRemoved.
    apply steps_bind; [apply _ | apply steps_connection, _ | intros uiconn].
    destruct uiconn as [r|]; simpl.
    + apply ports_scene_removeConnection.
    + apply steps_modify. intros c. apply lf_warn.
Qed.

End PortEffects.

#[local] Instance same_issued_ports : PortFrame same_issued.
Proof. refine {| pf_local := same_issued_local |}; intros; reflexivity. Qed.

(** X16.  Handling notifications never issues a command of the model
    ([create], [remove], [setText], [connect], [disconnect]): whatever the
    notifications and whatever the canvas, and whether the handlers return or
    fault, the commands issued afterwards are those issued before. *)
Theorem notifications_issue_no_command es c :
  issued (final (notify_all es c)) = issued c ∧
  ∀ e, issued (final (notify e c)) = issued c.
Proof.
  assert (Hnotify : ∀ e, steps same_issued (notify e)).
  { intros e. apply (ports_notify same_issued); intros; reflexivity. }
  split; [|intros e; apply Hnotify].
  apply (steps_for_each same_issued). exact Hnotify.
Qed.

(** ** Visuals are never freed *)

#[local] Instance nodes_stay_preorder : PreOrder nodes_stay.
Proof. split; [intros c r Hr; exact Hr | intros a b c Hab Hbc r Hr; auto]. Qed.

#[local] Instance connections_stay_preorder : PreOrder connections_stay.
Proof. split; [intros c x Hx; exact Hx | intros a b c Hab Hbc x Hx; auto]. Qed.

Lemma is_Some_insert {A} (st : gmap addr A) r a r' :
  is_Some (st !! r') → is_Some (<[r := a]> st !! r').
Proof.
  intros H. destruct (decide (r = r')) as [->|Hne].
  - rewrite lookup_insert_eq. now eexists.
  - now rewrite lookup_insert_ne.
Qed.

Lemma nodes_stay_insert r n c : nodes_stay c (upd_nodeStore <[r := n]> c).
Proof. intros r' Hr'. now apply is_Some_insert. Qed.

Lemma similar_stays c c' : similar c c' → nodes_stay c c' ∧ connections_stay c c'.
Proof.
  intros S. destruct (similar_lookups c c' S) as (Sn & _ & Sx).
  split.
  - intros r [n Hn]. destruct (Sn r n Hn) as (n' & Hn' & _). now exists n'.
  - intros x [cn Hcn]. destruct (Sx x cn Hcn) as (cn' & Hcn' & _). now exists cn'.
Qed.

#[local] Instance nodes_stay_local : LocalFrame nodes_stay.
Proof.
  refine {| lf_fine := fun _ => True |}; try (intros; exact I).
  - intros r n n' c _ _ _ _. apply nodes_stay_insert.
  - intros o c r Hr. exact Hr.
  - intros d c r Hr. exact Hr.
Qed.

#[local] Instance nodes_stay_commit : CommitFrame nodes_stay.
Proof. split; [exact _|]. intros cmd c r Hr. exact Hr. Qed.

#[local] Instance nodes_stay_handler : HandlerFrame nodes_stay.
Proof.
  refine {| hf_commit := nodes_stay_commit |};
    try (intros; apply nodes_stay_insert); intros; intros r' Hr'; exact Hr'.
Qed.

#[local] Instance nodes_stay_user : UserFrame nodes_stay.
Proof.
  refine {| uf_handler := nodes_stay_handler |}.
  - intros s c. exact (proj1 (similar_stays _ _ (similar_call_setter s c))).
  - intros completion c r Hr. exact Hr.
Qed.

#[local] Instance nodes_stay_event : EventFrame nodes_stay.
Proof. refine {| ef_user := nodes_stay_user |}; intros f c r Hr; exact Hr. Qed.

#[local] Instance connections_stay_local : LocalFrame connections_stay.
Proof.
  refine {| lf_fine := fun _ => True |}; try (intros; exact I);
    intros; intros x Hx; exact Hx.
Qed.

#[local] Instance connections_stay_ports : PortFrame connections_stay.
Proof.
  refine {| pf_local := connections_stay_local |}; intros; intros x Hx; exact Hx.
Qed.

Lemma similar_handle_user u : steps similar (handle_user u).
Proof.
  destruct u; simpl.
  - apply steps_bind; [apply _ | apply steps_sceneEvent, _ | intros _].
    apply steps_ret, _.
  - apply steps_setPlainText, _.
  - apply steps_keyPressEvent, _.
  - apply steps_mouseDoubleClickEvent, _.
  - apply steps_node_setSelected, _.
  - apply similar_connection_setSelected.
  - apply similar_outlet_mousePressEvent.
  - apply similar_outlet_mouseMoveEvent.
  - apply similar_outlet_mouseReleaseEvent.
  - apply steps_modify. apply similar_call_setter.
  - apply steps_modify. intros c0. now apply similar_same_stores.
  - apply steps_modify. intros c0. now apply similar_same_stores.
Qed.

Lemma connections_stay_handle ev : steps connections_stay (handle ev).
Proof.
  destruct ev as [e|u]; simpl.
  - apply (ports_notify connections_stay); try (intros; intros x Hx; exact Hx).
    intros x cn c x' Hx'. now apply is_Some_insert.
  - intros c. exact (proj2 (similar_stays _ _ (similar_handle_user u c))).
Qed.

Lemma visuals_stay ev c :
  nodes_stay c (final (handle ev c)) ∧ connections_stay c (final (handle ev c)).
Proof.
  split; [exact (steps_handle nodes_stay ev c) | exact (connections_stay_handle ev c)].
Qed.

(** X17.  No handler frees a node visual or a connection visual: whatever the
    event and the canvas, and whether the handler returns or faults, every
    address that held a node visual before holds one after, and so for the
    connection visuals. *)
Theorem visuals_are_never_freed ev c :
  (∀ r, is_Some (nodeStore c !! r) → is_Some (nodeStore (final (handle ev c)) !! r)) ∧
  (∀ x, is_Some (connStore c !! x) → is_Some (connStore (final (handle ev c)) !! x)).
Proof.
  destruct (visuals_stay ev c) as [Sn Sk].
  split; [exact Sn | exact Sk].
Qed.

(** The visual a notification makes is in its store when the handler
    returns. *)
Lemma onNodeAdded_stores m c c' :
  onNodeAdded m c = Ok tt c' → is_Some (nodeStore c' !! nextAddr c).
Proof.
  intros H. unfold onNodeAdded in H.
  apply bind_Ok_inv in H as (r & c1 & Hnew & H).
  apply (steps_Ok nodes_stay) in H.
  2:{ apply steps_bind; [apply _ | apply steps_modify, ef_nodes_ | intros _].
      apply steps_bind; [apply _ | apply steps_modify, ef_sceneNodes | intros _].
      destruct (String.eqb _ _); [apply steps_enterEditMode, _ | apply steps_ret, _]. }
  apply H. clear H c'.
  unfold new_QDataflowNode in Hnew.
  apply bind_Ok_inv in Hnew as (r0 & c0 & Halloc & Hnew). injection Halloc as <- <-.
  apply bind_Ok_inv in Hnew as (hover & c0 & Hgets & Hnew). injection Hgets as <- <-.
  apply bind_Ok_inv in Hnew as ([] & c0 & Hstore & Hnew). injection Hstore as <-.
  apply (steps_Ok nodes_stay) in Hnew.
  2:{ apply steps_bind; [apply _ | apply steps_setIOletCount, _ | intros _].
      apply steps_bind; [apply _ | apply steps_setIOletCount, _ | intros _].
      apply steps_bind; [apply _ | apply steps_node_adjust, _ | intros _].
          apply steps_ret, _. }
  apply Hnew. simpl. rewrite lookup_insert_eq. now eexists.
Qed.

Lemma onConnectionAdded_stores k c c' :
  onConnectionAdded k c = Ok tt c' → is_Some (connStore c' !! nextAddr c).
Proof.
  intros H. unfold onConnectionAdded in H.
  apply bind_Ok_inv in H as (x & c1 & Hnew & H).
  unfold bind, modify, scene_addConnection in H. simpl in H. injection H as <-.
  simpl. unfold new_QDataflowConnection in Hnew.
  apply bind_Ok_inv in Hnew as (x0 & c0 & Halloc & Hnew). injection Halloc as <- <-.
  apply bind_Ok_inv in Hnew as (hover & c0 & Hgets & Hnew). injection Hgets as <- <-.
  cbv zeta in Hnew.
  apply bind_Ok_inv in Hnew as (srcNode & c2 & _ & Hnew).
  apply bind_Ok_inv in Hnew as (source & c3 & _ & Hnew).
  apply bind_Ok_inv in Hnew as (dstNode & c4 & _ & Hnew).
  apply bind_Ok_inv in Hnew as (dest & c5 & _ & Hnew).
  apply bind_Ok_inv in Hnew as ([] & c6 & Hstore & Hnew). injection Hstore as <-.
  apply (steps_Ok connections_stay) in Hnew.
  2:{ apply steps_bind; [apply _ | apply ports_addConnection, _ | intros _].
      apply steps_bind; [apply _ | apply ports_addConnection, _ | intros _].
      apply steps_bind; [apply _ | apply steps_connection_adjust, _ | intros _].
      apply steps_ret, _. }
  apply Hnew. simpl. rewrite lookup_insert_eq. now eexists.
Qed.

(** The entries of the two indexes after a handler that returned: each was
    there before, or names a visual the handler has made. *)
Lemma handle_index ev c c' :
  handle ev c = Ok tt c' →
  (∀ m r, nodes_ c' !! m = Some r →
          nodes_ c !! m = Some r ∨ is_Some (nodeStore c' !! r)) ∧
  (∀ k x, connections_ c' !! k = Some x →
          connections_ c !! k = Some x ∨ is_Some (connStore c' !! x)).
Proof.
  intros H.
  assert (Hframe : index_frame c c' →
                   (∀ m r, nodes_ c' !! m = Some r →
                           nodes_ c !! m = Some r ∨ is_Some (nodeStore c' !! r)) ∧
                   (∀ k x, connections_ c' !! k = Some x →
                           connections_ c !! k = Some x
                           ∨ is_Some (connStore c' !! x))).
  { intros (Hn & Hk & _). rewrite Hn, Hk. split; intros; now left. }
  destruct ev as [e|u]; simpl in H.
  - destruct e as [n|n|n v|n pos|n t|n count|n count|k|k]; simpl in H.
    + pose proof (onNodeAdded_stores n c c' H) as Hstored.
      apply onNodeAdded_effect in H as (Hn & Hk & _). rewrite Hn, Hk.
      split; [|intros; now left]. intros m r Hm.
      destruct (decide (mn_ptr n = m)) as [<-|Hne].
      * rewrite lookup_insert_eq in Hm. injection Hm as <-. now right.
      * rewrite lookup_insert_ne in Hm by exact Hne. now left.
    + apply onNodeRemoved_effect in H as (r & _ & Hn & Hk & _). rewrite Hn, Hk.
      split; intros; now left.
    + apply Hframe. exact (steps_Ok index_frame _ _ _ _
                             (steps_onNodeValidChanged index_frame n v) H).
    + apply Hframe. exact (steps_Ok index_frame _ _ _ _
                             (steps_onNodePosChanged index_frame n pos) H).
    + apply Hframe. exact (steps_Ok index_frame _ _ _ _
                             (steps_onNodeTextChanged index_frame n t) H).
    + apply Hframe. exact (steps_Ok index_frame _ _ _ _
                             (steps_onNodeInletCountChanged index_frame n count) H).
    + apply Hframe. exact (steps_Ok index_frame _ _ _ _
                             (steps_onNodeOutletCountChanged index_frame n count) H).
    + pose proof (onConnectionAdded_stores k c c' H) as Hstored.
      apply onConnectionAdded_effect in H as (Hn & Hk & _). rewrite Hn, Hk.
      split; [intros; now left|]. intros k' x Hk'.
      destruct (decide (mc_ptr k = k')) as [<-|Hne].
      * rewrite lookup_insert_eq in Hk'. injection Hk' as <-. now right.
      * rewrite lookup_insert_ne in Hk' by exact Hne. now left.
    + apply onConnectionRemoved_effect in H as (Hn & Hk & _). rewrite Hn, Hk.
      split; intros; now left.
  - apply Hframe. exact (steps_Ok index_frame _ _ _ _
                           (steps_handle_user index_frame u) H).
Qed.

(** X18.  In every canvas the program reaches, each entry of the index of
    nodes names an address that holds a node visual, and each entry of the
    index of connections an address that holds a connection visual: what
    [node] and [connection] return can be dereferenced, also for visuals that
    left the scene. *)
Theorem index_entries_hold_visuals c :
  reachable c →
  (∀ m r, nodes_ c !! m = Some r → is_Some (nodeStore c !! r)) ∧
  (∀ k x, connections_ c !! k = Some x → is_Some (connStore c !! x)).
Proof.
  induction 1 as [completion|ev c c' _ [IHn IHk] H].
  - split; intros ? ? Hin; simpl in Hin; now rewrite lookup_empty in Hin.
  - destruct (handle_index ev c c' H) as [Hn Hk].
    assert (Hrun : final (handle ev c) = c') by now rewrite H.
    destruct (visuals_stay ev c) as [Sn Sk]. rewrite Hrun in Sn, Sk.
    split.
    + intros m r Hm. destruct (Hn m r Hm) as [Hold|Hnew]; [|exact Hnew].
      apply Sn, (IHn m r Hold).
    + intros k x Hx. destruct (Hk k x Hx) as [Hold|Hnew]; [|exact Hnew].
      apply Sk, (IHk k x Hold).
Qed.

Lemma index_entries_hold_visuals_witness :
  is_Some (nodeStore sample_connected !! 3%positive) ∧
  is_Some (connStore sample_connected !! 8%positive).
Proof.
  destruct (index_entries_hold_visuals sample_connected reachable_sample_connected)
    as [Hn Hk].
  split.
  - apply (Hn 20%positive). vm_compute. reflexivity.
  - apply (Hk 31%positive). vm_compute. reflexivity.
Defined.

(** ** The stores and the labels of a reachable canvas *)

(** X19.  In every canvas the program reaches: each port a node lists is
    alive, belongs to that node and is of the kind of the list; no list names
    a port twice; each port alive has its node; each connection visual in the
    scene is in the store, has both its ports alive and is listed at both, and
    [adjust()] on it returns; ports and connection visuals sit below the next
    free address. *)
Theorem reachable_stores_hang_together c :
  reachable c →
  (∀ r n k p, nodeStore c !! r = Some n → p ∈ iolets k n →
     ∃ io, ioletStore c !! p = Some io ∧ node_ io = r ∧ kind io = k) ∧
  (∀ r n k, nodeStore c !! r = Some n → NoDup (iolets k n)) ∧
  (∀ p io, ioletStore c !! p = Some io → is_Some (nodeStore c !! node_ io)) ∧
  (∀ x, x ∈ sceneConns c →
     ∃ cn source dest,
       connStore c !! x = Some cn ∧
       ioletStore c !! source_ cn = Some source ∧ x ∈ io_connections_ source ∧
       ioletStore c !! dest_ cn = Some dest ∧ x ∈ io_connections_ dest ∧
       connection_adjust x c = Ok tt c) ∧
  (∀ p, is_Some (ioletStore c !! p) → (p < nextAddr c)%positive) ∧
  (∀ x, is_Some (connStore c !! x) → (x < nextAddr c)%positive).
Proof.
  intros Hreach.
  destruct (reachable_heap_ok c Hreach) as (H1 & H2 & H3 & H4 & H5 & H6 & H7).
  split; [exact H1|]. split; [exact H2|]. split; [exact H3|].
  split; [|split; [exact H4 | exact H5]].
  intros x Hx. destruct (H6 x Hx) as [cn Hcn].
  destruct (H7 x cn Hx Hcn) as ((source & Hs & Hxs) & (dest & Hd & Hxd)).
  exists cn, source, dest.
  split; [exact Hcn|]. split; [exact Hs|]. split; [exact Hxs|].
  split; [exact Hd|]. split; [exact Hxd|].
  apply connection_adjust_Ok. exists cn, source, dest.
  split; [exact Hcn|]. split; [exact Hs|]. split; [exact (H3 _ _ Hs)|].
  split; [exact Hd | exact (H3 _ _ Hd)].
Qed.

Lemma reachable_stores_hang_together_witness :
  connection_adjust 8 sample_connected = Ok tt sample_connected ∧
  NoDup [4; 5; 6]%positive.
Proof.
  destruct (reachable_stores_hang_together sample_connected reachable_sample_connected)
    as (_ & H2 & _ & H7 & _).
  split.
  - destruct (H7 8%positive) as (cn & source & dest & _ & _ & _ & _ & _ & Hadj);
      [|exact Hadj].
    apply (bool_decide_unpack (8%positive ∈ sceneConns sample_connected)).
    vm_compute. exact I.
  - apply (H2 3%positive
             (mkNode 20 [4; 5; 6]%positive [] (new_QDataflowNodeTextLabel "mix")
                true EmptyString false false) Inlet).
    vm_compute. reflexivity.
Defined.

(** X20.  [adjust()] on a node of a reachable canvas returns whenever every
    connection visual listed at a port of the node is in the scene. *)
Theorem adjust_returns_with_connections_in_the_scene r n c :
  reachable c → nodeStore c !! r = Some n →
  (∀ p io x, p ∈ inlets_ n ∨ p ∈ outlets_ n → ioletStore c !! p = Some io →
             x ∈ io_connections_ io → x ∈ sceneConns c) →
  node_adjust r c = Ok tt c.
Proof.
  intros Hreach Hn Hscene.
  destruct (reachable_heap_ok c Hreach) as (H1 & _ & H3 & _ & _ & H6 & H7).
  assert (Hport : ∀ p, p ∈ inlets_ n ∨ p ∈ outlets_ n →
                       iolet_adjustConnections p c = Ok tt c).
  { intros p Hp.
    assert (∃ io, ioletStore c !! p = Some io) as [io Hio].
    { destruct Hp as [Hp|Hp].
      - destruct (H1 r n Inlet p Hn Hp) as (io & Hio & _). now exists io.
      - destruct (H1 r n Outlet p Hn Hp) as (io & Hio & _). now exists io. }
    unfold iolet_adjustConnections.
    rewrite (bind_Ok _ _ _ _ _ (deref_iolet_Some _ _ _ Hio)).
    apply for_each_reads. intros x Hx.
    pose proof (Hscene p io x Hp Hio Hx) as Hin.
    destruct (H6 x Hin) as [cn Hcn].
    destruct (H7 x cn Hin Hcn) as ((source & Hs & _) & (dest & Hd & _)).
    apply connection_adjust_Ok. exists cn, source, dest.
    split; [exact Hcn|]. split; [exact Hs|]. split; [exact (H3 _ _ Hs)|].
    split; [exact Hd | exact (H3 _ _ Hd)]. }
  unfold node_adjust, node_adjustConnections.
  rewrite (bind_Ok _ _ _ _ _ (deref_node_Some _ _ _ Hn)).
  erewrite bind_Ok.
  - apply for_each_reads. intros p Hp. apply Hport. now right.
  - apply for_each_reads. intros p Hp. apply Hport. now left.
Qed.

Lemma adjust_returns_with_connections_in_the_scene_witness :
  node_adjust 3 sample_connected = Ok tt sample_connected.
Proof.
  apply (adjust_returns_with_connections_in_the_scene 3%positive
           (mkNode 20 [4; 5; 6]%positive [] (new_QDataflowNodeTextLabel "mix")
              true EmptyString false false) sample_connected
           reachable_sample_connected).
  - vm_compute. reflexivity.
  - intros p io x Hp Hio Hx.
    assert (Hxs : x = 7%positive ∨ x = 8%positive).
    { destruct Hp as [Hp|Hp]; [|now apply not_elem_of_nil in Hp].
      repeat (apply elem_of_cons in Hp as [->|Hp]);
        [| | |now apply not_elem_of_nil in Hp];
        vm_compute in Hio; injection Hio as <-; simpl in Hx.
      - now apply not_elem_of_nil in Hx.
      - apply list_elem_of_singleton in Hx. now left.
      - apply list_elem_of_singleton in Hx. now right. }
    destruct Hxs as [-> | ->].
    + apply (bool_decide_unpack (7%positive ∈ sceneConns sample_connected)).
      vm_compute. exact I.
    + apply (bool_decide_unpack (8%positive ∈ sceneConns sample_connected)).
      vm_compute. exact I.
Defined.

(** X21.  In every canvas the program reaches, the overlay of each label is
    consistent: an overlay that is open has candidates, and the highlight is
    [-1] or the index of a candidate. *)
Theorem reachable_overlays_are_consistent r n c :
  reachable c → nodeStore c !! r = Some n →
  let l := textItem_ n in
  (completionActive_ l = true → completionItems_ l ≠ []) ∧
  (completionIndex_ l = -1 ∨
   0 <= completionIndex_ l
   ∧ is_Some (completionItems_ l !! Z.to_nat (completionIndex_ l))).
Proof.
  intros Hreach Hn l.
  destruct (reachable_labels_ok c Hreach r n Hn) as [Hactive Hrange].
  split; [exact Hactive|]. fold l in Hrange.
  destruct (Z.eq_dec (completionIndex_ l) (-1)) as [E|E]; [now left | right].
  split; [lia|]. apply lookup_lt_is_Some. lia.
Qed.

Lemma reachable_overlays_are_consistent_witness :
  is_Some (["add"; "mul"; "sub"]%string !! 0%nat).
Proof.
  destruct (reachable_overlays_are_consistent 1%positive
              (mkNode 10 [] []
                 (mkLabel EmptyString true ["add"; "mul"; "sub"]%string 0 true)
                 true EmptyString true false)
              sample_highlighted reachable_sample_highlighted)
    as [_ [Hnone | [_ Hsome]]].
  - vm_compute. reflexivity.
  - discriminate Hnone.
  - exact Hsome.
Defined.

(** ** Dragging a connection out of an outlet *)

(** X22.  A pointer move over the scene, delivered to an outlet of a reachable
    canvas: without a drag under way nothing happens; during a drag the line
    takes the pen for a connection that can be made when the hit test finds
    an inlet and both predicates of the model accept the pair, the pen for an
    invalid connection when it finds an inlet and one of them refuses, and
    the pen of a pending connection when it finds no inlet.  The predicates
    are asked about the model node and the index of the outlet and of the
    inlet found. *)
Theorem drag_feedback_follows_the_model canMake canAccept p io event c :
  reachable c → ioletStore c !! p = Some io →
  let move := outlet_mouseMoveEvent canMake canAccept p event c in
  let with_pen pen := upd_ioletStore <[p := set_tmpConn_ (Some pen) io]> c in
  (tmpConn_ io = None → move = Ok tt c) ∧
  (is_Some (tmpConn_ io) →
   ∃ n, nodeStore c !! node_ io = Some n ∧
     (itemAtT_QDataflowInlet (itemsAtScenePos event) = None →
        move = Ok tt (with_pen tempConnectionPen)) ∧
     (∀ q inlet,
        itemAtT_QDataflowInlet (itemsAtScenePos event) = Some q →
        ioletStore c !! q = Some inlet →
        ∃ inletNode,
          nodeStore c !! node_ inlet = Some inletNode ∧
          let mdloutlet := (modelNode_ n, index_ io) in
          let mdlinlet := (modelNode_ inletNode, index_ inlet) in
          move = Ok tt (with_pen (if canMake mdloutlet mdlinlet
                                     && canAccept mdlinlet mdloutlet
                                  then connectionPen else invalidConnectionPen)))).
Proof.
  intros Hreach Hp move with_pen.
  destruct (reachable_heap_ok c Hreach) as (_ & _ & H3 & _).
  subst move. unfold outlet_mouseMoveEvent.
  rewrite (bind_Ok _ _ _ _ _ (deref_iolet_Some _ _ _ Hp)).
  split; [intros ->; reflexivity|].
  intros [pen Hpen]. rewrite Hpen.
  destruct (H3 p io Hp) as [n Hn]. exists n. split; [exact Hn|].
  rewrite (bind_Ok _ _ _ _ _ (deref_node_Some _ _ _ Hn)).
  split.
  - intros ->. reflexivity.
  - intros q inlet -> Hq.
    destruct (H3 q inlet Hq) as [inletNode Hqn]. exists inletNode.
    split; [exact Hqn|].
    rewrite (bind_Ok _ _ _ _ _ (deref_iolet_Some _ _ _ Hq)).
    rewrite (bind_Ok _ _ _ _ _ (deref_node_Some _ _ _ Hqn)).
    cbv zeta.
    now destruct (canMake _ _ && canAccept _ _).
Qed.

Lemma drag_feedback_follows_the_model_witness :
  tmpConn_ <$> ioletStore
                 (final (outlet_mouseMoveEvent (fun _ _ => true) (fun _ _ => false)
                           2%positive (mkSceneMouseEvent [ItemOther; ItemInlet 4])
                           sample_dragging)) !! 2%positive
  = Some (Some invalidConnectionPen).
Proof.
  pose (io := mkIOlet Outlet 1 0 [] (Some tempConnectionPen)).
  assert (Hp : ioletStore sample_dragging !! 2%positive = Some io)
    by (vm_compute; reflexivity).
  assert (Hq : ioletStore sample_dragging !! 4%positive = Some (mkIOlet Inlet 3 0 [] None))
    by (vm_compute; reflexivity).
  destruct (drag_feedback_follows_the_model (fun _ _ => true) (fun _ _ => false)
              2%positive io (mkSceneMouseEvent [ItemOther; ItemInlet 4])
              sample_dragging reachable_sample_dragging Hp)
    as [_ Hdrag].
  destruct (Hdrag ltac:(now eexists)) as (n & _ & _ & Hinlet).
  destruct (Hinlet 4%positive _ eq_refl Hq) as (inletNode & _ & Hmove).
  cbv zeta in Hmove. rewrite Hmove. simpl. now rewrite lookup_insert_eq.
Defined.

Lemma itemAtT_app above rest :
  (∀ q, ItemInlet q ∉ above) →
  itemAtT_QDataflowInlet (above ++ rest) = itemAtT_QDataflowInlet rest.
Proof.
  induction above as [|item above IH]; intros Hnone; [reflexivity|].
  assert (Hrest : ∀ q, ItemInlet q ∉ above).
  { intros q Hq. apply (Hnone q). now right. }
  destruct item; simpl; try exact (IH Hrest).
  exfalso. apply (Hnone p). now left.
Qed.

(** X23.  The hit test for an inlet returns the first inlet among the items
    under the pointer, whatever lies above it, and nothing exactly when no
    inlet is among them. *)
Theorem hit_test_finds_the_first_inlet items :
  (∀ q, itemAtT_QDataflowInlet items = Some q ↔
        ∃ above below, items = above ++ ItemInlet q :: below
                       ∧ ∀ q', ItemInlet q' ∉ above) ∧
  (itemAtT_QDataflowInlet items = None ↔ ∀ q, ItemInlet q ∉ items).
Proof.
  split.
  - intros q. split.
    + induction items as [|item items IH]; [discriminate|].
      intros Hfound.
      assert (Hbelow : itemAtT_QDataflowInlet items = Some q →
                       (∀ q', item ≠ ItemInlet q') →
                       ∃ above below, item :: items = above ++ ItemInlet q :: below
                                      ∧ ∀ q', ItemInlet q' ∉ above).
      { intros Hq Hitem. destruct (IH Hq) as (above & below & -> & Hnone).
        exists (item :: above), below. split; [reflexivity|].
        intros q' [E|Hin]%elem_of_cons; [exact (Hitem q' (eq_sym E))|].
        exact (Hnone q' Hin). }
      destruct item; simpl in Hfound; try (apply Hbelow; [exact Hfound|discriminate]).
      injection Hfound as ->. exists [], items. split; [reflexivity|].
      intros q' Hin. now apply not_elem_of_nil in Hin.
    + intros (above & below & -> & Hnone). now rewrite (itemAtT_app above _ Hnone).
  - split.
    + induction items as [|item items IH]; intros Hnone q Hin;
        [now apply not_elem_of_nil in Hin|].
      apply elem_of_cons in Hin as [<-|Hin]; [discriminate Hnone|].
      destruct item; simpl in Hnone; try exact (IH Hnone q Hin).
      discriminate Hnone.
    + intros Hnone. rewrite <- (app_nil_r items). now rewrite (itemAtT_app items [] Hnone).
Qed.

(** X27.  In every canvas the program reaches, for a release on an outlet [p]
    whose node is in the scene, while its drag is active (the transient line
    exists, with whatever pen the last move gave it): the line is destroyed;
    when an inlet is the topmost item under the pointer, the handler returns
    and one [connect] command with the outlet's node and index and the
    inlet's node and index is issued, also right after a move that evaluated
    the two compatibility predicates, whatever they answered; when no inlet
    is under the pointer, the handler returns and no command is issued. *)
Theorem release_ends_the_drag p io pen event c :
  reachable c →
  ioletStore c !! p = Some io → tmpConn_ io = Some pen →
  node_ io ∈ sceneNodes c →
  let destroyed := upd_ioletStore <[p := set_tmpConn_ None io]> c in
  ∃ n, nodeStore c !! node_ io = Some n ∧
  tmpConn_ <$> ioletStore destroyed !! p = Some None ∧
  (∀ q rest inlet,
     itemsAtScenePos event = ItemInlet q :: rest →
     ioletStore c !! q = Some inlet →
     ∃ inletNode, nodeStore c !! node_ inlet = Some inletNode ∧
     let command := connect (modelNode_ n) (index_ io)
                            (modelNode_ inletNode) (index_ inlet) in
     outlet_mouseReleaseEvent p event c = Ok tt (issue command destroyed) ∧
     issued (issue command destroyed) = issued c ++ [command] ∧
     ∀ canMakeConnectionTo canAcceptConnectionFrom,
       (outlet_mouseMoveEvent canMakeConnectionTo canAcceptConnectionFrom p event ;;
        outlet_mouseReleaseEvent p event) c
       = Ok tt (issue command destroyed)) ∧
  (itemAtT_QDataflowInlet (itemsAtScenePos event) = None →
     outlet_mouseReleaseEvent p event c = Ok tt destroyed ∧
     issued destroyed = issued c).
Proof.
  intros Hreach Hp Hpen Hs destroyed.
  destruct (reachable_heap_ok c Hreach) as (_ & _ & H3 & _).
  destruct (H3 p io Hp) as [n Hn]. exists n. split; [exact Hn|].
  destruct (outlet_mouseReleaseEvent_run p io pen n event c Hp Hpen Hn Hs)
    as (Hgone & Hinlet & Hnone).
  split; [exact Hgone|]. split; [|exact Hnone].
  intros q rest inlet Hhit Hq.
  destruct (H3 q inlet Hq) as [inletNode Hqn]. exists inletNode.
  split; [exact Hqn|]. exact (Hinlet q rest inlet inletNode Hhit Hq Hqn).
Qed.

Lemma release_ends_the_drag_witness :
  issued (final (outlet_mouseReleaseEvent 2%positive
                   (mkSceneMouseEvent [ItemInlet 4; ItemOther]) sample_dragging))
  = [connect 10 0 20 0] ∧
  issued (final (outlet_mouseReleaseEvent 2%positive
                   (mkSceneMouseEvent [ItemNode 3; ItemOther]) sample_dragging))
  = [].
Proof.
  pose (io := mkIOlet Outlet 1 0 [] (Some tempConnectionPen)).
  pose (n := mkNode 10 [] [2%positive] (new_QDataflowNodeTextLabel "osc")
               true EmptyString false false).
  pose (inlet := mkIOlet Inlet 3 0 [] None).
  pose (inletNode := mkNode 20 [4%positive] [] (new_QDataflowNodeTextLabel "dac")
                       true EmptyString false false).
  assert (Hp : ioletStore sample_dragging !! 2%positive = Some io)
    by (vm_compute; reflexivity).
  assert (Hn : nodeStore sample_dragging !! node_ io = Some n)
    by (vm_compute; reflexivity).
  assert (Hq : ioletStore sample_dragging !! 4%positive = Some inlet)
    by (vm_compute; reflexivity).
  assert (Hqn : nodeStore sample_dragging !! node_ inlet = Some inletNode)
    by (vm_compute; reflexivity).
  assert (Hs : node_ io ∈ sceneNodes sample_dragging).
  { apply (bool_decide_unpack (node_ io ∈ sceneNodes sample_dragging)).
    vm_compute. exact I. }
  split.
  - destruct (release_ends_the_drag 2%positive io tempConnectionPen
                (mkSceneMouseEvent [ItemInlet 4; ItemOther]) sample_dragging
                reachable_sample_dragging Hp eq_refl Hs)
      as (n0 & Hn0 & _ & Hinlet & _).
    rewrite Hn in Hn0. injection Hn0 as <-.
    destruct (Hinlet 4%positive [ItemOther] inlet eq_refl Hq)
      as (inletNode0 & Hqn0 & Hrelease & _).
    rewrite Hqn in Hqn0. injection Hqn0 as <-.
    rewrite Hrelease. reflexivity.
  - destruct (release_ends_the_drag 2%positive io tempConnectionPen
                (mkSceneMouseEvent [ItemNode 3; ItemOther]) sample_dragging
                reachable_sample_dragging Hp eq_refl Hs)
      as (_ & _ & _ & _ & Hnone).
    destruct (Hnone eq_refl) as (Hrelease & _).
    rewrite Hrelease. reflexivity.
Defined.

(** X24.  Releasing a drag where an inlet lies beneath other items connects
    to that inlet all the same: in a reachable canvas, on an outlet whose
    node is in the scene, the handler returns, the line of the drag is gone,
    and one [connect] command is issued with the model nodes and indices of
    the outlet and of the first inlet under the pointer. *)
Theorem release_connects_beneath_other_items p io pen above q below inlet event c :
  reachable c →
  ioletStore c !! p = Some io → tmpConn_ io = Some pen →
  node_ io ∈ sceneNodes c →
  itemsAtScenePos event = above ++ ItemInlet q :: below →
  (∀ q', ItemInlet q' ∉ above) →
  ioletStore c !! q = Some inlet →
  ∃ n inletNode,
    nodeStore c !! node_ io = Some n ∧ nodeStore c !! node_ inlet = Some inletNode ∧
    outlet_mouseReleaseEvent p event c
    = Ok tt (issue (connect (modelNode_ n) (index_ io)
                            (modelNode_ inletNode) (index_ inlet))
               (upd_ioletStore <[p := set_tmpConn_ None io]> c)).
Proof.
  intros Hreach Hp Hpen Hs Hitems Hnone Hq.
  destruct (reachable_heap_ok c Hreach) as (_ & _ & H3 & _).
  destruct (H3 p io Hp) as [n Hn]. destruct (H3 q inlet Hq) as [inletNode Hqn].
  exists n, inletNode. split; [exact Hn|]. split; [exact Hqn|].
  apply (release_over_inlet p io pen n q inlet inletNode event c Hp Hpen Hn Hs);
    [|exact Hq | exact Hqn].
  rewrite Hitems. now rewrite (itemAtT_app above _ Hnone).
Qed.

Lemma release_connects_beneath_other_items_witness :
  issued (final (outlet_mouseReleaseEvent 2%positive
                   (mkSceneMouseEvent [ItemOther; ItemNode 3; ItemInlet 4; ItemOther])
                   sample_dragging))
  = [connect 10 0 20 0].
Proof.
  pose (io := mkIOlet Outlet 1 0 [] (Some tempConnectionPen)).
  pose (inlet := mkIOlet Inlet 3 0 [] None).
  assert (Hp : ioletStore sample_dragging !! 2%positive = Some io)
    by (vm_compute; reflexivity).
  assert (Hq : ioletStore sample_dragging !! 4%positive = Some inlet)
    by (vm_compute; reflexivity).
  assert (Hs : node_ io ∈ sceneNodes sample_dragging).
  { apply (bool_decide_unpack (node_ io ∈ sceneNodes sample_dragging)).
    vm_compute. exact I. }
  destruct (release_connects_beneath_other_items 2%positive io tempConnectionPen
              [ItemOther; ItemNode 3] 4%positive [ItemOther] inlet
              (mkSceneMouseEvent [ItemOther; ItemNode 3; ItemInlet 4; ItemOther])
              sample_dragging reachable_sample_dragging Hp eq_refl Hs eq_refl)
    as (n & inletNode & Hn & Hqn & Hrun); [|exact Hq|].
  - intros q' Hin.
    repeat (apply elem_of_cons in Hin as [Hin|Hin]; [discriminate Hin|]).
    now apply not_elem_of_nil in Hin.
  - rewrite Hrun. vm_compute in Hn. injection Hn as <-.
    vm_compute in Hqn. injection Hqn as <-. reflexivity.
Defined.

(** ** Hover events on the visuals of the index *)

Lemma lookup_foldr_alter {A} (f : A → A) (rs : list addr) (st : gmap addr A) r :
  (∀ a, f (f a) = f a) →
  foldr (fun r st => alter f r st) st rs !! r
  = if decide (r ∈ rs) then f <$> st !! r else st !! r.
Proof.
  intros Hidem. induction rs as [|a rs IH]; cbn [foldr].
  - rewrite decide_False; [reflexivity|]. apply not_elem_of_nil.
  - destruct (decide (a = r)) as [->|Hne].
    + rewrite lookup_alter_eq, IH.
      rewrite (decide_True (P := r ∈ r :: rs)) by now left.
      case_decide; [|reflexivity].
      destruct (st !! r); simpl; [now rewrite Hidem | reflexivity].
    + rewrite lookup_alter_ne, IH by exact Hne.
      destruct (decide (r ∈ rs)) as [Hin|Hout].
      * rewrite decide_True; [reflexivity | now right].
      * rewrite decide_False; [reflexivity|].
        intros [E|Hin]%elem_of_cons; [congruence | contradiction].
Qed.

Lemma elem_of_index_values (index : gmap ptr addr) r :
  r ∈ map snd (map_to_list index) ↔ ∃ m, index !! m = Some r.
Proof.
  change (map snd (map_to_list index)) with (snd <$> map_to_list index).
  rewrite list_elem_of_fmap. split.
  - intros ([m r'] & -> & Hin). exists m. now apply elem_of_map_to_list.
  - intros [m Hm]. exists (m, r). split; [reflexivity|].
    now apply elem_of_map_to_list.
Qed.

Lemma nodes_setAcceptHoverEvents_lookup show c r :
  nodeStore (nodes_setAcceptHoverEvents show c) !! r
  = if decide (r ∈ map snd (map_to_list (nodes_ c)))
    then set_node_acceptHover show <$> nodeStore c !! r else nodeStore c !! r.
Proof. apply lookup_foldr_alter. reflexivity. Qed.

Lemma connections_setAcceptHoverEvents_lookup show c x :
  connStore (connections_setAcceptHoverEvents show c) !! x
  = if decide (x ∈ map snd (map_to_list (connections_ c)))
    then set_conn_acceptHover show <$> connStore c !! x else connStore c !! x.
Proof. apply lookup_foldr_alter. reflexivity. Qed.

(** X25.  [setShowObjectHoverFeedback] makes every node visual of the index
    accept hover events exactly when the feedback is shown, and leaves the
    other node visuals and all connection visuals as they are;
    [setShowConnectionHoverFeedback] does the same with the connection
    visuals of the index. *)
Theorem hover_feedback_reaches_the_indexed_visuals show c :
  let c1 := setShowObjectHoverFeedback show c in
  let c2 := setShowConnectionHoverFeedback show c in
  (∀ m r, nodes_ c !! m = Some r →
     nodeStore c1 !! r = set_node_acceptHover show <$> nodeStore c !! r) ∧
  (∀ r, (∀ m, nodes_ c !! m ≠ Some r) → nodeStore c1 !! r = nodeStore c !! r) ∧
  connStore c1 = connStore c ∧
  (∀ k x, connections_ c !! k = Some x →
     connStore c2 !! x = set_conn_acceptHover show <$> connStore c !! x) ∧
  (∀ x, (∀ k, connections_ c !! k ≠ Some x) → connStore c2 !! x = connStore c !! x) ∧
  nodeStore c2 = nodeStore c.
Proof.
  intros c1 c2.
  assert (Hn : ∀ r, nodeStore c1 !! r
                    = if decide (r ∈ map snd (map_to_list (nodes_ c)))
                      then set_node_acceptHover show <$> nodeStore c !! r
                      else nodeStore c !! r).
  { intros r. unfold c1, setShowObjectHoverFeedback.
    rewrite nodes_setAcceptHoverEvents_lookup.
    destruct show; [|reflexivity]. simpl.
    now destruct (showIOletsTooltips_ c). }
  assert (Hk : ∀ x, connStore c2 !! x
                    = if decide (x ∈ map snd (map_to_list (connections_ c)))
                      then set_conn_acceptHover show <$> connStore c !! x
                      else connStore c !! x).
  { intros x. unfold c2, setShowConnectionHoverFeedback.
    rewrite connections_setAcceptHoverEvents_lookup.
    destruct show; [|reflexivity]. simpl.
    now destruct (showIOletsTooltips_ c). }
  repeat apply conj.
  - intros m r Hm. rewrite Hn, decide_True; [reflexivity|].
    apply elem_of_index_values. now exists m.
  - intros r Hnone. rewrite Hn, decide_False; [reflexivity|].
    intros [m Hm]%elem_of_index_values. exact (Hnone m Hm).
  - unfold c1, setShowObjectHoverFeedback. destruct show; [|reflexivity]. simpl.
    now destruct (showIOletsTooltips_ c).
  - intros k x Hx. rewrite Hk, decide_True; [reflexivity|].
    apply elem_of_index_values. now exists k.
  - intros x Hnone. rewrite Hk, decide_False; [reflexivity|].
    intros [k Hx]%elem_of_index_values. exact (Hnone k Hx).
  - unfold c2, setShowConnectionHoverFeedback. destruct show; [|reflexivity]. simpl.
    now destruct (showIOletsTooltips_ c).
Qed.

Lemma hover_feedback_reaches_the_indexed_visuals_witness :
  node_acceptHover <$> nodeStore (setShowObjectHoverFeedback true sample_connected)
                         !! 3%positive
  = Some true.
Proof.
  destruct (hover_feedback_reaches_the_indexed_visuals true sample_connected)
    as (Hn & _).
  rewrite (Hn 20%positive 3%positive); vm_compute; reflexivity.
Defined.

(** ** Taking a connection off a port *)

Lemma filter_absent (x : addr) (l : list addr) :
  x ∉ l → filter (fun y => y ≠ x) l = l.
Proof.
  induction l as [|a l IH]; intros Hx; [reflexivity|].
  rewrite filter_cons, decide_True.
  - rewrite IH; [reflexivity|]. intros Hin. apply Hx. now right.
  - intros ->. apply Hx. now left.
Qed.

(** X26.  [removeConnection] takes every occurrence of the connection off the
    list of the port and keeps the others in their order; it undoes
    [addConnection] of a connection the port did not list: after the two
    calls the port is as it was. *)
Theorem removeConnection_undoes_addConnection p x io c :
  ioletStore c !! p = Some io →
  let removed := set_io_connections_
                   (filter (fun y => y ≠ x) (io_connections_ io)) io in
  removeConnection p x c = Ok tt (upd_ioletStore <[p := removed]> c) ∧
  (x ∉ io_connections_ removed) ∧
  (∀ y, y ≠ x → y ∈ io_connections_ removed ↔ y ∈ io_connections_ io) ∧
  (x ∉ io_connections_ io →
   ∀ c1, addConnection p x c = Ok tt c1 →
   ∃ c2, removeConnection p x c1 = Ok tt c2 ∧ ioletStore c2 = ioletStore c).
Proof.
  intros Hio removed. repeat apply conj.
  - unfold removeConnection.
    now rewrite (bind_Ok _ _ _ _ _ (deref_iolet_Some _ _ _ Hio)).
  - simpl. intros [Hne _]%list_elem_of_filter. now apply Hne.
  - intros y Hy. simpl. rewrite list_elem_of_filter. tauto.
  - intros Hx c1 Hadd.
    apply addConnection_Ok_inv in Hadd as (io0 & Hio0 & ->).
    rewrite Hio in Hio0. injection Hio0 as <-.
    eexists. split.
    + unfold removeConnection.
      erewrite bind_Ok; [reflexivity|].
      apply deref_iolet_Some. simpl. apply lookup_insert_eq.
    + simpl. rewrite insert_insert_eq, filter_app, filter_absent by exact Hx.
      rewrite filter_cons, decide_False, filter_nil, app_nil_r by (intros H; now apply H).
      destruct io. simpl. now apply insert_id.
Qed.

Lemma removeConnection_undoes_addConnection_witness :
  io_connections_
    <$> ioletStore (final ((addConnection 4 7 ;; removeConnection 4 7) sample_connected))
        !! 4%positive
  = Some [].
Proof.
  pose (io := mkIOlet Inlet 3 0 [] None).
  assert (Hio : ioletStore sample_connected !! 4%positive = Some io)
    by (vm_compute; reflexivity).
  destruct (removeConnection_undoes_addConnection 4%positive 7%positive io
              sample_connected Hio) as (_ & _ & _ & Hundo).
  assert (Hadd : ∃ c1, addConnection 4 7 sample_connected = Ok tt c1)
    by (eexists; vm_compute; reflexivity).
  destruct Hadd as [c1 Hadd].
  destruct (Hundo ltac:(apply not_elem_of_nil) c1 Hadd) as (c2 & Hrem & Hstore).
  rewrite (bind_Ok _ _ _ _ _ Hadd), Hrem. simpl. now rewrite Hstore, Hio.
Defined.
